(** * spaint / rafl: histograms, probability mass functions, image kernels

    A shallow embedding of

    - [rafl::ProbabilityMassFunction]
      (modules/rafl/include/rafl/base/ProbabilityMassFunction.h):
      the constructor that normalises a histogram, and
      [calculate_entropy];
    - the shared per-pixel helpers of [spaint::ImageProcessor]
      (ImageProcessor_Shared.h): [calculate_pixel_depth_difference],
      [copy_af_pixel_to_itm], [copy_itm_pixel_to_af] and
      [set_pixel_on_threshold];
    - the four-channel overloads of the two copies, and sweeps of the
      per-pixel helpers over whole images in any order;
    - [TouchTrainUtil] (apps/touchtrain/TouchTrainUtil.h):
      [load_instances] and [generate_examples];
    - the histogram and the example reservoir the specification
      describes, whose sources are not part of the tree at hand.

    Conventions.

    - A C++ [float] is an IEEE-754 binary32 number: [spec_float] with
      precision 24 and maximal exponent 128, computed with the operations
      of [SpecFloat] (round to nearest, ties to even); so are the
      conversions of integers to [float].
    - [size_t] is an unsigned 64-bit integer, [int] a signed 32-bit one;
      signed overflow, division by zero and out-of-bounds accesses are
      undefined behaviour and make a function return [None].
    - [std::map<Label,T>] is a [gmap Label T].  The loop of the
      constructor only inserts under distinct keys or fails as a whole,
      so its result does not depend on the iteration order; the loop of
      [calculate_entropy] adds up binary32 numbers and runs over the
      entries in the order of their keys.
    - A function of the C++ library that the tree does not hold ([log2])
      is a parameter, and each property states what it assumes of it.
    - Memory is a finite map from addresses to elements; a pointer is an
      address and [p[i]] is the cell at [p + i].
    - [std::string] is a [string], [std::vector] a list; a call that may
      throw or have undefined behaviour returns an [outcome]. *)

From Stdlib Require Import ZArith NArith Reals Lra Lia Psatz.
From Stdlib Require Import Floats.SpecFloat.
From stdpp Require Import gmap strings list fin_maps sorting.
From Stdlib Require Import Ascii.
From Bignums Require BigZ.BigZ.

(** ** IEEE-754 binary32 *)

Module F32.
Definition prec : Z := 24.
Definition emax : Z := 128.

(** Integer-to-float conversion ([static_cast<float>], and the implicit
    conversion of an integer operand). *)
Definition of_Z (n : Z) : spec_float := binary_normalize prec emax n 0 false.
Definition of_size_t (n : N) : spec_float := of_Z (Z.of_N n).

Definition add : spec_float -> spec_float -> spec_float := SFadd prec emax.
Definition sub : spec_float -> spec_float -> spec_float := SFsub prec emax.
Definition mul : spec_float -> spec_float -> spec_float := SFmul prec emax.
Definition div : spec_float -> spec_float -> spec_float := SFdiv prec emax.
Definition fabs : spec_float -> spec_float := SFabs.
Definition opp : spec_float -> spec_float := SFopp.

(** Comparisons; every comparison with a NaN is false. *)
Definition ltb (x y : spec_float) : bool := SFltb x y.
Definition leb (x y : spec_float) : bool := SFleb x y.
Definition gtb (x y : spec_float) : bool := SFltb y x.
Definition geb (x y : spec_float) : bool := SFleb y x.

Definition zero : spec_float := of_Z 0.
Definition one : spec_float := of_Z 1.
Definition minus_one : spec_float := opp one.

(** A number as it is held in memory: its significand is normalised.
    A finite number is a zero or such a number. *)
Definition valid (x : spec_float) : bool := valid_binary prec emax x.
Definition is_finite (x : spec_float) : bool :=
  match x with
  | S754_zero _ | S754_finite _ _ _ => true
  | _ => false
  end.

(** The real number a float denotes (0 for infinities and NaN). *)
Definition bpow (e : Z) : R := powerRZ 2 e.
Definition to_R (x : spec_float) : R :=
  match x with
  | S754_finite s m e =>
      ((if s then - IZR (Zpos m) else IZR (Zpos m)) * bpow e)%R
  | _ => 0%R
  end.
End F32.

(** Position of a real [v] relative to the grid point [m * 2^e], as
    tracked by the rounding functions of [SpecFloat]. *)
Definition located (v : R) (m e : Z) (l : location) : Prop :=
  match l with
  | loc_Exact => v = (IZR m * F32.bpow e)%R
  | loc_Inexact Lt => (IZR m * F32.bpow e < v < (IZR m + /2) * F32.bpow e)%R
  | loc_Inexact Eq => v = ((IZR m + /2) * F32.bpow e)%R
  | loc_Inexact Gt =>
      ((IZR m + /2) * F32.bpow e < v < (IZR m + 1) * F32.bpow e)%R
  end.

(** [x] is a normal positive binary32 number nearest to [v], whose
    binade has the unit in the last place [2^E]. *)
Definition nearest_at (E : Z) (v : R) (x : spec_float) : Prop :=
  exists (m : positive) (e m1 m' : Z),
    x = S754_finite false m e
    /\ (2 ^ 23 <= Zpos m < 2 ^ 24)%Z
    /\ (E <= e <= E + 1)%Z
    /\ (2 ^ 23 <= m1 < 2 ^ 24)%Z
    /\ (m' = m1 \/ m' = m1 + 1)%Z
    /\ (IZR (Zpos m) * F32.bpow e = IZR m' * F32.bpow E)%R
    /\ (IZR m1 * F32.bpow E <= v < (IZR m1 + 1) * F32.bpow E)%R
    /\ (Rabs (IZR m' * F32.bpow E - v) <= /2 * F32.bpow E)%R.

(** ** Machine integers *)

Definition size_t_modulus : N := 2 ^ 64.
Definition INT_MIN : Z := - 2 ^ 31.
Definition INT_MAX : Z := 2 ^ 31 - 1.

Definition in_int (z : Z) : option Z :=
  if (INT_MIN <=? z)%Z && (z <=? INT_MAX)%Z then Some z else None.

Definition int_add (a b : Z) : option Z := in_int (a + b).
Definition int_mul (a b : Z) : option Z := in_int (a * b).
(** [/] and [%] truncate towards zero. *)
Definition int_div (a b : Z) : option Z :=
  if (b =? 0)%Z then None else in_int (Z.quot a b).
Definition int_rem (a b : Z) : option Z :=
  if (b =? 0)%Z then None else
  if (a =? INT_MIN)%Z && (b =? -1)%Z then None else Some (Z.rem a b).

(** [assert(cond)] of <cassert>: a no-op when NDEBUG is defined, and
    otherwise aborts the program when [cond] is false. *)
Definition c_assert (ndebug cond : bool) : option unit :=
  if ndebug || cond then Some tt else None.

(** ** rafl: histograms and probability mass functions *)

Section Rafl.
Context {Label : Type} `{Countable Label}.

(** Modelled from the spec: rafl/base/Histogram.h is not part of the
    tree.  "Histogram: mapping Label -> non-negative integer count, plus
    total count"; the constructor of the PMF reads it through [get_bins]
    (a [std::map<Label,size_t>]) and [get_count] (a [size_t]). *)
Record Histogram := { get_bins : gmap Label N; get_count : N }.

Definition Histogram_empty : Histogram := {| get_bins := ∅; get_count := 0 |}.

(** Modelled from the spec: "add(label): increments count for label by 1;
    creates the label entry if unseen", on 64-bit counters. *)
Definition Histogram_add (label : Label) (h : Histogram) : Histogram :=
  {| get_bins :=
       <[label := ((default 0 (get_bins h !! label) + 1) mod size_t_modulus)%N]>
         (get_bins h);
     get_count := ((get_count h + 1) mod size_t_modulus)%N |}.

Definition Histogram_of_labels (labels : list Label) : Histogram :=
  foldl (fun h l => Histogram_add l h) Histogram_empty labels.

Definition sum_of_bins (bins : gmap Label N) : N :=
  map_fold (fun _ c acc => (c + acc)%N) 0%N bins.

(** The invariant of the class: "sum of per-label counts equals total
    count"; a bin exists only once its label has been added, so no bin is
    empty; the total is a [size_t]. *)
Definition histogram_ok (h : Histogram) : Prop :=
  map_Forall (fun _ c => (0 < c)%N) (get_bins h)
  /\ sum_of_bins (get_bins h) = get_count h
  /\ (get_count h < size_t_modulus)%N.

(** [m_masses] *)
Record ProbabilityMassFunction := { get_masses : gmap Label spec_float }.

(** [const float SMALL_EPSILON = 1e-9f]: the binary32 number nearest to
    10^-9, which is 9007199 * 2^-53. *)
Definition SMALL_EPSILON : spec_float := S754_finite false 9007199 (-53).

(** [std::map::insert]: inserts unless the key is already present. *)
Definition std_map_insert {V} (k : Label) (v : V) (m : gmap Label V)
  : gmap Label V :=
  match m !! k with
  | Some _ => m
  | None => <[k := v]> m
  end.

(** [static_cast<float>(it->second) / count] *)
Definition empirical_mass (bin count : N) : spec_float :=
  F32.div (F32.of_size_t bin) (F32.of_size_t count).

(** Every bin passes the test [mass >= SMALL_EPSILON] of the assertion. *)
Definition bins_pass (count : N) (bins : gmap Label N) : Prop :=
  map_Forall (fun _ bin =>
    F32.geb (empirical_mass bin count) SMALL_EPSILON = true) bins.

#[global] Instance bins_pass_dec count bins : Decision (bins_pass count bins).
Proof. unfold bins_pass. apply _. Defined.

(** The body of the constructor's loop, for the bin [(label, bin)]. *)
Definition constructor_step (ndebug : bool) (count : N) (label : Label)
  (bin : N) (acc : option (gmap Label spec_float))
  : option (gmap Label spec_float) :=
  m_masses ← acc;
  let mass := empirical_mass bin count in
  _ ← c_assert ndebug (F32.geb mass SMALL_EPSILON);
  Some (std_map_insert label mass m_masses).

(** [ProbabilityMassFunction(const Histogram<Label>& histogram)];
    [None] when an assertion fails. *)
Definition make_pmf (ndebug : bool) (histogram : Histogram)
  : option ProbabilityMassFunction :=
  let bins := get_bins histogram in
  let count := get_count histogram in
  Build_ProbabilityMassFunction
    <$> map_fold (constructor_step ndebug count) (Some ∅) bins.

(** The binary logarithm of the real numbers, in which the
    specification words the entropy. *)
Definition log2 (x : R) : R := (ln x / ln 2)%R.

(** A [std::map] keeps its entries in the order of their keys, and a
    loop from [begin()] to [end()] visits them in that order.
    [Label_le a b] is [!(b < a)] for the [operator<] of [Label], which
    [std::less<Label>] uses. *)
Variable Label_le : relation Label.
Context `{!RelDecision Label_le}.

Definition entry_le {V} : relation (Label * V) :=
  fun a b => Label_le a.1 b.1.

#[global] Instance entry_le_dec {V} : RelDecision (entry_le (V := V)).
Proof. intros a b. unfold entry_le. apply _. Defined.

Definition std_map_entries {V} (m : gmap Label V) : list (Label * V) :=
  merge_sort entry_le (map_to_list m).

(** [log2] of <cmath>, called on a [float].  The mathematical library is
    not part of the tree, so the function is a parameter.  It is taken
    at type [float], the overload [std::log2(float)] that C++11 gives
    for a [float] argument; the product and the sum of the loop are then
    binary32 operations.  (Where the call resolves to the C function on
    [double] instead, the sum is rounded to [float] once per iteration,
    from [double]; the properties below are those of the [float]
    overload.) *)
Variable log2f : spec_float -> spec_float.

(** What the properties of [calculate_entropy] assume of the library at
    an argument [x]: the result is a finite binary32 number within one
    unit in the last place (relative distance 2^-23) of the binary
    logarithm of [x], and it is the logarithm itself where that is an
    integer. *)
Definition log2f_accurate (x : spec_float) : Prop :=
  F32.is_finite (log2f x) = true
  /\ F32.valid (log2f x) = true
  /\ (Rabs (F32.to_R (log2f x) - log2 (F32.to_R x))
      <= F32.bpow (-23) * Rabs (log2 (F32.to_R x)))%R
  /\ (forall k : Z, F32.to_R x = F32.bpow k -> F32.to_R (log2f x) = IZR k).

(** The body of the loop of [calculate_entropy], for the entry [it];
    [mass > 0] compares with the [float] zero. *)
Definition entropy_step (entropy : spec_float) (it : Label * spec_float)
  : spec_float :=
  let mass := it.2 in
  if F32.gtb mass F32.zero
  then F32.add entropy (F32.mul mass (log2f mass))
  else entropy.

(** [ProbabilityMassFunction::calculate_entropy] *)
Definition calculate_entropy (pmf : ProbabilityMassFunction) : spec_float :=
  F32.opp (foldl entropy_step F32.zero (std_map_entries (get_masses pmf))).

(** The entropy as the specification words it: H = - sum p*log2(p), a
    zero-probability term contributing 0. *)
Definition plogp (p : R) : R :=
  if Req_dec_T p 0 then 0%R else (p * log2 p)%R.

Definition entropy_formula (pmf : ProbabilityMassFunction) : R :=
  (- map_fold (fun _ mass acc => plogp (F32.to_R mass) + acc) 0
       (get_masses pmf))%R.

Definition sum_of_masses (pmf : ProbabilityMassFunction) : R :=
  map_fold (fun _ mass acc => (F32.to_R mass + acc)%R) 0%R (get_masses pmf).

(** The invariant the specification gives a PMF: every mass is a
    probability in (0,1], and the masses sum to 1 within 10^-6. *)
Definition is_pmf (pmf : ProbabilityMassFunction) : Prop :=
  map_Forall (fun _ mass => (0 < F32.to_R mass <= 1)%R) (get_masses pmf)
  /\ (Rabs (sum_of_masses pmf - 1) <= / 1000000)%R.

End Rafl.

Arguments Histogram Label {_ _}.
Arguments ProbabilityMassFunction Label {_ _}.

(** The histogram with counts {A:3, B:1}, built by four calls of [add]. *)
Definition histogram_A3_B1 : Histogram string :=
  Histogram_of_labels ["A"; "A"; "A"; "B"].

(** 0.75f, 0.25f and 0.5f *)
Definition float_0_75 : spec_float := S754_finite false 12582912 (-24).
Definition float_0_25 : spec_float := S754_finite false 8388608 (-25).
Definition float_0_5 : spec_float := S754_finite false 8388608 (-24).

Definition pmf_A3_B1 : ProbabilityMassFunction string :=
  {| get_masses := {["A" := float_0_75; "B" := float_0_25]} |}.


(** Masses with a zero-probability label. *)
Definition pmf_with_zero : ProbabilityMassFunction string :=
  {| get_masses := {["A" := F32.one; "B" := F32.zero]} |}.

(** A histogram of 2^29 + 1 examples, one of them of label B, and the
    masses the constructor computes for it: the total rounds to 2^29, so
    A gets the mass 1.0f although B is present. *)
Definition histogram_rounding : Histogram string :=
  {| get_bins := {["A" := 536870912%N; "B" := 1%N]};
     get_count := 536870913 |}.
Definition pmf_rounding : ProbabilityMassFunction string :=
  {| get_masses := {["A" := F32.one; "B" := S754_finite false 8388608 (-52)]} |}.

(** A histogram of 2 * 10^9 + 1 examples, one of them of label A. *)
Definition histogram_skewed : Histogram string :=
  {| get_bins := {["A" := 1%N; "B" := 2000000000%N]};
     get_count := 2000000001 |}.

(** ** rafl: the accumulator of [calculate_entropy] *)

(** A negative normal binary32 number: what the accumulator of the loop
    holds once a term has been added. *)
Definition negative_normal (x : spec_float) : Prop :=
  exists (m : positive) (e : Z),
    x = S754_finite true m e /\ (2 ^ 23 <= Zpos m < 2 ^ 24)%Z /\ (-149 <= e)%Z.

(** Zero, a negative number or minus infinity. *)
Definition not_positive (x : spec_float) : Prop :=
  match x with
  | S754_zero _ | S754_finite true _ _ | S754_infinity true => True
  | _ => False
  end.

(** A mass for which the rounding of the loop is bounded: a zero, or a
    binary32 number in [2^-100, 1] at which the library's logarithm is
    accurate. *)
Definition regular_mass (log2f : spec_float -> spec_float) (mass : spec_float)
  : Prop :=
  (exists s, mass = S754_zero s)
  \/ (F32.valid mass = true
      /\ (F32.bpow (-100) <= F32.to_R mass <= 1)%R
      /\ log2f_accurate log2f mass).

(** A binary logarithm on the arguments of the examples: exact at the
    powers of two, the binary32 number nearest to log2(0.75) at 0.75f,
    and a NaN elsewhere. *)
Definition log2f_sample (x : spec_float) : spec_float :=
  match x with
  | S754_finite false m e =>
      if (m =? 12582912)%positive && (e =? -24)%Z
      then S754_finite true 13926348 (-25)
      else if (m =? 8388608)%positive then F32.of_Z (e + 23)
      else S754_nan
  | _ => S754_nan
  end.

(** 2^-25 and 2^-29 *)
Definition float_2_m25 : spec_float := S754_finite false 8388608 (-48).
Definition float_2_m29 : spec_float := S754_finite false 8388608 (-52).

(** The PMF over the labels 0, ..., n - 1 that gives each the mass
    [mass]. *)
Definition uniform_pmf (n : nat) (mass : spec_float)
  : ProbabilityMassFunction nat :=
  {| get_masses := gset_to_gmap mass (set_seq 0 n) |}.

(** ** rafl: the example reservoir *)

Section Reservoir.
Context {Example : Type}.

(** Whether "the number of examples seen so far beyond the first K"
    counts the example that is being added ([true], the textbook
    algorithm, where the i-th example is kept with probability K/i) or
    only the ones before it ([false]). *)
Variable count_current : bool.

(** Modelled from the spec: the example store ("reservoir") is not part
    of the tree.  "Fixed capacity K set at construction"; [seen] counts
    the examples offered so far. *)
Record ExampleStore := {
  capacity : nat;
  examples : list Example;
  seen : nat
}.

Definition store_new (K : nat) : ExampleStore :=
  {| capacity := K; examples := []; seen := 0 |}.

(** The number [n] of examples seen beyond the first [K]. *)
Definition seen_beyond (s : ExampleStore) : nat :=
  (if count_current then S (seen s) else seen s) - capacity s.

(** What a uniform draw [r] from [0, K + n) decides: the slot to replace
    if [r < K], and no replacement otherwise. *)
Definition chosen_slot (s : ExampleStore) (r : nat) : option nat :=
  if r <? capacity s then Some r else None.

(** Modelled from the spec: "add(example): if current size < K, append;
    otherwise replace a uniformly-random existing slot with probability
    K / (K + n)".  The randomness is the argument [draw], reduced to a
    uniform choice among the [K + n] outcomes. *)
Definition store_add (draw : nat) (x : Example) (s : ExampleStore)
  : ExampleStore :=
  if length (examples s) <? capacity s then
    {| capacity := capacity s; examples := examples s ++ [x];
       seen := S (seen s) |}
  else
    match chosen_slot s (draw mod (capacity s + seen_beyond s)) with
    | Some slot =>
        {| capacity := capacity s; examples := <[slot := x]> (examples s);
           seen := S (seen s) |}
    | None =>
        {| capacity := capacity s; examples := examples s;
           seen := S (seen s) |}
    end.

(** A stream of [add] calls, each with its own draw. *)
Definition store_add_all (xs : list (nat * Example)) (s : ExampleStore)
  : ExampleStore :=
  foldl (fun s dx => store_add (fst dx) (snd dx) s) s xs.

(** The draws, among the [K + n] equally likely ones, that replace a
    slot, and those that replace a given slot. *)
Definition replacing_draws (s : ExampleStore) : list nat :=
  filter (fun r => is_Some (chosen_slot s r))
    (seq 0 (capacity s + seen_beyond s)).

Definition draws_for_slot (s : ExampleStore) (slot : nat) : list nat :=
  filter (fun r => chosen_slot s r = Some slot)
    (seq 0 (capacity s + seen_beyond s)).

(** The probability that the next [add] replaces a slot: the share of
    replacing draws among the [K + n] equally likely ones. *)
Definition replacement_probability (s : ExampleStore) : R :=
  (INR (length (replacing_draws s)) / INR (capacity s + seen_beyond s))%R.

End Reservoir.

Arguments ExampleStore Example : clear implicits.

(** ** spaint: the shared image-processing helpers *)

Module ImageProcessor.
(** [ImageProcessor::ComparisonOperator].  The enumeration is declared
    in ImageProcessor.h; the switch names its two enumerators, and
    [CO_OTHER] stands for any other value of the underlying type. *)
Inductive ComparisonOperator :=
| CO_GREATER
| CO_LESS
| CO_OTHER (raw : Z).
End ImageProcessor.

Section Shared.
Context {ElementType : Type}.

(** [p[i]] as an rvalue and as an lvalue. *)
Definition load (mem : gmap Z ElementType) (p i : Z) : option ElementType :=
  mem !! (p + i)%Z.

Definition store (mem : gmap Z ElementType) (p i : Z) (v : ElementType)
  : option (gmap Z ElementType) :=
  match mem !! (p + i)%Z with
  | Some _ => Some (<[(p + i)%Z := v]> mem)
  | None => None
  end.

(** [copy_af_pixel_to_itm], single channel. *)
Definition copy_af_pixel_to_itm (columnMajorIndex inputData width height
  outputData : Z) (mem : gmap Z ElementType) : option (gmap Z ElementType) :=
  row ← int_rem columnMajorIndex height;
  col ← int_div columnMajorIndex height;
  t ← int_mul row width;
  rowMajorIndex ← int_add t col;
  v ← load mem inputData columnMajorIndex;
  store mem outputData rowMajorIndex v.

(** [copy_itm_pixel_to_af], single channel. *)
Definition copy_itm_pixel_to_af (rowMajorIndex inputData width height
  outputData : Z) (mem : gmap Z ElementType) : option (gmap Z ElementType) :=
  row ← int_div rowMajorIndex width;
  col ← int_rem rowMajorIndex width;
  t ← int_mul col height;
  columnMajorIndex ← int_add t row;
  v ← load mem inputData rowMajorIndex;
  store mem outputData columnMajorIndex v.

(** [for (int i = 0; i < n; ++i) body(i);], the loop with which the
    callers of the per-pixel helpers sweep an image. *)
Definition for_each_pixel (n : nat)
  (body : Z -> gmap Z ElementType -> option (gmap Z ElementType))
  (mem : gmap Z ElementType) : option (gmap Z ElementType) :=
  foldl (fun acc i => m ← acc; body (Z.of_nat i) m) (Some mem) (seq 0 n).

Definition copy_itm_to_af (inputData width height outputData : Z)
  (mem : gmap Z ElementType) : option (gmap Z ElementType) :=
  for_each_pixel (Z.to_nat (width * height))
    (fun i => copy_itm_pixel_to_af i inputData width height outputData) mem.

Definition copy_af_to_itm (inputData width height outputData : Z)
  (mem : gmap Z ElementType) : option (gmap Z ElementType) :=
  for_each_pixel (Z.to_nat (width * height))
    (fun i => copy_af_pixel_to_itm i inputData width height outputData) mem.

End Shared.

(** A 3x2 image at addresses 0..5, a second buffer at 6..11 and a third
    at 12..17. *)
Definition three_images {A} (pixels : list A) (blank : A) : gmap Z A :=
  list_to_map
    (zip (seqZ 0 18) (pixels ++ replicate (18 - length pixels) blank)).

Definition image_memory : gmap Z nat :=
  three_images [10; 11; 12; 13; 14; 15]%nat 0%nat.

Definition depth_memory : gmap Z spec_float :=
  three_images
    [F32.one; float_0_5; F32.minus_one; F32.one; F32.one; F32.one;
     float_0_25; float_0_75; F32.one; F32.one; F32.one; F32.one]
    F32.zero.

(** [calculate_pixel_depth_difference] *)
Definition calculate_pixel_depth_difference (rowMajorIndex firstInputData
  secondInputData width height outputData : Z) (mem : gmap Z spec_float)
  : option (gmap Z spec_float) :=
  row ← int_div rowMajorIndex width;
  col ← int_rem rowMajorIndex width;
  t ← int_mul col height;
  columnMajorIndex ← int_add t row;
  firstPixel ← load mem firstInputData rowMajorIndex;
  secondPixel ← load mem secondInputData rowMajorIndex;
  store mem outputData columnMajorIndex
    (if F32.geb firstPixel F32.zero && F32.geb secondPixel F32.zero
     then F32.fabs (F32.sub firstPixel secondPixel)
     else F32.minus_one).

(** [set_pixel_on_threshold] *)
Definition set_pixel_on_threshold (pixelIndex inputData : Z)
  (op : ImageProcessor.ComparisonOperator) (threshold value : spec_float)
  (outputData : Z) (mem : gmap Z spec_float) : option (gmap Z spec_float) :=
  input ← load mem inputData pixelIndex;
  match op with
  | ImageProcessor.CO_GREATER =>
      store mem outputData pixelIndex
        (if F32.gtb input threshold then value else input)
  | ImageProcessor.CO_LESS =>
      store mem outputData pixelIndex
        (if F32.ltb input threshold then value else input)
  | ImageProcessor.CO_OTHER _ => Some mem
  end.

(** ** spaint: sweeps in any order, and the four-channel copies *)

Section Orders.
Context {ElementType : Type}.

(** Running a per-pixel helper once for every index of [order], in that
    order.  The sequential loop is the case [order = 0, 1, ..., n-1];
    the parallel versions of the loop fix no order. *)
Definition for_each_in (order : list Z)
  (body : Z -> gmap Z ElementType -> option (gmap Z ElementType))
  (mem : gmap Z ElementType) : option (gmap Z ElementType) :=
  foldl (fun acc i => m ← acc; body i m) (Some mem) order.
End Orders.

Module ORUtils.
(** [ORUtils::Vector4<T>]: the four members r, g, b, a (also named
    x, y, z, w), stored one after the other. *)
Record Vector4 (T : Type) := mkVector4 { r : T; g : T; b : T; a : T }.
Arguments mkVector4 {T} _ _ _ _.
Arguments r {T} _.
Arguments g {T} _.
Arguments b {T} _.
Arguments a {T} _.
End ORUtils.

Section Vector4Memory.
Context {ElementType : Type}.

(** [p[i]] for [p] a pointer to [Vector4<ElementType>]: element [i]
    occupies the four cells from [p + 4 * i] on. *)
Definition load4 (mem : gmap Z ElementType) (p i : Z)
  : option (ORUtils.Vector4 ElementType) :=
  r ← mem !! (p + 4 * i)%Z;
  g ← mem !! (p + 4 * i + 1)%Z;
  b ← mem !! (p + 4 * i + 2)%Z;
  a ← mem !! (p + 4 * i + 3)%Z;
  Some (ORUtils.mkVector4 r g b a).

Definition store4 (mem : gmap Z ElementType) (p i : Z)
  (v : ORUtils.Vector4 ElementType) : option (gmap Z ElementType) :=
  m1 ← store mem p (4 * i)%Z (ORUtils.r v);
  m2 ← store m1 p (4 * i + 1)%Z (ORUtils.g v);
  m3 ← store m2 p (4 * i + 2)%Z (ORUtils.b v);
  store m3 p (4 * i + 3)%Z (ORUtils.a v).
End Vector4Memory.

Module FourChannel.
Section FourChannel.
Context {ElementType : Type}.

(** [copy_af_pixel_to_itm], four channels: the planes of the ArrayFire
    image are gathered into one [Vector4]. *)
Definition copy_af_pixel_to_itm (columnMajorIndex inputData width height
  outputData : Z) (mem : gmap Z ElementType) : option (gmap Z ElementType) :=
  size ← int_mul width height;
  row ← int_rem columnMajorIndex height;
  col ← int_div columnMajorIndex height;
  t ← int_mul row width;
  rowMajorIndex ← int_add t col;
  x0 ← load mem inputData columnMajorIndex;
  i1 ← int_add columnMajorIndex size;
  x1 ← load mem inputData i1;
  s2 ← int_mul 2 size;
  i2 ← int_add columnMajorIndex s2;
  x2 ← load mem inputData i2;
  s3 ← int_mul 3 size;
  i3 ← int_add columnMajorIndex s3;
  x3 ← load mem inputData i3;
  store4 mem outputData rowMajorIndex (ORUtils.mkVector4 x0 x1 x2 x3).

(** [copy_itm_pixel_to_af], four channels: the [Vector4] is scattered
    over the four planes of the ArrayFire image. *)
Definition copy_itm_pixel_to_af (rowMajorIndex inputData width height
  outputData : Z) (mem : gmap Z ElementType) : option (gmap Z ElementType) :=
  size ← int_mul width height;
  row ← int_div rowMajorIndex width;
  col ← int_rem rowMajorIndex width;
  t ← int_mul col height;
  columnMajorIndex ← int_add t row;
  inputPixel ← load4 mem inputData rowMajorIndex;
  m1 ← store mem outputData columnMajorIndex (ORUtils.r inputPixel);
  i1 ← int_add columnMajorIndex size;
  m2 ← store m1 outputData i1 (ORUtils.g inputPixel);
  s2 ← int_mul 2 size;
  i2 ← int_add columnMajorIndex s2;
  m3 ← store m2 outputData i2 (ORUtils.b inputPixel);
  s3 ← int_mul 3 size;
  i3 ← int_add columnMajorIndex s3;
  store m3 outputData i3 (ORUtils.a inputPixel).

End FourChannel.
End FourChannel.

(** A four-channel image of 2x1 pixels at addresses 0..7, a second
    buffer at 8..15 and a third at 16..23. *)
Definition rgba_memory : gmap Z nat :=
  list_to_map
    (zip (seqZ 0 24) ([10; 11; 12; 13; 20; 21; 22; 23] ++ replicate 16 0))%nat.

(** A depth that is zero, or a positive binary32 number below 2^100,
    normal or subnormal: the significand has at most 24 bits, and the
    exponent of its last bit is between -149 and 76. *)
Definition plain_depth (x : spec_float) : Prop :=
  match x with
  | S754_zero _ => True
  | S754_finite false m e => (Zpos m < 2 ^ 24)%Z /\ (-149 <= e <= 76)%Z
  | _ => False
  end.

(** A histogram of one label, and one of two labels with one example
    each. *)
Definition histogram_pure : Histogram string :=
  Histogram_of_labels ["A"; "A"].
Definition histogram_even : Histogram string :=
  Histogram_of_labels ["A"; "B"].

(** ** touchtrain: reading annotation files *)

(** What a call does: it returns a value, leaves by an exception, or has
    undefined behaviour. *)
Inductive outcome (A : Type) : Type :=
| Returns (a : A)
| Throws
| Undefined.
Arguments Returns {A} a.
Arguments Throws {A}.
Arguments Undefined {A}.

#[global] Instance outcome_ret : MRet outcome := fun A a => Returns a.
#[global] Instance outcome_bind : MBind outcome := fun A B f x =>
  match x with
  | Returns a => f a
  | Throws => Throws
  | Undefined => Undefined
  end.

(** [v[0]] and [v.back()] on a [std::vector]: undefined behaviour on an
    empty vector. *)
Definition vector_front {A} (v : list A) : outcome A :=
  match v with
  | x :: _ => Returns x
  | [] => Undefined
  end.

Definition vector_back {A} (v : list A) : outcome A :=
  match last v with
  | Some x => Returns x
  | None => Undefined
  end.

Module TouchTrainUtil.

(** The dropped delimiters of [sep(", \r")]: comma, space and carriage
    return. *)
Definition is_dropped_delim (c : ascii) : bool :=
  (c =? ",")%char || (c =? " ")%char || (c =? "013")%char.

(** [boost::tokenizer<boost::char_separator<char> >] over a string, with
    the separator [sep(", \r")]: no kept delimiters, and empty tokens
    dropped (the default policy), so the tokens are the maximal runs of
    characters other than the delimiters.  [tok] is the token being
    assembled; [emit] ends it, and drops it when it is empty. *)
Definition emit (tok : string) : list string :=
  match tok with
  | EmptyString => []
  | _ => [tok]
  end.

Fixpoint tokenize (tok : string) (s : string) : list string :=
  match s with
  | EmptyString => emit tok
  | String c s' =>
      if is_dropped_delim c
      then emit tok ++ tokenize "" s'
      else tokenize (tok +:+ String c "") s'
  end.

(** The lines that successive calls of [std::getline] extract from a
    stream that holds [s], until the call that fails: the newline
    characters are removed, and no line follows a final newline.
    [line] is the line being assembled, [None] when the stream stands
    at the start of a line. *)
Fixpoint getlines (line : option string) (s : string) : list string :=
  match s with
  | EmptyString =>
      match line with
      | Some l => [l]
      | None => []
      end
  | String c s' =>
      if (c =? "010")%char
      then default "" line :: getlines None s'
      else getlines (Some (default "" line +:+ String c "")) s'
  end.

Section TouchTrainUtil.
Context {Label : Type}.

(** [boost::lexical_cast<Label>]: [None] when it throws
    [bad_lexical_cast]. *)
Variable lexical_cast : string -> option Label.

(** The file system: the contents of the file at a path, [None] when
    the file cannot be opened. *)
Variable files : string -> option string.

(** The body of the loop of [load_instances], for one line. *)
Definition load_instance (imagePath line : string)
  (instances : list (string * Label)) : outcome (list (string * Label)) :=
  let tokens := tokenize "" line in
  imageName ← vector_front tokens;
  back ← vector_back tokens;
  label ← match lexical_cast back with
          | Some label => Returns label
          | None => Throws
          end;
  mret (instances ++ [(imagePath +:+ "/" +:+ imageName, label)]).

(** [TouchTrainUtil::load_instances].  A stream that failed to open
    fails its first [getline], so the loop is not entered. *)
Definition load_instances (imagePath annotationPath : string)
  : outcome (list (string * Label)) :=
  match files annotationPath with
  | None => Returns []
  | Some contents =>
      foldl (fun acc line => instances ← acc;
                             load_instance imagePath line instances)
        (Returns []) (getlines None contents)
  end.

Context {Descriptor Example : Type}.

(** [af::loadImage] followed by [TouchUtil::extract_touch_feature], and
    the constructor of [Example<Label>]: neither is part of the tree. *)
Variable extract_touch_feature : string -> outcome Descriptor.
Variable make_example : Descriptor -> Label -> Example.

(** [TouchTrainUtil::generate_examples] *)
Definition generate_examples (instances : list (list (string * Label)))
  : outcome (list Example) :=
  foldl (fun acc group =>
    foldl (fun acc' instance =>
      result ← acc';
      descriptor ← extract_touch_feature instance.1;
      mret (result ++ [make_example descriptor instance.2]))
      acc group)
    (Returns []) instances.

End TouchTrainUtil.
End TouchTrainUtil.

(** A text file with the given lines, each followed by the line
    terminator [eol]. *)
Definition text_file (eol : string) (lines : list string) : string :=
  foldr (fun line rest => line +:+ eol +:+ rest) "" lines.

(** The line terminators of Unix and of Windows text files. *)
Definition LF : string := String "010" "".
Definition CRLF : string := String "013" (String "010" "").

(** Every character of a string satisfies [p]. *)
Fixpoint string_forallb (p : ascii -> bool) (s : string) : bool :=
  match s with
  | EmptyString => true
  | String c s' => p c && string_forallb p s'
  end.

(** A line holds no newline; a field of a row is a non-empty string
    without delimiters or newlines; a separator is a non-empty string of
    delimiters. *)
Definition is_line (s : string) : bool :=
  string_forallb (fun c => negb (c =? "010")%char) s.

Definition is_field (s : string) : bool :=
  negb (String.eqb s "")
  && string_forallb (fun c => negb (TouchTrainUtil.is_dropped_delim c)
                              && negb (c =? "010")%char) s.

Definition is_separator (s : string) : bool :=
  negb (String.eqb s "") && string_forallb TouchTrainUtil.is_dropped_delim s.

Definition is_blank (s : string) : bool :=
  string_forallb TouchTrainUtil.is_dropped_delim s.

(** A token of the tokenizer: non-empty and without delimiters. *)
Definition is_token (s : string) : bool :=
  negb (String.eqb s "")
  && string_forallb (fun c => negb (TouchTrainUtil.is_dropped_delim c)) s.

(** An annotation file of three lines, read with labels 0 and 1. *)
Definition annotation_rows : list (list string) :=
  [["hand1.png"; "1"]; ["hand2.png"; "left"; "0"]; ["1"]].

Definition annotation_files (eol : string) (path : string) : option string :=
  if String.eqb path "annotation.txt"
  then Some (text_file eol (String.concat ", " <$> annotation_rows))
  else None.

Definition cast_bit (s : string) : option bool :=
  if String.eqb s "1" then Some true
  else if String.eqb s "0" then Some false
  else None.


(** ** Correct rounding of the binary32 operations *)

Section Rounding.
Open Scope R_scope.
Import F32.

Lemma Rabs_le_inv (x y : R) : Rabs x <= y -> - y <= x <= y.
Proof. unfold Rabs. destruct (Rcase_abs x); lra. Qed.

Lemma bpow_pos e : 0 < bpow e.
Proof. apply powerRZ_lt. lra. Qed.

Lemma bpow_add a b : bpow (a + b) = bpow a * bpow b.
Proof. apply powerRZ_add. lra. Qed.

Lemma bpow_succ e : bpow (e + 1) = 2 * bpow e.
Proof. rewrite bpow_add. unfold bpow at 2. simpl. lra. Qed.

Lemma bpow_le a b : (a <= b)%Z -> bpow a <= bpow b.
Proof.
  intros Hab. replace b with (a + (b - a))%Z by lia.
  rewrite bpow_add. assert (1 <= bpow (b - a)).
  { destruct (b - a)%Z as [|p|p] eqn:E; try lia.
    - unfold bpow. simpl. lra.
    - unfold bpow. simpl. apply pow_R1_Rle. lra. }
  pose proof (bpow_pos a). nra.
Qed.

Lemma bpow_IZR n : (0 <= n)%Z -> bpow n = IZR (2 ^ n).
Proof.
  intros Hn. destruct n as [|p|p]; try lia.
  - unfold bpow. simpl. reflexivity.
  - unfold bpow. rewrite <- Zpower_pos_powerRZ. reflexivity.
Qed.

Lemma digits2_size p : digits2_pos p = Pos.size p.
Proof. induction p; simpl; congruence. Qed.

Lemma digits2_bounds p :
  (2 ^ (Zpos (digits2_pos p) - 1) <= Zpos p < 2 ^ Zpos (digits2_pos p))%Z.
Proof.
  rewrite digits2_size. split.
  - pose proof (Pos.size_le p) as H.
    assert (2 ^ Zpos (Pos.size p) <= 2 * Zpos p)%Z as H'.
    { rewrite <- Pos2Z.inj_pow. lia. }
    replace (Zpos (Pos.size p)) with (Z.succ (Zpos (Pos.size p) - 1)) in H' by lia.
    rewrite Z.pow_succ_r in H' by lia. lia.
  - pose proof (Pos.size_gt p) as H. rewrite <- Pos2Z.inj_pow. lia.
Qed.

Lemma located_shr_1 v mrs e :
  (0 <= shr_m mrs)%Z ->
  located v (shr_m mrs) e (loc_of_shr_record mrs) ->
  located v (shr_m (shr_1 mrs)) (e + 1) (loc_of_shr_record (shr_1 mrs))
  /\ (0 <= shr_m (shr_1 mrs))%Z.
Proof.
  destruct mrs as [m r s]. cbn [shr_m loc_of_shr_record]. intros Hm Hl.
  pose proof (bpow_pos e) as HX.
  destruct m as [|[p|p|]|p]; try lia; destruct r, s;
    cbn [shr_1 shr_m loc_of_shr_record located orb] in *; rewrite ?bpow_succ;
    try rewrite (Pos2Z.inj_xI p) in Hl; try rewrite (Pos2Z.inj_xO p) in Hl;
    try rewrite plus_IZR in Hl; try rewrite mult_IZR in Hl;
    set (X := bpow e) in *; try set (P := IZR (Zpos p)) in *;
    (split; [lra | lia]).
Qed.

Lemma located_iter_shr p : forall v mrs e,
  (0 <= shr_m mrs)%Z ->
  located v (shr_m mrs) e (loc_of_shr_record mrs) ->
  located v (shr_m (SpecFloat.iter_pos shr_1 p mrs)) (e + Zpos p)
    (loc_of_shr_record (SpecFloat.iter_pos shr_1 p mrs))
  /\ (0 <= shr_m (SpecFloat.iter_pos shr_1 p mrs))%Z.
Proof.
  induction p as [p IH|p IH|]; intros v mrs e Hm Hl; cbn [SpecFloat.iter_pos].
  - destruct (located_shr_1 _ _ _ Hm Hl) as [H1 H1'].
    destruct (IH _ _ _ H1' H1) as [H2 H2'].
    destruct (IH _ _ _ H2' H2) as [H3 H3'].
    replace (e + Zpos p~1)%Z with (e + 1 + Zpos p + Zpos p)%Z by lia. auto.
  - destruct (IH _ _ _ Hm Hl) as [H2 H2'].
    destruct (IH _ _ _ H2' H2) as [H3 H3'].
    replace (e + Zpos p~0)%Z with (e + Zpos p + Zpos p)%Z by lia. auto.
  - apply located_shr_1; assumption.
Qed.

Lemma loc_of_record_of_loc m l :
  loc_of_shr_record (shr_record_of_loc m l) = l
  /\ shr_m (shr_record_of_loc m l) = m.
Proof. destruct l as [|[ | | ]]; split; reflexivity. Qed.

Lemma located_shr_fexp v m e l :
  (0 <= m)%Z -> located v m e l ->
  let res := shr_fexp prec emax m e l in
  located v (shr_m (fst res)) (snd res) (loc_of_shr_record (fst res))
  /\ (0 <= shr_m (fst res))%Z
  /\ snd res = Z.max e (fexp prec emax (Zdigits2 m + e)).
Proof.
  intros Hm Hl. unfold shr_fexp, shr.
  destruct (loc_of_record_of_loc m l) as [E1 E2].
  destruct (fexp prec emax (Zdigits2 m + e) - e)%Z as [|p|p] eqn:En;
    cbn [fst snd].
  - rewrite E1, E2. repeat split; try assumption. lia.
  - destruct (located_iter_shr p v (shr_record_of_loc m l) e) as [H1 H2].
    + rewrite E2. assumption.
    + rewrite E1, E2. assumption.
    + repeat split; try assumption. lia.
  - rewrite E1, E2. repeat split; try assumption. lia.
Qed.

Lemma located_bounds v m e l :
  located v m e l -> IZR m * bpow e <= v < (IZR m + 1) * bpow e.
Proof.
  pose proof (bpow_pos e). destruct l as [|[ | | ]]; cbn; intros; lra.
Qed.

Lemma round_nearest_even_spec v m e l :
  located v m e l ->
  (m <= round_nearest_even m l <= m + 1)%Z
  /\ Rabs (IZR (round_nearest_even m l) * bpow e - v) <= /2 * bpow e.
Proof.
  pose proof (bpow_pos e) as HX.
  destruct l as [|[ | | ]]; cbn [located round_nearest_even]; intros Hl.
  - split; [lia|]. subst v. rewrite Rminus_diag, Rabs_R0. lra.
  - destruct (Z.even m); split; try lia; try rewrite plus_IZR;
      apply Rabs_le; subst v; lra.
  - split; [lia|]. apply Rabs_le. lra.
  - split; [lia|]. rewrite plus_IZR. apply Rabs_le. lra.
Qed.

Lemma Zdigits2_unique m d :
  (0 < d)%Z -> (2 ^ (d - 1) <= m < 2 ^ d)%Z -> Zdigits2 m = d.
Proof.
  intros Hd [Hlo Hhi].
  assert (0 < m)%Z as Hm by (pose proof (Z.pow_pos_nonneg 2 (d - 1)); lia).
  destruct m as [|p|p]; try lia. cbn [Zdigits2].
  pose proof (digits2_bounds p) as [Hlo' Hhi'].
  set (d' := Zpos (digits2_pos p)) in *.
  assert (d' - 1 < d)%Z.
  { apply (Z.pow_lt_mono_r_iff 2); lia. }
  assert (d - 1 < d')%Z.
  { apply (Z.pow_lt_mono_r_iff 2); lia. }
  lia.
Qed.

Lemma Zdigits2_ge m d :
  (0 < d)%Z -> (2 ^ (d - 1) <= m)%Z -> (d <= Zdigits2 m)%Z.
Proof.
  intros Hd Hlo.
  assert (0 < m)%Z as Hm by (pose proof (Z.pow_pos_nonneg 2 (d - 1)); lia).
  destruct m as [|p|p]; try lia. cbn [Zdigits2].
  pose proof (digits2_bounds p) as [Hlo' Hhi'].
  set (d' := Zpos (digits2_pos p)) in *.
  assert (d - 1 < d')%Z; [|lia].
  apply (Z.pow_lt_mono_r_iff 2); lia.
Qed.

Lemma located_binade v m e l :
  (0 < m)%Z -> located v m e l ->
  bpow (Zdigits2 m + e - 1) <= v < bpow (Zdigits2 m + e).
Proof.
  intros Hm Hl. apply located_bounds in Hl.
  destruct m as [|p|p]; try lia. cbn [Zdigits2] in *.
  pose proof (digits2_bounds p) as [Hlo Hhi].
  set (d := Zpos (digits2_pos p)) in *.
  replace (d + e - 1)%Z with ((d - 1) + e)%Z by lia.
  rewrite !bpow_add. rewrite (bpow_IZR (d - 1)), (bpow_IZR d) by lia.
  pose proof (bpow_pos e) as HX.
  apply IZR_le in Hlo. assert (Zpos p + 1 <= 2 ^ d)%Z as Hhi2 by lia.
  apply IZR_le in Hhi2. rewrite plus_IZR in Hhi2.
  split; [nra|]. destruct Hl as [_ Hl]. nra.
Qed.

Lemma IZR_bpow_le_inv (a b : Z) e : IZR a * bpow e <= IZR b * bpow e -> (a <= b)%Z.
Proof.
  intros H. pose proof (bpow_pos e). apply le_IZR. nra.
Qed.

Lemma IZR_bpow_lt_inv (a b : Z) e : IZR a * bpow e < IZR b * bpow e -> (a < b)%Z.
Proof.
  intros H. pose proof (bpow_pos e). apply lt_IZR. nra.
Qed.

Lemma binary_round_aux_normal v mx ex lx :
  (2 ^ 23 <= mx)%Z -> located v mx ex lx ->
  (-149 <= Zdigits2 mx + ex - 24 <= 100)%Z ->
  nearest_at (Zdigits2 mx + ex - 24) v (binary_round_aux prec emax false mx ex lx).
Proof.
  intros Hmx Hl HE.
  assert (24 <= Zdigits2 mx)%Z as Hd by (apply Zdigits2_ge; simpl; lia).
  assert (0 < mx)%Z as Hpos by lia.
  pose proof (located_binade _ _ _ _ Hpos Hl) as Hbin.
  set (E := (Zdigits2 mx + ex - 24)%Z) in *.
  destruct (located_shr_fexp v mx ex lx ltac:(lia) Hl) as (H1 & H1' & HE1).
  unfold binary_round_aux.
  destruct (shr_fexp prec emax mx ex lx) as [mrs1 e1]. cbn [fst snd] in *.
  assert (e1 = E) as ->.
  { rewrite HE1. unfold fexp, emin, prec, emax, E. lia. }
  set (m1 := shr_m mrs1) in *.
  pose proof (located_bounds _ _ _ _ H1) as Hb1.
  replace (Zdigits2 mx + ex - 1)%Z with (23 + E)%Z in Hbin by (unfold E; lia).
  replace (Zdigits2 mx + ex)%Z with (24 + E)%Z in Hbin by (unfold E; lia).
  rewrite !bpow_add, (bpow_IZR 23), (bpow_IZR 24) in Hbin by lia.
  assert (2 ^ 23 <= m1 < 2 ^ 24)%Z as Hm1.
  { split.
    - assert (2 ^ 23 < m1 + 1)%Z; [|lia].
      apply (IZR_bpow_lt_inv _ _ E). rewrite plus_IZR. lra.
    - apply (IZR_bpow_lt_inv _ _ E). lra. }
  destruct (round_nearest_even_spec _ _ _ _ H1) as [Hr1 Hr2].
  set (m' := round_nearest_even m1 (loc_of_shr_record mrs1)) in *.
  pose proof (bpow_pos E) as HX.
  destruct (Z.eq_dec m' (2 ^ 24)%Z) as [Heq|Hne].
  - (* the rounded significand reached 2^24: one more exact shift *)
    rewrite Heq. unfold shr_fexp.
    replace (fexp prec emax (Zdigits2 (2 ^ 24) + E) - E)%Z with 1%Z
      by (unfold fexp, emin, prec, emax; simpl Zdigits2; lia).
    change (2 ^ 24)%Z with 16777216%Z.
    cbn [shr shr_record_of_loc SpecFloat.iter_pos shr_1 shr_m orb].
    replace (E + 1 <=? emax - prec)%Z with true
      by (symmetry; apply Z.leb_le; unfold emax, prec; lia).
    change 16777216%Z with (2 ^ 24)%Z in *.
    exists 8388608%positive, (E + 1)%Z, m1, m'.
    assert (IZR 8388608 * bpow (E + 1) = IZR m' * bpow E) as Hval.
    { rewrite Heq, bpow_succ.
      replace (2 ^ 24)%Z with (2 * 8388608)%Z by reflexivity.
      rewrite mult_IZR. lra. }
    repeat split; try lia; try lra; try assumption.
  - assert (2 ^ 23 <= m' < 2 ^ 24)%Z as Hm' by lia.
    unfold shr_fexp. rewrite (Zdigits2_unique m' 24) by (simpl; lia).
    replace (fexp prec emax (24 + E) - E)%Z with 0%Z
      by (unfold fexp, emin, prec, emax; lia).
    cbn [shr shr_record_of_loc shr_m].
    destruct m' as [|p|p] eqn:Em'; try lia.
    replace (E <=? emax - prec)%Z with true
      by (symmetry; apply Z.leb_le; unfold emax, prec; lia).
    exists p, E, m1, (Zpos p).
    repeat split; try lia; try lra; try assumption.
Qed.

Lemma nearest_at_binade E v x :
  nearest_at E v x -> bpow (23 + E) <= v < bpow (24 + E).
Proof.
  intros (m & e & m1 & m' & _ & _ & _ & Hm1 & _ & _ & Hv & _).
  rewrite !bpow_add, (bpow_IZR 23), (bpow_IZR 24) by lia.
  pose proof (bpow_pos E) as HX.
  destruct Hm1 as [Hlo Hhi].
  apply IZR_le in Hlo. assert (m1 + 1 <= 2 ^ 24)%Z as Hhi' by lia.
  apply IZR_le in Hhi'. rewrite plus_IZR in Hhi'. nra.
Qed.

Lemma nearest_at_value E v x :
  nearest_at E v x ->
  exists m1 m' : Z, (2 ^ 23 <= m1 < 2 ^ 24)%Z /\ (m' = m1 \/ m' = m1 + 1)%Z
    /\ to_R x = IZR m' * bpow E
    /\ IZR m1 * bpow E <= v < (IZR m1 + 1) * bpow E
    /\ Rabs (IZR m' * bpow E - v) <= /2 * bpow E.
Proof.
  intros (m & e & m1 & m' & -> & _ & _ & Hm1 & Hm' & Hval & Hv & Herr).
  exists m1, m'. cbn [to_R]. rewrite Hval. auto.
Qed.

(** The unit roundoff of binary32: a correctly rounded result in the
    normal range is within relative distance 2^-24 of the exact value. *)
Lemma nearest_at_rel_error E v x :
  nearest_at E v x -> 0 < to_R x /\ Rabs (to_R x - v) <= bpow (-24) * v.
Proof.
  intros Hn. pose proof (nearest_at_binade _ _ _ Hn) as Hbin.
  destruct (nearest_at_value _ _ _ Hn) as (m1 & m' & Hm1 & Hm' & -> & Hv & Herr).
  pose proof (bpow_pos E) as HX.
  split.
  - apply Rmult_lt_0_compat; [|assumption]. apply IZR_lt.
    destruct Hm' as [-> | ->]; lia.
  - eapply Rle_trans; [exact Herr|].
    replace (23 + E)%Z with (-24 + (E + 47))%Z in Hbin by lia.
    assert (bpow (E - 1) = / 2 * bpow E) as Hhalf.
    { replace E with ((E - 1) + 1)%Z at 2 by lia. rewrite bpow_succ. lra. }
    rewrite <- Hhalf.
    replace (E - 1)%Z with (-24 + (23 + E))%Z by lia.
    rewrite bpow_add. apply Rmult_le_compat_l; [pose proof (bpow_pos (-24)); lra|].
    rewrite bpow_add, (bpow_IZR 23) by lia.
    destruct Hm1 as [Hlo _]. apply IZR_le in Hlo. nra.
Qed.

(** Rounding to nearest is monotone (any tie-breaking rule). *)
Lemma nearest_at_mono E v x E' v' x' :
  nearest_at E v x -> nearest_at E' v' x' -> v < v' -> to_R x <= to_R x'.
Proof.
  intros Hn Hn' Hlt.
  pose proof (nearest_at_binade _ _ _ Hn) as Hbin.
  pose proof (nearest_at_binade _ _ _ Hn') as Hbin'.
  destruct (nearest_at_value _ _ _ Hn) as (m1 & m' & Hm1 & Hm' & -> & Hv & Herr).
  destruct (nearest_at_value _ _ _ Hn') as (n1 & n' & Hn1 & Hn'' & -> & Hv' & Herr').
  assert (E <= E')%Z as HEE.
  { destruct (Z_le_gt_dec E E') as [|Hgt]; [assumption|exfalso].
    assert (bpow (24 + E') <= bpow (23 + E)) by (apply bpow_le; lia). lra. }
  pose proof (bpow_pos E) as HX. pose proof (bpow_pos E') as HX'.
  assert (IZR m' <= IZR m1 + 1) as Hm'le.
  { rewrite <- plus_IZR. apply IZR_le. lia. }
  assert (IZR n1 <= IZR n') as Hn'ge by (apply IZR_le; lia).
  destruct (Z.eq_dec E E') as [<-|Hne].
  - assert (m1 <= n1)%Z as Hle.
    { assert (m1 < n1 + 1)%Z; [|lia].
      apply (IZR_bpow_lt_inv _ _ E). rewrite plus_IZR. lra. }
    destruct (Z.eq_dec m1 n1) as [<-|Hne1].
    + destruct Hm' as [-> | ->]; destruct Hn'' as [-> | ->];
        try (apply Rmult_le_compat_r; [lra|apply IZR_le; lia]).
      exfalso. rewrite plus_IZR in Herr.
      apply Rabs_le_inv in Herr. apply Rabs_le_inv in Herr'. lra.
    + apply Rle_trans with (IZR n1 * bpow E).
      * apply Rmult_le_compat_r; [lra|]. apply IZR_le. lia.
      * apply Rmult_le_compat_r; [lra|]. assumption.
  - apply Rle_trans with (bpow (24 + E)).
    + rewrite bpow_add, (bpow_IZR 24) by lia.
      apply Rmult_le_compat_r; [lra|]. apply IZR_le. lia.
    + apply Rle_trans with (bpow (23 + E')); [apply bpow_le; lia|].
      rewrite bpow_add, (bpow_IZR 23) by lia.
      apply Rmult_le_compat_r; [lra|]. apply IZR_le. lia.
Qed.

(** A canonical binary32 number is its own nearest representable value. *)
Lemma nearest_at_self (m : positive) e :
  (2 ^ 23 <= Zpos m < 2 ^ 24)%Z ->
  nearest_at e (IZR (Zpos m) * bpow e) (S754_finite false m e).
Proof.
  intros Hm. exists m, e, (Zpos m), (Zpos m).
  pose proof (bpow_pos e).
  repeat split; try lia; try lra; auto.
  rewrite Rminus_diag, Rabs_R0. lra.
Qed.

(** An exactly representable value is returned unchanged. *)
Lemma nearest_at_exact E v x (m : positive) e :
  nearest_at E v x -> (2 ^ 23 <= Zpos m < 2 ^ 24)%Z ->
  v = IZR (Zpos m) * bpow e -> to_R x = v.
Proof.
  intros Hn Hm Hv.
  pose proof (nearest_at_binade _ _ _ Hn) as Hbin.
  pose proof (nearest_at_binade _ _ _ (nearest_at_self m e Hm)) as Hbin'.
  rewrite <- Hv in Hbin'.
  assert (E = e) as ->.
  { destruct (Z.lt_trichotomy E e) as [Hlt|[Heq|Hgt]]; [exfalso|exact Heq|exfalso].
    - assert (bpow (24 + E) <= bpow (23 + e)) by (apply bpow_le; lia). lra.
    - assert (bpow (24 + e) <= bpow (23 + E)) by (apply bpow_le; lia). lra. }
  destruct (nearest_at_value _ _ _ Hn) as (m1 & m' & Hm1 & Hm' & -> & Hb & Herr).
  pose proof (bpow_pos e) as HX.
  assert (m1 = Zpos m) as ->.
  { assert (m1 <= Zpos m)%Z by (apply (IZR_bpow_le_inv _ _ e); lra).
    assert (Zpos m < m1 + 1)%Z; [|lia].
    apply (IZR_bpow_lt_inv _ _ e). rewrite plus_IZR. lra. }
  destruct Hm' as [-> | ->]; [symmetry; exact Hv|exfalso].
  rewrite plus_IZR in Herr. apply Rabs_le_inv in Herr. lra.
Qed.

Lemma iter_xO_Z (p k : positive) :
  Zpos (Pos.iter xO p k) = (Zpos p * 2 ^ Zpos k)%Z.
Proof.
  induction k as [|k IH] using Pos.peano_ind.
  - cbn [Pos.iter]. lia.
  - rewrite Pos.iter_succ, Pos2Z.inj_xO, IH, Pos2Z.inj_succ, Z.pow_succ_r by lia.
    lia.
Qed.

(** Conversion of a positive integer below 2^64 to binary32. *)
Lemma of_Z_nearest n :
  (1 <= n < 2 ^ 64)%Z ->
  exists E, (-23 <= E <= 40)%Z /\ nearest_at E (IZR n) (of_Z n).
Proof.
  intros Hn. destruct n as [|p|p]; try lia.
  unfold of_Z, binary_normalize, binary_round, shl_align.
  pose proof (digits2_bounds p) as Hd.
  set (d := Zpos (digits2_pos p)) in *.
  assert (1 <= d <= 64)%Z as Hd64.
  { split; [unfold d; lia|].
    assert (d - 1 < 64)%Z; [|lia]. apply (Z.pow_lt_mono_r_iff 2); lia. }
  replace (fexp prec emax (d + 0))%Z with (d - 24)%Z
    by (unfold fexp, emin, prec, emax; lia).
  exists (d - 24)%Z. split; [lia|].
  destruct (d - 24 - 0)%Z as [|k|k] eqn:Ek.
  - replace (d - 24)%Z with (Zdigits2 (Zpos p) + 0 - 24)%Z by (cbn; lia).
    apply binary_round_aux_normal.
    + replace 23%Z with (d - 1)%Z by lia. lia.
    + cbn. unfold bpow. cbn. lra.
    + cbn [Zdigits2]. fold d. lia.
  - replace (d - 24)%Z with (Zdigits2 (Zpos p) + 0 - 24)%Z by (cbn; lia).
    apply binary_round_aux_normal.
    + apply Z.le_trans with (2 ^ (d - 1))%Z; [|lia].
      apply Z.pow_le_mono_r; lia.
    + cbn. unfold bpow. cbn. lra.
    + cbn [Zdigits2]. fold d. lia.
  - assert (Zpos k = 24 - d)%Z as Hk by lia.
    assert (2 ^ 23 <= Zpos (Pos.iter xO p k) < 2 ^ 24)%Z as Hm.
    { rewrite iter_xO_Z, Hk.
      assert (2 ^ 23 = 2 ^ (d - 1) * 2 ^ (24 - d))%Z as ->.
      { rewrite <- Z.pow_add_r by lia. f_equal. lia. }
      assert (2 ^ 24 = 2 ^ d * 2 ^ (24 - d))%Z as ->.
      { rewrite <- Z.pow_add_r by lia. f_equal. lia. }
      pose proof (Z.pow_pos_nonneg 2 (24 - d)). nia. }
    replace (d - 24)%Z with (Zdigits2 (Zpos (Pos.iter xO p k)) + (d - 24) - 24)%Z
      at 1 by (rewrite (Zdigits2_unique _ 24) by (simpl; lia); lia).
    apply binary_round_aux_normal.
    + lia.
    + cbn [located]. rewrite iter_xO_Z, mult_IZR, Hk, <- bpow_IZR by lia.
      rewrite Rmult_assoc, <- bpow_add.
      replace (24 - d + (d - 24))%Z with 0%Z by lia. unfold bpow. cbn. lra.
    + rewrite (Zdigits2_unique _ 24) by (simpl; lia). lia.
Qed.

Lemma new_location_located (q r m2 : Z) e :
  (0 < m2)%Z -> (0 <= r < m2)%Z ->
  located ((IZR q + IZR r / IZR m2) * bpow e) q e (new_location m2 r).
Proof.
  intros Hm2 Hr. pose proof (bpow_pos e) as HX.
  assert (0 < IZR m2) as Hm2R by (apply IZR_lt; lia).
  set (rho := IZR r / IZR m2).
  assert (IZR r = rho * IZR m2) as Hrho by (unfold rho; field; lra).
  assert ((0 < r)%Z -> 0 < rho) as Hpos.
  { intros Hr0. apply IZR_lt in Hr0. unfold rho.
    apply Rdiv_lt_0_compat; lra. }
  assert (rho < 1) as Hlt1.
  { destruct Hr as [_ Hr]. apply IZR_lt in Hr. nra. }
  assert ((2 * r < m2)%Z -> rho < /2) as Hlo.
  { intros H. apply IZR_lt in H. rewrite mult_IZR in H. nra. }
  assert ((2 * r > m2)%Z -> /2 < rho) as Hhi.
  { intros H. apply Z.gt_lt, IZR_lt in H. rewrite mult_IZR in H. nra. }
  assert ((2 * r = m2)%Z -> rho = /2) as Heq.
  { intros H. apply (f_equal IZR) in H. rewrite mult_IZR in H. nra. }
  unfold new_location, new_location_even, new_location_odd.
  destruct (Z.even m2) eqn:Hev; cbv beta;
    (destruct (Z.eqb_spec r 0) as [Hr0|Hr0];
     [assert (rho = 0) as Hrho0 by (unfold rho; rewrite Hr0; field; lra);
      unfold located; rewrite Hrho0; lra|]);
    specialize (Hpos ltac:(lia)).
  - destruct (Z.compare_spec (2 * r) m2) as [H|H|H]; unfold located.
    + rewrite (Heq H). reflexivity.
    + specialize (Hlo H). split; nra.
    + specialize (Hhi ltac:(lia)). split; nra.
  - assert (2 * r <> m2)%Z as Hodd.
    { intros H. rewrite <- H, Z.even_mul in Hev. discriminate. }
    destruct (Z.compare_spec (2 * r + 1) m2) as [H|H|H]; unfold located.
    + specialize (Hlo ltac:(lia)). split; nra.
    + specialize (Hlo ltac:(lia)). split; nra.
    + specialize (Hhi ltac:(lia)). split; nra.
Qed.

(** Division of two positive canonical binary32 numbers of moderate
    exponent is correctly rounded. *)
Lemma div_nearest (m1 m2 : positive) (e1 e2 : Z) :
  (2 ^ 23 <= Zpos m1 < 2 ^ 24)%Z -> (2 ^ 23 <= Zpos m2 < 2 ^ 24)%Z ->
  (-100 <= e1 - e2 <= 100)%Z ->
  exists E, (e1 - e2 - 24 <= E <= e1 - e2 - 23)%Z /\
    nearest_at E (IZR (Zpos m1) * bpow e1 / (IZR (Zpos m2) * bpow e2))
      (div (S754_finite false m1 e1) (S754_finite false m2 e2)).
Proof.
  intros Hm1 Hm2 He.
  unfold div, SFdiv, SFdiv_core_binary.
  rewrite (Zdigits2_unique (Zpos m1) 24), (Zdigits2_unique (Zpos m2) 24)
    by (simpl; lia).
  replace (Z.min (fexp prec emax (24 + e1 - (24 + e2))) (e1 - e2))
    with (e1 - e2 - 24)%Z by (unfold fexp, emin, prec, emax; lia).
  replace (e1 - e2 - (e1 - e2 - 24))%Z with 24%Z by lia.
  rewrite Z.shiftl_mul_pow2 by lia.
  pose proof (Z.div_eucl_eq (Zpos m1 * 2 ^ 24) (Zpos m2) ltac:(lia)) as Heucl.
  pose proof (Z.mod_pos_bound (Zpos m1 * 2 ^ 24) (Zpos m2) ltac:(lia)) as Hmod.
  unfold Z.modulo in Hmod.
  destruct (Z.div_eucl (Zpos m1 * 2 ^ 24) (Zpos m2)) as [q r].
  cbn [xorb].
  assert (2 ^ 23 <= q < 2 ^ 25)%Z as Hq by nia.
  assert (24 <= Zdigits2 q <= 25)%Z as Hdq.
  { split; [apply Zdigits2_ge; simpl; lia|].
    destruct (Z_lt_le_dec q (2 ^ 24)).
    - rewrite (Zdigits2_unique q 24); simpl; lia.
    - rewrite (Zdigits2_unique q 25); simpl; lia. }
  exists (Zdigits2 q + (e1 - e2 - 24) - 24)%Z. split; [lia|].
  apply binary_round_aux_normal; [lia| |lia].
  replace (IZR (Zpos m1) * bpow e1 / (IZR (Zpos m2) * bpow e2))
    with ((IZR q + IZR r / IZR (Zpos m2)) * bpow (e1 - e2 - 24)).
  { apply new_location_located; lia. }
  pose proof (bpow_pos e2) as HX2. pose proof (bpow_pos (e1 - e2 - 24)) as HX.
  assert (0 < IZR (Zpos m2)) as Hm2R by (apply IZR_lt; lia).
  assert (bpow e1 = IZR (2 ^ 24) * bpow (e1 - e2 - 24) * bpow e2) as ->.
  { rewrite <- bpow_IZR, <- !bpow_add by lia. f_equal. lia. }
  apply (f_equal IZR) in Heucl. rewrite plus_IZR, !mult_IZR in Heucl.
  transitivity (IZR (Zpos m1) * IZR (2 ^ 24) / IZR (Zpos m2)
                * bpow (e1 - e2 - 24)).
  - rewrite Heucl. field. lra.
  - field. lra.
Qed.
End Rounding.

(** ** Comparisons and sign of canonical binary32 numbers *)

Section Comparison.
Open Scope R_scope.
Import F32.

Lemma leb_canonical (m1 m2 : positive) (e1 e2 : Z) :
  (2 ^ 23 <= Zpos m1 < 2 ^ 24)%Z -> (2 ^ 23 <= Zpos m2 < 2 ^ 24)%Z ->
  IZR (Zpos m1) * bpow e1 <= IZR (Zpos m2) * bpow e2 ->
  leb (S754_finite false m1 e1) (S754_finite false m2 e2) = true.
Proof.
  intros Hm1 Hm2 Hle. unfold leb, SFleb, SFcompare.
  destruct (Z.compare_spec e1 e2) as [Heq|Hlt|Hgt]; [subst e2| reflexivity |].
  - assert (Zpos m1 <= Zpos m2)%Z as Hm by (apply (IZR_bpow_le_inv _ _ e1); lra).
    fold (Pos.compare m1 m2).
    destruct (Pos.compare_spec m1 m2); try reflexivity; lia.
  - exfalso.
    assert (bpow (24 + e2) <= bpow (23 + e1)) as Hb by (apply bpow_le; lia).
    rewrite !bpow_add, (bpow_IZR 23), (bpow_IZR 24) in Hb by lia.
    pose proof (bpow_pos e1). pose proof (bpow_pos e2).
    destruct Hm1 as [Hlo _]. destruct Hm2 as [_ Hhi].
    apply IZR_le in Hlo. apply IZR_lt in Hhi. nra.
Qed.

Lemma nearest_at_geb E v x (m : positive) (e : Z) :
  nearest_at E v x -> (2 ^ 23 <= Zpos m < 2 ^ 24)%Z ->
  IZR (Zpos m) * bpow e <= to_R x ->
  geb x (S754_finite false m e) = true.
Proof.
  intros (mx & ex & m1 & m' & -> & Hmx & _) Hm Hle.
  unfold geb. apply leb_canonical; assumption.
Qed.

Lemma nearest_at_gtb_zero E v x : nearest_at E v x -> gtb x zero = true.
Proof. intros (mx & ex & m1 & m' & -> & _). reflexivity. Qed.

(** Lower and upper bounds by a representable number carry over to the
    rounded result. *)
Lemma nearest_at_ge_float E v x (m : positive) (e : Z) :
  nearest_at E v x -> (2 ^ 23 <= Zpos m < 2 ^ 24)%Z ->
  IZR (Zpos m) * bpow e <= v -> IZR (Zpos m) * bpow e <= to_R x.
Proof.
  intros Hn Hm Hle. destruct (Rle_lt_or_eq_dec _ _ Hle) as [Hlt|Heq].
  - apply (nearest_at_mono _ _ _ _ _ _ (nearest_at_self m e Hm) Hn Hlt).
  - rewrite (nearest_at_exact _ _ _ m e Hn Hm (eq_sym Heq)). lra.
Qed.

Lemma nearest_at_le_float E v x (m : positive) (e : Z) :
  nearest_at E v x -> (2 ^ 23 <= Zpos m < 2 ^ 24)%Z ->
  v <= IZR (Zpos m) * bpow e -> to_R x <= IZR (Zpos m) * bpow e.
Proof.
  intros Hn Hm Hle. destruct (Rle_lt_or_eq_dec _ _ Hle) as [Hlt|Heq].
  - apply (nearest_at_mono _ _ _ _ _ _ Hn (nearest_at_self m e Hm) Hlt).
  - rewrite (nearest_at_exact _ _ _ m e Hn Hm Heq). lra.
Qed.

Lemma nearest_at_canonical E v x :
  nearest_at E v x ->
  exists (m : positive) (e : Z),
    x = S754_finite false m e /\ (2 ^ 23 <= Zpos m < 2 ^ 24)%Z
    /\ (E <= e <= E + 1)%Z.
Proof. intros (m & e & m1 & m' & -> & Hm & He & _). eauto. Qed.

(** Accumulated relative error of [fl(fl(c) / fl(t))]. *)
Lemma rel_error_quotient (c t a b m u : R) :
  0 < c -> 0 < t -> 0 <= u <= / 8 ->
  Rabs (a - c) <= u * c -> Rabs (b - t) <= u * t ->
  Rabs (m - a / b) <= u * (a / b) ->
  Rabs (m - c / t) <= 4 * u * (c / t).
Proof.
  intros Hc Ht Hu Ha Hb Hm.
  apply Rabs_le_inv in Ha. apply Rabs_le_inv in Hb. apply Rabs_le_inv in Hm.
  assert (0 < b) as Hbpos by nra.
  assert (0 < a) as Hapos by nra.
  set (q := c / t) in *. set (r := a / b) in *.
  assert (c = q * t) as Hq by (unfold q; field; lra).
  assert (a = r * b) as Hr by (unfold r; field; lra).
  assert (0 < q) as Hqpos by (unfold q; apply Rdiv_lt_0_compat; lra).
  assert (0 < r) as Hrpos by (unfold r; apply Rdiv_lt_0_compat; lra).
  assert (r * (1 - u) <= (1 + u) * q) as Hup.
  { apply (Rmult_le_reg_r t); [lra|]. nra. }
  assert ((1 - u) * q <= r * (1 + u)) as Hdown.
  { apply (Rmult_le_reg_r t); [lra|]. nra. }
  assert (0 <= q * u) as Hqu by (apply Rmult_le_pos; lra).
  assert (0 <= q * u * u) as Hquu by (apply Rmult_le_pos; lra).
  assert (0 <= q * u * (1 - 5 * u)) as Hslack by (apply Rmult_le_pos; lra).
  apply Rabs_le. split.
  - apply (Rmult_le_reg_r (1 + u)); [lra|].
    assert ((1 - u) * (r * (1 + u)) <= m * (1 + u)) as H1.
    { replace ((1 - u) * (r * (1 + u))) with ((r - u * r) * (1 + u)) by ring.
      apply Rmult_le_compat_r; lra. }
    assert ((1 - u) * ((1 - u) * q) <= (1 - u) * (r * (1 + u))) as H2.
    { apply Rmult_le_compat_l; lra. }
    lra.
  - apply (Rmult_le_reg_r (1 - u)); [lra|].
    assert (m * (1 - u) <= (1 + u) * (r * (1 - u))) as H1.
    { replace ((1 + u) * (r * (1 - u))) with ((r + u * r) * (1 - u)) by ring.
      apply Rmult_le_compat_r; lra. }
    assert ((1 + u) * (r * (1 - u)) <= (1 + u) * ((1 + u) * q)) as H2.
    { apply Rmult_le_compat_l; lra. }
    lra.
Qed.
End Comparison.

(** ** The empirical mass [fl(fl(bin) / fl(count))] *)

Section EmpiricalMass.
Open Scope R_scope.
Import F32.

Lemma bpow_neg n : (0 <= n)%Z -> bpow (- n) = / IZR (2 ^ n).
Proof.
  intros Hn. unfold bpow. rewrite powerRZ_neg'. f_equal.
  apply bpow_IZR. assumption.
Qed.

Lemma of_size_t_nearest (c : N) :
  (1 <= c < size_t_modulus)%N ->
  exists E, (-23 <= E <= 40)%Z /\ nearest_at E (IZR (Z.of_N c)) (of_size_t c).
Proof.
  intros Hc. apply of_Z_nearest. unfold size_t_modulus in Hc.
  change (2 ^ 64)%Z with (Z.of_N (2 ^ 64)). lia.
Qed.

Lemma empirical_mass_nearest (c t : N) :
  (1 <= c < size_t_modulus)%N -> (1 <= t < size_t_modulus)%N ->
  exists E Ec Et,
    nearest_at Ec (IZR (Z.of_N c)) (of_size_t c)
    /\ nearest_at Et (IZR (Z.of_N t)) (of_size_t t)
    /\ nearest_at E (to_R (of_size_t c) / to_R (of_size_t t))
         (empirical_mass c t).
Proof.
  intros Hc Ht.
  destruct (of_size_t_nearest c Hc) as (Ec & HEc & Hnc).
  destruct (of_size_t_nearest t Ht) as (Et & HEt & Hnt).
  destruct (nearest_at_canonical _ _ _ Hnc) as (mc & ec & Hxc & Hmc & Hec).
  destruct (nearest_at_canonical _ _ _ Hnt) as (mt & et & Hxt & Hmt & Het).
  destruct (div_nearest mc mt ec et Hmc Hmt ltac:(lia)) as (E & _ & Hn).
  exists E, Ec, Et. split; [assumption|]. split; [assumption|].
  unfold empirical_mass. rewrite Hxc, Hxt. exact Hn.
Qed.

Lemma bpow_m24_small : 0 <= bpow (-24) <= / 8.
Proof.
  split; [pose proof (bpow_pos (-24)); lra|].
  apply Rle_trans with (bpow (-3)); [apply bpow_le; lia|].
  change (-3)%Z with (- (3))%Z. rewrite bpow_neg by lia. simpl. lra.
Qed.

Lemma bpow_m22 : 4 * bpow (-24) = bpow (-22).
Proof.
  replace (-22)%Z with (2 + -24)%Z by lia. rewrite bpow_add.
  f_equal. unfold bpow. simpl. lra.
Qed.

(** Every bin of at least one count gets a positive mass within relative
    distance 2^-22 of the exact quotient, and at most 1. *)
Lemma empirical_mass_accuracy (c t : N) :
  (1 <= c < size_t_modulus)%N -> (1 <= t < size_t_modulus)%N ->
  0 < to_R (empirical_mass c t)
  /\ gtb (empirical_mass c t) zero = true
  /\ Rabs (to_R (empirical_mass c t) - IZR (Z.of_N c) / IZR (Z.of_N t))
     <= bpow (-22) * (IZR (Z.of_N c) / IZR (Z.of_N t))
  /\ ((c <= t)%N -> to_R (empirical_mass c t) <= 1).
Proof.
  intros Hc Ht.
  destruct (empirical_mass_nearest c t Hc Ht) as (E & Ec & Et & Hnc & Hnt & Hn).
  destruct (nearest_at_rel_error _ _ _ Hnc) as [Hcpos Hcerr].
  destruct (nearest_at_rel_error _ _ _ Hnt) as [Htpos Hterr].
  destruct (nearest_at_rel_error _ _ _ Hn) as [Hpos Herr].
  assert (0 < IZR (Z.of_N c)) as HcR by (apply IZR_lt; lia).
  assert (0 < IZR (Z.of_N t)) as HtR by (apply IZR_lt; lia).
  split; [assumption|]. split; [exact (nearest_at_gtb_zero _ _ _ Hn)|]. split.
  - rewrite <- bpow_m22.
    apply rel_error_quotient with (a := to_R (of_size_t c))
                                  (b := to_R (of_size_t t));
      try assumption. apply bpow_m24_small.
  - intros Hle.
    assert (to_R (of_size_t c) <= to_R (of_size_t t)) as Hmono.
    { destruct (N.eq_dec c t) as [->|Hne]; [lra|].
      apply (nearest_at_mono _ _ _ _ _ _ Hnc Hnt). apply IZR_lt. lia. }
    replace 1 with (IZR (Zpos 8388608) * bpow (-23)).
    2:{ change (-23)%Z with (- (23))%Z. rewrite bpow_neg by lia. simpl. lra. }
    apply (nearest_at_le_float _ _ _ _ _ Hn); [simpl; lia|].
    replace (IZR (Zpos 8388608) * bpow (-23)) with 1.
    2:{ change (-23)%Z with (- (23))%Z. rewrite bpow_neg by lia. simpl. lra. }
    apply (Rmult_le_reg_r (to_R (of_size_t t))); [assumption|].
    unfold Rdiv. rewrite Rmult_assoc, Rinv_l by lra. lra.
Qed.

End EmpiricalMass.

Section ComparisonInv.
Open Scope R_scope.
Import F32.

Lemma leb_canonical_inv (m1 m2 : positive) (e1 e2 : Z) :
  (2 ^ 23 <= Zpos m1 < 2 ^ 24)%Z -> (2 ^ 23 <= Zpos m2 < 2 ^ 24)%Z ->
  leb (S754_finite false m1 e1) (S754_finite false m2 e2) = true ->
  IZR (Zpos m1) * bpow e1 <= IZR (Zpos m2) * bpow e2.
Proof.
  intros Hm1 Hm2. unfold leb, SFleb, SFcompare.
  pose proof (bpow_pos e1). pose proof (bpow_pos e2).
  destruct (Z.compare_spec e1 e2) as [Heq|Hlt|Hgt]; [subst e2| |discriminate].
  - fold (Pos.compare m1 m2).
    destruct (Pos.compare_spec m1 m2) as [->|Hlt|Hgt]; try discriminate;
      intros _.
    + lra.
    + apply Rmult_le_compat_r; [lra|]. apply IZR_le. lia.
  - intros _.
    assert (bpow (24 + e1) <= bpow (23 + e2)) as Hb by (apply bpow_le; lia).
    rewrite !bpow_add, (bpow_IZR 23), (bpow_IZR 24) in Hb by lia.
    destruct Hm1 as [_ Hhi]. destruct Hm2 as [Hlo _].
    apply IZR_le in Hlo. apply IZR_lt in Hhi. nra.
Qed.

Lemma nearest_at_geb_inv E v x (m : positive) (e : Z) :
  nearest_at E v x -> (2 ^ 23 <= Zpos m < 2 ^ 24)%Z ->
  geb x (S754_finite false m e) = true ->
  IZR (Zpos m) * bpow e <= to_R x.
Proof.
  intros (mx & ex & m1 & m' & -> & Hmx & _) Hm Hge.
  cbn [to_R]. apply leb_canonical_inv; assumption.
Qed.
End ComparisonInv.

(** ** The assertion threshold *)

Section Threshold.
Open Scope R_scope.
Import F32.

(** A value on the grid of its own binade (for instance an integer below
    2^24) is returned unchanged. *)
Lemma nearest_at_grid_exact E v x (n : Z) :
  nearest_at E v x -> v = IZR n * bpow E -> to_R x = v.
Proof.
  intros Hn Hv.
  destruct (nearest_at_value _ _ _ Hn) as (m1 & m' & Hm1 & Hm' & -> & Hb & Herr).
  pose proof (bpow_pos E) as HX. rewrite Hv in Hb, Herr.
  assert (m1 = n) as ->.
  { assert (m1 <= n)%Z by (apply (IZR_bpow_le_inv _ _ E); lra).
    assert (n < m1 + 1)%Z; [|lia].
    apply (IZR_bpow_lt_inv _ _ E). rewrite plus_IZR. lra. }
  destruct Hm' as [-> | ->]; [symmetry; exact Hv|exfalso].
  rewrite plus_IZR in Herr. apply Rabs_le_inv in Herr. lra.
Qed.

Lemma of_size_t_exact (c : N) :
  (1 <= c < 2 ^ 24)%N -> to_R (of_size_t c) = IZR (Z.of_N c).
Proof.
  intros Hc.
  destruct (of_size_t_nearest c) as (E & HE & Hn);
    [unfold size_t_modulus; lia|].
  pose proof (nearest_at_binade _ _ _ Hn) as [Hlo _].
  assert (E <= 0)%Z as HE0.
  { destruct (Z_le_gt_dec E 0) as [|Hgt]; [assumption|exfalso].
    assert (bpow 24 <= bpow (23 + E)) as Hb by (apply bpow_le; lia).
    rewrite (bpow_IZR 24) in Hb by lia.
    assert (IZR (Z.of_N c) < IZR (2 ^ 24)); [|lra].
    apply IZR_lt. change (2 ^ 24)%Z with (Z.of_N (2 ^ 24)). lia. }
  apply (nearest_at_grid_exact _ _ _ (Z.of_N c * 2 ^ (- E)) Hn).
  rewrite mult_IZR, <- bpow_IZR, Rmult_assoc, <- bpow_add by lia.
  replace (- E + E)%Z with 0%Z by lia. unfold bpow. cbn. lra.
Qed.

(** A value strictly above the midpoint below a representable number
    rounds to at least that number. *)
Lemma nearest_at_above_midpoint E v x (m : positive) (e : Z) :
  nearest_at E v x -> (2 ^ 23 < Zpos m < 2 ^ 24)%Z ->
  (IZR (Zpos m) - / 2) * bpow e < v ->
  IZR (Zpos m) * bpow e <= to_R x.
Proof.
  intros Hn Hm Hv.
  pose proof (nearest_at_binade _ _ _ Hn) as Hbin.
  destruct (nearest_at_value _ _ _ Hn) as (m1 & m' & Hm1 & Hm' & -> & Hb & Herr).
  pose proof (bpow_pos E) as HX. pose proof (bpow_pos e) as HXe.
  assert (IZR m1 <= IZR m') as Hm1m' by (apply IZR_le; lia).
  assert (IZR (2 ^ 23) + 1 <= IZR (Zpos m)) as HmR.
  { rewrite <- plus_IZR. apply IZR_le. lia. }
  assert (IZR (Zpos m) < IZR (2 ^ 24)) as HmR' by (apply IZR_lt; lia).
  assert (IZR (2 ^ 23) <= IZR m1) as Hm1R by (apply IZR_le; lia).
  rewrite !bpow_add, (bpow_IZR 23), (bpow_IZR 24) in Hbin by lia.
  destruct (Z.lt_trichotomy E e) as [Hlt|[Heq|Hgt]].
  - exfalso.
    assert (bpow (E + 1) <= bpow e) as Hle by (apply bpow_le; lia).
    rewrite bpow_succ in Hle.
    change (2 ^ 23)%Z with 8388608%Z in *.
    change (2 ^ 24)%Z with 16777216%Z in *. nra.
  - subst e. 
    assert (Zpos m - 1 <= m1)%Z as Hge.
    { assert (Zpos m - 1 < m1 + 1)%Z; [|lia].
      apply (IZR_bpow_lt_inv _ _ E). rewrite plus_IZR, minus_IZR. lra. }
    destruct (Z.eq_dec m1 (Zpos m - 1)%Z) as [Heq|Hne].
    + destruct Hm' as [-> | ->].
      * exfalso. rewrite Heq, minus_IZR in Herr.
        apply Rabs_le_inv in Herr. lra.
      * rewrite Heq. apply Rmult_le_compat_r; [lra|]. apply IZR_le. lia.
    + apply Rmult_le_compat_r; [lra|]. apply IZR_le. lia.
  - assert (bpow (e + 1) <= bpow E) as Hle by (apply bpow_le; lia).
    rewrite bpow_succ in Hle.
    change (2 ^ 23)%Z with 8388608%Z in *.
    change (2 ^ 24)%Z with 16777216%Z in *. nra.
Qed.

(** [SMALL_EPSILON] is the float that the literal [1e-9f] denotes: the
    correctly rounded quotient of 1 and 10^9, which lies less than
    3 * 10^-17 below 10^-9. *)
Lemma SMALL_EPSILON_literal :
  SMALL_EPSILON = div (of_Z 1) (of_Z 1000000000).
Proof. vm_compute. reflexivity. Qed.

Lemma SMALL_EPSILON_value :
  / 1000000000 - 3 / 100000000000000000 < to_R SMALL_EPSILON < / 1000000000.
Proof.
  unfold SMALL_EPSILON, to_R. change (-53)%Z with (- (53))%Z.
  rewrite bpow_neg by lia. simpl. lra.
Qed.

(** Up to a total of 2^24 * 10^9 examples, a bin whose exact share
    bin/count is at least 10^-9 passes the assertion. *)
Lemma empirical_mass_exact_share (c t : N) :
  (1 <= c <= t)%N -> (t <= 2 ^ 24 * 1000000000)%N ->
  (t <= 1000000000 * c)%N ->
  geb (empirical_mass c t) SMALL_EPSILON = true.
Proof.
  intros Hc Ht Hshare.
  assert (1 <= t < size_t_modulus)%N as Ht64 by (unfold size_t_modulus; lia).
  destruct (N.lt_ge_cases c (2 ^ 24)) as [Hsmall|Hbig].
  - (* the bin is converted exactly; only the total is rounded *)
    assert (1 <= c < size_t_modulus)%N as Hc64 by (unfold size_t_modulus; lia).
    destruct (empirical_mass_nearest c t Hc64 Ht64)
      as (E & Ec & Et & Hnc & Hnt & Hn).
    rewrite (of_size_t_exact c) in Hn by lia.
    destruct (nearest_at_rel_error _ _ _ Hnt) as [Htpos Hterr].
    apply Rabs_le_inv in Hterr.
    pose proof bpow_m24_small as Hu.
    assert (bpow (-24) = / 16777216) as Hu24.
    { change (-24)%Z with (- (24))%Z. rewrite bpow_neg by lia. reflexivity. }
    assert (0 < IZR (Z.of_N c)) as HcR by (apply IZR_lt; lia).
    assert (0 < IZR (Z.of_N t)) as HtR by (apply IZR_lt; lia).
    assert (IZR (Z.of_N t) <= 1000000000 * IZR (Z.of_N c)) as HshareR.
    { rewrite <- mult_IZR. apply IZR_le. lia. }
    unfold SMALL_EPSILON.
    apply (nearest_at_geb _ _ _ _ _ Hn); [simpl; lia|].
    apply (nearest_at_above_midpoint _ _ _ _ _ Hn); [simpl; lia|].
    set (ft := to_R (of_size_t t)) in *.
    apply (Rmult_lt_reg_r ft); [assumption|].
    unfold Rdiv. rewrite (Rmult_assoc _ (/ ft)), Rinv_l, Rmult_1_r by lra.
    change (-53)%Z with (- (53))%Z. rewrite bpow_neg by lia. simpl.
    rewrite Hu24 in Hterr.
    apply Rle_lt_trans with
      ((9007199 - / 2) * / 9007199254740992
       * ((1 + / 16777216) * (1000000000 * IZR (Z.of_N c)))); [|lra].
    apply Rmult_le_compat_l; [lra|].
    apply Rle_trans with ((1 + / 16777216) * IZR (Z.of_N t)); [lra|].
    apply Rmult_le_compat_l; lra.
  - (* the rounded bin is at least 2^24, the rounded total at most
       2^24 * 10^9 *)
    assert (c < size_t_modulus)%N as Hc64' by (unfold size_t_modulus; lia).
    destruct (empirical_mass_nearest c t ltac:(lia) Ht64)
      as (E & Ec & Et & Hnc & Hnt & Hn).
    destruct (nearest_at_rel_error _ _ _ Hnt) as [Htpos _].
    assert (16777216 <= to_R (of_size_t c)) as Hc1.
    { replace 16777216 with (IZR (Zpos 8388608) * bpow 1).
      2:{ unfold bpow. simpl. lra. }
      apply (nearest_at_ge_float _ _ _ _ _ Hnc); [simpl; lia|].
      replace (IZR (Zpos 8388608) * bpow 1) with (IZR 16777216).
      2:{ unfold bpow. simpl. lra. }
      apply IZR_le. change 16777216%Z with (Z.of_N (2 ^ 24)). lia. }
    assert (to_R (of_size_t t) <= 16777216 * 1000000000) as Ht1.
    { replace (16777216 * 1000000000) with (IZR (Zpos 15625000) * bpow 30).
      2:{ rewrite bpow_IZR by lia. simpl. lra. }
      apply (nearest_at_le_float _ _ _ _ _ Hnt); [simpl; lia|].
      replace (IZR (Zpos 15625000) * bpow 30) with (IZR 16777216000000000).
      2:{ rewrite bpow_IZR by lia. simpl. lra. }
      apply IZR_le.
      change 16777216000000000%Z with (Z.of_N (2 ^ 24 * 1000000000)). lia. }
    unfold SMALL_EPSILON.
    apply (nearest_at_geb _ _ _ _ _ Hn); [simpl; lia|].
    apply (nearest_at_ge_float _ _ _ _ _ Hn); [simpl; lia|].
    apply Rle_trans with (/ 1000000000).
    + change (-53)%Z with (- (53))%Z. rewrite bpow_neg by lia. simpl.
      apply (Rmult_le_reg_r 9007199254740992); [lra|].
      rewrite Rmult_assoc, Rinv_l by lra. lra.
    + apply (Rmult_le_reg_r (to_R (of_size_t t))); [assumption|].
      unfold Rdiv. rewrite Rmult_assoc, Rinv_l by lra.
      apply (Rmult_le_reg_l 1000000000); [lra|].
      rewrite <- Rmult_assoc, Rinv_r by lra. lra.
Qed.


(** Beyond that total the binary32 quotient can fall below
    [SMALL_EPSILON] although the exact share is 10^-9: both conversions
    round, the bin downwards and the total upwards. *)
Lemma empirical_mass_extreme_total :
  (16777237000000000 = 1000000000 * 16777237)%N
  /\ geb (empirical_mass 16777237 16777237000000000) SMALL_EPSILON = false.
Proof. split; vm_compute; reflexivity. Qed.

Lemma empirical_mass_geb_value (c t : N) :
  (1 <= c < size_t_modulus)%N -> (1 <= t < size_t_modulus)%N ->
  geb (empirical_mass c t) SMALL_EPSILON = true ->
  to_R SMALL_EPSILON <= to_R (empirical_mass c t).
Proof.
  intros Hc Ht Hge.
  destruct (empirical_mass_nearest c t Hc Ht) as (E & _ & _ & _ & _ & Hn).
  apply (nearest_at_geb_inv _ _ _ _ _ Hn); [simpl; lia|exact Hge].
Qed.
End Threshold.

(** ** Histograms *)

Section HistogramFacts.
Context {Label : Type} `{Countable Label}.
Implicit Types (h : Histogram Label) (bins : gmap Label N).

Lemma sum_of_bins_empty : sum_of_bins (∅ : gmap Label N) = 0%N.
Proof. unfold sum_of_bins. apply map_fold_empty. Qed.

Lemma sum_of_bins_insert bins l c :
  bins !! l = None ->
  sum_of_bins (<[l := c]> bins) = (c + sum_of_bins bins)%N.
Proof.
  intros Hl. unfold sum_of_bins. apply map_fold_insert_L; [|assumption].
  intros. lia.
Qed.

Lemma sum_of_bins_delete bins l c :
  bins !! l = Some c ->
  sum_of_bins bins = (c + sum_of_bins (delete l bins))%N.
Proof.
  intros Hl. rewrite <- (insert_delete_id bins l c Hl) at 1.
  apply sum_of_bins_insert. apply lookup_delete_eq.
Qed.

Lemma lookup_le_sum_of_bins bins l c :
  bins !! l = Some c -> (c <= sum_of_bins bins)%N.
Proof. intros Hl. rewrite (sum_of_bins_delete _ _ _ Hl). lia. Qed.

Lemma sum_of_bins_zero bins :
  map_Forall (fun _ c => (0 < c)%N) bins -> sum_of_bins bins = 0%N -> bins = ∅.
Proof.
  intros Hpos Hsum. apply map_empty. intros l.
  destruct (bins !! l) as [c|] eqn:Hl; [exfalso|reflexivity].
  pose proof (Hpos l c Hl) as Hc. cbn in Hc.
  pose proof (lookup_le_sum_of_bins _ _ _ Hl). lia.
Qed.

Lemma histogram_ok_empty : histogram_ok (Histogram_empty (Label := Label)).
Proof.
  split; [apply map_Forall_empty|]. split; [apply sum_of_bins_empty|].
  reflexivity.
Qed.

(** [add] keeps the invariant as long as the 64-bit total does not wrap. *)
Lemma histogram_ok_add h l :
  histogram_ok h -> (get_count h + 1 < size_t_modulus)%N ->
  histogram_ok (Histogram_add l h).
Proof.
  intros (Hpos & Hsum & Hlt) Hroom. unfold Histogram_add, histogram_ok.
  cbn [get_bins get_count].
  rewrite (N.mod_small (get_count h + 1)) by assumption.
  assert (default 0%N (get_bins h !! l) <= get_count h)%N as Hle.
  { destruct (get_bins h !! l) as [c|] eqn:Hl; cbn; [|lia].
    rewrite <- Hsum. eapply lookup_le_sum_of_bins; eassumption. }
  rewrite N.mod_small by lia.
  split; [|split; [|assumption]].
  - intros l' c'. rewrite lookup_insert. case_decide.
    + intros [= <-]. lia.
    + apply Hpos.
  - destruct (get_bins h !! l) as [c|] eqn:Hl; cbn [default].
    + rewrite <- (insert_delete_eq (get_bins h)).
      rewrite sum_of_bins_insert by apply lookup_delete_eq.
      rewrite <- Hsum, (sum_of_bins_delete _ _ _ Hl).
      change (Datatypes.id c) with c. lia.
    + rewrite sum_of_bins_insert by assumption. lia.
Qed.

Lemma histogram_ok_of_labels (labels : list Label) :
  (N.of_nat (length labels) < size_t_modulus)%N ->
  histogram_ok (Histogram_of_labels labels)
  /\ get_count (Histogram_of_labels labels) = N.of_nat (length labels).
Proof.
  unfold Histogram_of_labels.
  induction labels as [|l labels IH] using rev_ind; intros Hlen.
  - split; [apply histogram_ok_empty|reflexivity].
  - rewrite length_app in Hlen. cbn [length] in Hlen.
    destruct IH as [IHok IHcount]; [lia|].
    rewrite foldl_app. cbn [foldl]. split.
    + apply histogram_ok_add; [assumption|]. rewrite IHcount. lia.
    + cbn [Histogram_add get_count]. rewrite IHcount, length_app.
      cbn [length]. rewrite N.mod_small by lia. lia.
Qed.

End HistogramFacts.

Lemma histogram_A3_B1_counts :
  histogram_A3_B1 = {| get_bins := {["A" := 3%N; "B" := 1%N]}; get_count := 4 |}.
Proof. vm_compute. reflexivity. Qed.

Lemma histogram_A3_B1_ok : histogram_ok histogram_A3_B1.
Proof. apply histogram_ok_of_labels. vm_compute. reflexivity. Qed.

(** ** The constructor of [ProbabilityMassFunction] *)

Section ConstructorFacts.
Context {Label : Type} `{Countable Label}.
Implicit Types (h : Histogram Label) (bins : gmap Label N).
Implicit Types (pmf : ProbabilityMassFunction Label).

Lemma constructor_fold ndebug count bins :
  ((ndebug = true \/ bins_pass count bins) ->
   map_fold (constructor_step ndebug count) (Some ∅) bins
   = Some ((fun c => empirical_mass c count) <$> bins))
  /\ (ndebug = false -> ~ bins_pass count bins ->
      map_fold (constructor_step ndebug count) (Some ∅) bins = None).
Proof.
  apply (map_fold_weak_ind (fun r (m : gmap Label N) =>
    ((ndebug = true \/ bins_pass count m) ->
       r = Some ((fun c => empirical_mass c count) <$> m))
    /\ (ndebug = false -> ~ bins_pass count m -> r = None))).
  - split.
    + intros _. rewrite fmap_empty. reflexivity.
    + intros _ Hno. exfalso. apply Hno, map_Forall_empty.
  - unfold bins_pass. intros l c m r Hl [IHsome IHnone]. split.
    + intros Hpass.
      assert (ndebug = true \/ bins_pass count m) as Hm.
      { destruct Hpass as [?|Hpass]; [left; assumption|right].
        apply map_Forall_insert in Hpass; [apply Hpass|assumption]. }
      assert (ndebug || F32.geb (empirical_mass c count) SMALL_EPSILON = true)
        as Hassert.
      { destruct Hpass as [->|Hpass]; [reflexivity|].
        apply map_Forall_insert in Hpass; [|assumption].
        destruct Hpass as [-> _]. apply orb_true_r. }
      rewrite (IHsome Hm). unfold constructor_step, c_assert.
      cbn [mbind option_bind]. rewrite Hassert. cbn [mbind option_bind].
      unfold std_map_insert. rewrite lookup_fmap, Hl. cbn [fmap option_fmap option_map].
      rewrite fmap_insert. reflexivity.
    + intros -> Hno.
      destruct (decide (bins_pass count m)) as [Hm|Hm]; unfold bins_pass in Hm.
      * rewrite (IHsome (or_intror Hm)). unfold constructor_step, c_assert.
        cbn [mbind option_bind orb].
        destruct (F32.geb (empirical_mass c count) SMALL_EPSILON) eqn:Hc;
          [|reflexivity].
        exfalso. apply Hno. apply map_Forall_insert; [assumption|]. auto.
      * rewrite (IHnone eq_refl Hm). reflexivity.
Qed.

Lemma make_pmf_Some ndebug h :
  ndebug = true \/ bins_pass (get_count h) (get_bins h) ->
  make_pmf ndebug h
  = Some {| get_masses :=
              (fun c => empirical_mass c (get_count h)) <$> get_bins h |}.
Proof.
  intros Hpass. unfold make_pmf.
  rewrite (proj1 (constructor_fold ndebug _ _) Hpass). reflexivity.
Qed.

Lemma make_pmf_None h :
  ~ bins_pass (get_count h) (get_bins h) -> make_pmf false h = None.
Proof.
  intros Hno. unfold make_pmf.
  rewrite (proj2 (constructor_fold false _ _) eq_refl Hno). reflexivity.
Qed.

(** Whatever the build, a constructed PMF holds the empirical masses. *)
Lemma make_pmf_inv ndebug h pmf :
  make_pmf ndebug h = Some pmf ->
  get_masses pmf = (fun c => empirical_mass c (get_count h)) <$> get_bins h.
Proof.
  intros Hmk.
  destruct (decide (bins_pass (get_count h) (get_bins h))) as [Hp|Hp].
  - rewrite make_pmf_Some in Hmk by (right; exact Hp).
    injection Hmk as <-. reflexivity.
  - destruct ndebug.
    + rewrite make_pmf_Some in Hmk by (left; reflexivity).
      injection Hmk as <-. reflexivity.
    + rewrite make_pmf_None in Hmk by assumption. discriminate.
Qed.

(** *** Sums of masses *)

Lemma sum_of_masses_empty :
  sum_of_masses {| get_masses := (∅ : gmap Label spec_float) |} = 0%R.
Proof. unfold sum_of_masses. cbn. apply map_fold_empty. Qed.

Lemma sum_of_masses_insert (m : gmap Label spec_float) l x :
  m !! l = None ->
  sum_of_masses {| get_masses := <[l := x]> m |}
  = (F32.to_R x + sum_of_masses {| get_masses := m |})%R.
Proof.
  intros Hl. unfold sum_of_masses. cbn [get_masses].
  apply (map_fold_insert_L (fun _ mass acc => (F32.to_R mass + acc)%R));
    [|assumption].
  intros. lra.
Qed.

Lemma sum_of_masses_error count bins :
  (1 <= count < size_t_modulus)%N ->
  map_Forall (fun _ c => (1 <= c < size_t_modulus)%N) bins ->
  (Rabs (sum_of_masses
           {| get_masses := (fun c => empirical_mass c count) <$> bins |}
         - IZR (Z.of_N (sum_of_bins bins)) / IZR (Z.of_N count))
   <= F32.bpow (-22) * (IZR (Z.of_N (sum_of_bins bins)) / IZR (Z.of_N count)))%R.
Proof.
  intros Hcount. induction bins as [|l c bins Hl IH] using map_ind; intros Hb.
  - rewrite fmap_empty, sum_of_masses_empty, sum_of_bins_empty. cbn.
    unfold Rdiv. rewrite Rmult_0_l, Rminus_diag, Rabs_R0. lra.
  - apply map_Forall_insert in Hb as [Hc Hb]; [|assumption].
    specialize (IH Hb).
    rewrite fmap_insert, sum_of_masses_insert
      by (rewrite lookup_fmap, Hl; reflexivity).
    rewrite sum_of_bins_insert by assumption.
    rewrite N2Z.inj_add, plus_IZR.
    destruct (empirical_mass_accuracy c count Hc Hcount) as (_ & _ & Hacc & _).
    set (s := sum_of_masses _) in *.
    set (x := F32.to_R (empirical_mass c count)) in *.
    replace (x + s - (IZR (Z.of_N c) + IZR (Z.of_N (sum_of_bins bins)))
                       / IZR (Z.of_N count))%R
      with ((x - IZR (Z.of_N c) / IZR (Z.of_N count))
            + (s - IZR (Z.of_N (sum_of_bins bins)) / IZR (Z.of_N count)))%R.
    2:{ field. apply not_0_IZR. lia. }
    eapply Rle_trans; [apply Rabs_triang|].
    replace ((IZR (Z.of_N c) + IZR (Z.of_N (sum_of_bins bins)))
             / IZR (Z.of_N count))%R
      with (IZR (Z.of_N c) / IZR (Z.of_N count)
            + IZR (Z.of_N (sum_of_bins bins)) / IZR (Z.of_N count))%R.
    2:{ field. apply not_0_IZR. lia. }
    lra.
Qed.

Lemma bpow_m22_lt : (F32.bpow (-22) <= / 1000000)%R.
Proof.
  change (-22)%Z with (- (22))%Z. rewrite bpow_neg by lia. simpl.
  apply Rinv_le_contravar; lra.
Qed.

(** The bins of a well-formed histogram are 64-bit and at most the total. *)
Lemma histogram_ok_bins h :
  histogram_ok h ->
  map_Forall (fun _ c => (1 <= c < size_t_modulus)%N /\ (c <= get_count h)%N)
    (get_bins h).
Proof.
  intros (Hpos & Hsum & Hlt) l c Hl. cbn.
  pose proof (Hpos l c Hl) as Hc. cbn in Hc.
  pose proof (lookup_le_sum_of_bins _ _ _ Hl). lia.
Qed.

End ConstructorFacts.


(** ** Claims about the constructor *)

Section ConstructorClaims.
Context {Label : Type} `{Countable Label}.
Implicit Types (h : Histogram Label) (pmf : ProbabilityMassFunction Label).

Lemma constructed_mass_facts h l c :
  histogram_ok h -> (0 < get_count h)%N -> get_bins h !! l = Some c ->
  (0 < F32.to_R (empirical_mass c (get_count h)) <= 1)%R
  /\ F32.gtb (empirical_mass c (get_count h)) F32.zero = true
  /\ (Rabs (F32.to_R (empirical_mass c (get_count h))
             - IZR (Z.of_N c) / IZR (Z.of_N (get_count h)))
       <= F32.bpow (-22) * (IZR (Z.of_N c) / IZR (Z.of_N (get_count h))))%R.
Proof.
  intros Hok Hcount Hl.
  destruct (histogram_ok_bins h Hok l c Hl) as [Hc Hle].
  destruct Hok as (_ & _ & Hlt).
  destruct (empirical_mass_accuracy c (get_count h) Hc ltac:(lia))
    as (Hpos & Hgt & Hacc & Hle1).
  auto.
Qed.

Lemma constructed_sum_bound h :
  histogram_ok h -> (0 < get_count h)%N ->
  (Rabs (sum_of_masses
           {| get_masses :=
                (fun c => empirical_mass c (get_count h)) <$> get_bins h |}
         - 1) <= / 1000000)%R.
Proof.
  intros Hok Hcount.
  pose proof (histogram_ok_bins h Hok) as Hbins.
  destruct Hok as (Hpos & Hsum & Hlt).
  assert (1 <= get_count h < size_t_modulus)%N as Hc by lia.
  eapply Rle_trans; [|apply bpow_m22_lt].
  pose proof (sum_of_masses_error (get_count h) (get_bins h) Hc) as Herr.
  rewrite Hsum in Herr.
  replace (IZR (Z.of_N (get_count h)) / IZR (Z.of_N (get_count h)))%R
    with 1%R in Herr
    by (field; apply not_0_IZR; lia).
  rewrite Rmult_1_r in Herr. apply Herr.
  intros l c Hl. apply (Hbins l c Hl).
Qed.

(** Every PMF the constructor makes from a well-formed histogram with a
    positive total satisfies the invariant of a PMF. *)
Lemma make_pmf_is_pmf ndebug h pmf :
  histogram_ok h -> (0 < get_count h)%N ->
  make_pmf ndebug h = Some pmf -> is_pmf pmf.
Proof.
  intros Hok Hcount Hmk. apply make_pmf_inv in Hmk.
  destruct pmf as [m]. cbn [get_masses] in Hmk. subst m. split.
  - intros l x. cbn [get_masses]. rewrite lookup_fmap.
    destruct (get_bins h !! l) as [c|] eqn:Hl; [|discriminate].
    intros [= <-]. apply (constructed_mass_facts h l c Hok Hcount Hl).
  - apply constructed_sum_bound; assumption.
Qed.

(** C1.  For every histogram with a positive total whose bins sum to the
    total, the constructor gives each label the mass
    [fl(fl(count(label)) / fl(total))], which lies within relative distance
    2^-22 of the exact quotient count(label)/total; the masses sum to 1
    within 10^-6, and every mass is strictly positive (as a real number and
    for the test [mass > 0] of the code).  The constructor returns this PMF
    when assertions are compiled out, and returns no other PMF when they
    are not. *)
Theorem make_pmf_masses h :
  histogram_ok h -> (0 < get_count h)%N ->
  exists pmf,
    make_pmf true h = Some pmf
    /\ (forall ndebug pmf', make_pmf ndebug h = Some pmf' -> pmf' = pmf)
    /\ (forall l,
          get_masses pmf !! l
          = (fun c => empirical_mass c (get_count h)) <$> get_bins h !! l)
    /\ (forall l c, get_bins h !! l = Some c ->
          (Rabs (F32.to_R (empirical_mass c (get_count h))
                 - IZR (Z.of_N c) / IZR (Z.of_N (get_count h)))
           <= F32.bpow (-22)
              * (IZR (Z.of_N c) / IZR (Z.of_N (get_count h))))%R)
    /\ (Rabs (sum_of_masses pmf - 1) <= / 1000000)%R
    /\ map_Forall (fun _ mass =>
         F32.gtb mass F32.zero = true /\ (0 < F32.to_R mass)%R)
         (get_masses pmf).
Proof.
  intros Hok Hcount.
  eexists. split; [apply make_pmf_Some; left; reflexivity|].
  split; [|split; [|split; [|split]]].
  - intros ndebug [masses'] Hmk. apply make_pmf_inv in Hmk.
    cbn in Hmk. rewrite Hmk. reflexivity.
  - intros l. cbn [get_masses]. apply lookup_fmap.
  - intros l c Hl. apply (constructed_mass_facts h l c Hok Hcount Hl).
  - apply constructed_sum_bound; assumption.
  - intros l x. cbn [get_masses]. rewrite lookup_fmap.
    destruct (get_bins h !! l) as [c|] eqn:Hl; [|discriminate].
    intros [= <-].
    destruct (constructed_mass_facts h l c Hok Hcount Hl) as ([Hp _] & Hg & _).
    split; assumption.
Qed.

(** C3, as the code behaves.  A histogram with total 0 has no bins, so
    the loop of the constructor does not run: no assertion is evaluated
    and the construction succeeds in every build.  The result has no
    masses; they sum to 0, so it is not a normalised PMF. *)
Theorem make_pmf_of_empty_total ndebug h :
  histogram_ok h -> get_count h = 0%N ->
  get_bins h = ∅
  /\ make_pmf ndebug h = Some {| get_masses := ∅ |}
  /\ sum_of_masses {| get_masses := (∅ : gmap Label spec_float) |} = 0%R
  /\ ~ is_pmf {| get_masses := (∅ : gmap Label spec_float) |}.
Proof.
  intros (Hpos & Hsum & _) Hzero.
  assert (get_bins h = ∅) as Hbins.
  { apply sum_of_bins_zero; [assumption|]. rewrite Hsum. assumption. }
  split; [assumption|]. split; [|split].
  - unfold make_pmf. rewrite Hbins, map_fold_empty. reflexivity.
  - apply sum_of_masses_empty.
  - intros [_ Hsum1]. rewrite sum_of_masses_empty in Hsum1.
    apply Rabs_le_inv in Hsum1. lra.
Qed.

(** C4.  With assertions enabled, the constructor succeeds exactly when
    the empirical mass of every bin passes [mass >= SMALL_EPSILON], and
    then every mass of the PMF is bounded below by [SMALL_EPSILON]; a
    single bin whose mass fails the test makes the construction fail.
    The test passes for every bin whose exact share bin/count is at least
    10^-9 as long as the total is at most 2^24 * 10^9, and so for every
    well-formed histogram of at most 10^9 examples. *)
Theorem make_pmf_assertion h :
  (bins_pass (get_count h) (get_bins h) ->
   make_pmf false h
   = Some {| get_masses :=
               (fun c => empirical_mass c (get_count h)) <$> get_bins h |})
  /\ (forall l c, get_bins h !! l = Some c ->
        F32.geb (empirical_mass c (get_count h)) SMALL_EPSILON = false ->
        make_pmf false h = None)
  /\ (forall pmf, make_pmf false h = Some pmf ->
        map_Forall (fun _ mass => F32.geb mass SMALL_EPSILON = true)
          (get_masses pmf))
  /\ (forall pmf, histogram_ok h -> (0 < get_count h)%N ->
        make_pmf false h = Some pmf ->
        map_Forall (fun _ mass =>
          (F32.to_R SMALL_EPSILON <= F32.to_R mass)%R) (get_masses pmf))
  /\ (histogram_ok h -> (get_count h <= 2 ^ 24 * 1000000000)%N ->
        map_Forall (fun _ c => (get_count h <= 1000000000 * c)%N)
          (get_bins h) ->
        bins_pass (get_count h) (get_bins h))
  /\ (histogram_ok h -> (get_count h <= 1000000000)%N ->
        bins_pass (get_count h) (get_bins h)).
Proof.
  assert (forall pmf, make_pmf false h = Some pmf ->
            map_Forall (fun _ mass => F32.geb mass SMALL_EPSILON = true)
              (get_masses pmf)) as Hbound.
  { intros pmf Hmk l x Hx.
    destruct (decide (bins_pass (get_count h) (get_bins h))) as [Hp|Hp].
    - rewrite (make_pmf_inv _ _ _ Hmk), lookup_fmap in Hx.
      destruct (get_bins h !! l) as [c|] eqn:Hl; [|discriminate].
      injection Hx as <-. exact (Hp l c Hl).
    - rewrite make_pmf_None in Hmk by assumption. discriminate. }
  assert (histogram_ok h -> (get_count h <= 2 ^ 24 * 1000000000)%N ->
          map_Forall (fun _ c => (get_count h <= 1000000000 * c)%N)
            (get_bins h) ->
          bins_pass (get_count h) (get_bins h)) as Hshare.
  { intros Hok Hcount Hbins l c Hl.
    destruct (histogram_ok_bins h Hok l c Hl) as [Hc Hle].
    apply empirical_mass_exact_share; [lia|assumption|exact (Hbins l c Hl)]. }
  split; [|split; [|split; [|split; [|split]]]].
  - intros Hpass. apply make_pmf_Some. right. assumption.
  - intros l c Hl Hfail. apply make_pmf_None. intros Hpass.
    specialize (Hpass l c Hl). cbn in Hpass. congruence.
  - exact Hbound.
  - intros pmf Hok Hcount Hmk l x Hx.
    pose proof (Hbound pmf Hmk l x Hx) as Hge. cbn in Hge.
    rewrite (make_pmf_inv _ _ _ Hmk), lookup_fmap in Hx.
    destruct (get_bins h !! l) as [c|] eqn:Hl; [|discriminate].
    injection Hx as <-.
    destruct (histogram_ok_bins h Hok l c Hl) as [Hc Hle].
    destruct Hok as (_ & _ & Hlt).
    apply empirical_mass_geb_value; [assumption|lia|assumption].
  - exact Hshare.
  - intros Hok Hcount. apply Hshare; [assumption|lia|].
    intros l c Hl. destruct (histogram_ok_bins h Hok l c Hl) as [Hc Hle].
    cbn. lia.
Qed.

End ConstructorClaims.

Lemma make_pmf_masses_witness :
  histogram_ok histogram_A3_B1 /\ (0 < get_count histogram_A3_B1)%N
  /\ exists pmf,
       make_pmf true histogram_A3_B1 = Some pmf
       /\ (forall ndebug pmf',
             make_pmf ndebug histogram_A3_B1 = Some pmf' -> pmf' = pmf)
       /\ (forall l,
             get_masses pmf !! l
             = (fun c => empirical_mass c (get_count histogram_A3_B1))
                 <$> get_bins histogram_A3_B1 !! l)
       /\ (forall l c, get_bins histogram_A3_B1 !! l = Some c ->
             (Rabs (F32.to_R (empirical_mass c (get_count histogram_A3_B1))
                    - IZR (Z.of_N c)
                      / IZR (Z.of_N (get_count histogram_A3_B1)))
              <= F32.bpow (-22)
                 * (IZR (Z.of_N c)
                    / IZR (Z.of_N (get_count histogram_A3_B1))))%R)
       /\ (Rabs (sum_of_masses pmf - 1) <= / 1000000)%R
       /\ map_Forall (fun _ mass =>
            F32.gtb mass F32.zero = true /\ (0 < F32.to_R mass)%R)
            (get_masses pmf).
Proof.
  split; [apply histogram_A3_B1_ok|]. split; [vm_compute; reflexivity|].
  apply (make_pmf_masses histogram_A3_B1).
  - apply histogram_A3_B1_ok.
  - vm_compute. reflexivity.
Defined.

(** C3, as stated, fails on the empty histogram: its total is 0 and the
    construction succeeds. *)
Lemma make_pmf_empty_histogram_succeeds :
  ~ (get_count (Histogram_empty (Label := string)) = 0%N ->
     make_pmf false (Histogram_empty (Label := string)) = None).
Proof.
  intros Hfail. specialize (Hfail eq_refl). vm_compute in Hfail.
  discriminate.
Qed.

Lemma make_pmf_of_empty_total_witness :
  histogram_ok (Histogram_empty (Label := string))
  /\ get_count (Histogram_empty (Label := string)) = 0%N
  /\ get_bins (Histogram_empty (Label := string)) = ∅
  /\ make_pmf false (Histogram_empty (Label := string))
     = Some {| get_masses := ∅ |}
  /\ sum_of_masses {| get_masses := (∅ : gmap string spec_float) |} = 0%R
  /\ ~ is_pmf {| get_masses := (∅ : gmap string spec_float) |}.
Proof.
  split; [apply histogram_ok_empty|]. split; [reflexivity|].
  apply (make_pmf_of_empty_total false Histogram_empty).
  - apply histogram_ok_empty.
  - reflexivity.
Defined.

Lemma make_pmf_assertion_witness :
  (histogram_ok histogram_A3_B1
   /\ (get_count histogram_A3_B1 <= 1000000000)%N
   /\ make_pmf false histogram_A3_B1
      = Some {| get_masses :=
                  (fun c => empirical_mass c (get_count histogram_A3_B1))
                    <$> get_bins histogram_A3_B1 |})
  /\ (get_bins histogram_skewed !! "A" = Some 1%N
      /\ F32.geb (empirical_mass 1 (get_count histogram_skewed))
           SMALL_EPSILON = false
      /\ make_pmf false histogram_skewed = None).
Proof.
  destruct (make_pmf_assertion histogram_A3_B1)
    as (Hsome & _ & _ & _ & _ & Hmoderate).
  destruct (make_pmf_assertion histogram_skewed) as (_ & Hnone & _).
  split.
  - split; [apply histogram_A3_B1_ok|]. split; [vm_compute; discriminate|].
    apply Hsome, Hmoderate; [apply histogram_A3_B1_ok|].
    vm_compute. discriminate.
  - split; [vm_compute; reflexivity|]. split; [vm_compute; reflexivity|].
    apply (Hnone "A" 1%N); vm_compute; reflexivity.
Defined.

(** ** The entropy *)

Section Logarithm.
Open Scope R_scope.

Lemma ln2_pos : 0 < ln 2.
Proof. pose proof ln_lt_2. lra. Qed.

Lemma log2_1 : log2 1 = 0.
Proof. unfold log2. rewrite ln_1. unfold Rdiv. apply Rmult_0_l. Qed.

Lemma log2_nonpos p : 0 < p <= 1 -> log2 p <= 0.
Proof.
  intros [Hp [Hlt| ->]]; [|rewrite log2_1; lra].
  unfold log2. pose proof ln2_pos as H2.
  pose proof (ln_increasing p 1 Hp Hlt) as Hln. rewrite ln_1 in Hln.
  apply Rlt_le. unfold Rdiv.
  replace 0 with (0 * / ln 2) by ring.
  apply Rmult_lt_compat_r; [apply Rinv_0_lt_compat|]; assumption.
Qed.

Lemma log2_eq_0 p : 0 < p -> log2 p = 0 -> p = 1.
Proof.
  intros Hp Hlog. unfold log2 in Hlog. pose proof ln2_pos as H2.
  apply (ln_inv p 1 Hp Rlt_0_1). rewrite ln_1.
  apply (Rmult_eq_reg_r (/ ln 2)); [|apply Rinv_neq_0_compat; lra].
  rewrite Rmult_0_l. exact Hlog.
Qed.

Lemma log2_inv x : 0 < x -> log2 (/ x) = - log2 x.
Proof.
  intros Hx. unfold log2. rewrite ln_Rinv by assumption.
  field. pose proof ln2_pos. lra.
Qed.

Lemma plogp_nonpos p : 0 < p <= 1 -> p * log2 p <= 0.
Proof.
  intros Hp. pose proof (log2_nonpos p Hp). destruct Hp as [Hp _]. nra.
Qed.

Lemma plogp_eq_0 p : 0 < p -> p * log2 p = 0 -> p = 1.
Proof.
  intros Hp H0. apply log2_eq_0; [assumption|].
  apply Rmult_integral in H0 as [H0|H0]; [lra|assumption].
Qed.

(** 198/125 < log2(3) < 317/200, from 2^198 < 3^125 and 3^200 < 2^317. *)
Lemma log2_3_bounds : 198 / 125 < log2 3 < 317 / 200.
Proof.
  pose proof ln2_pos as H2. unfold log2.
  assert (198 * ln 2 < 125 * ln 3) as Hlo.
  { replace 198 with (INR 198) by (rewrite INR_IZR_INZ; reflexivity).
    replace 125 with (INR 125) by (rewrite INR_IZR_INZ; reflexivity).
    rewrite <- !ln_pow by lra.
    apply ln_increasing; [apply pow_lt; lra|].
    rewrite !pow_IZR. apply IZR_lt. vm_compute. reflexivity. }
  assert (200 * ln 3 < 317 * ln 2) as Hhi.
  { replace 200 with (INR 200) by (rewrite INR_IZR_INZ; reflexivity).
    replace 317 with (INR 317) by (rewrite INR_IZR_INZ; reflexivity).
    rewrite <- !ln_pow by lra.
    apply ln_increasing; [apply pow_lt; lra|].
    rewrite !pow_IZR. apply IZR_lt. vm_compute. reflexivity. }
  split.
  - apply (Rmult_lt_reg_r (ln 2)); [assumption|].
    unfold Rdiv at 2. rewrite Rmult_assoc, Rinv_l by lra. lra.
  - apply (Rmult_lt_reg_r (ln 2)); [assumption|].
    unfold Rdiv at 1. rewrite Rmult_assoc, Rinv_l by lra. lra.
Qed.

Lemma log2_quarter : log2 (/ 4) = -2.
Proof.
  rewrite log2_inv by lra. unfold log2. pose proof ln2_pos.
  replace 4 with (2 ^ 2) by ring. rewrite ln_pow by lra. simpl INR.
  field. lra.
Qed.

Lemma log2_three_quarters : log2 (3 / 4) = log2 3 - 2.
Proof.
  unfold log2. pose proof ln2_pos.
  replace (3 / 4) with (3 * / 4) by lra.
  rewrite ln_mult, ln_Rinv by lra.
  replace 4 with (2 ^ 2) by ring. rewrite ln_pow by lra. simpl INR.
  field. lra.
Qed.
End Logarithm.

Lemma one_value : F32.to_R F32.one = 1%R.
Proof.
  change F32.one with (S754_finite false 8388608 (-23)).
  unfold F32.to_R. change (-23)%Z with (- (23))%Z. rewrite bpow_neg by lia.
  simpl. lra.
Qed.


Lemma float_0_75_value : F32.to_R float_0_75 = (3 / 4)%R.
Proof.
  unfold float_0_75, F32.to_R. change (-24)%Z with (- (24))%Z.
  rewrite bpow_neg by lia. simpl. lra.
Qed.

Lemma float_0_25_value : F32.to_R float_0_25 = (/ 4)%R.
Proof.
  unfold float_0_25, F32.to_R. change (-25)%Z with (- (25))%Z.
  rewrite bpow_neg by lia. simpl. lra.
Qed.

Lemma make_pmf_A3_B1 ndebug : make_pmf ndebug histogram_A3_B1 = Some pmf_A3_B1.
Proof. destruct ndebug; vm_compute; reflexivity. Qed.

(** ** The example reservoir *)

Section ReservoirFacts.
Context {Example : Type}.
Variable cc : bool.
Implicit Types (s : ExampleStore Example) (x : Example).

Lemma store_add_capacity draw x s :
  capacity (store_add cc draw x s) = capacity s.
Proof.
  unfold store_add. destruct (length (examples s) <? capacity s);
    [reflexivity|]. destruct (chosen_slot s _); reflexivity.
Qed.

Lemma store_add_seen draw x s : seen (store_add cc draw x s) = S (seen s).
Proof.
  unfold store_add. destruct (length (examples s) <? capacity s);
    [reflexivity|]. destruct (chosen_slot s _); reflexivity.
Qed.

Lemma store_add_length draw x s :
  length (examples s) <= capacity s ->
  length (examples (store_add cc draw x s))
  = Nat.min (S (length (examples s))) (capacity s).
Proof.
  intros Hle. unfold store_add.
  destruct (Nat.ltb_spec (length (examples s)) (capacity s)) as [Hlt|Hge].
  - cbn [examples]. rewrite length_app. cbn [length]. lia.
  - destruct (chosen_slot s _); cbn [examples]; rewrite ?length_insert; lia.
Qed.

Lemma store_add_all_spec xs s :
  length (examples s) <= capacity s ->
  capacity (store_add_all cc xs s) = capacity s
  /\ seen (store_add_all cc xs s) = seen s + length xs
  /\ length (examples (store_add_all cc xs s))
     = Nat.min (length (examples s) + length xs) (capacity s).
Proof.
  unfold store_add_all. revert s.
  induction xs as [|[d x] xs IH]; intros s Hle; cbn [foldl length fst snd].
  - repeat split; lia.
  - pose proof (store_add_length d x s Hle) as Hlen.
    destruct (IH (store_add cc d x s)) as (Hc & Hs & Hl).
    { rewrite store_add_capacity. lia. }
    rewrite Hc, Hs, Hl, store_add_capacity, store_add_seen, Hlen.
    repeat split; lia.
Qed.

(** A full store: what one more [add] does, draw by draw. *)
Lemma store_add_full draw x s :
  length (examples s) = capacity s ->
  draw < capacity s + seen_beyond cc s ->
  examples (store_add cc draw x s)
  = match chosen_slot s draw with
    | Some slot => <[slot := x]> (examples s)
    | None => examples s
    end.
Proof.
  intros Hfull Hdraw. unfold store_add.
  rewrite (proj2 (Nat.ltb_ge _ _)) by lia.
  rewrite Nat.mod_small by assumption.
  destruct (chosen_slot s draw); reflexivity.
Qed.

Lemma filter_Forall_id (P : nat -> Prop) `{forall r, Decision (P r)}
  (l : list nat) : Forall P l -> filter P l = l.
Proof.
  induction 1 as [|r l Hr _ IH]; [reflexivity|].
  rewrite filter_cons_True by assumption. f_equal. exact IH.
Qed.

Lemma filter_Forall_nil (P : nat -> Prop) `{forall r, Decision (P r)}
  (l : list nat) : Forall (fun r => ~ P r) l -> filter P l = [].
Proof.
  induction 1 as [|r l Hr _ IH]; [reflexivity|].
  rewrite filter_cons_False by assumption. exact IH.
Qed.

Lemma replacing_draws_spec s : replacing_draws cc s = seq 0 (capacity s).
Proof.
  unfold replacing_draws. rewrite seq_app, filter_app.
  rewrite filter_Forall_id, filter_Forall_nil; [apply app_nil_r| |].
  - apply Forall_seq. intros r Hr. unfold chosen_slot.
    rewrite (proj2 (Nat.ltb_ge _ _)) by lia. intros [? [=]].
  - apply Forall_seq. intros r Hr. unfold chosen_slot.
    rewrite (proj2 (Nat.ltb_lt _ _)) by lia. eexists. reflexivity.
Qed.

Lemma draws_for_slot_spec s slot :
  slot < capacity s -> draws_for_slot cc s slot = [slot].
Proof.
  intros Hslot. unfold draws_for_slot.
  replace (capacity s + seen_beyond cc s)
    with (slot + (1 + (capacity s + seen_beyond cc s - slot - 1))) by lia.
  rewrite seq_app, filter_app, seq_app, filter_app. cbn [seq].
  assert (forall r, r <> slot -> chosen_slot s r <> Some slot) as Hne.
  { intros r Hr. unfold chosen_slot.
    destruct (r <? capacity s); [|discriminate]. intros [= ->]. auto. }
  rewrite filter_Forall_nil by (apply Forall_seq; intros r Hr; apply Hne; lia).
  rewrite (filter_Forall_nil _ (seq _ _))
    by (apply Forall_seq; intros r Hr; apply Hne; lia).
  rewrite filter_cons_True; [reflexivity|].
  unfold chosen_slot. rewrite (proj2 (Nat.ltb_lt _ _)) by lia. reflexivity.
Qed.

End ReservoirFacts.

(** ** Claim about the example reservoir *)

Section ReservoirClaims.
Context {Example : Type}.
Implicit Types (s : ExampleStore Example) (x : Example).

(** C7.  After N > K examples have been added one at a time to a store of
    capacity K, the store holds exactly K examples, and it never held
    more than K.  Each add beyond the first K replaces an existing slot
    with probability K / (K + n), where n is the number of examples seen
    beyond the first K (under either convention on counting the example
    being added): of the K + n equally likely draws, K replace a slot,
    one draw for each slot, and the other n leave the store unchanged. *)
Theorem reservoir_size_and_replacement (count_current : bool) (K : nat)
  (xs : list (nat * Example)) :
  K < length xs ->
  length (examples (store_add_all count_current xs (store_new K))) = K
  /\ (forall pre post, xs = pre ++ post ->
        length (examples (store_add_all count_current pre (store_new K)))
        <= K)
  /\ (forall pre d x post, xs = pre ++ (d, x) :: post -> K <= length pre ->
        let s := store_add_all count_current pre (store_new K) in
        let n := seen_beyond count_current s in
        n = length pre + (if count_current then 1 else 0) - K
        /\ capacity s = K
        /\ length (examples s) = K
        /\ replacement_probability count_current s
           = (INR K / INR (K + n))%R
        /\ (forall slot, slot < K ->
              draws_for_slot count_current s slot = [slot])
        /\ (forall r, r < K + n ->
              examples (store_add count_current r x s)
              = match chosen_slot s r with
                | Some slot => <[slot := x]> (examples s)
                | None => examples s
                end)).
Proof.
  intros HN.
  assert (forall ys : list (nat * Example),
            capacity (store_add_all count_current ys (store_new K)) = K
            /\ seen (store_add_all count_current ys (store_new K))
               = length ys
            /\ length (examples
                         (store_add_all count_current ys (store_new K)))
               = Nat.min (length ys) K) as Hspec.
  { intros ys.
    destruct (store_add_all_spec count_current ys (store_new K))
      as (Hc & Hs & Hl).
    - cbn. lia.
    - cbn in *. auto. }
  split; [|split].
  - destruct (Hspec xs) as (_ & _ & ->). lia.
  - intros pre post _. destruct (Hspec pre) as (_ & _ & ->). lia.
  - intros pre d x post Hxs Hpre s n.
    destruct (Hspec pre) as (Hc & Hs & Hl). fold s in Hc, Hs, Hl.
    assert (n = length pre + (if count_current then 1 else 0) - K) as Hn.
    { unfold n, seen_beyond. rewrite Hc, Hs. destruct count_current; lia. }
    assert (length (examples s) = K) as Hfull by lia.
    split; [exact Hn|]. split; [exact Hc|]. split; [exact Hfull|].
    split; [|split].
    + unfold replacement_probability. rewrite replacing_draws_spec.
      rewrite length_seq, Hc. reflexivity.
    + intros slot Hslot. apply draws_for_slot_spec. lia.
    + intros r Hr. apply store_add_full; [lia|]. rewrite Hc. exact Hr.
Qed.

End ReservoirClaims.

Lemma reservoir_size_and_replacement_witness :
  2 < length [(0, "a"); (0, "b"); (1, "c")]
  /\ length (examples (store_add_all true [(0, "a"); (0, "b"); (1, "c")]
                        (store_new 2))) = 2
  /\ replacement_probability true
       (store_add_all true [(0, "a"); (0, "b")]
          (store_new (Example := string) 2))
     = (INR 2 / INR (2 + 1))%R
  /\ examples (store_add_all true [(0, "a"); (0, "b"); (1, "c")]
                 (store_new 2))
     = ["a"; "c"].
Proof.
  destruct (reservoir_size_and_replacement true 2
              [(0, "a"); (0, "b"); (1, "c")] ltac:(cbn; lia))
    as (Hsize & _ & Hadd).
  destruct (Hadd [(0, "a"); (0, "b")] 1 "c" [] eq_refl ltac:(cbn; lia))
    as (_ & _ & _ & Hprob & _).
  split; [cbn; lia|]. split; [exact Hsize|]. split; [exact Hprob|].
  reflexivity.
Defined.

(** ** The image helpers: index arithmetic *)

Section IndexFacts.
Open Scope Z_scope.

Lemma in_int_Some z : INT_MIN <= z <= INT_MAX -> in_int z = Some z.
Proof.
  intros [Hlo Hhi]. unfold in_int.
  rewrite (proj2 (Z.leb_le _ _) Hlo), (proj2 (Z.leb_le _ _) Hhi). reflexivity.
Qed.

(** Row-major index to column-major index, for an image of width [w] and
    height [h]. *)
Lemma transposed_range w h i :
  0 < w -> 0 < h -> 0 <= i < w * h ->
  0 <= i / w < h /\ 0 <= i mod w < w
  /\ 0 <= (i mod w) * h + i / w < w * h.
Proof.
  intros Hw Hh Hi.
  assert (0 <= i / w < h) as Hrow.
  { split; [apply Z.div_pos; lia|]. apply Z.div_lt_upper_bound; lia. }
  pose proof (Z.mod_pos_bound i w Hw) as Hcol.
  split; [assumption|]. split; [assumption|]. nia.
Qed.

(** Transposing there and back gives the index back. *)
Lemma transposed_inverse w h i :
  0 < w -> 0 < h -> 0 <= i < w * h ->
  (((i mod w) * h + i / w) mod h) * w + ((i mod w) * h + i / w) / h = i.
Proof.
  intros Hw Hh Hi.
  destruct (transposed_range w h i Hw Hh Hi) as (Hrow & Hcol & _).
  replace ((i mod w) * h + i / w) with (i / w + (i mod w) * h) by lia.
  rewrite Z.mod_add, Z.div_add by lia.
  rewrite (Z.mod_small (i / w) h), (Z.div_small (i / w) h) by lia.
  pose proof (Z.div_mod i w ltac:(lia)). lia.
Qed.

Lemma transposed_injective w h i k :
  0 < w -> 0 < h -> 0 <= i < w * h -> 0 <= k < w * h ->
  (i mod w) * h + i / w = (k mod w) * h + k / w -> i = k.
Proof.
  intros Hw Hh Hi Hk Heq.
  rewrite <- (transposed_inverse w h i), <- (transposed_inverse w h k)
    by assumption.
  rewrite Heq. reflexivity.
Qed.

(** The index computations of the helpers, on a valid pixel index. *)
Lemma row_major_to_column_major w h i :
  0 < w -> 0 < h -> w * h <= INT_MAX -> 0 <= i < w * h ->
  int_div i w = Some (i / w) /\ int_rem i w = Some (i mod w)
  /\ int_mul (i mod w) h = Some ((i mod w) * h)
  /\ int_add ((i mod w) * h) (i / w) = Some ((i mod w) * h + i / w).
Proof.
  intros Hw Hh Hmax Hi.
  destruct (transposed_range w h i Hw Hh Hi) as (Hrow & Hcol & Hidx).
  assert (INT_MIN < 0) as Hmin by reflexivity.
  unfold int_div, int_rem, int_mul, int_add.
  rewrite (proj2 (Z.eqb_neq w 0)) by lia.
  rewrite Z.quot_div_nonneg, Z.rem_mod_nonneg by lia.
  replace (i =? INT_MIN) with false by (symmetry; apply Z.eqb_neq; lia).
  cbn [andb]. rewrite !in_int_Some by nia. auto.
Qed.

End IndexFacts.

(** ** The image helpers: single pixels and whole images *)

Section SharedFacts.
Context {ElementType : Type}.
Implicit Types (mem : gmap Z ElementType) (v : ElementType).
Open Scope Z_scope.

Lemma store_Some mem p i v :
  is_Some (mem !! (p + i)) -> store mem p i v = Some (<[p + i := v]> mem).
Proof. intros [old Hold]. unfold store. rewrite Hold. reflexivity. Qed.

Lemma copy_itm_pixel_to_af_spec i inp w h out mem v :
  0 < w -> 0 < h -> w * h <= INT_MAX -> 0 <= i < w * h ->
  mem !! (inp + i) = Some v ->
  is_Some (mem !! (out + ((i mod w) * h + i / w))) ->
  copy_itm_pixel_to_af i inp w h out mem
  = Some (<[out + ((i mod w) * h + i / w) := v]> mem).
Proof.
  intros Hw Hh Hmax Hi Hv Hout.
  destruct (row_major_to_column_major w h i Hw Hh Hmax Hi)
    as (Hdiv & Hrem & Hmul & Hadd).
  unfold copy_itm_pixel_to_af, load.
  rewrite Hdiv. cbn [mbind option_bind]. rewrite Hrem. cbn [mbind option_bind].
  rewrite Hmul. cbn [mbind option_bind]. rewrite Hadd. cbn [mbind option_bind].
  rewrite Hv. cbn [mbind option_bind]. apply store_Some. assumption.
Qed.

(** The two copies are the same computation with the roles of width and
    height exchanged. *)
Lemma copy_af_pixel_to_itm_swap j inp w h out mem :
  copy_af_pixel_to_itm j inp w h out mem
  = copy_itm_pixel_to_af j inp h w out mem.
Proof.
  unfold copy_af_pixel_to_itm, copy_itm_pixel_to_af.
  destruct (int_rem j h) as [row|], (int_div j h) as [col|]; reflexivity.
Qed.

Lemma copy_af_pixel_to_itm_spec j inp w h out mem v :
  0 < w -> 0 < h -> w * h <= INT_MAX -> 0 <= j < w * h ->
  mem !! (inp + j) = Some v ->
  is_Some (mem !! (out + ((j mod h) * w + j / h))) ->
  copy_af_pixel_to_itm j inp w h out mem
  = Some (<[out + ((j mod h) * w + j / h) := v]> mem).
Proof.
  intros Hw Hh Hmax Hj Hv Hout. rewrite copy_af_pixel_to_itm_swap.
  apply copy_itm_pixel_to_af_spec; try assumption; lia.
Qed.

Lemma for_each_pixel_S n body mem :
  for_each_pixel (S n) body mem
  = (m ← for_each_pixel n body mem; body (Z.of_nat n) m).
Proof.
  unfold for_each_pixel. rewrite seq_S, foldl_app. reflexivity.
Qed.

(** Sweeping an image with [copy_itm_pixel_to_af]: every pixel lands at
    its transposed index, and nothing outside the output image changes. *)
Lemma copy_itm_to_af_spec inp w h out mem :
  0 < w -> 0 < h -> w * h <= INT_MAX ->
  (forall i, 0 <= i < w * h -> is_Some (mem !! (inp + i))) ->
  (forall i, 0 <= i < w * h -> is_Some (mem !! (out + i))) ->
  (out + w * h <= inp \/ inp + w * h <= out) ->
  exists mem',
    copy_itm_to_af inp w h out mem = Some mem'
    /\ (forall i, 0 <= i < w * h ->
          mem' !! (out + ((i mod w) * h + i / w)) = mem !! (inp + i))
    /\ (forall a, ~ (out <= a < out + w * h) -> mem' !! a = mem !! a).
Proof.
  intros Hw Hh Hmax Hinp Hout Hdisj. unfold copy_itm_to_af.
  assert (forall n : nat, Z.of_nat n <= w * h ->
    exists mem',
      for_each_pixel n
        (fun i => copy_itm_pixel_to_af i inp w h out) mem = Some mem'
      /\ (forall i, 0 <= i < Z.of_nat n ->
            mem' !! (out + ((i mod w) * h + i / w)) = mem !! (inp + i))
      /\ (forall a, (forall i, 0 <= i < Z.of_nat n ->
                       a <> out + ((i mod w) * h + i / w)) ->
            mem' !! a = mem !! a)) as Hloop.
  { induction n as [|n IH]; intros Hn.
    - exists mem. split; [reflexivity|]. split; [lia|auto].
    - destruct IH as (m & Hm & Hdone & Hrest); [lia|].
      rewrite for_each_pixel_S, Hm. cbn [mbind option_bind].
      set (k := Z.of_nat n) in *.
      assert (0 <= k < w * h) as Hk by lia.
      destruct (transposed_range w h k Hw Hh Hk) as (_ & _ & Hidx).
      destruct (Hinp k Hk) as [v Hv].
      assert (m !! (inp + k) = Some v) as Hmv.
      { rewrite Hrest; [assumption|]. intros i Hi.
        destruct (transposed_range w h i Hw Hh ltac:(lia)) as (_ & _ & Hidx').
        lia. }
      assert (m !! (out + ((k mod w) * h + k / w))
              = mem !! (out + ((k mod w) * h + k / w))) as Hfresh.
      { apply Hrest. intros i Hi Heq.
        assert (i = k); [|lia].
        apply (transposed_injective w h); try lia. }
      rewrite (copy_itm_pixel_to_af_spec k inp w h out m v); try assumption.
      2:{ rewrite Hfresh. apply Hout. lia. }
      eexists. split; [reflexivity|]. split.
      + intros i Hi. destruct (Z.eq_dec i k) as [->|Hne].
        * rewrite lookup_insert_eq. symmetry. assumption.
        * rewrite lookup_insert_ne.
          -- apply Hdone. lia.
          -- intros Heq. apply Hne. symmetry.
             apply (transposed_injective w h); try lia.
      + intros a Ha. rewrite lookup_insert_ne.
        * apply Hrest. intros i Hi. apply Ha. lia.
        * intros Heq. apply (Ha k); [lia|]. symmetry. assumption. }
  destruct (Hloop (Z.to_nat (w * h))) as (mem' & Hrun & Hdone & Hrest);
    [lia|].
  exists mem'. split; [assumption|]. split.
  - intros i Hi. apply Hdone. lia.
  - intros a Ha. apply Hrest. intros i Hi.
    destruct (transposed_range w h i Hw Hh ltac:(lia)) as (_ & _ & Hidx).
    lia.
Qed.

Lemma copy_af_to_itm_swap inp w h out mem :
  copy_af_to_itm inp w h out mem = copy_itm_to_af inp h w out mem.
Proof.
  unfold copy_af_to_itm, copy_itm_to_af, for_each_pixel.
  rewrite (Z.mul_comm h w). generalize (Some mem).
  induction (seq 0 (Z.to_nat (w * h))) as [|i l IH]; intros acc;
    [reflexivity|].
  cbn [foldl]. rewrite IH. f_equal.
  destruct acc as [m|]; [|reflexivity]. cbn [mbind option_bind].
  apply copy_af_pixel_to_itm_swap.
Qed.

End SharedFacts.

(** ** Claims about the image helpers *)

Section SharedClaims.
Context {ElementType : Type}.
Implicit Types (mem : gmap Z ElementType).
Open Scope Z_scope.

(** C8.  For an image of width w > 0 and height h > 0 and a row-major
    index i in [0, w*h), [copy_itm_pixel_to_af] at i followed by
    [copy_af_pixel_to_itm] at the resulting column-major index writes the
    original value back at row-major index i; hence copying a whole image
    ITM -> AF -> ITM (the AF buffer overlapping neither image) restores
    every pixel. *)
Theorem copy_itm_af_round_trip (w h itm af out : Z) mem :
  0 < w -> 0 < h -> w * h <= INT_MAX ->
  (forall i, 0 <= i < w * h -> is_Some (mem !! (itm + i))) ->
  (forall i, 0 <= i < w * h -> is_Some (mem !! (af + i))) ->
  (forall i, 0 <= i < w * h -> is_Some (mem !! (out + i))) ->
  (af + w * h <= itm \/ itm + w * h <= af) ->
  (af + w * h <= out \/ out + w * h <= af) ->
  (forall i, 0 <= i < w * h ->
     exists mem1 mem2,
       copy_itm_pixel_to_af i itm w h af mem = Some mem1
       /\ copy_af_pixel_to_itm ((i mod w) * h + i / w) af w h out mem1
          = Some mem2
       /\ mem2 !! (out + i) = mem !! (itm + i)
       /\ (forall a, a <> af + ((i mod w) * h + i / w) -> a <> out + i ->
             mem2 !! a = mem !! a))
  /\ (exists mem1 mem2,
        copy_itm_to_af itm w h af mem = Some mem1
        /\ copy_af_to_itm af w h out mem1 = Some mem2
        /\ (forall i, 0 <= i < w * h ->
              mem2 !! (out + i) = mem !! (itm + i)))%Z.
Proof.
  intros Hw Hh Hmax Hitm Haf Hout Hd1 Hd2. split.
  - intros i Hi.
    destruct (transposed_range w h i Hw Hh Hi) as (_ & _ & Hj).
    pose proof (transposed_inverse w h i Hw Hh Hi) as Hinv.
    set (j := (i mod w) * h + i / w) in *.
    destruct (Hitm i Hi) as [v Hv].
    exists (<[af + j := v]> mem), (<[out + i := v]> (<[af + j := v]> mem)).
    split; [|split; [|split]].
    + apply copy_itm_pixel_to_af_spec; try assumption. apply Haf. assumption.
    + rewrite <- Hinv at 1. apply copy_af_pixel_to_itm_spec; try assumption.
      * apply lookup_insert_eq.
      * rewrite Hinv. rewrite lookup_insert. case_decide; [eauto|].
        apply Hout. assumption.
    + rewrite lookup_insert_eq. symmetry. assumption.
    + intros a Ha1 Ha2. rewrite !lookup_insert_ne by congruence.
      reflexivity.
  - destruct (copy_itm_to_af_spec itm w h af mem Hw Hh Hmax Hitm Haf Hd1)
      as (mem1 & Hrun1 & Hdone1 & Hrest1).
    assert (forall j, 0 <= j < h * w -> is_Some (mem1 !! (af + j))) as Haf1.
    { intros j Hj.
      destruct (transposed_range h w j Hh Hw Hj) as (_ & _ & Hi').
      rewrite <- (transposed_inverse h w j Hh Hw Hj).
      rewrite Hdone1 by lia. apply Hitm. lia. }
    assert (forall i, 0 <= i < h * w -> is_Some (mem1 !! (out + i))) as Hout1.
    { intros i Hi. rewrite Hrest1 by lia. apply Hout. lia. }
    destruct (copy_itm_to_af_spec af h w out mem1 Hh Hw ltac:(lia) Haf1 Hout1
                ltac:(lia)) as (mem2 & Hrun2 & Hdone2 & _).
    exists mem1, mem2. split; [assumption|].
    split; [rewrite copy_af_to_itm_swap; assumption|].
    intros i Hi.
    destruct (transposed_range w h i Hw Hh Hi) as (_ & _ & Hj).
    rewrite <- (transposed_inverse w h i Hw Hh Hi) at 1.
    rewrite Hdone2 by lia. apply Hdone1. assumption.
Qed.

End SharedClaims.

Ltac solve_cells :=
  let i := fresh "i" in
  let Hi := fresh "Hi" in
  let Hc := fresh "Hc" in
  intros i Hi;
  assert (i = 0 \/ i = 1 \/ i = 2 \/ i = 3 \/ i = 4 \/ i = 5)%Z as Hc by lia;
  destruct Hc as [->|[->|[->|[->|[->| ->]]]]]; vm_compute; eauto.

Lemma copy_itm_af_round_trip_witness :
  ((0 < 3)%Z /\ (0 < 2)%Z /\ (3 * 2 <= INT_MAX)%Z)
  /\ (forall i, (0 <= i < 3 * 2)%Z -> is_Some (image_memory !! (0 + i)%Z))
  /\ (forall i, (0 <= i < 3 * 2)%Z -> is_Some (image_memory !! (6 + i)%Z))
  /\ (forall i, (0 <= i < 3 * 2)%Z -> is_Some (image_memory !! (12 + i)%Z))
  /\ ((6 + 3 * 2 <= 0)%Z \/ (0 + 3 * 2 <= 6)%Z)
  /\ ((6 + 3 * 2 <= 12)%Z \/ (12 + 3 * 2 <= 6)%Z)
  /\ (exists mem1 mem2,
        copy_itm_to_af 0 3 2 6 image_memory = Some mem1
        /\ copy_af_to_itm 6 3 2 12 mem1 = Some mem2
        /\ (forall i, (0 <= i < 3 * 2)%Z ->
              mem2 !! (12 + i)%Z = image_memory !! (0 + i)%Z)).
Proof.
  assert (forall i, (0 <= i < 3 * 2)%Z -> is_Some (image_memory !! (0 + i)%Z))
    as H0 by solve_cells.
  assert (forall i, (0 <= i < 3 * 2)%Z -> is_Some (image_memory !! (6 + i)%Z))
    as H6 by solve_cells.
  assert (forall i, (0 <= i < 3 * 2)%Z -> is_Some (image_memory !! (12 + i)%Z))
    as H12 by solve_cells.
  split; [repeat split; vm_compute; congruence|].
  split; [exact H0|]. split; [exact H6|]. split; [exact H12|].
  split; [right; lia|]. split; [left; lia|].
  apply (copy_itm_af_round_trip 3 2 0 6 12 image_memory);
    try assumption; try lia.
  vm_compute. congruence.
Defined.

Section DepthAndThreshold.
Open Scope Z_scope.
Implicit Types (mem : gmap Z spec_float).

Lemma ltb_zero_not_geb a : F32.ltb a F32.zero = true -> F32.geb a F32.zero = false.
Proof. destruct a as [[|]|[|]| |[|] m e]; cbn; congruence. Qed.

Lemma minus_one_value : F32.to_R F32.minus_one = (-1)%R.
Proof.
  change F32.minus_one with (S754_finite true 8388608 (-23)).
  unfold F32.to_R. change (-23) with (- (23)). rewrite bpow_neg by lia.
  simpl. lra.
Qed.

(** C9.  For a row-major index i in [0, w*h) with w > 0,
    [calculate_pixel_depth_difference] writes at the transposed
    column-major index col*h + row (row = i/w, col = i mod w) of the output
    the absolute difference of the two input pixels when both are >= 0,
    and -1.0 when either is < 0; it writes no other cell, so an input
    image that does not overlap the written cell is unchanged. *)
Theorem calculate_pixel_depth_difference_spec (i first second w h out : Z)
  mem (a b : spec_float) :
  0 < w -> w * h <= INT_MAX -> 0 <= i < w * h ->
  mem !! (first + i) = Some a -> mem !! (second + i) = Some b ->
  is_Some (mem !! (out + ((i mod w) * h + i / w))) ->
  exists mem',
    calculate_pixel_depth_difference i first second w h out mem = Some mem'
    /\ (F32.geb a F32.zero = true -> F32.geb b F32.zero = true ->
        mem' !! (out + ((i mod w) * h + i / w))
        = Some (F32.fabs (F32.sub a b)))
    /\ (F32.ltb a F32.zero = true \/ F32.ltb b F32.zero = true ->
        mem' !! (out + ((i mod w) * h + i / w)) = Some F32.minus_one)
    /\ F32.to_R F32.minus_one = (-1)%R
    /\ (forall addr, addr <> out + ((i mod w) * h + i / w) ->
          mem' !! addr = mem !! addr)
    /\ ((out + w * h <= first \/ first + w * h <= out) ->
        forall k, 0 <= k < w * h -> mem' !! (first + k) = mem !! (first + k))
    /\ ((out + w * h <= second \/ second + w * h <= out) ->
        forall k, 0 <= k < w * h -> mem' !! (second + k) = mem !! (second + k)).
Proof.
  intros Hw Hmax Hi Ha Hb Hout.
  assert (0 < h) as Hh by nia.
  destruct (row_major_to_column_major w h i Hw Hh Hmax Hi)
    as (Hdiv & Hrem & Hmul & Hadd).
  destruct (transposed_range w h i Hw Hh Hi) as (_ & _ & Hj).
  unfold calculate_pixel_depth_difference, load.
  rewrite Hdiv. cbn [mbind option_bind]. rewrite Hrem. cbn [mbind option_bind].
  rewrite Hmul. cbn [mbind option_bind]. rewrite Hadd. cbn [mbind option_bind].
  rewrite Ha. cbn [mbind option_bind]. rewrite Hb. cbn [mbind option_bind].
  rewrite store_Some by assumption.
  eexists. split; [reflexivity|].
  split; [|split; [|split; [|split; [|split]]]].
  - intros -> ->. apply lookup_insert_eq.
  - intros Hneg. rewrite lookup_insert_eq. f_equal.
    destruct Hneg as [Hneg|Hneg]; rewrite (ltb_zero_not_geb _ Hneg);
      [reflexivity|rewrite andb_false_r; reflexivity].
  - apply minus_one_value.
  - intros addr Haddr. apply lookup_insert_ne. congruence.
  - intros Hdisj k Hk. apply lookup_insert_ne. lia.
  - intros Hdisj k Hk. apply lookup_insert_ne. lia.
Qed.

(** C10.  [set_pixel_on_threshold] writes no cell other than
    outputData[pixelIndex].  For CO_GREATER that cell receives [value] if
    the input pixel is greater than the threshold and the input pixel
    otherwise; for CO_LESS, [value] if the input pixel is less than the
    threshold and the input pixel otherwise; for any other operator
    nothing at all is written. *)
Theorem set_pixel_on_threshold_spec (pixelIndex inputData outputData : Z)
  (op : ImageProcessor.ComparisonOperator) (threshold value input : spec_float)
  mem :
  mem !! (inputData + pixelIndex) = Some input ->
  is_Some (mem !! (outputData + pixelIndex)) ->
  exists mem',
    set_pixel_on_threshold pixelIndex inputData op threshold value
      outputData mem = Some mem'
    /\ (forall addr, addr <> outputData + pixelIndex ->
          mem' !! addr = mem !! addr)
    /\ match op with
       | ImageProcessor.CO_GREATER =>
           mem' !! (outputData + pixelIndex)
           = Some (if F32.gtb input threshold then value else input)
       | ImageProcessor.CO_LESS =>
           mem' !! (outputData + pixelIndex)
           = Some (if F32.ltb input threshold then value else input)
       | ImageProcessor.CO_OTHER _ => mem' = mem
       end.
Proof.
  intros Hin Hout. unfold set_pixel_on_threshold, load.
  rewrite Hin. cbn [mbind option_bind].
  destruct op as [| |raw]; rewrite ?store_Some by assumption;
    eexists; (split; [reflexivity|]); split;
    try (intros addr Haddr; apply lookup_insert_ne; congruence);
    try apply lookup_insert_eq; reflexivity.
Qed.

End DepthAndThreshold.

Lemma calculate_pixel_depth_difference_spec_witness :
  ((0 < 3)%Z /\ (3 * 2 <= INT_MAX)%Z /\ (0 <= 1 < 3 * 2)%Z)
  /\ depth_memory !! (0 + 1)%Z = Some float_0_5
  /\ depth_memory !! (6 + 1)%Z = Some float_0_75
  /\ is_Some (depth_memory !! (12 + (1 mod 3 * 2 + 1 / 3))%Z)
  /\ F32.geb float_0_5 F32.zero = true
  /\ F32.geb float_0_75 F32.zero = true
  /\ exists mem',
       calculate_pixel_depth_difference 1 0 6 3 2 12 depth_memory = Some mem'
       /\ mem' !! 14%Z = Some float_0_25
       /\ (forall addr, addr <> 14%Z -> mem' !! addr = depth_memory !! addr).
Proof.
  destruct (calculate_pixel_depth_difference_spec 1 0 6 3 2 12 depth_memory
              float_0_5 float_0_75)
    as (mem' & Hrun & Hboth & _ & _ & Hframe & _);
    try lia; try (vm_compute; eauto; congruence).
  split; [repeat split; vm_compute; congruence|].
  split; [vm_compute; reflexivity|]. split; [vm_compute; reflexivity|].
  split; [vm_compute; eauto|].
  split; [vm_compute; reflexivity|]. split; [vm_compute; reflexivity|].
  exists mem'. split; [exact Hrun|]. split.
  - apply (Hboth eq_refl eq_refl).
  - exact Hframe.
Defined.

Lemma set_pixel_on_threshold_spec_witness :
  depth_memory !! (0 + 1)%Z = Some float_0_5
  /\ is_Some (depth_memory !! (12 + 1)%Z)
  /\ exists mem',
       set_pixel_on_threshold 1 0 ImageProcessor.CO_GREATER float_0_25
         F32.one 12 depth_memory = Some mem'
       /\ (forall addr, addr <> (12 + 1)%Z ->
             mem' !! addr = depth_memory !! addr)
       /\ mem' !! (12 + 1)%Z
          = Some (if F32.gtb float_0_5 float_0_25 then F32.one else float_0_5).
Proof.
  split; [vm_compute; reflexivity|]. split; [vm_compute; eauto|].
  apply (set_pixel_on_threshold_spec 1 0 12 ImageProcessor.CO_GREATER
           float_0_25 F32.one float_0_5 depth_memory).
  - vm_compute. reflexivity.
  - vm_compute. eauto.
Defined.

(** ** Further properties of the image helpers *)

Section SweepFacts.
Context {ElementType : Type}.
Implicit Types (mem m : gmap Z ElementType).
Open Scope Z_scope.

Lemma for_each_in_snoc order i body mem :
  for_each_in (order ++ [i]) body mem
  = (m ← for_each_in order body mem; body i m).
Proof. unfold for_each_in. rewrite foldl_app. reflexivity. Qed.

Lemma for_each_pixel_in n body mem :
  for_each_pixel n body mem = for_each_in (seqZ 0 (Z.of_nat n)) body mem.
Proof.
  unfold for_each_pixel, for_each_in, seqZ. rewrite Nat2Z.id.
  generalize (Some mem).
  induction (seq 0 n) as [|i l IH]; intros acc; [reflexivity|].
  cbn [foldl fmap list_fmap]. rewrite Z.add_0_r. apply IH.
Qed.

Lemma for_each_in_ext order body body' mem :
  (forall i m, body i m = body' i m) ->
  for_each_in order body mem = for_each_in order body' mem.
Proof.
  intros Hext. unfold for_each_in. generalize (Some mem).
  induction order as [|i l IH]; intros acc; [reflexivity|].
  cbn [foldl]. rewrite IH. f_equal.
  destruct acc as [m|]; [apply Hext|reflexivity].
Qed.

(** A sweep whose step at pixel [i] writes the cells [upd i], the cells
    of distinct pixels being distinct, writes all of them and nothing
    else. *)
Lemma for_each_in_updates (upd : Z -> gmap Z ElementType) body order mem :
  NoDup order ->
  (forall i j, i ∈ order -> j ∈ order -> i <> j -> upd i ##ₘ upd j) ->
  (forall i m, i ∈ order ->
     (forall a, (forall j, j ∈ order -> upd j !! a = None) ->
        m !! a = mem !! a) ->
     (forall a, is_Some (upd i !! a) -> m !! a = mem !! a) ->
     body i m = Some (upd i ∪ m)) ->
  exists mem',
    for_each_in order body mem = Some mem'
    /\ (forall i a v, i ∈ order -> upd i !! a = Some v -> mem' !! a = Some v)
    /\ (forall a, (forall j, j ∈ order -> upd j !! a = None) ->
          mem' !! a = mem !! a).
Proof.
  induction order as [|k order IH] using rev_ind; intros Hnd Hdisj Hbody.
  - exists mem. split; [reflexivity|]. split; [|auto].
    intros i a v Hi. apply elem_of_nil in Hi. contradiction.
  - apply NoDup_app in Hnd as (Hnd & Hfresh & _).
    assert (k ∉ order) as Hk.
    { intros Hin. apply (Hfresh k Hin). apply list_elem_of_singleton. reflexivity. }
    destruct IH as (m & Hrun & Hdone & Hrest); [assumption| | |].
    { intros i j Hi Hj. apply Hdisj; apply elem_of_app; auto. }
    { intros i m Hi Hout Hown. apply Hbody; [apply elem_of_app; auto| |assumption].
      intros a Ha. apply Hout. intros j Hj. apply Ha. apply elem_of_app; auto. }
    assert (k ∈ order ++ [k]) as Hkin.
    { apply elem_of_app. right. apply list_elem_of_singleton. reflexivity. }
    assert (forall a, is_Some (upd k !! a) -> m !! a = mem !! a) as Hown.
    { intros a [v Hv]. apply Hrest. intros j Hj.
      assert (j <> k) as Hne by (intros ->; contradiction).
      pose proof (Hdisj j k ltac:(apply elem_of_app; auto) Hkin Hne) as Hd.
      apply (map_disjoint_Some_r _ _ _ _ Hd Hv). }
    rewrite for_each_in_snoc, Hrun. cbn [mbind option_bind].
    rewrite (Hbody k m Hkin); [|
      intros a Ha; apply Hrest; intros j Hj; apply Ha; apply elem_of_app; auto
      |assumption].
    eexists. split; [reflexivity|]. split.
    + intros i a v Hi Hv. apply elem_of_app in Hi as [Hi|Hi].
      * assert (i <> k) as Hne by (intros ->; contradiction).
        pose proof (Hdisj i k ltac:(apply elem_of_app; auto) Hkin Hne) as Hd.
        rewrite lookup_union_r by (apply (map_disjoint_Some_l _ _ _ _ Hd Hv)).
        apply (Hdone i); assumption.
      * apply list_elem_of_singleton in Hi as ->.
        apply lookup_union_Some_l. assumption.
    + intros a Ha. rewrite lookup_union_r by (apply Ha; assumption).
      apply Hrest. intros j Hj. apply Ha. apply elem_of_app; auto.
Qed.

(** The same for steps that write one cell each: pixel [i] puts [val i]
    into the cell [tgt i]. *)
Lemma for_each_in_cells (tgt : Z -> Z) (val : Z -> option ElementType)
  body order mem :
  NoDup order ->
  (forall i j, i ∈ order -> j ∈ order -> tgt i = tgt j -> i = j) ->
  (forall i, i ∈ order -> is_Some (val i)) ->
  (forall i m v, i ∈ order -> val i = Some v ->
     (forall a, (forall j, j ∈ order -> a <> tgt j) -> m !! a = mem !! a) ->
     m !! tgt i = mem !! tgt i ->
     body i m = Some (<[tgt i := v]> m)) ->
  exists mem',
    for_each_in order body mem = Some mem'
    /\ (forall i, i ∈ order -> mem' !! tgt i = val i)
    /\ (forall a, (forall j, j ∈ order -> a <> tgt j) -> mem' !! a = mem !! a).
Proof.
  intros Hnd Hinj Hval Hbody.
  set (upd := fun i => from_option (fun v => {[tgt i := v]})
                         (∅ : gmap Z ElementType) (val i)).
  assert (forall i a, a <> tgt i -> upd i !! a = None) as Hupd.
  { intros i a Ha. unfold upd. destruct (val i); cbn [from_option].
    - apply lookup_singleton_ne. congruence.
    - apply lookup_empty. }
  assert (forall i, i ∈ order -> upd i !! tgt i = val i) as Hupd'.
  { intros i Hi. unfold upd. destruct (Hval i Hi) as [v ->]. cbn [from_option].
    apply lookup_singleton_eq. }
  destruct (for_each_in_updates upd body order mem Hnd)
    as (mem' & Hrun & Hdone & Hrest).
  - intros i j Hi Hj Hne. apply map_disjoint_spec. intros a x y Hx Hy.
    destruct (Z.eq_dec a (tgt i)) as [->|Hna].
    + rewrite Hupd in Hy; [discriminate|].
      intros Heq. apply Hne. apply Hinj; assumption.
    + rewrite Hupd in Hx; [discriminate|assumption].
  - intros i m Hi Hout Hown. destruct (Hval i Hi) as [v Hv].
    rewrite (Hbody i m v Hi Hv).
    + unfold upd. rewrite Hv. cbn [from_option].
      rewrite insert_union_singleton_l. reflexivity.
    + intros a Ha. apply Hout. intros j Hj. apply Hupd. apply Ha. assumption.
    + apply Hown. rewrite Hupd' by assumption. apply Hval. assumption.
  - exists mem'. split; [assumption|]. split.
    + intros i Hi. destruct (Hval i Hi) as [v Hv]. rewrite Hv.
      apply (Hdone i); [assumption|]. rewrite Hupd' by assumption. assumption.
    + intros a Ha. apply Hrest. intros j Hj. apply Hupd. apply Ha. assumption.
Qed.

Lemma for_each_in_cells_unique (tgt : Z -> Z) (val : Z -> option ElementType)
  (order : list Z) mem mem1 mem2 :
  (forall i, i ∈ order -> mem1 !! tgt i = val i) ->
  (forall a, (forall j, j ∈ order -> a <> tgt j) -> mem1 !! a = mem !! a) ->
  (forall i, i ∈ order -> mem2 !! tgt i = val i) ->
  (forall a, (forall j, j ∈ order -> a <> tgt j) -> mem2 !! a = mem !! a) ->
  mem1 = mem2.
Proof.
  intros Hdone1 Hrest1 Hdone2 Hrest2. apply map_eq. intros a.
  destruct (decide (Exists (fun j => a = tgt j) order)) as [Hex|Hnex].
  - apply Exists_exists in Hex as (j & Hj & ->).
    rewrite Hdone1, Hdone2 by assumption. reflexivity.
  - assert (forall j, j ∈ order -> a <> tgt j) as Hnone.
    { intros j Hj Heq. apply Hnex. apply Exists_exists. eauto. }
    rewrite Hrest1, Hrest2 by assumption. reflexivity.
Qed.

(** Sweeping an image with [copy_itm_pixel_to_af], in any order. *)
Lemma copy_itm_to_af_in_order inp w h out order mem :
  0 < w -> 0 < h -> w * h <= INT_MAX ->
  (forall i, 0 <= i < w * h -> is_Some (mem !! (inp + i))) ->
  (forall i, 0 <= i < w * h -> is_Some (mem !! (out + i))) ->
  (out + w * h <= inp \/ inp + w * h <= out) ->
  order ≡ₚ seqZ 0 (w * h) ->
  exists mem',
    for_each_in order (fun i => copy_itm_pixel_to_af i inp w h out) mem
    = Some mem'
    /\ (forall i, 0 <= i < w * h ->
          mem' !! (out + ((i mod w) * h + i / w)) = mem !! (inp + i))
    /\ (forall a, ~ (out <= a < out + w * h) -> mem' !! a = mem !! a).
Proof.
  intros Hw Hh Hmax Hinp Hout Hdisj Hperm.
  assert (forall i, i ∈ order <-> 0 <= i < w * h) as Hin.
  { intros i. rewrite Hperm, elem_of_seqZ. lia. }
  assert (forall i, 0 <= i < w * h -> 0 <= (i mod w) * h + i / w < w * h) as Ht.
  { intros i Hi. apply (transposed_range w h i Hw Hh Hi). }
  destruct (for_each_in_cells
    (fun i => out + ((i mod w) * h + i / w)) (fun i => mem !! (inp + i))
    (fun i => copy_itm_pixel_to_af i inp w h out) order mem)
    as (mem' & Hrun & Hdone & Hrest).
  - rewrite Hperm. apply NoDup_seqZ.
  - intros i j Hi Hj Heq. apply Hin in Hi, Hj.
    apply (transposed_injective w h); lia.
  - intros i Hi. apply Hinp, Hin, Hi.
  - intros i m v Hi Hv Hframe Hown. apply Hin in Hi.
    apply copy_itm_pixel_to_af_spec; try assumption.
    + rewrite Hframe; [assumption|]. intros j Hj. apply Hin in Hj.
      pose proof (Ht j Hj). lia.
    + cbv beta in Hown. rewrite Hown. apply Hout, Ht, Hi.
  - exists mem'. split; [assumption|]. split.
    + intros i Hi. apply Hdone, Hin, Hi.
    + intros a Ha. apply Hrest. intros j Hj. apply Hin in Hj.
      pose proof (Ht j Hj). lia.
Qed.

End SweepFacts.


Section RoundTrips.
Context {ElementType : Type}.
Implicit Types (mem m : gmap Z ElementType).
Open Scope Z_scope.

(** X1.  Copying a single-channel image ArrayFire -> InfiniTAM ->
    ArrayFire restores every pixel of the column-major image, and
    changes nothing outside the two images written. The final image may
    be the one the copy started from. *)
Theorem copy_af_itm_af_round_trip (w h af itm out : Z) mem :
  0 < w -> 0 < h -> w * h <= INT_MAX ->
  (forall j, 0 <= j < w * h -> is_Some (mem !! (af + j))) ->
  (forall i, 0 <= i < w * h -> is_Some (mem !! (itm + i))) ->
  (forall j, 0 <= j < w * h -> is_Some (mem !! (out + j))) ->
  (itm + w * h <= af \/ af + w * h <= itm) ->
  (itm + w * h <= out \/ out + w * h <= itm) ->
  exists mem1 mem2,
    copy_af_to_itm af w h itm mem = Some mem1
    /\ copy_itm_to_af itm w h out mem1 = Some mem2
    /\ (forall j, 0 <= j < w * h -> mem2 !! (out + j) = mem !! (af + j))
    /\ (forall a, ~ (itm <= a < itm + w * h) -> ~ (out <= a < out + w * h) ->
          mem2 !! a = mem !! a).
Proof.
  intros Hw Hh Hmax Haf Hitm Hout Hd1 Hd2.
  assert (h * w <= INT_MAX) as Hmax' by lia.
  destruct (copy_itm_to_af_spec af h w itm mem Hh Hw Hmax')
    as (mem1 & Hrun1 & Hdone1 & Hrest1).
  { intros j Hj. apply Haf. lia. }
  { intros i Hi. apply Hitm. lia. }
  { lia. }
  assert (forall i, 0 <= i < w * h -> is_Some (mem1 !! (itm + i))) as Hitm1.
  { intros i Hi.
    destruct (transposed_range w h i Hw Hh Hi) as (_ & _ & Hj).
    rewrite <- (transposed_inverse w h i Hw Hh Hi).
    rewrite Hdone1 by lia. apply Haf. lia. }
  assert (forall j, 0 <= j < w * h -> is_Some (mem1 !! (out + j))) as Hout1.
  { intros j Hj. rewrite Hrest1 by lia. apply Hout. assumption. }
  destruct (copy_itm_to_af_spec itm w h out mem1 Hw Hh Hmax Hitm1 Hout1
              ltac:(lia)) as (mem2 & Hrun2 & Hdone2 & Hrest2).
  exists mem1, mem2. split; [rewrite copy_af_to_itm_swap; assumption|].
  split; [assumption|]. split.
  - intros j Hj.
    destruct (transposed_range h w j Hh Hw ltac:(lia)) as (_ & _ & Hi).
    rewrite <- (transposed_inverse h w j Hh Hw ltac:(lia)) at 1.
    rewrite Hdone2 by lia. apply Hdone1. lia.
  - intros a Ha1 Ha2. rewrite Hrest2 by assumption. apply Hrest1. lia.
Qed.

End RoundTrips.

Section SweepOrder.
Context {ElementType : Type}.
Implicit Types (mem m : gmap Z ElementType).
Open Scope Z_scope.

(** X2.  The pixels of an image may be copied in any order: running
    [copy_itm_pixel_to_af] (or [copy_af_pixel_to_itm]) once for every
    index, in whatever order, succeeds and leaves memory exactly as the
    sequential loop does, provided the output image does not overlap the
    input image. *)
Theorem copy_pixels_in_any_order (w h inp out : Z) (order : list Z) mem :
  0 < w -> 0 < h -> w * h <= INT_MAX ->
  (forall i, 0 <= i < w * h -> is_Some (mem !! (inp + i))) ->
  (forall i, 0 <= i < w * h -> is_Some (mem !! (out + i))) ->
  (out + w * h <= inp \/ inp + w * h <= out) ->
  order ≡ₚ seqZ 0 (w * h) ->
  is_Some (copy_itm_to_af inp w h out mem)
  /\ for_each_in order (fun i => copy_itm_pixel_to_af i inp w h out) mem
     = copy_itm_to_af inp w h out mem
  /\ is_Some (copy_af_to_itm inp w h out mem)
  /\ for_each_in order (fun j => copy_af_pixel_to_itm j inp w h out) mem
     = copy_af_to_itm inp w h out mem.
Proof.
  assert (forall w h order, 0 < w -> 0 < h -> w * h <= INT_MAX ->
    (forall i, 0 <= i < w * h -> is_Some (mem !! (inp + i))) ->
    (forall i, 0 <= i < w * h -> is_Some (mem !! (out + i))) ->
    (out + w * h <= inp \/ inp + w * h <= out) ->
    order ≡ₚ seqZ 0 (w * h) ->
    is_Some (copy_itm_to_af inp w h out mem)
    /\ for_each_in order (fun i => copy_itm_pixel_to_af i inp w h out) mem
       = copy_itm_to_af inp w h out mem) as Hone.
  { clear w h order. intros w h order Hw Hh Hmax Hinp Hout Hdisj Hperm.
    destruct (copy_itm_to_af_in_order inp w h out order mem)
      as (m1 & Hrun1 & Hdone1 & Hrest1); try assumption.
    destruct (copy_itm_to_af_spec inp w h out mem)
      as (m2 & Hrun2 & Hdone2 & Hrest2); try assumption.
    rewrite Hrun1, Hrun2. split; [eauto|]. f_equal.
    apply (for_each_in_cells_unique
             (fun i => out + ((i mod w) * h + i / w))
             (fun i => mem !! (inp + i)) (seqZ 0 (w * h)) mem).
    - intros i Hi. apply elem_of_seqZ in Hi. apply Hdone1. lia.
    - intros a Ha. apply Hrest1. intros Hin.
      pose proof (Z.div_mod (a - out) h ltac:(lia)) as Hdm.
      pose proof (Z.mod_pos_bound (a - out) h Hh) as Hr.
      apply (Ha (((a - out) mod h) * w + (a - out) / h)).
      + apply elem_of_seqZ.
        destruct (transposed_range h w (a - out) Hh Hw ltac:(lia))
          as (_ & _ & Hidx). lia.
      + rewrite (transposed_inverse h w (a - out) Hh Hw ltac:(lia)). lia.
    - intros i Hi. apply elem_of_seqZ in Hi. apply Hdone2. lia.
    - intros a Ha. apply Hrest2. intros Hin.
      apply (Ha (((a - out) mod h) * w + (a - out) / h)).
      + apply elem_of_seqZ.
        destruct (transposed_range h w (a - out) Hh Hw ltac:(lia))
          as (_ & _ & Hidx). lia.
      + rewrite (transposed_inverse h w (a - out) Hh Hw ltac:(lia)). lia. }
  intros Hw Hh Hmax Hinp Hout Hdisj Hperm.
  destruct (Hone w h order) as [H1 H2]; try assumption.
  destruct (Hone h w order) as [H3 H4]; try assumption; try lia.
  { intros i Hi. apply Hinp. lia. }
  { intros i Hi. apply Hout. lia. }
  { rewrite (Z.mul_comm h w). assumption. }
  split; [assumption|]. split; [assumption|].
  rewrite copy_af_to_itm_swap. split; [assumption|].
  rewrite <- H4. apply for_each_in_ext.
  intros j m. apply copy_af_pixel_to_itm_swap.
Qed.
End SweepOrder.

Lemma copy_af_itm_af_round_trip_witness :
  ((0 < 3)%Z /\ (0 < 2)%Z /\ (3 * 2 <= INT_MAX)%Z)
  /\ (forall j, (0 <= j < 3 * 2)%Z -> is_Some (image_memory !! (0 + j)%Z))
  /\ (forall i, (0 <= i < 3 * 2)%Z -> is_Some (image_memory !! (6 + i)%Z))
  /\ (forall j, (0 <= j < 3 * 2)%Z -> is_Some (image_memory !! (12 + j)%Z))
  /\ ((6 + 3 * 2 <= 0)%Z \/ (0 + 3 * 2 <= 6)%Z)
  /\ ((6 + 3 * 2 <= 12)%Z \/ (12 + 3 * 2 <= 6)%Z)
  /\ (exists mem1 mem2,
        copy_af_to_itm 0 3 2 6 image_memory = Some mem1
        /\ copy_itm_to_af 6 3 2 12 mem1 = Some mem2
        /\ (forall j, (0 <= j < 3 * 2)%Z ->
              mem2 !! (12 + j)%Z = image_memory !! (0 + j)%Z)
        /\ (forall a, ~ (6 <= a < 6 + 3 * 2)%Z -> ~ (12 <= a < 12 + 3 * 2)%Z ->
              mem2 !! a = image_memory !! a)).
Proof.
  assert (forall i, (0 <= i < 3 * 2)%Z -> is_Some (image_memory !! (0 + i)%Z))
    as H0 by solve_cells.
  assert (forall i, (0 <= i < 3 * 2)%Z -> is_Some (image_memory !! (6 + i)%Z))
    as H6 by solve_cells.
  assert (forall i, (0 <= i < 3 * 2)%Z -> is_Some (image_memory !! (12 + i)%Z))
    as H12 by solve_cells.
  split; [repeat split; vm_compute; congruence|].
  split; [exact H0|]. split; [exact H6|]. split; [exact H12|].
  split; [right; lia|]. split; [left; lia|].
  apply (copy_af_itm_af_round_trip 3 2 0 6 12 image_memory);
    try assumption; try lia.
  vm_compute. congruence.
Defined.

Lemma copy_pixels_in_any_order_witness :
  ((0 < 3)%Z /\ (0 < 2)%Z /\ (3 * 2 <= INT_MAX)%Z)
  /\ (forall i, (0 <= i < 3 * 2)%Z -> is_Some (image_memory !! (0 + i)%Z))
  /\ (forall i, (0 <= i < 3 * 2)%Z -> is_Some (image_memory !! (6 + i)%Z))
  /\ ((6 + 3 * 2 <= 0)%Z \/ (0 + 3 * 2 <= 6)%Z)
  /\ [5; 4; 3; 2; 1; 0]%Z ≡ₚ seqZ 0 (3 * 2)
  /\ is_Some (copy_itm_to_af 0 3 2 6 image_memory)
  /\ for_each_in [5; 4; 3; 2; 1; 0]%Z
       (fun i => copy_itm_pixel_to_af i 0 3 2 6) image_memory
     = copy_itm_to_af 0 3 2 6 image_memory.
Proof.
  assert (forall i, (0 <= i < 3 * 2)%Z -> is_Some (image_memory !! (0 + i)%Z))
    as H0 by solve_cells.
  assert (forall i, (0 <= i < 3 * 2)%Z -> is_Some (image_memory !! (6 + i)%Z))
    as H6 by solve_cells.
  assert ([5; 4; 3; 2; 1; 0]%Z ≡ₚ seqZ 0 (3 * 2)) as Hperm.
  { change (seqZ 0 (3 * 2)) with (reverse [5; 4; 3; 2; 1; 0]%Z).
    symmetry. apply reverse_Permutation. }
  split; [repeat split; vm_compute; congruence|].
  split; [exact H0|]. split; [exact H6|].
  split; [right; lia|]. split; [exact Hperm|].
  destruct (copy_pixels_in_any_order 3 2 0 6 [5; 4; 3; 2; 1; 0]%Z image_memory)
    as (Hs & Heq & _); try assumption; try lia.
  - vm_compute. congruence.
  - split; assumption.
Defined.

Section FourChannelFacts.
Context {ElementType : Type}.
Implicit Types (mem m : gmap Z ElementType).
Open Scope Z_scope.

(** The offsets of the four planes, for a pixel index [j] of either
    layout. *)
Lemma plane_offsets w h j :
  0 < w -> 0 < h -> 4 * (w * h) - 1 <= INT_MAX -> 0 <= j < w * h ->
  int_mul w h = Some (w * h)
  /\ int_add j (w * h) = Some (j + w * h)
  /\ int_mul 2 (w * h) = Some (2 * (w * h))
  /\ int_add j (2 * (w * h)) = Some (j + 2 * (w * h))
  /\ int_mul 3 (w * h) = Some (3 * (w * h))
  /\ int_add j (3 * (w * h)) = Some (j + 3 * (w * h)).
Proof.
  intros Hw Hh Hmax Hj. assert (INT_MIN < 0) as Hmin by reflexivity.
  unfold int_mul, int_add. rewrite !in_int_Some by nia. auto 10.
Qed.

Lemma store_is_Some mem p i v a :
  is_Some (mem !! a) -> is_Some (<[p + i := v]> mem !! a).
Proof. intros Ha. apply lookup_insert_is_Some'. auto. Qed.

Lemma copy_itm_pixel_to_af4_spec i inp w h out mem x0 x1 x2 x3 :
  0 < w -> 0 < h -> 4 * (w * h) - 1 <= INT_MAX -> 0 <= i < w * h ->
  mem !! (inp + 4 * i) = Some x0 -> mem !! (inp + 4 * i + 1) = Some x1 ->
  mem !! (inp + 4 * i + 2) = Some x2 -> mem !! (inp + 4 * i + 3) = Some x3 ->
  (forall k, 0 <= k < 4 ->
     is_Some (mem !! (out + ((i mod w) * h + i / w + k * (w * h))))) ->
  FourChannel.copy_itm_pixel_to_af i inp w h out mem
  = Some (<[out + ((i mod w) * h + i / w + 3 * (w * h)) := x3]>
          (<[out + ((i mod w) * h + i / w + 2 * (w * h)) := x2]>
           (<[out + ((i mod w) * h + i / w + w * h) := x1]>
            (<[out + ((i mod w) * h + i / w) := x0]> mem)))).
Proof.
  intros Hw Hh Hmax Hi H0 H1 H2 H3 Hout.
  destruct (row_major_to_column_major w h i Hw Hh ltac:(lia) Hi)
    as (Hdiv & Hrem & Hmul & Hadd).
  destruct (transposed_range w h i Hw Hh Hi) as (_ & _ & Hj).
  destruct (plane_offsets w h _ Hw Hh Hmax Hj)
    as (Hs & Hi1 & Hs2 & Hi2 & Hs3 & Hi3).
  pose proof (Hout 0 ltac:(lia)) as Ho0. pose proof (Hout 1 ltac:(lia)) as Ho1.
  pose proof (Hout 2 ltac:(lia)) as Ho2. pose proof (Hout 3 ltac:(lia)) as Ho3.
  rewrite Z.mul_0_l, Z.add_0_r in Ho0. rewrite Z.mul_1_l in Ho1.
  unfold FourChannel.copy_itm_pixel_to_af, load4.
  rewrite Hs. cbn [mbind option_bind]. rewrite Hdiv. cbn [mbind option_bind].
  rewrite Hrem. cbn [mbind option_bind]. rewrite Hmul. cbn [mbind option_bind].
  rewrite Hadd. cbn [mbind option_bind].
  rewrite H0. cbn [mbind option_bind]. rewrite H1. cbn [mbind option_bind].
  rewrite H2. cbn [mbind option_bind]. rewrite H3. cbn [mbind option_bind].
  cbn [ORUtils.r ORUtils.g ORUtils.b ORUtils.a].
  rewrite store_Some by assumption. cbn [mbind option_bind].
  rewrite Hi1. cbn [mbind option_bind].
  rewrite store_Some by (apply store_is_Some; assumption).
  cbn [mbind option_bind]. rewrite Hs2. cbn [mbind option_bind].
  rewrite Hi2. cbn [mbind option_bind].
  rewrite store_Some by (do 2 apply store_is_Some; assumption).
  cbn [mbind option_bind]. rewrite Hs3. cbn [mbind option_bind].
  rewrite Hi3. cbn [mbind option_bind].
  rewrite store_Some by (do 3 apply store_is_Some; assumption).
  reflexivity.
Qed.

Lemma copy_af_pixel_to_itm4_spec j inp w h out mem x0 x1 x2 x3 :
  0 < w -> 0 < h -> 4 * (w * h) - 1 <= INT_MAX -> 0 <= j < w * h ->
  mem !! (inp + j) = Some x0 -> mem !! (inp + (j + w * h)) = Some x1 ->
  mem !! (inp + (j + 2 * (w * h))) = Some x2 ->
  mem !! (inp + (j + 3 * (w * h))) = Some x3 ->
  (forall k, 0 <= k < 4 ->
     is_Some (mem !! (out + 4 * ((j mod h) * w + j / h) + k))) ->
  FourChannel.copy_af_pixel_to_itm j inp w h out mem
  = Some (<[out + (4 * ((j mod h) * w + j / h) + 3) := x3]>
          (<[out + (4 * ((j mod h) * w + j / h) + 2) := x2]>
           (<[out + (4 * ((j mod h) * w + j / h) + 1) := x1]>
            (<[out + 4 * ((j mod h) * w + j / h) := x0]> mem)))).
Proof.
  intros Hw Hh Hmax Hj H0 H1 H2 H3 Hout.
  destruct (row_major_to_column_major h w j Hh Hw ltac:(lia) ltac:(lia))
    as (Hdiv & Hrem & Hmul & Hadd).
  destruct (plane_offsets w h j Hw Hh Hmax Hj)
    as (Hs & Hi1 & Hs2 & Hi2 & Hs3 & Hi3).
  pose proof (Hout 0 ltac:(lia)) as Ho0. pose proof (Hout 1 ltac:(lia)) as Ho1.
  pose proof (Hout 2 ltac:(lia)) as Ho2. pose proof (Hout 3 ltac:(lia)) as Ho3.
  rewrite Z.add_0_r in Ho0. rewrite <- Z.add_assoc in Ho1, Ho2, Ho3.
  unfold FourChannel.copy_af_pixel_to_itm, load, store4.
  rewrite Hs. cbn [mbind option_bind]. rewrite Hrem. cbn [mbind option_bind].
  rewrite Hdiv. cbn [mbind option_bind]. rewrite Hmul. cbn [mbind option_bind].
  rewrite Hadd. cbn [mbind option_bind].
  rewrite H0. cbn [mbind option_bind]. rewrite Hi1. cbn [mbind option_bind].
  rewrite H1. cbn [mbind option_bind]. rewrite Hs2. cbn [mbind option_bind].
  rewrite Hi2. cbn [mbind option_bind]. rewrite H2. cbn [mbind option_bind].
  rewrite Hs3. cbn [mbind option_bind]. rewrite Hi3. cbn [mbind option_bind].
  rewrite H3. cbn [mbind option_bind].
  cbn [ORUtils.r ORUtils.g ORUtils.b ORUtils.a].
  rewrite store_Some by assumption. cbn [mbind option_bind].
  rewrite store_Some by (apply store_is_Some; assumption).
  cbn [mbind option_bind].
  rewrite store_Some by (do 2 apply store_is_Some; assumption).
  cbn [mbind option_bind].
  rewrite store_Some by (do 3 apply store_is_Some; assumption).
  reflexivity.
Qed.

End FourChannelFacts.

Section FourChannelSweeps.
Context {ElementType : Type}.
Implicit Types (mem m : gmap Z ElementType).
Open Scope Z_scope.

Lemma quad_lookup (d0 d1 d2 d3 : Z) (x0 x1 x2 x3 : ElementType) a :
  d0 <> d1 -> d0 <> d2 -> d0 <> d3 -> d1 <> d2 -> d1 <> d3 -> d2 <> d3 ->
  (<[d3 := x3]> (<[d2 := x2]> (<[d1 := x1]> {[d0 := x0]}))
     : gmap Z ElementType) !! a
  = if decide (a = d0) then Some x0 else
    if decide (a = d1) then Some x1 else
    if decide (a = d2) then Some x2 else
    if decide (a = d3) then Some x3 else None.
Proof.
  intros. repeat case_decide; subst; simplify_map_eq; reflexivity.
Qed.

Lemma quad_union (d0 d1 d2 d3 : Z) (x0 x1 x2 x3 : ElementType) m :
  <[d3 := x3]> (<[d2 := x2]> (<[d1 := x1]> (<[d0 := x0]> m)))
  = <[d3 := x3]> (<[d2 := x2]> (<[d1 := x1]> {[d0 := x0]})) ∪ m.
Proof.
  rewrite (insert_union_singleton_l m d0 x0), <- !insert_union_l.
  reflexivity.
Qed.

(** A sweep that moves four cells per pixel, from [src i k] to
    [dst i k], the destinations being pairwise distinct and no source
    being a destination. *)
Lemma for_each_in_quads (src dst : Z -> Z -> Z) body order mem :
  NoDup order ->
  (forall i k, i ∈ order -> 0 <= k < 4 -> is_Some (mem !! src i k)) ->
  (forall i k, i ∈ order -> 0 <= k < 4 -> is_Some (mem !! dst i k)) ->
  (forall i j k l, i ∈ order -> j ∈ order -> 0 <= k < 4 -> 0 <= l < 4 ->
     dst i k = dst j l -> i = j /\ k = l) ->
  (forall i j k l, i ∈ order -> j ∈ order -> 0 <= k < 4 -> 0 <= l < 4 ->
     src i k <> dst j l) ->
  (forall i m x0 x1 x2 x3, i ∈ order ->
     m !! src i 0 = Some x0 -> m !! src i 1 = Some x1 ->
     m !! src i 2 = Some x2 -> m !! src i 3 = Some x3 ->
     (forall k, 0 <= k < 4 -> is_Some (m !! dst i k)) ->
     body i m = Some (<[dst i 3 := x3]> (<[dst i 2 := x2]>
                        (<[dst i 1 := x1]> (<[dst i 0 := x0]> m))))) ->
  exists mem',
    for_each_in order body mem = Some mem'
    /\ (forall i k, i ∈ order -> 0 <= k < 4 ->
          mem' !! dst i k = mem !! src i k)
    /\ (forall a, (forall j k, j ∈ order -> 0 <= k < 4 -> a <> dst j k) ->
          mem' !! a = mem !! a).
Proof.
  intros Hnd Hsrc Hdst Hinj Hsep Hbody.
  set (upd := fun i : Z =>
    from_option (fun q : gmap Z ElementType => q) ∅
      (x0 ← mem !! src i 0; x1 ← mem !! src i 1;
       x2 ← mem !! src i 2; x3 ← mem !! src i 3;
       Some (<[dst i 3 := x3]> (<[dst i 2 := x2]>
               (<[dst i 1 := x1]> {[dst i 0 := x0]}))))).
  assert (forall i, i ∈ order ->
    forall a, upd i !! a
      = if decide (a = dst i 0) then mem !! src i 0 else
        if decide (a = dst i 1) then mem !! src i 1 else
        if decide (a = dst i 2) then mem !! src i 2 else
        if decide (a = dst i 3) then mem !! src i 3 else None) as Hupd.
  { intros i Hi a. unfold upd.
    destruct (Hsrc i 0 Hi ltac:(lia)) as [x0 ->].
    destruct (Hsrc i 1 Hi ltac:(lia)) as [x1 ->].
    destruct (Hsrc i 2 Hi ltac:(lia)) as [x2 ->].
    destruct (Hsrc i 3 Hi ltac:(lia)) as [x3 ->].
    cbn [mbind option_bind from_option].
    apply quad_lookup; intros Heq;
      apply (Hinj i i) in Heq as [_ Heq]; try assumption; lia. }
  assert (forall i a, i ∈ order -> is_Some (upd i !! a) ->
            exists k, 0 <= k < 4 /\ a = dst i k) as Hdom.
  { intros i a Hi [v Hv]. rewrite (Hupd i Hi) in Hv.
    repeat case_decide; try discriminate;
      [exists 0|exists 1|exists 2|exists 3]; split; (lia || assumption). }
  assert (forall i k, i ∈ order -> 0 <= k < 4 ->
            upd i !! dst i k = mem !! src i k) as Hval.
  { intros i k Hi Hk. rewrite (Hupd i Hi).
    assert (k = 0 \/ k = 1 \/ k = 2 \/ k = 3) as [->|[->|[->| ->]]] by lia;
      repeat case_decide; try reflexivity; try congruence;
      match goal with
      | H : dst i _ = dst i _ |- _ =>
          apply (Hinj i i) in H as [_ H]; try assumption; lia
      end. }
  destruct (for_each_in_updates upd body order mem Hnd)
    as (mem' & Hrun & Hdone & Hrest).
  - intros i j Hi Hj Hne. apply map_disjoint_spec. intros a x y Hx Hy.
    destruct (Hdom i a Hi ltac:(eauto)) as (k & Hk & ->).
    destruct (Hdom j _ Hj ltac:(eauto)) as (l & Hl & Heq).
    apply (Hinj i j) in Heq as [Heq _]; try assumption. contradiction.
  - intros i m Hi Hout Hown.
    assert (forall k, 0 <= k < 4 -> m !! src i k = mem !! src i k) as Hread.
    { intros k Hk. apply Hout. intros j Hj. apply eq_None_not_Some.
      intros Hs. destruct (Hdom j _ Hj Hs) as (l & Hl & Heq).
      apply (Hsep i j k l); assumption. }
    destruct (Hsrc i 0 Hi ltac:(lia)) as [x0 H0].
    destruct (Hsrc i 1 Hi ltac:(lia)) as [x1 H1].
    destruct (Hsrc i 2 Hi ltac:(lia)) as [x2 H2].
    destruct (Hsrc i 3 Hi ltac:(lia)) as [x3 H3].
    rewrite (Hbody i m x0 x1 x2 x3 Hi); try (rewrite Hread by lia; assumption).
    + rewrite quad_union. unfold upd. rewrite H0, H1, H2, H3. reflexivity.
    + intros k Hk. rewrite Hown; [apply Hdst; assumption|].
      rewrite Hval by assumption. apply Hsrc; assumption.
  - exists mem'. split; [assumption|]. split.
    + intros i k Hi Hk. destruct (Hsrc i k Hi Hk) as [v Hv]. rewrite Hv.
      apply (Hdone i); [assumption|]. rewrite Hval by assumption. assumption.
    + intros a Ha. apply Hrest. intros j Hj. apply eq_None_not_Some.
      intros Hs. destruct (Hdom j a Hj Hs) as (k & Hk & ->).
      apply (Ha j k); auto.
Qed.

End FourChannelSweeps.

Section FourChannelLayout.
Context {ElementType : Type}.
Implicit Types (mem m : gmap Z ElementType).
Open Scope Z_scope.

Lemma four_planes_injective w h (t t' k l : Z) :
  0 <= t < w * h -> 0 <= t' < w * h -> 0 <= k < 4 -> 0 <= l < 4 ->
  t + k * (w * h) = t' + l * (w * h) -> t = t' /\ k = l.
Proof. intros Ht Ht' Hk Hl Heq. assert (k = l) by nia. subst. lia. Qed.

(** X3.  The four-channel [copy_itm_pixel_to_af] turns the interleaved
    pixel at row-major index i into four planes: channel k is written at
    index k * (w*h) + col*h + row of the output and nothing else is
    written. Neither four-channel copy is defined for an image of more
    than INT_MAX / 3 pixels: the offset 3 * size overflows. *)
Theorem four_channel_copy_layout (w h inp out i : Z) mem :
  (0 < w -> 0 < h -> 4 * (w * h) - 1 <= INT_MAX -> 0 <= i < w * h ->
   (forall k, 0 <= k < 4 -> is_Some (mem !! (inp + 4 * i + k))) ->
   (forall k, 0 <= k < 4 ->
      is_Some (mem !! (out + (k * (w * h) + ((i mod w) * h + i / w))))) ->
   exists mem',
     FourChannel.copy_itm_pixel_to_af i inp w h out mem = Some mem'
     /\ (forall k, 0 <= k < 4 ->
           mem' !! (out + (k * (w * h) + ((i mod w) * h + i / w)))
           = mem !! (inp + 4 * i + k))
     /\ (forall a,
           (forall k, 0 <= k < 4 ->
              a <> out + (k * (w * h) + ((i mod w) * h + i / w))) ->
           mem' !! a = mem !! a))
  /\ (INT_MAX < 3 * (w * h) ->
      FourChannel.copy_itm_pixel_to_af i inp w h out mem = None
      /\ FourChannel.copy_af_pixel_to_itm i inp w h out mem = None).
Proof.
  split.
  - intros Hw Hh Hmax Hi Hinp Hout.
    destruct (transposed_range w h i Hw Hh Hi) as (_ & _ & Ht).
    set (t := (i mod w) * h + i / w) in *.
    destruct (Hinp 0 ltac:(lia)) as [x0 H0].
    destruct (Hinp 1 ltac:(lia)) as [x1 H1].
    destruct (Hinp 2 ltac:(lia)) as [x2 H2].
    destruct (Hinp 3 ltac:(lia)) as [x3 H3].
    rewrite Z.add_0_r in H0.
    rewrite (copy_itm_pixel_to_af4_spec i inp w h out mem x0 x1 x2 x3);
      try assumption.
    2:{ intros k Hk. fold t. rewrite (Z.add_comm t). apply Hout. assumption. }
    fold t. eexists. split; [reflexivity|]. split.
    + intros k Hk.
      assert (k = 0 \/ k = 1 \/ k = 2 \/ k = 3) as [->|[->|[->| ->]]] by lia.
      * rewrite !lookup_insert_ne by nia.
        replace (out + (0 * (w * h) + t)) with (out + t) by lia.
        rewrite lookup_insert_eq, Z.add_0_r. symmetry. assumption.
      * rewrite !lookup_insert_ne by nia.
        replace (out + (1 * (w * h) + t)) with (out + (t + w * h)) by lia.
        rewrite lookup_insert_eq. symmetry. assumption.
      * rewrite !lookup_insert_ne by nia.
        replace (out + (2 * (w * h) + t)) with (out + (t + 2 * (w * h))) by lia.
        rewrite lookup_insert_eq. symmetry. assumption.
      * replace (out + (3 * (w * h) + t)) with (out + (t + 3 * (w * h))) by lia.
        rewrite lookup_insert_eq. symmetry. assumption.
    + intros a Ha.
      pose proof (Ha 0 ltac:(lia)). pose proof (Ha 1 ltac:(lia)).
      pose proof (Ha 2 ltac:(lia)). pose proof (Ha 3 ltac:(lia)).
      rewrite !lookup_insert_ne by lia. reflexivity.
  - intros Hover.
    assert (forall s, int_mul w h = Some s -> int_mul 3 s = None) as H3.
    { intros s Hs. unfold int_mul, in_int in *.
      destruct ((INT_MIN <=? w * h) && (w * h <=? INT_MAX)); [|discriminate].
      injection Hs as <-.
      replace (3 * (w * h) <=? INT_MAX) with false
        by (symmetry; apply Z.leb_gt; lia).
      rewrite andb_false_r. reflexivity. }
    unfold FourChannel.copy_itm_pixel_to_af, FourChannel.copy_af_pixel_to_itm.
    destruct (int_mul w h) as [s|] eqn:Hs; [|split; reflexivity].
    pose proof (H3 s eq_refl) as Hs3.
    split; cbn [mbind option_bind];
      repeat (first
        [ rewrite Hs3
        | match goal with
          | |- (?x ≫= _) = None => destruct x
          end ]; cbn [mbind option_bind]; try reflexivity).
Qed.

End FourChannelLayout.

Section FourChannelRoundTrip.
Context {ElementType : Type}.
Implicit Types (mem m : gmap Z ElementType).
Open Scope Z_scope.

(** Sweeping an image with the four-channel [copy_itm_pixel_to_af]. *)
Lemma copy_itm_to_af4_spec itm w h af mem :
  0 < w -> 0 < h -> 4 * (w * h) - 1 <= INT_MAX ->
  (forall a, 0 <= a < 4 * (w * h) -> is_Some (mem !! (itm + a))) ->
  (forall a, 0 <= a < 4 * (w * h) -> is_Some (mem !! (af + a))) ->
  (af + 4 * (w * h) <= itm \/ itm + 4 * (w * h) <= af) ->
  exists mem',
    for_each_pixel (Z.to_nat (w * h))
      (fun i => FourChannel.copy_itm_pixel_to_af i itm w h af) mem = Some mem'
    /\ (forall i k, 0 <= i < w * h -> 0 <= k < 4 ->
          mem' !! (af + (k * (w * h) + ((i mod w) * h + i / w)))
          = mem !! (itm + (4 * i + k)))
    /\ (forall a, ~ (af <= a < af + 4 * (w * h)) -> mem' !! a = mem !! a).
Proof.
  intros Hw Hh Hmax Hitm Haf Hdisj.
  rewrite for_each_pixel_in, Z2Nat.id by nia.
  assert (forall i, 0 <= i < w * h -> 0 <= (i mod w) * h + i / w < w * h) as Ht.
  { intros i Hi. apply (transposed_range w h i Hw Hh Hi). }
  destruct (for_each_in_quads
    (fun i k => itm + (4 * i + k))
    (fun i k => af + ((i mod w) * h + i / w + k * (w * h)))
    (fun i => FourChannel.copy_itm_pixel_to_af i itm w h af)
    (seqZ 0 (w * h)) mem) as (mem' & Hrun & Hdone & Hrest).
  - apply NoDup_seqZ.
  - intros i k Hi Hk. apply elem_of_seqZ in Hi. apply Hitm. lia.
  - intros i k Hi Hk. apply elem_of_seqZ in Hi. apply Haf.
    pose proof (Ht i ltac:(lia)). nia.
  - intros i j k l Hi Hj Hk Hl Heq. apply elem_of_seqZ in Hi, Hj.
    destruct (four_planes_injective w h _ _ k l (Ht i ltac:(lia))
                (Ht j ltac:(lia)) Hk Hl ltac:(lia)) as [Heq' ->].
    split; [|reflexivity]. apply (transposed_injective w h); lia.
  - intros i j k l Hi Hj Hk Hl. apply elem_of_seqZ in Hi, Hj.
    pose proof (Ht j ltac:(lia)). nia.
  - intros i m x0 x1 x2 x3 Hi H0 H1 H2 H3 Hout. apply elem_of_seqZ in Hi.
    cbv beta in *.
    rewrite (copy_itm_pixel_to_af4_spec i itm w h af m x0 x1 x2 x3);
      try assumption; try lia.
    + rewrite Z.mul_0_l, Z.add_0_r, Z.mul_1_l. reflexivity.
    + rewrite <- H0. f_equal. lia.
    + rewrite <- H1. f_equal. lia.
    + rewrite <- H2. f_equal. lia.
    + rewrite <- H3. f_equal. lia.
  - exists mem'. split; [assumption|]. split.
    + intros i k Hi Hk. rewrite <- (Hdone i k); [f_equal; lia| |assumption].
      apply elem_of_seqZ. lia.
    + intros a Ha. apply Hrest. intros j k Hj Hk. apply elem_of_seqZ in Hj.
      pose proof (Ht j ltac:(lia)). nia.
Qed.

(** Sweeping an image with the four-channel [copy_af_pixel_to_itm]. *)
Lemma copy_af_to_itm4_spec af w h itm mem :
  0 < w -> 0 < h -> 4 * (w * h) - 1 <= INT_MAX ->
  (forall a, 0 <= a < 4 * (w * h) -> is_Some (mem !! (af + a))) ->
  (forall a, 0 <= a < 4 * (w * h) -> is_Some (mem !! (itm + a))) ->
  (af + 4 * (w * h) <= itm \/ itm + 4 * (w * h) <= af) ->
  exists mem',
    for_each_pixel (Z.to_nat (w * h))
      (fun j => FourChannel.copy_af_pixel_to_itm j af w h itm) mem = Some mem'
    /\ (forall j k, 0 <= j < w * h -> 0 <= k < 4 ->
          mem' !! (itm + (4 * ((j mod h) * w + j / h) + k))
          = mem !! (af + (k * (w * h) + j)))
    /\ (forall a, ~ (itm <= a < itm + 4 * (w * h)) -> mem' !! a = mem !! a).
Proof.
  intros Hw Hh Hmax Haf Hitm Hdisj.
  rewrite for_each_pixel_in, Z2Nat.id by nia.
  assert (forall j, 0 <= j < w * h -> 0 <= (j mod h) * w + j / h < w * h) as Ht.
  { intros j Hj.
    destruct (transposed_range h w j Hh Hw ltac:(lia)) as (_ & _ & Hr). lia. }
  destruct (for_each_in_quads
    (fun j k => af + (j + k * (w * h)))
    (fun j k => itm + (4 * ((j mod h) * w + j / h) + k))
    (fun j => FourChannel.copy_af_pixel_to_itm j af w h itm)
    (seqZ 0 (w * h)) mem) as (mem' & Hrun & Hdone & Hrest).
  - apply NoDup_seqZ.
  - intros j k Hj Hk. apply elem_of_seqZ in Hj. apply Haf. nia.
  - intros j k Hj Hk. apply elem_of_seqZ in Hj. apply Hitm.
    pose proof (Ht j ltac:(lia)). lia.
  - intros i j k l Hi Hj Hk Hl Heq. apply elem_of_seqZ in Hi, Hj.
    pose proof (Ht i ltac:(lia)). pose proof (Ht j ltac:(lia)).
    assert ((i mod h) * w + i / h = (j mod h) * w + j / h /\ k = l)
      as [Heq' ->] by lia.
    split; [|reflexivity]. apply (transposed_injective h w); lia.
  - intros i j k l Hi Hj Hk Hl. apply elem_of_seqZ in Hi, Hj.
    pose proof (Ht j ltac:(lia)). nia.
  - intros j m x0 x1 x2 x3 Hj H0 H1 H2 H3 Hout. apply elem_of_seqZ in Hj.
    cbv beta in *.
    rewrite (copy_af_pixel_to_itm4_spec j af w h itm m x0 x1 x2 x3);
      try assumption; try lia.
    + rewrite Z.add_0_r. reflexivity.
    + rewrite <- H0. f_equal. lia.
    + rewrite <- H1. f_equal. lia.
    + intros k Hk. rewrite <- Z.add_assoc. apply Hout. assumption.
  - exists mem'. split; [assumption|]. split.
    + intros j k Hj Hk. rewrite (Hdone j k); [f_equal; lia| |assumption].
      apply elem_of_seqZ. lia.
    + intros a Ha. apply Hrest. intros j k Hj Hk. apply elem_of_seqZ in Hj.
      pose proof (Ht j ltac:(lia)). lia.
Qed.

(** X4.  Copying a four-channel image InfiniTAM -> ArrayFire ->
    InfiniTAM restores all four channels of every pixel; in between, the
    ArrayFire buffer holds the four channels as four column-major
    planes. *)
Theorem four_channel_round_trip (w h itm af out : Z) mem :
  0 < w -> 0 < h -> 4 * (w * h) - 1 <= INT_MAX ->
  (forall a, 0 <= a < 4 * (w * h) -> is_Some (mem !! (itm + a))) ->
  (forall a, 0 <= a < 4 * (w * h) -> is_Some (mem !! (af + a))) ->
  (forall a, 0 <= a < 4 * (w * h) -> is_Some (mem !! (out + a))) ->
  (af + 4 * (w * h) <= itm \/ itm + 4 * (w * h) <= af) ->
  (af + 4 * (w * h) <= out \/ out + 4 * (w * h) <= af) ->
  exists mem1 mem2,
    for_each_pixel (Z.to_nat (w * h))
      (fun i => FourChannel.copy_itm_pixel_to_af i itm w h af) mem = Some mem1
    /\ for_each_pixel (Z.to_nat (w * h))
         (fun j => FourChannel.copy_af_pixel_to_itm j af w h out) mem1
       = Some mem2
    /\ (forall row col k, 0 <= row < h -> 0 <= col < w -> 0 <= k < 4 ->
          mem1 !! (af + (k * (w * h) + (col * h + row)))
          = mem !! (itm + (4 * (row * w + col) + k)))
    /\ (forall a, 0 <= a < 4 * (w * h) -> mem2 !! (out + a) = mem !! (itm + a)).
Proof.
  intros Hw Hh Hmax Hitm Haf Hout Hd1 Hd2.
  destruct (copy_itm_to_af4_spec itm w h af mem Hw Hh Hmax Hitm Haf Hd1)
    as (mem1 & Hrun1 & Hdone1 & Hrest1).
  assert (forall a, 0 <= a < 4 * (w * h) -> is_Some (mem1 !! (af + a))) as Haf1.
  { intros a Ha.
    pose proof (Z.div_mod a (w * h) ltac:(nia)) as Hdm.
    pose proof (Z.mod_pos_bound a (w * h) ltac:(nia)) as Hj.
    assert (0 <= a / (w * h) < 4) as Hk.
    { split; [apply Z.div_pos; nia|apply Z.div_lt_upper_bound; nia]. }
    set (j := a mod (w * h)) in *. set (k := a / (w * h)) in *.
    destruct (transposed_range h w j Hh Hw ltac:(lia)) as (_ & _ & Hi).
    pose proof (transposed_inverse h w j Hh Hw ltac:(lia)) as Hinv.
    replace a with (k * (w * h) + j) by lia. rewrite <- Hinv.
    rewrite Hdone1 by lia. apply Hitm. nia. }
  assert (forall a, 0 <= a < 4 * (w * h) -> is_Some (mem1 !! (out + a))) as Hout1.
  { intros a Ha. rewrite Hrest1 by lia. apply Hout. assumption. }
  destruct (copy_af_to_itm4_spec af w h out mem1 Hw Hh Hmax Haf1 Hout1 Hd2)
    as (mem2 & Hrun2 & Hdone2 & Hrest2).
  exists mem1, mem2. split; [assumption|]. split; [assumption|]. split.
  - intros row col k Hrow Hcol Hk.
    rewrite <- (Hdone1 (row * w + col) k) by nia.
    replace ((row * w + col) mod w) with col.
    2:{ rewrite Z.add_comm, Z.mod_add, Z.mod_small by lia. reflexivity. }
    replace ((row * w + col) / w) with row.
    2:{ rewrite Z.add_comm, Z.div_add, Z.div_small by lia. reflexivity. }
    reflexivity.
  - intros a Ha.
    pose proof (Z.div_mod a 4 ltac:(lia)) as Hdm.
    pose proof (Z.mod_pos_bound a 4 ltac:(lia)) as Hk.
    assert (0 <= a / 4 < w * h) as Hi.
    { split; [apply Z.div_pos; lia|apply Z.div_lt_upper_bound; lia]. }
    set (i := a / 4) in *. set (k := a mod 4) in *.
    destruct (transposed_range w h i Hw Hh Hi) as (_ & _ & Hj).
    pose proof (transposed_inverse w h i Hw Hh Hi) as Hinv.
    replace a with (4 * i + k) by lia.
    rewrite <- Hinv at 1. rewrite Hdone2 by lia. apply Hdone1; lia.
Qed.

End FourChannelRoundTrip.

Ltac solve_cells_below n :=
  let a := fresh "a" in
  let Ha := fresh "Ha" in
  intros a Ha;
  let rec go k :=
    lazymatch k with
    | O => exfalso; lia
    | S ?k' =>
        let Hc := fresh "Hc" in
        destruct (Z.eq_dec a (Z.of_nat k')) as [Hc|Hc];
        [ rewrite Hc; vm_compute; eauto | go k' ]
    end in
  go n.

Lemma four_channel_copy_layout_witness :
  ((0 < 2)%Z /\ (0 < 1)%Z /\ (4 * (2 * 1) - 1 <= INT_MAX)%Z
   /\ (0 <= 1 < 2 * 1)%Z)
  /\ (forall k, (0 <= k < 4)%Z -> is_Some (rgba_memory !! (0 + 4 * 1 + k)%Z))
  /\ (forall k, (0 <= k < 4)%Z ->
        is_Some (rgba_memory !! (8 + (k * (2 * 1) + (1 mod 2 * 1 + 1 / 2)))%Z))
  /\ (exists mem',
        FourChannel.copy_itm_pixel_to_af 1 0 2 1 8 rgba_memory = Some mem'
        /\ (forall k, (0 <= k < 4)%Z ->
              mem' !! (8 + (k * (2 * 1) + (1 mod 2 * 1 + 1 / 2)))%Z
              = rgba_memory !! (0 + 4 * 1 + k)%Z)
        /\ (forall a,
              (forall k, (0 <= k < 4)%Z ->
                 a <> (8 + (k * (2 * 1) + (1 mod 2 * 1 + 1 / 2)))%Z) ->
              mem' !! a = rgba_memory !! a))
  /\ (INT_MAX < 3 * (32768 * 32768))%Z
  /\ FourChannel.copy_itm_pixel_to_af 1 0 32768 32768 8 rgba_memory = None
  /\ FourChannel.copy_af_pixel_to_itm 1 0 32768 32768 8 rgba_memory = None.
Proof.
  assert (forall k, (0 <= k < 4)%Z ->
            is_Some (rgba_memory !! (0 + 4 * 1 + k)%Z)) as Hin
    by solve_cells_below 4%nat.
  assert (forall k, (0 <= k < 4)%Z ->
            is_Some (rgba_memory !! (8 + (k * (2 * 1) + (1 mod 2 * 1 + 1 / 2)))%Z))
    as Hout by solve_cells_below 4%nat.
  split; [repeat split; vm_compute; congruence|].
  split; [exact Hin|]. split; [exact Hout|].
  split.
  - apply (proj1 (four_channel_copy_layout 2 1 0 8 1 rgba_memory));
      try assumption; try lia.
    vm_compute. congruence.
  - split; [vm_compute; reflexivity|].
    apply (proj2 (four_channel_copy_layout 32768 32768 0 8 1 rgba_memory)).
    vm_compute. reflexivity.
Defined.

Lemma four_channel_round_trip_witness :
  ((0 < 2)%Z /\ (0 < 1)%Z /\ (4 * (2 * 1) - 1 <= INT_MAX)%Z)
  /\ (forall a, (0 <= a < 4 * (2 * 1))%Z -> is_Some (rgba_memory !! (0 + a)%Z))
  /\ (forall a, (0 <= a < 4 * (2 * 1))%Z -> is_Some (rgba_memory !! (8 + a)%Z))
  /\ (forall a, (0 <= a < 4 * (2 * 1))%Z -> is_Some (rgba_memory !! (16 + a)%Z))
  /\ ((8 + 4 * (2 * 1) <= 0)%Z \/ (0 + 4 * (2 * 1) <= 8)%Z)
  /\ ((8 + 4 * (2 * 1) <= 16)%Z \/ (16 + 4 * (2 * 1) <= 8)%Z)
  /\ (exists mem1 mem2,
        for_each_pixel (Z.to_nat (2 * 1))
          (fun i => FourChannel.copy_itm_pixel_to_af i 0 2 1 8) rgba_memory
        = Some mem1
        /\ for_each_pixel (Z.to_nat (2 * 1))
             (fun j => FourChannel.copy_af_pixel_to_itm j 8 2 1 16) mem1
           = Some mem2
        /\ (forall row col k,
              (0 <= row < 1)%Z -> (0 <= col < 2)%Z -> (0 <= k < 4)%Z ->
              mem1 !! (8 + (k * (2 * 1) + (col * 1 + row)))%Z
              = rgba_memory !! (0 + (4 * (row * 2 + col) + k))%Z)
        /\ (forall a, (0 <= a < 4 * (2 * 1))%Z ->
              mem2 !! (16 + a)%Z = rgba_memory !! (0 + a)%Z)).
Proof.
  assert (forall a, (0 <= a < 4 * (2 * 1))%Z ->
            is_Some (rgba_memory !! (0 + a)%Z)) as H0
    by solve_cells_below 8%nat.
  assert (forall a, (0 <= a < 4 * (2 * 1))%Z ->
            is_Some (rgba_memory !! (8 + a)%Z)) as H8
    by solve_cells_below 8%nat.
  assert (forall a, (0 <= a < 4 * (2 * 1))%Z ->
            is_Some (rgba_memory !! (16 + a)%Z)) as H16
    by solve_cells_below 8%nat.
  split; [repeat split; vm_compute; congruence|].
  split; [exact H0|]. split; [exact H8|]. split; [exact H16|].
  split; [right; lia|]. split; [left; lia|].
  apply (four_channel_round_trip 2 1 0 8 16 rgba_memory);
    try assumption; try lia.
  vm_compute. congruence.
Defined.

Section DepthFacts.
Implicit Types (mem : gmap Z spec_float).
Open Scope Z_scope.

(** The sign of a rounded number is the sign it was given. *)
Lemma fabs_binary_round s s' m e :
  F32.fabs (binary_round F32.prec F32.emax s m e)
  = F32.fabs (binary_round F32.prec F32.emax s' m e).
Proof.
  unfold binary_round, binary_round_aux.
  destruct (shl_align m e _) as [mz ez].
  destruct (shr_fexp _ _ (Z.pos mz) ez loc_Exact) as [mrs e'].
  destruct (shr_fexp _ _ _ e' loc_Exact) as [mrs' e''].
  destruct (shr_m mrs') as [|p|p]; [reflexivity| |reflexivity].
  destruct (e'' <=? _); reflexivity.
Qed.

Lemma fabs_binary_normalize_opp m e :
  F32.fabs (binary_normalize F32.prec F32.emax m e false)
  = F32.fabs (binary_normalize F32.prec F32.emax (- m) e false).
Proof.
  destruct m as [|p|p]; [reflexivity| |]; cbn [binary_normalize Z.opp];
    apply fabs_binary_round.
Qed.

Lemma fabs_sub_comm a b : F32.fabs (F32.sub a b) = F32.fabs (F32.sub b a).
Proof.
  destruct a as [sa|sa| |sa ma ea], b as [sb|sb| |sb mb eb];
    try (destruct sa, sb; reflexivity); try (destruct sa; reflexivity);
    try (destruct sb; reflexivity); try reflexivity.
  unfold F32.sub, SFsub. cbv zeta. rewrite (Z.min_comm eb ea).
  rewrite fabs_binary_normalize_opp. f_equal. f_equal. lia.
Qed.

Lemma fabs_not_negative x :
  F32.fabs x <> F32.minus_one /\ F32.ltb (F32.fabs x) F32.zero = false.
Proof. destruct x as [s|s| |s m e]; split; (discriminate || reflexivity). Qed.

Lemma sub_self (a : spec_float) :
  F32.sub a a
  = match a with
    | S754_zero _ | S754_finite _ _ _ => S754_zero false
    | _ => S754_nan
    end.
Proof.
  destruct a as [[|]|[|]| |s m e]; try reflexivity.
  unfold F32.sub, SFsub. cbv zeta. rewrite Z.min_id.
  unfold shl_align. rewrite !Z.sub_diag. reflexivity.
Qed.

(** Whenever [calculate_pixel_depth_difference] is defined it replaces
    one cell by the value computed from the two pixels. *)
Lemma calculate_pixel_depth_difference_inv i first second w h out mem mem' a b :
  calculate_pixel_depth_difference i first second w h out mem = Some mem' ->
  mem !! (first + i) = Some a -> mem !! (second + i) = Some b ->
  exists addr,
    mem' = <[addr :=
              if F32.geb a F32.zero && F32.geb b F32.zero
              then F32.fabs (F32.sub a b) else F32.minus_one]> mem.
Proof.
  unfold calculate_pixel_depth_difference, load, store.
  intros Hrun Ha Hb.
  destruct (int_div i w) as [row|]; [|discriminate].
  destruct (int_rem i w) as [col|]; [|discriminate].
  cbn [mbind option_bind] in Hrun.
  destruct (int_mul col h) as [t|]; [|discriminate].
  cbn [mbind option_bind] in Hrun.
  destruct (int_add t row) as [j|]; [|discriminate].
  cbn [mbind option_bind] in Hrun. rewrite Ha, Hb in Hrun.
  cbn [mbind option_bind] in Hrun.
  destruct (mem !! (out + j)); [|discriminate].
  injection Hrun as <-. eauto.
Qed.

End DepthFacts.

Section DepthProperties.
Implicit Types (mem : gmap Z spec_float).
Open Scope Z_scope.

(** X5.  The depth difference is symmetric: exchanging the two input
    images gives the same result (and the same undefined cases). *)
Theorem depth_difference_symmetric (i first second w h out : Z) mem :
  calculate_pixel_depth_difference i first second w h out mem
  = calculate_pixel_depth_difference i second first w h out mem.
Proof.
  unfold calculate_pixel_depth_difference, load.
  destruct (int_div i w) as [row|]; [|reflexivity].
  destruct (int_rem i w) as [col|]; [|reflexivity].
  cbn [mbind option_bind].
  destruct (int_mul col h) as [t|]; [|reflexivity].
  cbn [mbind option_bind].
  destruct (int_add t row) as [j|]; [|reflexivity].
  cbn [mbind option_bind].
  destruct (mem !! (first + i)) as [a|], (mem !! (second + i)) as [b|];
    try reflexivity.
  cbn [mbind option_bind]. rewrite fabs_sub_comm, andb_comm. reflexivity.
Qed.

(** X6.  The value -1 marks invalid pixels without ambiguity: whenever
    the function is defined, the value it writes is -1.0f exactly when
    one of the two input pixels is not >= 0 (it is negative or a NaN),
    and it is never any other negative number. *)
Theorem depth_difference_sentinel (i first second w h out : Z) mem mem'
  (a b : spec_float) :
  calculate_pixel_depth_difference i first second w h out mem = Some mem' ->
  mem !! (first + i) = Some a -> mem !! (second + i) = Some b ->
  exists addr r,
    mem' = <[addr := r]> mem
    /\ (r = F32.minus_one
        <-> F32.geb a F32.zero = false \/ F32.geb b F32.zero = false)
    /\ (F32.ltb r F32.zero = true <-> r = F32.minus_one)
    /\ (a = S754_nan \/ b = S754_nan -> r = F32.minus_one).
Proof.
  intros Hrun Ha Hb.
  destruct (calculate_pixel_depth_difference_inv _ _ _ _ _ _ _ _ _ _
              Hrun Ha Hb) as [addr ->].
  eexists addr, _. split; [reflexivity|].
  destruct (fabs_not_negative (F32.sub a b)) as [Hne Hlt].
  destruct (F32.geb a F32.zero) eqn:Hga, (F32.geb b F32.zero) eqn:Hgb;
    cbn [andb].
  - split; [|split].
    + split; [contradiction|]. intros [|]; discriminate.
    + rewrite Hlt. split; [discriminate|contradiction].
    + intros [-> | ->]; discriminate.
  - split; [tauto|]. split; [split; reflexivity|reflexivity].
  - split; [tauto|]. split; [split; reflexivity|reflexivity].
  - split; [tauto|]. split; [split; reflexivity|reflexivity].
Qed.

(** X7.  The depth difference of an image with itself: 0 at every pixel
    that is finite and >= 0, -1 at every pixel that is negative or a
    NaN, and a NaN where the pixel is +infinity. *)
Theorem depth_difference_with_itself (i image w h out : Z) mem mem'
  (a : spec_float) :
  calculate_pixel_depth_difference i image image w h out mem = Some mem' ->
  mem !! (image + i) = Some a ->
  exists addr,
    mem' = <[addr :=
              if F32.geb a F32.zero
              then match a with
                   | S754_infinity _ => S754_nan
                   | _ => S754_zero false
                   end
              else F32.minus_one]> mem.
Proof.
  intros Hrun Ha.
  destruct (calculate_pixel_depth_difference_inv _ _ _ _ _ _ _ _ _ _
              Hrun Ha Ha) as [addr ->].
  exists addr. f_equal. rewrite andb_diag, sub_self.
  destruct a as [s|s| |s m e]; reflexivity.
Qed.

End DepthProperties.

Section SubtractionFacts.
Open Scope R_scope.
Import F32.

(** Rounding a positive number [p * 2^e] whose result is normal. *)
Lemma binary_round_nearest (p : positive) (e : Z) :
  (-149 <= Zpos (digits2_pos p) + e - 24 <= 100)%Z ->
  nearest_at (Zpos (digits2_pos p) + e - 24) (IZR (Zpos p) * bpow e)
    (binary_round prec emax false p e).
Proof.
  intros HE. unfold binary_round, shl_align.
  pose proof (digits2_bounds p) as Hd.
  set (d := Zpos (digits2_pos p)) in *.
  assert (1 <= d)%Z as Hd1 by (unfold d; lia).
  replace (fexp prec emax (d + e))%Z with (d + e - 24)%Z
    by (unfold fexp, emin, prec, emax; lia).
  destruct (d + e - 24 - e)%Z as [|k|k] eqn:Ek.
  - change d with (Zdigits2 (Zpos p)).
    apply binary_round_aux_normal.
    + replace 23%Z with (d - 1)%Z by lia. lia.
    + reflexivity.
    + cbn [Zdigits2]. fold d. lia.
  - change d with (Zdigits2 (Zpos p)).
    apply binary_round_aux_normal.
    + apply Z.le_trans with (2 ^ (d - 1))%Z; [|lia].
      apply Z.pow_le_mono_r; lia.
    + reflexivity.
    + cbn [Zdigits2]. fold d. lia.
  - assert (Zpos k = 24 - d)%Z as Hk by lia.
    assert (2 ^ 23 <= Zpos (Pos.iter xO p k) < 2 ^ 24)%Z as Hm.
    { rewrite iter_xO_Z, Hk.
      assert (2 ^ 23 = 2 ^ (d - 1) * 2 ^ (24 - d))%Z as ->.
      { rewrite <- Z.pow_add_r by lia. f_equal. lia. }
      assert (2 ^ 24 = 2 ^ d * 2 ^ (24 - d))%Z as ->.
      { rewrite <- Z.pow_add_r by lia. f_equal. lia. }
      pose proof (Z.pow_pos_nonneg 2 (24 - d)). nia. }
    replace (d + e - 24)%Z
      with (Zdigits2 (Zpos (Pos.iter xO p k)) + (d + e - 24) - 24)%Z
      at 1 by (rewrite (Zdigits2_unique _ 24) by (simpl; lia); lia).
    apply binary_round_aux_normal.
    + lia.
    + cbn [located]. rewrite iter_xO_Z, mult_IZR, Hk, <- bpow_IZR by lia.
      rewrite Rmult_assoc, <- bpow_add. f_equal. f_equal. lia.
    + rewrite (Zdigits2_unique _ 24) by (simpl; lia). lia.
Qed.

(** Aligning a significand to a smaller exponent keeps the value. *)
Lemma shl_align_fst (m : positive) (e ez : Z) :
  (ez <= e)%Z -> Zpos (fst (shl_align m e ez)) = (Zpos m * 2 ^ (e - ez))%Z.
Proof.
  intros Hle. unfold shl_align. destruct (ez - e)%Z as [|k|k] eqn:Ek.
  - replace (e - ez)%Z with 0%Z by lia. cbn [fst]. lia.
  - lia.
  - cbn [fst]. rewrite iter_xO_Z. f_equal. f_equal. lia.
Qed.

Lemma fabs_nearest_at E v x : nearest_at E v x -> fabs x = x.
Proof. intros (m & e & m1 & m' & -> & _). reflexivity. Qed.

Lemma digits2_shift (p : positive) (k : Z) :
  (0 <= k)%Z ->
  (2 ^ (Zpos (digits2_pos p) + k - 1) <= Zpos p * 2 ^ k
   < 2 ^ (Zpos (digits2_pos p) + k))%Z.
Proof.
  intros Hk. pose proof (digits2_bounds p) as [Hlo Hhi].
  set (d := Zpos (digits2_pos p)) in *.
  assert (1 <= d)%Z by (unfold d; lia).
  replace (d + k - 1)%Z with ((d - 1) + k)%Z by lia.
  rewrite !Z.pow_add_r by lia.
  pose proof (Z.pow_pos_nonneg 2 k). nia.
Qed.

(** Rounding a positive number [p * 2^e] that lies below the normal
    range changes nothing: the subnormal numbers are the multiples of
    2^-149. *)
Lemma binary_round_subnormal (p : positive) (e : Z) :
  (-149 <= e)%Z -> (Zpos (digits2_pos p) + e - 24 <= -149)%Z ->
  exists m : positive,
    binary_round prec emax false p e = S754_finite false m (-149)
    /\ (Zpos m < 2 ^ 24)%Z
    /\ IZR (Zpos m) * bpow (-149) = IZR (Zpos p) * bpow e.
Proof.
  intros He Hd. unfold binary_round.
  set (d := Zpos (digits2_pos p)) in *.
  assert (1 <= d)%Z as Hd1 by (unfold d; lia).
  replace (fexp prec emax (d + e))%Z with (-149)%Z
    by (unfold fexp, emin, prec, emax; lia).
  assert (exists mz : positive,
            shl_align p e (-149) = (mz, (-149)%Z)
            /\ Zpos mz = (Zpos p * 2 ^ (e + 149))%Z) as (mz & -> & Hmz).
  { unfold shl_align. destruct (-149 - e)%Z as [|k|k] eqn:Ek; try lia.
    - exists p. replace e with (-149)%Z by lia. split; [reflexivity|].
      simpl. lia.
    - exists (Pos.iter xO p k). split; [reflexivity|].
      rewrite iter_xO_Z. f_equal. f_equal. lia. }
  pose proof (digits2_shift p (e + 149) ltac:(lia)) as Hb. fold d in Hb.
  rewrite <- Hmz in Hb.
  assert (Zpos mz < 2 ^ 24)%Z as Hlt.
  { apply Z.lt_le_trans with (2 ^ (d + (e + 149)))%Z; [lia|].
    apply Z.pow_le_mono_r; lia. }
  assert (Zdigits2 (Zpos mz) <= 24)%Z as Hdz.
  { rewrite (Zdigits2_unique (Zpos mz) (d + (e + 149))); lia. }
  exists mz. split; [|split; [exact Hlt|]].
  - unfold binary_round_aux, shr_fexp.
    replace (fexp prec emax (Zdigits2 (Zpos mz) + -149) - -149)%Z with 0%Z
      by (unfold fexp, emin, prec, emax; lia).
    cbn [shr shr_record_of_loc shr_m loc_of_shr_record round_nearest_even].
    replace (fexp prec emax (Zdigits2 (Zpos mz) + -149) - -149)%Z with 0%Z
      by (unfold fexp, emin, prec, emax; lia).
    cbn [shr shr_record_of_loc shr_m]. reflexivity.
  - rewrite Hmz, mult_IZR, <- bpow_IZR by lia.
    rewrite Rmult_assoc, <- bpow_add. f_equal. f_equal. lia.
Qed.

(** Rounding a positive number [p * 2^e] below 2^124: the result is a
    positive number within relative distance 2^-24, with no underflow
    error. *)
Lemma binary_round_accuracy (p : positive) (e : Z) :
  (-149 <= e)%Z -> (Zpos (digits2_pos p) + e <= 124)%Z ->
  let x := binary_round prec emax false p e in
  fabs x = x /\ 0 < to_R x
  /\ Rabs (to_R x - IZR (Zpos p) * bpow e) <= bpow (-24) * (IZR (Zpos p) * bpow e).
Proof.
  intros He Hd x.
  assert (0 < IZR (Zpos p) * bpow e) as Hv.
  { apply Rmult_lt_0_compat; [apply IZR_lt; lia|apply bpow_pos]. }
  destruct (Z_le_gt_dec (Zpos (digits2_pos p) + e - 24) (-149)) as [Hsub|Hnorm].
  - destruct (binary_round_subnormal p e He Hsub) as (m & Hx & _ & Hval).
    unfold x. rewrite Hx. cbn [fabs SFabs to_R]. rewrite Hval.
    split; [reflexivity|]. split; [assumption|].
    rewrite Rminus_diag, Rabs_R0. pose proof (bpow_pos (-24)). nra.
  - pose proof (binary_round_nearest p e ltac:(lia)) as Hn. fold x in Hn.
    destruct (nearest_at_rel_error _ _ _ Hn) as [Hpos Herr].
    split; [exact (fabs_nearest_at _ _ _ Hn)|]. split; assumption.
Qed.

(** The absolute difference of two positive numbers below 2^100 is
    correctly rounded; a difference below the normal range is exact. *)
Lemma fabs_sub_rounded (ma mb : positive) (ea eb : Z) :
  (Zpos ma < 2 ^ 24)%Z -> (Zpos mb < 2 ^ 24)%Z ->
  (-149 <= ea <= 76)%Z -> (-149 <= eb <= 76)%Z ->
  IZR (Zpos ma) * bpow ea <> IZR (Zpos mb) * bpow eb ->
  let x := fabs (sub (S754_finite false ma ea) (S754_finite false mb eb)) in
  0 < to_R x
  /\ Rabs (to_R x - Rabs (IZR (Zpos ma) * bpow ea - IZR (Zpos mb) * bpow eb))
     <= bpow (-24) * Rabs (IZR (Zpos ma) * bpow ea - IZR (Zpos mb) * bpow eb).
Proof.
  intros Hma Hmb Hea Heb Hne. unfold sub, SFsub. cbv zeta.
  set (ez := Z.min ea eb).
  assert (ez <= ea)%Z as Hza by (unfold ez; lia).
  assert (ez <= eb)%Z as Hzb by (unfold ez; lia).
  rewrite (shl_align_fst ma ea ez Hza), (shl_align_fst mb eb ez Hzb).
  cbn [cond_Zopp].
  set (D := (Zpos ma * 2 ^ (ea - ez) - Zpos mb * 2 ^ (eb - ez))%Z).
  assert (IZR (Zpos ma) * bpow ea - IZR (Zpos mb) * bpow eb
          = IZR D * bpow ez) as Hval.
  { unfold D. rewrite minus_IZR, !mult_IZR, <- !bpow_IZR by lia.
    rewrite Rmult_minus_distr_r, !Rmult_assoc, <- !bpow_add.
    replace (ea - ez + ez)%Z with ea by lia.
    replace (eb - ez + ez)%Z with eb by lia. reflexivity. }
  rewrite Hval. pose proof (bpow_pos ez) as HX.
  assert (D <> 0)%Z as HD.
  { intros HD0. apply Hne. rewrite HD0 in Hval. lra. }
  assert (Z.abs D < 2 ^ (24 + Z.max ea eb - ez))%Z as Hbound.
  { assert (0 < 2 ^ (ea - ez))%Z by (apply Z.pow_pos_nonneg; lia).
    assert (0 < 2 ^ (eb - ez))%Z by (apply Z.pow_pos_nonneg; lia).
    assert (Zpos ma * 2 ^ (ea - ez) < 2 ^ (24 + Z.max ea eb - ez))%Z.
    { apply Z.lt_le_trans with (2 ^ 24 * 2 ^ (ea - ez))%Z; [nia|].
      rewrite <- Z.pow_add_r by lia. apply Z.pow_le_mono_r; lia. }
    assert (Zpos mb * 2 ^ (eb - ez) < 2 ^ (24 + Z.max ea eb - ez))%Z.
    { apply Z.lt_le_trans with (2 ^ 24 * 2 ^ (eb - ez))%Z; [nia|].
      rewrite <- Z.pow_add_r by lia. apply Z.pow_le_mono_r; lia. }
    unfold D. lia. }
  assert (forall q : positive, Z.abs D = Zpos q ->
    let x := binary_round prec emax false q ez in
    fabs x = x /\ 0 < to_R x
    /\ Rabs (to_R x - Rabs (IZR D * bpow ez))
       <= bpow (-24) * Rabs (IZR D * bpow ez)) as Hround.
  { intros q Hq.
    replace (Rabs (IZR D * bpow ez)) with (IZR (Zpos q) * bpow ez).
    2:{ rewrite Rabs_mult, (Rabs_pos_eq (bpow ez)) by lra.
        rewrite <- abs_IZR, Hq. reflexivity. }
    apply binary_round_accuracy; [unfold ez; lia|].
    pose proof (digits2_bounds q) as [Hlo Hhi].
    set (d := Zpos (digits2_pos q)) in *.
    assert (1 <= d)%Z by (unfold d; lia).
    assert (d - 1 < 24 + Z.max ea eb - ez)%Z.
    { apply (Z.pow_lt_mono_r_iff 2); lia. }
    lia. }
  destruct D as [|q|q]; [contradiction| |].
  - cbn [binary_normalize]. destruct (Hround q eq_refl) as (Habs & Hpos & Herr).
    rewrite Habs. split; assumption.
  - cbn [binary_normalize]. destruct (Hround q eq_refl) as (Habs & Hpos & Herr).
    rewrite (fabs_binary_round true false), Habs. split; assumption.
Qed.

Lemma plain_depth_value x : plain_depth x -> 0 <= to_R x.
Proof.
  destruct x as [s|s| |[|] m e]; cbn; try tauto; try lra.
  intros _. pose proof (bpow_pos e).
  assert (0 < IZR (Zpos m)) by (apply IZR_lt; lia). nra.
Qed.

(** The value written for two valid pixels is the absolute difference
    of the pixels, correctly rounded. *)
Lemma fabs_sub_accuracy a b :
  plain_depth a -> plain_depth b ->
  0 <= to_R (fabs (sub a b))
  /\ Rabs (to_R (fabs (sub a b)) - Rabs (to_R a - to_R b))
     <= bpow (-24) * Rabs (to_R a - to_R b).
Proof.
  intros Ha Hb. pose proof (plain_depth_value a Ha) as Hva.
  pose proof (plain_depth_value b Hb) as Hvb.
  pose proof (bpow_pos (-24)) as Hu.
  assert (forall v, 0 <= v ->
            0 <= v /\ Rabs (v - Rabs v) <= bpow (-24) * Rabs v) as Hexact.
  { intros v Hv. split; [assumption|].
    rewrite (Rabs_pos_eq v), Rminus_diag, Rabs_R0 by assumption. nra. }
  destruct a as [sa|sa| |[|] ma ea], b as [sb|sb| |[|] mb eb];
    cbn [plain_depth] in Ha, Hb; try contradiction.
  - replace (fabs (sub (S754_zero sa) (S754_zero sb))) with (S754_zero false)
      by (destruct sa, sb; reflexivity).
    cbn [to_R]. rewrite Rminus_diag, Rabs_R0, Rminus_diag, Rabs_R0. lra.
  - change (fabs (sub (S754_zero sa) (S754_finite false mb eb)))
      with (S754_finite false mb eb).
    cbn [to_R] in *. rewrite Rminus_0_l, Rabs_Ropp.
    apply Hexact. assumption.
  - change (fabs (sub (S754_finite false ma ea) (S754_zero sb)))
      with (S754_finite false ma ea).
    cbn [to_R] in *. rewrite Rminus_0_r.
    apply Hexact. assumption.
  - cbn [to_R] in *.
    destruct (Req_dec_T (IZR (Zpos ma) * bpow ea) (IZR (Zpos mb) * bpow eb))
      as [Heq|Hne].
    + assert (fabs (sub (S754_finite false ma ea) (S754_finite false mb eb))
              = S754_zero false) as ->.
      { unfold sub, SFsub. cbv zeta.
        set (ez := Z.min ea eb).
        rewrite (shl_align_fst ma ea ez), (shl_align_fst mb eb ez)
          by (unfold ez; lia).
        cbn [cond_Zopp].
        assert (Zpos ma * 2 ^ (ea - ez) - Zpos mb * 2 ^ (eb - ez) = 0)%Z
          as ->; [|reflexivity].
        apply eq_IZR. rewrite minus_IZR, !mult_IZR.
        rewrite <- !bpow_IZR by (unfold ez; lia).
        pose proof (bpow_pos ez) as HX.
        apply (Rmult_eq_reg_r (bpow ez)); [|lra].
        rewrite Rmult_0_l, Rmult_minus_distr_r, !Rmult_assoc, <- !bpow_add.
        replace (ea - ez + ez)%Z with ea by lia.
        replace (eb - ez + ez)%Z with eb by lia. lra. }
      cbn [to_R]. rewrite Heq, Rminus_diag, Rabs_R0, Rminus_diag, Rabs_R0. lra.
    + destruct (fabs_sub_rounded ma mb ea eb) as [Hpos Herr]; try tauto.
      split; [lra|exact Herr].
Qed.

(** Every binary32 number that is >= 0 and below 2^100 is such a depth. *)
Lemma plain_depth_of_valid x :
  valid_binary prec emax x = true -> geb x zero = true ->
  x <> S754_infinity false -> to_R x < bpow 100 -> plain_depth x.
Proof.
  destruct x as [s|[|]| |[|] m e]; cbn [plain_depth]; intros Hvalid Hge Hinf Hlt;
    try exact I; try discriminate; try congruence.
  cbn [valid_binary] in Hvalid. unfold bounded, canonical_mantissa in Hvalid.
  apply andb_prop in Hvalid as [Hcan Hexp].
  apply Z.eqb_eq in Hcan. apply Z.leb_le in Hexp.
  unfold fexp, emin, prec, emax in *.
  pose proof (digits2_bounds m) as [Hlo Hhi].
  set (d := Zpos (digits2_pos m)) in *.
  assert (1 <= d)%Z by (unfold d; lia).
  assert (d <= 24)%Z as Hd by lia.
  split; [|split; [lia|]].
  - apply Z.lt_le_trans with (2 ^ d)%Z; [lia|]. apply Z.pow_le_mono_r; lia.
  - cbn [to_R] in Hlt.
    destruct (Z_le_gt_dec e 76) as [|Hbig]; [assumption|exfalso].
    assert (d = 24)%Z as Hd24 by lia.
    assert (bpow 100 <= IZR (Zpos m) * bpow e); [|lra].
    replace 100%Z with (23 + 77)%Z by lia.
    rewrite bpow_add, (bpow_IZR 23) by lia.
    assert (bpow 77 <= bpow e) by (apply bpow_le; lia).
    pose proof (bpow_pos 77).
    assert (IZR (2 ^ 23) <= IZR (Zpos m)).
    { apply IZR_le. rewrite Hd24 in Hlo. exact Hlo. }
    assert (0 < IZR (2 ^ 23)) by (apply IZR_lt; lia).
    nra.
Qed.

End SubtractionFacts.

Section DepthAccuracy.
Implicit Types (mem : gmap Z spec_float).
Open Scope Z_scope.

(** X8.  For two valid depths (zero, or any positive binary32 number
    below 2^100, subnormal numbers included) the value that
    [calculate_pixel_depth_difference] writes is the absolute difference
    of the two pixels rounded to binary32: it is >= 0 and within
    relative distance 2^-24 of |first - second|, and exactly 0 for equal
    pixels. *)
Theorem depth_difference_accuracy (i first second w h out : Z) mem mem'
  (a b : spec_float) :
  calculate_pixel_depth_difference i first second w h out mem = Some mem' ->
  mem !! (first + i) = Some a -> mem !! (second + i) = Some b ->
  plain_depth a -> plain_depth b ->
  exists addr x,
    mem' = <[addr := x]> mem
    /\ (0 <= F32.to_R x)%R
    /\ (Rabs (F32.to_R x - Rabs (F32.to_R a - F32.to_R b))
        <= F32.bpow (-24) * Rabs (F32.to_R a - F32.to_R b))%R.
Proof.
  intros Hrun Ha Hb Hpa Hpb.
  destruct (calculate_pixel_depth_difference_inv _ _ _ _ _ _ _ _ _ _
              Hrun Ha Hb) as [addr ->].
  assert (forall x, plain_depth x -> F32.geb x F32.zero = true) as Hge.
  { intros [s|s| |[|] m e] Hx; cbn in Hx; try contradiction; reflexivity. }
  rewrite (Hge a Hpa), (Hge b Hpb). cbn [andb].
  eexists addr, _. split; [reflexivity|].
  apply fabs_sub_accuracy; assumption.
Qed.

End DepthAccuracy.

Section DepthSweep.
Implicit Types (mem : gmap Z spec_float).
Open Scope Z_scope.

Lemma calculate_pixel_depth_difference_run i first second w h out mem a b :
  0 < w -> 0 < h -> w * h <= INT_MAX -> 0 <= i < w * h ->
  mem !! (first + i) = Some a -> mem !! (second + i) = Some b ->
  is_Some (mem !! (out + ((i mod w) * h + i / w))) ->
  calculate_pixel_depth_difference i first second w h out mem
  = Some (<[out + ((i mod w) * h + i / w) :=
             if F32.geb a F32.zero && F32.geb b F32.zero
             then F32.fabs (F32.sub a b) else F32.minus_one]> mem).
Proof.
  intros Hw Hh Hmax Hi Ha Hb Hout.
  destruct (row_major_to_column_major w h i Hw Hh Hmax Hi)
    as (Hdiv & Hrem & Hmul & Hadd).
  unfold calculate_pixel_depth_difference, load.
  rewrite Hdiv. cbn [mbind option_bind]. rewrite Hrem. cbn [mbind option_bind].
  rewrite Hmul. cbn [mbind option_bind]. rewrite Hadd. cbn [mbind option_bind].
  rewrite Ha. cbn [mbind option_bind]. rewrite Hb. cbn [mbind option_bind].
  apply store_Some. assumption.
Qed.

(** X9.  The depth difference of two whole images, followed by the copy
    that brings the column-major result back to row-major order:
    whatever the order in which the pixels of either sweep are
    processed, both sweeps are defined, the first changes nothing
    outside the column-major image, the two together change nothing
    outside the column-major image and the final image, and pixel i of
    the final image is |first[i] - second[i]| where both pixels are
    >= 0 and -1 elsewhere. *)
Theorem depth_difference_of_images (w h first second af out : Z)
  (order1 order2 : list Z) mem :
  0 < w -> 0 < h -> w * h <= INT_MAX ->
  (forall i, 0 <= i < w * h -> is_Some (mem !! (first + i))) ->
  (forall i, 0 <= i < w * h -> is_Some (mem !! (second + i))) ->
  (forall i, 0 <= i < w * h -> is_Some (mem !! (af + i))) ->
  (forall i, 0 <= i < w * h -> is_Some (mem !! (out + i))) ->
  (af + w * h <= first \/ first + w * h <= af) ->
  (af + w * h <= second \/ second + w * h <= af) ->
  (af + w * h <= out \/ out + w * h <= af) ->
  order1 ≡ₚ seqZ 0 (w * h) -> order2 ≡ₚ seqZ 0 (w * h) ->
  exists mem1 mem2,
    for_each_in order1
      (fun i => calculate_pixel_depth_difference i first second w h af) mem
    = Some mem1
    /\ for_each_in order2 (fun j => copy_af_pixel_to_itm j af w h out) mem1
       = Some mem2
    /\ (forall a, ~ (af <= a < af + w * h) -> mem1 !! a = mem !! a)
    /\ (forall a, ~ (af <= a < af + w * h) -> ~ (out <= a < out + w * h) ->
          mem2 !! a = mem !! a)
    /\ (forall i a b, 0 <= i < w * h ->
          mem !! (first + i) = Some a -> mem !! (second + i) = Some b ->
          mem1 !! (af + ((i mod w) * h + i / w))
          = Some (if F32.geb a F32.zero && F32.geb b F32.zero
                  then F32.fabs (F32.sub a b) else F32.minus_one)
          /\ mem2 !! (out + i)
             = Some (if F32.geb a F32.zero && F32.geb b F32.zero
                     then F32.fabs (F32.sub a b) else F32.minus_one)).
Proof.
  intros Hw Hh Hmax Hfirst Hsecond Haf Hout Hd1 Hd2 Hd3 Hperm1 Hperm2.
  assert (forall i, i ∈ order1 <-> 0 <= i < w * h) as Hin.
  { intros i. rewrite Hperm1, elem_of_seqZ. lia. }
  assert (forall i, 0 <= i < w * h -> 0 <= (i mod w) * h + i / w < w * h) as Ht.
  { intros i Hi. apply (transposed_range w h i Hw Hh Hi). }
  destruct (for_each_in_cells
    (fun i => af + ((i mod w) * h + i / w))
    (fun i => a ← mem !! (first + i); b ← mem !! (second + i);
              Some (if F32.geb a F32.zero && F32.geb b F32.zero
                    then F32.fabs (F32.sub a b) else F32.minus_one))
    (fun i => calculate_pixel_depth_difference i first second w h af)
    order1 mem) as (mem1 & Hrun1 & Hdone1 & Hrest1).
  - rewrite Hperm1. apply NoDup_seqZ.
  - intros i j Hi Hj Heq. apply Hin in Hi, Hj.
    apply (transposed_injective w h); lia.
  - intros i Hi. apply Hin in Hi.
    destruct (Hfirst i Hi) as [a ->], (Hsecond i Hi) as [b ->].
    cbn [mbind option_bind]. eauto.
  - intros i m v Hi Hv Hframe Hown. apply Hin in Hi.
    destruct (Hfirst i Hi) as [a Ha], (Hsecond i Hi) as [b Hb].
    rewrite Ha, Hb in Hv. cbn [mbind option_bind] in Hv. injection Hv as <-.
    apply calculate_pixel_depth_difference_run; try assumption.
    + rewrite Hframe; [assumption|]. intros j Hj. apply Hin in Hj.
      pose proof (Ht j Hj). lia.
    + rewrite Hframe; [assumption|]. intros j Hj. apply Hin in Hj.
      pose proof (Ht j Hj). lia.
    + cbv beta in Hown. rewrite Hown. apply Haf, Ht, Hi.
  - assert (forall a, ~ (af <= a < af + w * h) -> mem1 !! a = mem !! a) as Hframe1.
    { intros a Ha. apply Hrest1. intros j Hj. apply Hin in Hj.
      pose proof (Ht j Hj). lia. }
    assert (forall j, 0 <= j < h * w -> is_Some (mem1 !! (af + j))) as Haf1.
    { intros j Hj.
      destruct (transposed_range h w j Hh Hw Hj) as (_ & _ & Hi).
      rewrite <- (transposed_inverse h w j Hh Hw Hj).
      rewrite Hdone1 by (apply Hin; lia).
      destruct (Hfirst ((j mod h) * w + j / h) ltac:(lia)) as [a ->].
      destruct (Hsecond ((j mod h) * w + j / h) ltac:(lia)) as [b ->].
      cbn [mbind option_bind]. eauto. }
    assert (forall i, 0 <= i < h * w -> is_Some (mem1 !! (out + i))) as Hout1.
    { intros i Hi. rewrite Hframe1 by lia. apply Hout. lia. }
    destruct (copy_itm_to_af_in_order af h w out order2 mem1)
      as (mem2 & Hrun2 & Hdone2 & Hrest2); try assumption; try lia.
    { rewrite (Z.mul_comm h w). assumption. }
    exists mem1, mem2. split; [assumption|]. split.
    { rewrite <- Hrun2. apply for_each_in_ext.
      intros j m. apply copy_af_pixel_to_itm_swap. }
    split; [assumption|].
    split.
    { intros a Haf' Hout'. rewrite Hrest2 by lia. apply Hframe1. assumption. }
    intros i a b Hi Ha Hb.
    assert (mem1 !! (af + ((i mod w) * h + i / w))
            = Some (if F32.geb a F32.zero && F32.geb b F32.zero
                    then F32.fabs (F32.sub a b) else F32.minus_one)) as H1.
    { rewrite Hdone1 by (apply Hin; assumption). rewrite Ha, Hb. reflexivity. }
    split; [assumption|].
    rewrite <- (transposed_inverse w h i Hw Hh Hi) at 1.
    rewrite Hdone2 by (pose proof (Ht i Hi); lia). assumption.
Qed.

End DepthSweep.

Section ThresholdProperties.
Implicit Types (mem : gmap Z spec_float).
Open Scope Z_scope.

Lemma ltb_nan_l x : F32.ltb S754_nan x = false.
Proof. reflexivity. Qed.

Lemma ltb_nan_r x : F32.ltb x S754_nan = false.
Proof. destruct x as [s|s| |s m e]; reflexivity. Qed.

(** X10.  Thresholding an image in place (input and output image the
    same) is idempotent: a second application with the same arguments
    changes nothing. After CO_GREATER with a value that is not itself
    above the threshold the pixel is not above the threshold, and
    likewise for CO_LESS. *)
Theorem threshold_in_place (i image : Z)
  (op : ImageProcessor.ComparisonOperator) (threshold value : spec_float)
  mem mem1 :
  set_pixel_on_threshold i image op threshold value image mem = Some mem1 ->
  set_pixel_on_threshold i image op threshold value image mem1 = Some mem1
  /\ (op = ImageProcessor.CO_GREATER -> F32.gtb value threshold = false ->
      exists r, mem1 !! (image + i) = Some r /\ F32.gtb r threshold = false)
  /\ (op = ImageProcessor.CO_LESS -> F32.ltb value threshold = false ->
      exists r, mem1 !! (image + i) = Some r /\ F32.ltb r threshold = false).
Proof.
  unfold set_pixel_on_threshold, load, store. intros Hrun.
  destruct (mem !! (image + i)) as [input|] eqn:Hin; [|discriminate].
  cbn [mbind option_bind] in Hrun.
  destruct op as [| |raw]; injection Hrun as <-.
  - rewrite lookup_insert_eq. cbn [mbind option_bind]. rewrite insert_insert_eq.
    destruct (F32.gtb input threshold) eqn:Hgt.
    + split; [destruct (F32.gtb value threshold); reflexivity|].
      split; [eauto|discriminate].
    + rewrite Hgt. split; [reflexivity|]. split; [eauto|discriminate].
  - rewrite lookup_insert_eq. cbn [mbind option_bind]. rewrite insert_insert_eq.
    destruct (F32.ltb input threshold) eqn:Hlt.
    + split; [destruct (F32.ltb value threshold); reflexivity|].
      split; [discriminate|eauto].
    + rewrite Hlt. split; [reflexivity|]. split; [discriminate|eauto].
  - rewrite Hin. cbn [mbind option_bind].
    split; [reflexivity|]. split; discriminate.
Qed.

(** X11.  A NaN pixel passes through [set_pixel_on_threshold] unchanged,
    and a NaN threshold turns the function into a plain copy of the
    pixel: every comparison with a NaN is false. *)
Theorem threshold_nan (i inp out : Z) (op : ImageProcessor.ComparisonOperator)
  (threshold value input : spec_float) mem :
  mem !! (inp + i) = Some input -> is_Some (mem !! (out + i)) ->
  op = ImageProcessor.CO_GREATER \/ op = ImageProcessor.CO_LESS ->
  input = S754_nan \/ threshold = S754_nan ->
  set_pixel_on_threshold i inp op threshold value out mem
  = Some (<[out + i := input]> mem).
Proof.
  intros Hin Hout Hop Hnan. unfold set_pixel_on_threshold, load.
  rewrite Hin. cbn [mbind option_bind].
  assert (F32.gtb input threshold = false /\ F32.ltb input threshold = false)
    as [Hgt Hlt].
  { unfold F32.gtb. destruct Hnan as [-> | ->];
      rewrite ?ltb_nan_l, ?ltb_nan_r; auto. }
  destruct Hop as [-> | ->]; rewrite ?Hgt, ?Hlt; apply store_Some; assumption.
Qed.

End ThresholdProperties.

Lemma depth_difference_sentinel_witness :
  exists mem',
    calculate_pixel_depth_difference 2 0 6 3 2 12 depth_memory = Some mem'
    /\ depth_memory !! (0 + 2)%Z = Some F32.minus_one
    /\ depth_memory !! (6 + 2)%Z = Some F32.one
    /\ exists addr r,
         mem' = <[addr := r]> depth_memory
         /\ (r = F32.minus_one
             <-> F32.geb F32.minus_one F32.zero = false
                 \/ F32.geb F32.one F32.zero = false)
         /\ (F32.ltb r F32.zero = true <-> r = F32.minus_one)
         /\ (F32.minus_one = S754_nan \/ F32.one = S754_nan ->
             r = F32.minus_one).
Proof.
  destruct (calculate_pixel_depth_difference 2 0 6 3 2 12 depth_memory)
    as [mem'|] eqn:Hrun; [|vm_compute in Hrun; discriminate].
  exists mem'. split; [reflexivity|].
  split; [vm_compute; reflexivity|]. split; [vm_compute; reflexivity|].
  apply (depth_difference_sentinel 2 0 6 3 2 12 depth_memory mem'
           F32.minus_one F32.one Hrun); vm_compute; reflexivity.
Defined.

Lemma depth_difference_with_itself_witness :
  exists mem',
    calculate_pixel_depth_difference 1 0 0 3 2 12 depth_memory = Some mem'
    /\ depth_memory !! (0 + 1)%Z = Some float_0_5
    /\ exists addr, mem' = <[addr := S754_zero false]> depth_memory.
Proof.
  destruct (calculate_pixel_depth_difference 1 0 0 3 2 12 depth_memory)
    as [mem'|] eqn:Hrun; [|vm_compute in Hrun; discriminate].
  exists mem'. split; [reflexivity|]. split; [vm_compute; reflexivity|].
  apply (depth_difference_with_itself 1 0 3 2 12 depth_memory mem' float_0_5
           Hrun).
  vm_compute. reflexivity.
Defined.

Lemma depth_difference_of_images_witness :
  ((0 < 3)%Z /\ (0 < 2)%Z /\ (3 * 2 <= INT_MAX)%Z)
  /\ (forall i, (0 <= i < 3 * 2)%Z -> is_Some (depth_memory !! (0 + i)%Z))
  /\ (forall i, (0 <= i < 3 * 2)%Z -> is_Some (depth_memory !! (6 + i)%Z))
  /\ (forall i, (0 <= i < 3 * 2)%Z -> is_Some (depth_memory !! (12 + i)%Z))
  /\ ((12 + 3 * 2 <= 0)%Z \/ (0 + 3 * 2 <= 12)%Z)
  /\ ((12 + 3 * 2 <= 6)%Z \/ (6 + 3 * 2 <= 12)%Z)
  /\ seqZ 0 (3 * 2) ≡ₚ seqZ 0 (3 * 2)
  /\ (exists mem1 mem2,
        for_each_in (seqZ 0 (3 * 2))
          (fun i => calculate_pixel_depth_difference i 0 6 3 2 12) depth_memory
        = Some mem1
        /\ for_each_in (seqZ 0 (3 * 2))
             (fun j => copy_af_pixel_to_itm j 12 3 2 0) mem1
           = Some mem2
        /\ (forall a, ~ (12 <= a < 12 + 3 * 2)%Z ->
              mem1 !! a = depth_memory !! a)
        /\ (forall a, ~ (12 <= a < 12 + 3 * 2)%Z -> ~ (0 <= a < 0 + 3 * 2)%Z ->
              mem2 !! a = depth_memory !! a)
        /\ (forall i a b, (0 <= i < 3 * 2)%Z ->
              depth_memory !! (0 + i)%Z = Some a ->
              depth_memory !! (6 + i)%Z = Some b ->
              mem1 !! (12 + ((i mod 3) * 2 + i / 3))%Z
              = Some (if F32.geb a F32.zero && F32.geb b F32.zero
                      then F32.fabs (F32.sub a b) else F32.minus_one)
              /\ mem2 !! (0 + i)%Z
                 = Some (if F32.geb a F32.zero && F32.geb b F32.zero
                         then F32.fabs (F32.sub a b) else F32.minus_one))).
Proof.
  assert (forall i, (0 <= i < 3 * 2)%Z -> is_Some (depth_memory !! (0 + i)%Z))
    as H0 by solve_cells.
  assert (forall i, (0 <= i < 3 * 2)%Z -> is_Some (depth_memory !! (6 + i)%Z))
    as H6 by solve_cells.
  assert (forall i, (0 <= i < 3 * 2)%Z -> is_Some (depth_memory !! (12 + i)%Z))
    as H12 by solve_cells.
  split; [repeat split; vm_compute; congruence|].
  split; [exact H0|]. split; [exact H6|]. split; [exact H12|].
  split; [right; lia|]. split; [right; lia|]. split; [reflexivity|].
  apply (depth_difference_of_images 3 2 0 6 12 0 (seqZ 0 (3 * 2))
           (seqZ 0 (3 * 2)) depth_memory);
    try assumption; try lia; try reflexivity.
  vm_compute. congruence.
Defined.

Lemma threshold_in_place_witness :
  exists mem1,
    set_pixel_on_threshold 1 0 ImageProcessor.CO_GREATER float_0_25
      float_0_25 0 depth_memory = Some mem1
    /\ set_pixel_on_threshold 1 0 ImageProcessor.CO_GREATER float_0_25
         float_0_25 0 mem1 = Some mem1
    /\ F32.gtb float_0_25 float_0_25 = false
    /\ exists r, mem1 !! (0 + 1)%Z = Some r /\ F32.gtb r float_0_25 = false.
Proof.
  destruct (set_pixel_on_threshold 1 0 ImageProcessor.CO_GREATER float_0_25
              float_0_25 0 depth_memory) as [mem1|] eqn:Hrun;
    [|vm_compute in Hrun; discriminate].
  destruct (threshold_in_place 1 0 ImageProcessor.CO_GREATER float_0_25
              float_0_25 depth_memory mem1 Hrun) as (Hidem & Hgt & _).
  exists mem1. split; [reflexivity|]. split; [exact Hidem|].
  split; [vm_compute; reflexivity|].
  apply Hgt; [reflexivity|vm_compute; reflexivity].
Defined.

Lemma threshold_nan_witness :
  depth_memory !! (0 + 1)%Z = Some float_0_5
  /\ is_Some (depth_memory !! (12 + 1)%Z)
  /\ set_pixel_on_threshold 1 0 ImageProcessor.CO_LESS S754_nan F32.one 12
       depth_memory
     = Some (<[(12 + 1)%Z := float_0_5]> depth_memory).
Proof.
  split; [vm_compute; reflexivity|]. split; [vm_compute; eauto|].
  apply (threshold_nan 1 0 12 ImageProcessor.CO_LESS S754_nan F32.one
           float_0_5 depth_memory).
  - vm_compute. reflexivity.
  - vm_compute. eauto.
  - right. reflexivity.
  - right. reflexivity.
Defined.

Lemma depth_difference_accuracy_witness :
  exists mem',
    calculate_pixel_depth_difference 1 0 6 3 2 12 depth_memory = Some mem'
    /\ depth_memory !! (0 + 1)%Z = Some float_0_5
    /\ depth_memory !! (6 + 1)%Z = Some float_0_75
    /\ plain_depth float_0_5 /\ plain_depth float_0_75
    /\ exists addr x,
         mem' = <[addr := x]> depth_memory
         /\ (0 <= F32.to_R x)%R
         /\ (Rabs (F32.to_R x
                   - Rabs (F32.to_R float_0_5 - F32.to_R float_0_75))
             <= F32.bpow (-24)
                * Rabs (F32.to_R float_0_5 - F32.to_R float_0_75))%R.
Proof.
  assert (plain_depth float_0_5) as H5 by (vm_compute; split; [reflexivity|split; discriminate]).
  assert (plain_depth float_0_75) as H75 by (vm_compute; split; [reflexivity|split; discriminate]).
  destruct (calculate_pixel_depth_difference 1 0 6 3 2 12 depth_memory)
    as [mem'|] eqn:Hrun; [|vm_compute in Hrun; discriminate].
  exists mem'. split; [reflexivity|].
  split; [vm_compute; reflexivity|]. split; [vm_compute; reflexivity|].
  split; [exact H5|]. split; [exact H75|].
  apply (depth_difference_accuracy 1 0 6 3 2 12 depth_memory mem'
           float_0_5 float_0_75 Hrun); try assumption; vm_compute; reflexivity.
Defined.

(** ** Further properties of the probability mass function *)

Section MassFacts.
Open Scope R_scope.
Import F32.

(** Two canonical binary32 numbers of the same value are the same. *)
Lemma canonical_eq (m1 m2 : positive) (e1 e2 : Z) :
  (2 ^ 23 <= Zpos m1 < 2 ^ 24)%Z -> (2 ^ 23 <= Zpos m2 < 2 ^ 24)%Z ->
  IZR (Zpos m1) * bpow e1 = IZR (Zpos m2) * bpow e2 ->
  m1 = m2 /\ e1 = e2.
Proof.
  intros Hm1 Hm2 Heq.
  assert (forall (a b : positive) (ea eb : Z),
    (2 ^ 23 <= Zpos a < 2 ^ 24)%Z -> (2 ^ 23 <= Zpos b < 2 ^ 24)%Z ->
    IZR (Zpos a) * bpow ea = IZR (Zpos b) * bpow eb -> ~ (ea < eb)%Z) as Hno.
  { intros a b ea eb Ha Hb Hab Hlt.
    assert (bpow (24 + ea) <= bpow (23 + eb)) as Hb' by (apply bpow_le; lia).
    rewrite !bpow_add, (bpow_IZR 23), (bpow_IZR 24) in Hb' by lia.
    pose proof (bpow_pos ea). pose proof (bpow_pos eb).
    destruct Ha as [_ Hhi]. destruct Hb as [Hlo _].
    apply IZR_lt in Hhi. apply IZR_le in Hlo. nra. }
  assert (e1 = e2) as ->.
  { pose proof (Hno m1 m2 e1 e2 Hm1 Hm2 Heq).
    pose proof (Hno m2 m1 e2 e1 Hm2 Hm1 (eq_sym Heq)). lia. }
  split; [|reflexivity].
  pose proof (bpow_pos e2) as HX.
  apply Rmult_eq_reg_r in Heq; [|lra]. apply eq_IZR in Heq. lia.
Qed.

Lemma nearest_at_to_R_eq E v x E' v' x' :
  nearest_at E v x -> nearest_at E' v' x' -> to_R x = to_R x' -> x = x'.
Proof.
  intros Hn Hn' Heq.
  destruct (nearest_at_canonical _ _ _ Hn) as (m & e & -> & Hm & _).
  destruct (nearest_at_canonical _ _ _ Hn') as (m' & e' & -> & Hm' & _).
  cbn [to_R] in Heq. destruct (canonical_eq m m' e e' Hm Hm' Heq) as [-> ->].
  reflexivity.
Qed.

Lemma nearest_at_leb E v x E' v' x' :
  nearest_at E v x -> nearest_at E' v' x' -> to_R x <= to_R x' ->
  leb x x' = true.
Proof.
  intros Hn Hn' Hle.
  destruct (nearest_at_canonical _ _ _ Hn) as (m & e & -> & Hm & _).
  destruct (nearest_at_canonical _ _ _ Hn') as (m' & e' & -> & Hm' & _).
  apply leb_canonical; assumption.
Qed.

(** A larger bin never gets a smaller mass. *)
Lemma empirical_mass_mono (c1 c2 t : N) :
  (1 <= c1 <= c2)%N -> (c2 < size_t_modulus)%N ->
  (1 <= t < size_t_modulus)%N ->
  leb (empirical_mass c1 t) (empirical_mass c2 t) = true
  /\ to_R (empirical_mass c1 t) <= to_R (empirical_mass c2 t).
Proof.
  intros Hc Hc2 Ht.
  destruct (empirical_mass_nearest c1 t ltac:(lia) Ht)
    as (E1 & Ec1 & Et1 & Hnc1 & Hnt1 & Hn1).
  destruct (empirical_mass_nearest c2 t ltac:(lia) Ht)
    as (E2 & Ec2 & Et2 & Hnc2 & Hnt2 & Hn2).
  assert (to_R (empirical_mass c1 t) <= to_R (empirical_mass c2 t)) as Hle.
  { destruct (nearest_at_rel_error _ _ _ Hnt1) as [Htpos _].
    assert (to_R (of_size_t c1) <= to_R (of_size_t c2)) as Hcle.
    { destruct (N.eq_dec c1 c2) as [->|Hne]; [lra|].
      apply (nearest_at_mono _ _ _ _ _ _ Hnc1 Hnc2). apply IZR_lt. lia. }
    destruct (Rle_lt_or_eq_dec _ _ Hcle) as [Hlt|Heq].
    - apply (nearest_at_mono _ _ _ _ _ _ Hn1 Hn2).
      unfold Rdiv. apply Rmult_lt_compat_r; [|assumption].
      apply Rinv_0_lt_compat. assumption.
    - unfold empirical_mass.
      rewrite (nearest_at_to_R_eq _ _ _ _ _ _ Hnc1 Hnc2 Heq). lra. }
  split; [|assumption].
  apply (nearest_at_leb _ _ _ _ _ _ Hn1 Hn2 Hle).
Qed.

(** A bin that holds every example gets the mass 1.0f exactly. *)
Lemma empirical_mass_self (c : N) :
  (1 <= c < size_t_modulus)%N -> empirical_mass c c = one.
Proof.
  intros Hc.
  destruct (empirical_mass_nearest c c Hc Hc) as (E & Ec & _ & Hnc & _ & Hn).
  destruct (nearest_at_rel_error _ _ _ Hnc) as [Hpos _].
  replace (to_R (of_size_t c) / to_R (of_size_t c)) with 1 in Hn
    by (field; lra).
  assert (nearest_at (-23) 1 one) as Hone.
  { replace 1 with (IZR (Zpos 8388608) * bpow (-23)).
    - apply (nearest_at_self 8388608 (-23)). simpl. lia.
    - change (-23)%Z with (- (23))%Z. rewrite bpow_neg by lia. simpl. lra. }
  apply (nearest_at_to_R_eq _ _ _ _ _ _ Hn Hone).
  rewrite one_value.
  apply (nearest_at_exact _ _ _ 8388608 (-23) Hn); [simpl; lia|].
  change (-23)%Z with (- (23))%Z. rewrite bpow_neg by lia. simpl. lra.
Qed.

(** A bin of c examples out of 2^k * c, the total below 2^24, gets the
    mass 2^-k exactly. *)
Lemma empirical_mass_power_of_two (c : N) (k : nat) :
  (1 <= c)%N -> (2 ^ N.of_nat k * c < 2 ^ 24)%N ->
  to_R (empirical_mass c (2 ^ N.of_nat k * c)) = / INR (2 ^ k).
Proof.
  intros Hc Ht.
  assert (1 <= 2 ^ N.of_nat k)%N as Hp.
  { pose proof (N.pow_nonzero 2 (N.of_nat k) ltac:(lia)). lia. }
  assert (1 <= 2 ^ N.of_nat k * c < 2 ^ 24)%N as Ht' by nia.
  assert (1 <= c < 2 ^ 24)%N as Hc' by nia.
  destruct (empirical_mass_nearest c (2 ^ N.of_nat k * c))
    as (E & _ & _ & _ & _ & Hn); [unfold size_t_modulus; lia..|].
  rewrite (of_size_t_exact c Hc'), (of_size_t_exact _ Ht') in Hn.
  assert (IZR (Z.of_N (2 ^ N.of_nat k * c))
          = IZR (2 ^ Z.of_nat k) * IZR (Z.of_N c)) as Hprod.
  { rewrite <- mult_IZR. f_equal. rewrite N2Z.inj_mul, N2Z.inj_pow.
    rewrite nat_N_Z. reflexivity. }
  assert (0 < IZR (Z.of_N c)) as HcR by (apply IZR_lt; lia).
  assert (0 < IZR (2 ^ Z.of_nat k)) as HpR.
  { apply IZR_lt. apply Z.pow_pos_nonneg; lia. }
  assert (INR (2 ^ k) = IZR (2 ^ Z.of_nat k)) as HINR.
  { rewrite INR_IZR_INZ. f_equal. rewrite Nat2Z.inj_pow. reflexivity. }
  rewrite HINR.
  assert (IZR (Z.of_N c) / IZR (Z.of_N (2 ^ N.of_nat k * c))
          = / IZR (2 ^ Z.of_nat k)) as Hq.
  { rewrite Hprod. field. lra. }
  rewrite Hq in Hn.
  apply (nearest_at_exact _ _ _ 8388608 (-23 - Z.of_nat k) Hn); [simpl; lia|].
  replace (-23 - Z.of_nat k)%Z with (-23 + - Z.of_nat k)%Z by lia.
  rewrite bpow_add, (bpow_neg (Z.of_nat k)) by lia.
  change (-23)%Z with (- (23))%Z. rewrite bpow_neg by lia.
  change (IZR (2 ^ 23)) with 8388608.
  set (q := IZR (2 ^ Z.of_nat k)) in *. field. lra.
Qed.

End MassFacts.

Section ConstructorProperties.
Context {Label : Type} `{Countable Label}.
Implicit Types (h : Histogram Label) (pmf : ProbabilityMassFunction Label).

(** X12.  The constructor keeps the order of the counts: a label with at
    least as many examples as another gets at least its mass, so a most
    frequent label of the histogram is a most probable label of the PMF. *)
Theorem make_pmf_preserves_order ndebug h pmf l1 l2 c1 c2 :
  histogram_ok h -> make_pmf ndebug h = Some pmf ->
  get_bins h !! l1 = Some c1 -> get_bins h !! l2 = Some c2 ->
  (c1 <= c2)%N ->
  exists m1 m2,
    get_masses pmf !! l1 = Some m1 /\ get_masses pmf !! l2 = Some m2
    /\ F32.leb m1 m2 = true /\ (F32.to_R m1 <= F32.to_R m2)%R.
Proof.
  intros Hok Hmk Hl1 Hl2 Hle.
  rewrite (make_pmf_inv _ _ _ Hmk), !lookup_fmap, Hl1, Hl2.
  destruct (histogram_ok_bins h Hok l1 c1 Hl1) as [Hc1 Hle1].
  destruct (histogram_ok_bins h Hok l2 c2 Hl2) as [Hc2 Hle2].
  destruct Hok as (_ & _ & Hlt).
  eexists _, _. split; [reflexivity|]. split; [reflexivity|].
  apply empirical_mass_mono; lia.
Qed.

Lemma sum_of_bins_singleton (l : Label) (c : N) :
  sum_of_bins ({[l := c]} : gmap Label N) = c.
Proof. unfold sum_of_bins. rewrite map_fold_singleton. lia. Qed.

Lemma sum_of_bins_constant (bins : gmap Label N) (c : N) :
  map_Forall (fun _ c' => c' = c) bins ->
  sum_of_bins bins = (N.of_nat (size bins) * c)%N.
Proof.
  induction bins as [|l x bins Hl IH] using map_ind; intros Hb.
  - rewrite sum_of_bins_empty, map_size_empty. reflexivity.
  - apply map_Forall_insert in Hb as [-> Hb]; [|assumption].
    rewrite sum_of_bins_insert, map_size_insert_None, (IH Hb) by assumption.
    lia.
Qed.

End ConstructorProperties.

Lemma make_pmf_preserves_order_witness :
  histogram_ok histogram_A3_B1
  /\ make_pmf false histogram_A3_B1 = Some pmf_A3_B1
  /\ get_bins histogram_A3_B1 !! "B" = Some 1%N
  /\ get_bins histogram_A3_B1 !! "A" = Some 3%N
  /\ (1 <= 3)%N
  /\ exists m1 m2,
       get_masses pmf_A3_B1 !! "B" = Some m1
       /\ get_masses pmf_A3_B1 !! "A" = Some m2
       /\ F32.leb m1 m2 = true /\ (F32.to_R m1 <= F32.to_R m2)%R.
Proof.
  split; [apply histogram_A3_B1_ok|]. split; [apply make_pmf_A3_B1|].
  split; [vm_compute; reflexivity|]. split; [vm_compute; reflexivity|].
  split; [lia|].
  apply (make_pmf_preserves_order false histogram_A3_B1 pmf_A3_B1 "B" "A" 1 3).
  - apply histogram_A3_B1_ok.
  - apply make_pmf_A3_B1.
  - vm_compute. reflexivity.
  - vm_compute. reflexivity.
  - lia.
Defined.

Lemma histogram_pure_ok : histogram_ok histogram_pure.
Proof. apply histogram_ok_of_labels. vm_compute. reflexivity. Qed.

Lemma histogram_even_ok : histogram_ok histogram_even.
Proof. apply histogram_ok_of_labels. vm_compute. reflexivity. Qed.

(** ** rafl: the entropy in binary32 *)

Section Arithmetic.
Open Scope R_scope.
Import F32.

(** The sign given to the rounding functions is the sign of the result. *)
Lemma binary_round_aux_opp mx ex lx :
  binary_round_aux prec emax true mx ex lx
  = opp (binary_round_aux prec emax false mx ex lx).
Proof.
  unfold binary_round_aux.
  destruct (shr_fexp _ _ mx ex lx) as [mrs e'].
  destruct (shr_fexp _ _ _ e' loc_Exact) as [mrs' e''].
  destruct (shr_m mrs') as [|p|p]; [reflexivity| |reflexivity].
  destruct (e'' <=? _)%Z; reflexivity.
Qed.

Lemma binary_round_opp p e :
  binary_round prec emax true p e = opp (binary_round prec emax false p e).
Proof.
  unfold binary_round. destruct (shl_align p e _) as [mz ez].
  apply binary_round_aux_opp.
Qed.

(** Rounding a positive number never gives a NaN or a negative number. *)
Lemma binary_round_aux_sign (mx : positive) ex :
  match binary_round_aux prec emax false (Zpos mx) ex loc_Exact with
  | S754_zero false | S754_infinity false | S754_finite false _ _ => True
  | _ => False
  end.
Proof.
  unfold binary_round_aux.
  destruct (located_shr_fexp (IZR (Zpos mx) * bpow ex) (Zpos mx) ex loc_Exact)
    as (H1 & H1' & _); [lia|reflexivity|].
  destruct (shr_fexp prec emax (Zpos mx) ex loc_Exact) as [mrs e']. cbn [fst snd] in *.
  destruct (round_nearest_even_spec _ _ _ _ H1) as [Hr _].
  set (m' := round_nearest_even _ _) in *.
  destruct (located_shr_fexp (IZR m' * bpow e') m' e' loc_Exact)
    as (_ & H2 & _); [lia|reflexivity|].
  destruct (shr_fexp prec emax m' e' loc_Exact) as [mrs' e'']. cbn [fst snd] in *.
  destruct (shr_m mrs') as [|p|p]; [exact I| |lia].
  destruct (e'' <=? _)%Z; exact I.
Qed.

Lemma binary_round_sign (p : positive) e :
  match binary_round prec emax false p e with
  | S754_zero false | S754_infinity false | S754_finite false _ _ => True
  | _ => False
  end.
Proof.
  unfold binary_round. destruct (shl_align p e _) as [mz ez].
  apply binary_round_aux_sign.
Qed.

(** *** Multiplication *)

Lemma opp_involutive x : opp (opp x) = x.
Proof. destruct x as [[|]|[|]| |[|] m e]; reflexivity. Qed.

Lemma mul_opp_r x y : mul x (opp y) = opp (mul x y).
Proof.
  destruct x as [sx|sx| |sx mx ex], y as [sy|sy| |sy my ey];
    try reflexivity; try (destruct sx, sy; reflexivity).
  cbn [opp SFopp mul SFmul].
  destruct sx, sy; cbn [xorb negb];
    rewrite ?binary_round_aux_opp, ?opp_involutive; reflexivity.
Qed.

(** The product of two positive normal numbers, when it lies in the
    normal range, is correctly rounded. *)
Lemma mul_nearest (mx my : positive) (ex ey : Z) :
  (2 ^ 23 <= Zpos mx < 2 ^ 24)%Z -> (2 ^ 23 <= Zpos my < 2 ^ 24)%Z ->
  bpow (-126) <= IZR (Zpos mx) * bpow ex * (IZR (Zpos my) * bpow ey)
    < bpow 100 ->
  exists E, (-149 <= E <= 100)%Z /\
    nearest_at E (IZR (Zpos mx) * bpow ex * (IZR (Zpos my) * bpow ey))
      (mul (S754_finite false mx ex) (S754_finite false my ey)).
Proof.
  intros Hmx Hmy Hv. cbn [mul SFmul xorb].
  set (v := IZR (Zpos mx) * bpow ex * (IZR (Zpos my) * bpow ey)) in *.
  assert (v = IZR (Zpos (mx * my)) * bpow (ex + ey)) as Hval.
  { unfold v. rewrite Pos2Z.inj_mul, mult_IZR, bpow_add. ring. }
  assert (located v (Zpos (mx * my)) (ex + ey) loc_Exact) as Hl by exact Hval.
  assert (2 ^ 23 <= Zpos (mx * my))%Z as Hbig.
  { rewrite Pos2Z.inj_mul. apply Z.le_trans with (2 ^ 23 * 1)%Z; [lia|].
    apply Z.mul_le_mono_nonneg; lia. }
  pose proof (located_binade _ _ _ _ (Pos2Z.is_pos _) Hl) as Hbin.
  set (D := Zdigits2 (Zpos (mx * my))) in *.
  assert (-149 <= D + (ex + ey) - 24 <= 100)%Z as HE.
  { split.
    - destruct (Z_le_gt_dec (-149) (D + (ex + ey) - 24)) as [|Hlt];
        [assumption|exfalso].
      assert (bpow (D + (ex + ey)) <= bpow (-126)) by (apply bpow_le; lia).
      lra.
    - destruct (Z_le_gt_dec (D + (ex + ey) - 24) 100) as [|Hgt];
        [assumption|exfalso].
      assert (bpow 100 <= bpow (D + (ex + ey) - 1)) by (apply bpow_le; lia).
      lra. }
  exists (D + (ex + ey) - 24)%Z. split; [exact HE|].
  apply binary_round_aux_normal; assumption.
Qed.

(** *** Addition *)

Lemma add_neg_neg (mx my : positive) (ex ey : Z) :
  add (S754_finite true mx ex) (S754_finite true my ey)
  = opp (add (S754_finite false mx ex) (S754_finite false my ey)).
Proof.
  cbn [add SFadd cond_Zopp]. cbv zeta.
  destruct (shl_align mx ex _) as [mx' ex'], (shl_align my ey _) as [my' ey'].
  cbn [fst]. cbn [Z.opp Z.add binary_normalize].
  apply binary_round_opp.
Qed.

(** The sum of two positive numbers, when it lies in the normal range,
    is correctly rounded. *)
Lemma add_nearest (mx my : positive) (ex ey : Z) :
  (-149 <= ex)%Z -> (-149 <= ey)%Z ->
  bpow (-126) <= IZR (Zpos mx) * bpow ex + IZR (Zpos my) * bpow ey
    < bpow 100 ->
  exists E, (-149 <= E <= 100)%Z /\
    nearest_at E (IZR (Zpos mx) * bpow ex + IZR (Zpos my) * bpow ey)
      (add (S754_finite false mx ex) (S754_finite false my ey)).
Proof.
  intros Hex Hey Hv. cbn [add SFadd cond_Zopp]. cbv zeta.
  set (ez := Z.min ex ey).
  assert (ez <= ex)%Z as Hzx by (unfold ez; lia).
  assert (ez <= ey)%Z as Hzy by (unfold ez; lia).
  rewrite (shl_align_fst mx ex ez Hzx), (shl_align_fst my ey ez Hzy).
  set (v := IZR (Zpos mx) * bpow ex + IZR (Zpos my) * bpow ey) in *.
  assert (0 < 2 ^ (ex - ez))%Z by (apply Z.pow_pos_nonneg; lia).
  assert (0 < 2 ^ (ey - ez))%Z by (apply Z.pow_pos_nonneg; lia).
  destruct (Zpos mx * 2 ^ (ex - ez) + Zpos my * 2 ^ (ey - ez))%Z
    as [|q|q] eqn:Hq; try lia.
  cbn [binary_normalize].
  assert (v = IZR (Zpos q) * bpow ez) as Hval.
  { rewrite <- Hq. unfold v.
    rewrite plus_IZR, !mult_IZR, <- !bpow_IZR by lia.
    rewrite Rmult_plus_distr_r, !Rmult_assoc, <- !bpow_add.
    replace (ex - ez + ez)%Z with ex by lia.
    replace (ey - ez + ez)%Z with ey by lia. reflexivity. }
  assert (located v (Zpos q) ez loc_Exact) as Hl by exact Hval.
  pose proof (located_binade _ _ _ _ (Pos2Z.is_pos _) Hl) as Hbin.
  cbn [Zdigits2] in Hbin. set (d := Zpos (digits2_pos q)) in *.
  assert (-149 <= d + ez - 24 <= 100)%Z as HE.
  { split.
    - destruct (Z_le_gt_dec (-149) (d + ez - 24)) as [|Hlt];
        [assumption|exfalso].
      assert (bpow (d + ez) <= bpow (-126)) by (apply bpow_le; lia). lra.
    - destruct (Z_le_gt_dec (d + ez - 24) 100) as [|Hgt]; [assumption|exfalso].
      assert (bpow 100 <= bpow (d + ez - 1)) by (apply bpow_le; lia). lra. }
  rewrite Hval. exists (d + ez - 24)%Z. split; [exact HE|].
  apply binary_round_nearest. exact HE.
Qed.

End Arithmetic.

Section LogarithmFacts.
Open Scope R_scope.
Import F32.

Lemma ln2_lt_1 : ln 2 < 1.
Proof.
  pose proof (exp_ineq1 1 ltac:(lra)) as Hexp.
  rewrite <- (ln_exp 1). apply ln_increasing; lra.
Qed.

Lemma log2_le a b : 0 < a -> a <= b -> log2 a <= log2 b.
Proof.
  intros Ha Hab. unfold log2. pose proof ln2_pos as H2.
  apply Rmult_le_compat_r; [apply Rlt_le, Rinv_0_lt_compat; assumption|].
  destruct (Rle_lt_or_eq_dec _ _ Hab) as [Hlt| ->]; [|lra].
  apply Rlt_le, ln_increasing; assumption.
Qed.

Lemma log2_pow2 (n : nat) : log2 (2 ^ n) = INR n.
Proof.
  unfold log2. rewrite ln_pow by lra. pose proof ln2_pos. field. lra.
Qed.

Lemma log2_bpow k : log2 (bpow k) = IZR k.
Proof.
  destruct (Z_le_gt_dec 0 k) as [Hk|Hk].
  - rewrite bpow_IZR by assumption.
    rewrite <- (Z2Nat.id k) at 1 by assumption.
    rewrite <- pow_IZR, log2_pow2, INR_IZR_INZ, Z2Nat.id by assumption.
    reflexivity.
  - replace k with (- (- k))%Z at 1 by lia. rewrite bpow_neg by lia.
    rewrite log2_inv by (apply IZR_lt, Z.pow_pos_nonneg; lia).
    rewrite <- (Z2Nat.id (- k)) at 1 by lia.
    rewrite <- pow_IZR, log2_pow2, INR_IZR_INZ, Z2Nat.id by lia.
    rewrite opp_IZR. lra.
Qed.

(** Below 1 the logarithm is at most p - 1. *)
Lemma log2_below_one p t : 0 < p -> 0 <= t -> p <= 1 - t -> log2 p <= - t.
Proof.
  intros Hp Ht Hle. pose proof ln2_pos as H2. pose proof ln2_lt_1 as H1.
  assert (ln p <= p - 1) as Hln.
  { pose proof (exp_ineq1_le (ln p)) as Hexp.
    rewrite exp_ln in Hexp by assumption. lra. }
  unfold log2.
  apply (Rmult_le_reg_r (ln 2)); [assumption|].
  unfold Rdiv. rewrite Rmult_assoc, Rinv_l by lra. nra.
Qed.

End LogarithmFacts.

Section ShapeFacts.
Open Scope R_scope.
Import F32.

Lemma valid_canonical s (m : positive) e :
  valid (S754_finite s m e) = true ->
  bpow (-126) <= IZR (Zpos m) * bpow e ->
  (2 ^ 23 <= Zpos m < 2 ^ 24)%Z /\ (-149 <= e <= 104)%Z.
Proof.
  unfold valid. cbn [valid_binary]. unfold bounded, canonical_mantissa.
  intros Hvalid Hv. apply andb_prop in Hvalid as [Hcan Hexp].
  apply Z.eqb_eq in Hcan. apply Z.leb_le in Hexp.
  unfold fexp, emin, prec, emax in *.
  pose proof (digits2_bounds m) as [Hlo Hhi].
  set (d := Zpos (digits2_pos m)) in *.
  assert (1 <= d)%Z by (unfold d; lia).
  destruct (Z.eq_dec d 24%Z) as [Hd|Hd].
  - rewrite Hd in Hlo, Hhi. lia.
  - exfalso. assert (e = -149 /\ d < 24)%Z as [-> Hlt] by lia.
    assert (IZR (Zpos m) * bpow (-149) < bpow (-126)); [|lra].
    change (-126)%Z with (23 + -149)%Z.
    rewrite bpow_add, (bpow_IZR 23) by lia.
    apply Rmult_lt_compat_r; [apply bpow_pos|]. apply IZR_lt.
    apply Z.lt_le_trans with (2 ^ d)%Z; [lia|].
    apply Z.pow_le_mono_r; lia.
Qed.

Lemma valid_normal_pos x :
  valid x = true -> bpow (-126) <= to_R x ->
  exists (m : positive) (e : Z),
    x = S754_finite false m e /\ (2 ^ 23 <= Zpos m < 2 ^ 24)%Z
    /\ (-149 <= e <= 104)%Z.
Proof.
  intros Hvalid Hv. pose proof (bpow_pos (-126)) as HX.
  destruct x as [s|s| |[|] m e]; cbn [to_R] in Hv; try lra.
  - exfalso. pose proof (bpow_pos e).
    assert (0 < IZR (Zpos m)) by (apply IZR_lt; lia). nra.
  - exists m, e. split; [reflexivity|]. apply (valid_canonical false); assumption.
Qed.

Lemma valid_normal_neg x :
  valid x = true -> to_R x <= - bpow (-126) ->
  exists (m : positive) (e : Z),
    x = S754_finite true m e /\ (2 ^ 23 <= Zpos m < 2 ^ 24)%Z
    /\ (-149 <= e <= 104)%Z.
Proof.
  intros Hvalid Hv. pose proof (bpow_pos (-126)) as HX.
  destruct x as [s|s| |[|] m e]; cbn [to_R] in Hv; try lra.
  - exists m, e. split; [reflexivity|]. apply (valid_canonical true); [assumption|].
    lra.
  - exfalso. pose proof (bpow_pos e).
    assert (0 < IZR (Zpos m)) by (apply IZR_lt; lia). nra.
Qed.

Lemma finite_zero x : is_finite x = true -> to_R x = 0 -> exists s, x = S754_zero s.
Proof.
  destruct x as [s|s| |s m e]; cbn [is_finite to_R]; try discriminate;
    intros _ Hv; [eauto|exfalso].
  pose proof (bpow_pos e). assert (0 < IZR (Zpos m)) by (apply IZR_lt; lia).
  destruct s; nra.
Qed.

(** A normal number below 1 is at most 1 - 2^-24. *)
Lemma normal_below_one (m : positive) e :
  (2 ^ 23 <= Zpos m < 2 ^ 24)%Z -> IZR (Zpos m) * bpow e < 1 ->
  IZR (Zpos m) * bpow e <= 1 - bpow (-24).
Proof.
  intros Hm Hlt. pose proof (bpow_pos e) as HX.
  assert (e <= -24)%Z as He.
  { destruct (Z_le_gt_dec e (-24)) as [|Hgt]; [assumption|exfalso].
    assert (bpow (-23) <= bpow e) by (apply bpow_le; lia).
    assert (1 = IZR (2 ^ 23) * bpow (-23)) as H1.
    { change (-23)%Z with (- (23))%Z. rewrite bpow_neg by lia.
      field. apply not_0_IZR. lia. }
    assert (IZR (2 ^ 23) <= IZR (Zpos m)) by (apply IZR_le; lia).
    assert (0 < IZR (2 ^ 23)) by (apply IZR_lt; lia).
    pose proof (bpow_pos (-23)). nra. }
  assert (bpow e <= bpow (-24)) as Hle by (apply bpow_le; lia).
  assert (IZR (Zpos m) <= IZR (2 ^ 24) - 1) as Hm'.
  { rewrite <- minus_IZR. apply IZR_le. lia. }
  assert (IZR (2 ^ 24) * bpow (-24) = 1) as H1.
  { change (-24)%Z with (- (24))%Z. rewrite bpow_neg by lia.
    field. apply not_0_IZR. lia. }
  pose proof (bpow_pos (-24)).
  assert (0 < IZR (Zpos m)) by (apply IZR_lt; lia).
  apply Rle_trans with (IZR (Zpos m) * bpow (-24)); [nra|]. nra.
Qed.

Lemma bpow_m23 : bpow (-23) = 2 * bpow (-24).
Proof. change (-23)%Z with (-24 + 1)%Z. apply bpow_succ. Qed.

End ShapeFacts.

Section TermFacts.
Variable log2f : spec_float -> spec_float.
Open Scope R_scope.
Import F32.

(** The term that one label of mass [p] adds to the accumulator. *)
Lemma term_of_mass (p : spec_float) :
  valid p = true -> bpow (-100) <= to_R p <= 1 -> log2f_accurate log2f p ->
  let x := - (to_R p * log2 (to_R p)) in
  let t := mul p (log2f p) in
  gtb p zero = true
  /\ ((x = 0 /\ to_R p = 1 /\ exists s, t = S754_zero s)
      \/ (0 < x <= 100 /\ to_R p < 1 /\ negative_normal t
          /\ x * (1 - bpow (-23)) * (1 - bpow (-24)) <= - to_R t
             <= x * (1 + bpow (-23)) * (1 + bpow (-24)))).
Proof.
  intros Hvalid [Hlo Hhi] (Hfin & HvalidL & Hacc & _). cbv zeta.
  assert (bpow (-126) <= bpow (-100)) as H126 by (apply bpow_le; lia).
  destruct (valid_normal_pos p Hvalid ltac:(lra)) as (mp & ep & -> & Hmp & Hep).
  split; [reflexivity|].
  cbn [to_R] in *. set (P := IZR (Zpos mp) * bpow ep) in *.
  pose proof (bpow_pos (-100)) as H100.
  pose proof (bpow_pos (-24)) as Hu. pose proof bpow_m23 as Hu'.
  pose proof bpow_m24_small as Hsmall.
  set (L := log2f (S754_finite false mp ep)) in *.
  destruct (Rle_lt_or_eq_dec _ _ Hhi) as [Hlt|Heq].
  - right.
    pose proof (normal_below_one mp ep Hmp Hlt) as Hp1. fold P in Hp1.
    pose proof (log2_below_one P (bpow (-24)) ltac:(lra) ltac:(lra) Hp1) as Hv1.
    pose proof (log2_le (bpow (-100)) P H100 Hlo) as Hv2.
    rewrite log2_bpow in Hv2.
    set (v := log2 P) in *.
    rewrite (Rabs_left v) in Hacc by lra.
    apply Rabs_le_inv in Hacc.
    assert (to_R L <= - bpow (-126)) as HL.
    { assert (bpow (-126) <= bpow (-25)) by (apply bpow_le; lia).
      assert (bpow (-24) = 2 * bpow (-25)) as H25.
      { change (-24)%Z with (-25 + 1)%Z. apply bpow_succ. }
      pose proof (bpow_pos (-25)). nra. }
    destruct (valid_normal_neg L HvalidL HL) as (mL & eL & HLeq & HmL & HeL).
    set (Lm := IZR (Zpos mL) * bpow eL) in *.
    assert (to_R L = - Lm) as HLval.
    { rewrite HLeq. cbn [to_R]. unfold Lm. ring. }
    rewrite HLval in Hacc.
    change (S754_finite true mL eL) with (opp (S754_finite false mL eL)) in HLeq.
    rewrite HLeq, mul_opp_r.
    destruct (mul_nearest mp mL ep eL Hmp HmL) as (E & HE & Hn).
    { fold P Lm. split.
      - change (-126)%Z with (-100 + -26)%Z. rewrite bpow_add.
        assert (bpow (-26) <= Lm).
        { assert (bpow (-24) = 4 * bpow (-26)) as H26.
          { change (-24)%Z with (-26 + 2)%Z. rewrite bpow_add.
            unfold bpow at 2. simpl. lra. }
          pose proof (bpow_pos (-26)). nra. }
        pose proof (bpow_pos (-26)). nra.
      - assert (128 <= bpow 100).
        { replace 128 with (bpow 7) by (unfold bpow; simpl; lra).
          apply bpow_le. lia. }
        nra. }
    fold P Lm in Hn.
    destruct (nearest_at_rel_error _ _ _ Hn) as [Hpos Herr].
    destruct (nearest_at_canonical _ _ _ Hn) as (mT & eT & HT & HmT & HeT).
    set (T := mul (S754_finite false mp ep) (S754_finite false mL eL)) in *.
    apply Rabs_le_inv in Herr.
    assert (0 < - (P * v) <= 100) as Hx by nra.
    split; [exact Hx|]. split; [exact Hlt|]. split.
    + exists mT, eT. rewrite HT. split; [reflexivity|]. split; [assumption|lia].
    + assert (to_R (opp T) = - to_R T) as ->.
      { rewrite HT. cbn [opp SFopp to_R negb]. ring. }
      rewrite Ropp_involutive. rewrite Hu'.
      set (x := - (P * v)) in *.
      assert (x * (1 - 2 * bpow (-24)) <= P * Lm <= x * (1 + 2 * bpow (-24)))
        as HPL by (unfold x; nra).
      split; nra.
  - left. fold P. rewrite Heq, log2_1 in *.
    rewrite Rabs_R0, Rmult_0_r, Rminus_0_r in Hacc.
    assert (to_R L = 0) as HL0 by (apply Rabs_le_inv in Hacc; lra).
    destruct (finite_zero L Hfin HL0) as [s ->].
    split; [lra|]. split; [reflexivity|]. exists s. reflexivity.
Qed.

End TermFacts.

Section AccumulatorFacts.
Open Scope R_scope.
Import F32.

Lemma negative_normal_value x :
  negative_normal x -> to_R x <= - bpow (-126).
Proof.
  intros (m & e & -> & Hm & He). cbn [to_R].
  change (-126)%Z with (23 + -149)%Z. rewrite bpow_add, (bpow_IZR 23) by lia.
  assert (bpow (-149) <= bpow e) by (apply bpow_le; lia).
  pose proof (bpow_pos (-149)).
  assert (IZR (2 ^ 23) <= IZR (Zpos m)) by (apply IZR_le; lia).
  assert (0 < IZR (2 ^ 23)) by (apply IZR_lt; lia).
  nra.
Qed.

(** One addition of the loop: the accumulator is +0 or a negative normal
    number, the term is a zero or a negative normal number, and the sum
    is correctly rounded. *)
Lemma add_step (acc t : spec_float) :
  acc = S754_zero false \/ negative_normal acc ->
  (exists s, t = S754_zero s) \/ negative_normal t ->
  - to_R acc - to_R t < bpow 100 ->
  (add acc t = S754_zero false \/ negative_normal (add acc t))
  /\ (- to_R acc - to_R t) * (1 - bpow (-24)) <= - to_R (add acc t)
     <= (- to_R acc - to_R t) * (1 + bpow (-24)).
Proof.
  intros Hacc Ht Hlt. pose proof bpow_m24_small as Hu.
  pose proof (bpow_pos (-126)) as H126.
  destruct Hacc as [->|Hacc], Ht as [[s ->]|Ht].
  - replace (add (S754_zero false) (S754_zero s)) with (S754_zero false)
      by (destruct s; reflexivity).
    split; [left; reflexivity|]. cbn [to_R]. lra.
  - pose proof (negative_normal_value t Ht) as Hv.
    destruct Ht as (m & e & -> & Hm & He).
    change (add (S754_zero false) (S754_finite true m e))
      with (S754_finite true m e).
    split; [right; exists m, e; auto|]. cbn [to_R] in *. nra.
  - pose proof (negative_normal_value acc Hacc) as Hv.
    destruct Hacc as (m & e & -> & Hm & He).
    change (add (S754_finite true m e) (S754_zero s))
      with (S754_finite true m e).
    split; [right; exists m, e; auto|]. cbn [to_R] in *. nra.
  - pose proof (negative_normal_value acc Hacc) as Hva.
    pose proof (negative_normal_value t Ht) as Hvt.
    destruct Hacc as (ma & ea & -> & Hma & Hea).
    destruct Ht as (mt & et & -> & Hmt & Het).
    rewrite add_neg_neg. cbn [to_R] in *.
    set (A := IZR (Zpos ma) * bpow ea) in *.
    set (T := IZR (Zpos mt) * bpow et) in *.
    replace (- (- IZR (Zpos ma) * bpow ea) - - IZR (Zpos mt) * bpow et)
      with (A + T) in * by (unfold A, T; ring).
    replace (- IZR (Zpos ma) * bpow ea) with (- A) in * by (unfold A; ring).
    replace (- IZR (Zpos mt) * bpow et) with (- T) in * by (unfold T; ring).
    destruct (add_nearest ma mt ea et Hea Het) as (E & HE & Hn).
    { fold A T. lra. }
    fold A T in Hn.
    destruct (nearest_at_rel_error _ _ _ Hn) as [Hpos Herr].
    destruct (nearest_at_canonical _ _ _ Hn) as (mr & er & Hr & Hmr & Her).
    apply Rabs_le_inv in Herr. rewrite Hr in *. cbn [opp SFopp to_R negb] in *.
    split.
    + right. exists mr, er. split; [reflexivity|]. split; [assumption|lia].
    + split; nra.
Qed.

End AccumulatorFacts.

Section LoopFacts.
Context {Label : Type}.
Variable log2f : spec_float -> spec_float.
Implicit Types (l : list (Label * spec_float)).
Open Scope R_scope.
Import F32.

Local Abbreviation terms l :=
  (foldr (fun (it : Label * spec_float) acc => plogp (to_R it.2) + acc) 0 l).

Lemma terms_app l1 l2 : terms (l1 ++ l2) = terms l1 + terms l2.
Proof.
  induction l1 as [|it l1 IH]; cbn [foldr app]; [lra|]. rewrite IH. lra.
Qed.

Lemma plogp_pos p : 0 < p -> plogp p = p * log2 p.
Proof. intros Hp. unfold plogp. destruct (Req_dec_T p 0); [lra|reflexivity]. Qed.

Lemma plogp_0 : plogp 0 = 0.
Proof. unfold plogp. destruct (Req_dec_T 0 0); [reflexivity|lra]. Qed.

(** The error of one more term: with relative error [c] so far, a term
    within (1 +- 2u)(1 +- u) of its value and a sum rounded within
    1 +- u, the relative error is at most [c + 2u]. *)
Lemma step_bounds (u c S x A T A' : R) :
  0 <= u <= / 8 -> 4 * u <= c <= 1 -> 0 <= S -> 0 <= x ->
  (1 - c) * S <= A <= (1 + c) * S ->
  x * (1 - 2 * u) * (1 - u) <= T <= x * (1 + 2 * u) * (1 + u) ->
  (A + T) * (1 - u) <= A' <= (A + T) * (1 + u) ->
  (1 - (c + 2 * u)) * (S + x) <= A' <= (1 + (c + 2 * u)) * (S + x).
Proof.
  intros Hu Hc HS Hx [HA1 HA2] [HT1 HT2] [HA'1 HA'2].
  assert (0 <= c * u) by nra.
  assert (0 <= u * u) by nra.
  assert (0 <= u * u * u) by nra.
  assert (u * u <= u / 8) by nra.
  assert (u * u * u <= u / 64) by nra.
  split.
  - apply Rle_trans with (((1 - c) * S + x * (1 - 2 * u) * (1 - u)) * (1 - u));
      [|nra].
    assert ((1 - (c + 2 * u)) * S <= (1 - c) * (1 - u) * S) by nra.
    assert ((1 - (c + 2 * u)) * x <= x * (1 - 2 * u) * (1 - u) * (1 - u)).
    { assert ((1 - 2 * u) * (1 - u) * (1 - u)
              = 1 - 4 * u + 5 * (u * u) - 2 * (u * u * u)) as Hexp by ring.
      assert (1 - (c + 2 * u) <= (1 - 2 * u) * (1 - u) * (1 - u))
        by (rewrite Hexp; lra).
      rewrite !Rmult_assoc. rewrite <- !Rmult_assoc.
      replace (x * (1 - 2 * u) * (1 - u) * (1 - u))
        with (x * ((1 - 2 * u) * (1 - u) * (1 - u))) by ring.
      rewrite (Rmult_comm _ x). apply Rmult_le_compat_l; assumption. }
    nra.
  - apply Rle_trans with (((1 + c) * S + x * (1 + 2 * u) * (1 + u)) * (1 + u));
      [nra|].
    assert ((1 + c) * (1 + u) * S <= (1 + (c + 2 * u)) * S).
    { apply Rmult_le_compat_r; [assumption|].
      assert (c * u <= u) by nra. nra. }
    assert (x * (1 + 2 * u) * (1 + u) * (1 + u) <= (1 + (c + 2 * u)) * x).
    { assert ((1 + 2 * u) * (1 + u) * (1 + u)
              = 1 + 4 * u + 5 * (u * u) + 2 * (u * u * u)) as Hexp by ring.
      assert ((1 + 2 * u) * (1 + u) * (1 + u) <= 1 + (c + 2 * u))
        by (rewrite Hexp; lra).
      replace (x * (1 + 2 * u) * (1 + u) * (1 + u))
        with (x * ((1 + 2 * u) * (1 + u) * (1 + u))) by ring.
      rewrite (Rmult_comm _ x). apply Rmult_le_compat_l; assumption. }
    nra.
Qed.

Lemma zero_literal : zero = S754_zero false.
Proof. reflexivity. Qed.

Lemma INR_small (n : nat) :
  (n <= 2 ^ 22)%nat -> 0 <= INR n <= 4194304.
Proof.
  intros Hn. split; [apply pos_INR|].
  rewrite INR_IZR_INZ. apply IZR_le.
  apply Nat2Z.inj_le in Hn. rewrite Nat2Z.inj_pow in Hn. exact Hn.
Qed.

(** The loop of [calculate_entropy] over at most 2^22 entries: the
    accumulator is +0 or a negative normal number, and it is within
    relative distance (n + 2) * 2^-23 of the sum of the terms
    p * log2(p). *)
Lemma entropy_loop_accuracy l :
  Forall (fun it => regular_mass log2f it.2) l -> (length l <= 2 ^ 22)%nat ->
  let acc := foldl (entropy_step log2f) zero l in
  let c := (INR (length l) + 2) * bpow (-23) in
  (acc = S754_zero false \/ negative_normal acc)
  /\ 0 <= - terms l <= 100 * INR (length l)
  /\ (1 - c) * - terms l <= - to_R acc <= (1 + c) * - terms l.
Proof.
  pose proof bpow_m24_small as Hu. pose proof bpow_m23 as Hu'.
  induction l as [|it l IH] using rev_ind; intros Hl Hlen; cbv zeta.
  - cbn [foldl foldr length]. rewrite zero_literal. cbn [to_R INR].
    split; [left; reflexivity|]. lra.
  - rewrite length_app in *. cbn [length] in *.
    apply Forall_app in Hl as [Hl Hit]. apply Forall_inv in Hit.
    specialize (IH Hl ltac:(lia)). cbv zeta in IH.
    destruct IH as (Hshape & HS & Hacc).
    rewrite foldl_app, terms_app. cbn [foldl foldr].
    set (acc := foldl (entropy_step log2f) zero l) in *.
    set (S := - terms l) in *.
    replace (Nat.add (length l) 1) with (Datatypes.S (length l)) by lia.
    rewrite S_INR.
    pose proof (INR_small (length l) ltac:(lia)) as Hn.
    set (n := INR (length l)) in *.
    set (c := (n + 2) * bpow (-23)) in *.
    assert (4 * bpow (-24) <= c <= 1) as Hc.
    { unfold c. rewrite Hu'. split; [nra|].
      assert (bpow (-24) = / 16777216) as ->.
      { change (-24)%Z with (- (24))%Z. rewrite bpow_neg by lia. simpl. lra. }
      lra. }
    replace ((n + 1 + 2) * bpow (-23)) with (c + 2 * bpow (-24))
      by (unfold c; rewrite Hu'; ring).
    unfold entropy_step. cbv zeta.
    unfold regular_mass in Hit.
    destruct Hit as [[s Hs]|(Hvalid & Hrange & Haccurate)].
    + rewrite Hs. replace (gtb (S754_zero s) zero) with false
        by (destruct s; reflexivity).
      cbn [to_R]. rewrite plogp_0. fold acc.
      split; [exact Hshape|].
      replace (- (terms l + (0 + 0))) with S by (unfold S; lra).
      split; [lra|]. nra.
    + destruct (term_of_mass log2f it.2 Hvalid Hrange Haccurate)
        as (Hgt & Hterm). cbv zeta in Hterm.
      rewrite Hgt. rewrite plogp_pos by (pose proof (bpow_pos (-100)); lra).
      set (p := to_R it.2) in *. set (t := mul it.2 (log2f it.2)) in *.
      set (x := - (p * log2 p)) in *.
      replace (- (terms l + (p * log2 p + 0))) with (S + x)
        by (unfold S, x; lra).
      assert (0 <= x <= 100
              /\ ((exists s, t = S754_zero s) \/ negative_normal t)
              /\ x * (1 - 2 * bpow (-24)) * (1 - bpow (-24)) <= - to_R t
                 <= x * (1 + 2 * bpow (-24)) * (1 + bpow (-24)))
        as (Hx & Htshape & HT).
      { destruct Hterm as [(Hx0 & _ & s & Hs)|(Hx & _ & Hneg & HT)].
        - rewrite Hx0, Hs. cbn [to_R]. split; [lra|]. split; [eauto|]. lra.
        - split; [lra|]. split; [auto|]. rewrite <- Hu'. exact HT. }
      destruct (add_step acc t Hshape Htshape) as (Hshape' & Hround).
      { assert (1024 * 1024 * 1024 * 1024 <= bpow 100).
        { replace (1024 * 1024 * 1024 * 1024) with (bpow 40)
            by (unfold bpow; simpl; lra).
          apply bpow_le. lia. }
        nra. }
      split; [exact Hshape'|]. split; [lra|].
      apply (step_bounds (bpow (-24)) c S x (- to_R acc) (- to_R t));
        try assumption; lra.
Qed.

End LoopFacts.

Section EntriesFacts.
Context {Label : Type} `{Countable Label}.
Context (Label_le : relation Label) `{!RelDecision Label_le}.
Implicit Types (pmf : ProbabilityMassFunction Label).
Implicit Types (m : gmap Label spec_float).
Open Scope R_scope.
Import F32.

Local Abbreviation terms l :=
  (foldr (fun (it : Label * spec_float) acc => plogp (to_R it.2) + acc) 0 l).

Lemma std_map_entries_perm {V} (m : gmap Label V) :
  std_map_entries Label_le m ≡ₚ map_to_list m.
Proof. apply merge_sort_Permutation. Qed.

Lemma std_map_entries_length {V} (m : gmap Label V) :
  length (std_map_entries Label_le m) = size m.
Proof. rewrite std_map_entries_perm. apply length_map_to_list. Qed.

Lemma std_map_entries_Forall {V} (P : V -> Prop) (m : gmap Label V) :
  map_Forall (fun _ => P) m ->
  Forall (fun it => P it.2) (std_map_entries Label_le m).
Proof.
  intros Hm. rewrite std_map_entries_perm.
  apply map_Forall_to_list in Hm.
  eapply Forall_impl; [exact Hm|]. intros [k x] Hx. exact Hx.
Qed.

Lemma std_map_entries_singleton {V} (k : Label) (x : V) :
  std_map_entries Label_le ({[k := x]} : gmap Label V) = [(k, x)].
Proof.
  apply Permutation_singleton_r.
  rewrite std_map_entries_perm, map_to_list_singleton. reflexivity.
Qed.

Lemma terms_perm (l1 l2 : list (Label * spec_float)) :
  l1 ≡ₚ l2 -> terms l1 = terms l2.
Proof.
  induction 1 as [|it l1 l2 _ IH|it1 it2 l|l1 l2 l3 _ IH1 _ IH2];
    cbn [foldr]; lra.
Qed.

(** The formula of the specification is the sum over the entries. *)
Lemma entropy_formula_entries pmf :
  entropy_formula pmf = - terms (std_map_entries Label_le (get_masses pmf)).
Proof.
  unfold entropy_formula. rewrite map_fold_foldr.
  rewrite (terms_perm _ _ (std_map_entries_perm (get_masses pmf))).
  f_equal. apply foldr_ext; [|reflexivity..]. intros [k x] acc. reflexivity.
Qed.

End EntriesFacts.

Section SignFacts.
Open Scope R_scope.
Import F32.

Lemma opp_rounded_not_positive x :
  match x with
  | S754_zero false | S754_infinity false | S754_finite false _ _ => True
  | _ => False
  end -> not_positive (opp x).
Proof. destruct x as [[|]|[|]| |[|] m e]; cbn; tauto. Qed.

Lemma add_not_positive x y :
  not_positive x -> not_positive y -> not_positive (add x y).
Proof.
  destruct x as [sx|[|]| |[|] mx ex], y as [sy|[|]| |[|] my ey];
    cbn [not_positive]; try tauto; intros _ _;
    try exact I; try (destruct sx, sy; exact I).
  rewrite add_neg_neg. apply opp_rounded_not_positive.
  cbn [add SFadd cond_Zopp]. cbv zeta.
  destruct (shl_align mx ex _) as [mx' ex'], (shl_align my ey _) as [my' ey'].
  cbn [fst Z.add binary_normalize]. apply binary_round_sign.
Qed.

Lemma mul_not_positive (mp : positive) (ep : Z) y :
  not_positive y -> not_positive (mul (S754_finite false mp ep) y).
Proof.
  destruct y as [sy|[|]| |[|] my ey]; cbn [not_positive]; try tauto; intros _;
    try exact I.
  cbn [mul SFmul xorb]. rewrite binary_round_aux_opp.
  apply opp_rounded_not_positive, binary_round_aux_sign.
Qed.

Lemma not_positive_geb x :
  not_positive x -> geb (opp x) zero = true /\ 0 <= to_R (opp x).
Proof.
  destruct x as [[|]|[|]| |[|] m e]; cbn [not_positive]; try tauto; intros _;
    (split; [reflexivity|]); cbn [opp SFopp to_R negb]; try lra.
  pose proof (bpow_pos e). assert (0 < IZR (Zpos m)) by (apply IZR_lt; lia).
  nra.
Qed.

Lemma positive_finite x : 0 < to_R x -> exists m e, x = S754_finite false m e.
Proof.
  destruct x as [s|s| |[|] m e]; cbn [to_R]; try lra; [|eauto].
  intros Hx. exfalso. pose proof (bpow_pos e).
  assert (0 < IZR (Zpos m)) by (apply IZR_lt; lia). nra.
Qed.

Lemma finite_value_not_positive x :
  is_finite x = true -> to_R x <= 0 -> not_positive x.
Proof.
  destruct x as [s|s| |[|] m e]; cbn [is_finite to_R not_positive];
    try discriminate; try tauto.
  intros _ Hx. pose proof (bpow_pos e).
  assert (0 < IZR (Zpos m)) by (apply IZR_lt; lia). nra.
Qed.

End SignFacts.

Section SignLoop.
Context {Label : Type}.
Variable log2f : spec_float -> spec_float.
Implicit Types (l : list (Label * spec_float)).
Open Scope R_scope.
Import F32.

(** At a mass in (0, 1] an accurate logarithm is not positive. *)
Lemma log2f_not_positive p :
  0 < to_R p <= 1 -> log2f_accurate log2f p -> not_positive (log2f p).
Proof.
  intros Hp (Hfin & _ & Hacc & _).
  apply finite_value_not_positive; [assumption|].
  pose proof (log2_nonpos _ Hp) as Hv.
  rewrite (Rabs_left1 (log2 (to_R p))) in Hacc by assumption.
  apply Rabs_le_inv in Hacc.
  assert (0 <= bpow (-23) <= 1) as Hu.
  { pose proof bpow_m24_small. rewrite bpow_m23. lra. }
  nra.
Qed.

(** The accumulator never becomes positive or a NaN. *)
Lemma entropy_loop_not_positive l :
  Forall (fun it => gtb it.2 zero = false
                    \/ (0 < to_R it.2 <= 1 /\ log2f_accurate log2f it.2)) l ->
  not_positive (foldl (entropy_step log2f) zero l).
Proof.
  induction l as [|it l IH] using rev_ind; intros Hl.
  - exact I.
  - apply Forall_app in Hl as [Hl Hit]. apply Forall_inv in Hit.
    rewrite foldl_app. cbn [foldl]. unfold entropy_step at 1. cbv zeta.
    specialize (IH Hl).
    destruct Hit as [Hskip|[Hp Hacc]].
    + rewrite Hskip. exact IH.
    + destruct (gtb it.2 zero); [|exact IH].
      apply add_not_positive; [exact IH|].
      destruct (positive_finite it.2 ltac:(lra)) as (mp & ep & Heq).
      rewrite Heq in *.
      apply mul_not_positive, log2f_not_positive; assumption.
Qed.

End SignLoop.

Section ExactFacts.
Open Scope R_scope.
Import F32.

(** An addition of the loop whose exact result is a multiple of 2^g with
    at most 24 bits is exact. *)
Lemma add_step_exact (acc t : spec_float) (q g : Z) :
  acc = S754_zero false \/ negative_normal acc ->
  (exists s, t = S754_zero s) \/ negative_normal t ->
  (0 <= q < 2 ^ 24)%Z -> (-149 <= g <= 76)%Z ->
  - to_R acc - to_R t = IZR q * bpow g ->
  (add acc t = S754_zero false \/ negative_normal (add acc t))
  /\ - to_R (add acc t) = IZR q * bpow g.
Proof.
  intros Hacc Ht Hq Hg Hsum.
  assert (IZR q * bpow g < bpow 100) as Hlt.
  { apply Rlt_le_trans with (IZR (2 ^ 24) * bpow g).
    - apply Rmult_lt_compat_r; [apply bpow_pos|]. apply IZR_lt. lia.
    - rewrite <- bpow_IZR, <- bpow_add by lia. apply bpow_le. lia. }
  destruct (add_step acc t Hacc Ht ltac:(lra)) as [Hshape _].
  split; [exact Hshape|].
  destruct Hacc as [->|Hacc], Ht as [[s ->]|Ht].
  - replace (add (S754_zero false) (S754_zero s)) with (S754_zero false)
      by (destruct s; reflexivity).
    cbn [to_R] in *. lra.
  - destruct Ht as (m & e & -> & Hm & He).
    change (add (S754_zero false) (S754_finite true m e))
      with (S754_finite true m e).
    cbn [to_R] in *. lra.
  - destruct Hacc as (m & e & -> & Hm & He).
    change (add (S754_finite true m e) (S754_zero s))
      with (S754_finite true m e).
    cbn [to_R] in *. lra.
  - pose proof (negative_normal_value acc Hacc) as Hva.
    pose proof (negative_normal_value t Ht) as Hvt.
    destruct Hacc as (ma & ea & -> & Hma & Hea).
    destruct Ht as (mt & et & -> & Hmt & Het).
    rewrite add_neg_neg. cbn [to_R] in *.
    set (A := IZR (Zpos ma) * bpow ea) in *.
    set (T := IZR (Zpos mt) * bpow et) in *.
    replace (- (- IZR (Zpos ma) * bpow ea) - - IZR (Zpos mt) * bpow et)
      with (A + T) in * by (unfold A, T; ring).
    replace (- IZR (Zpos ma) * bpow ea) with (- A) in * by (unfold A; ring).
    replace (- IZR (Zpos mt) * bpow et) with (- T) in * by (unfold T; ring).
    pose proof (bpow_pos (-126)) as H126.
    destruct (add_nearest ma mt ea et Hea Het) as (E & HE & Hn).
    { fold A T. lra. }
    fold A T in Hn. rewrite Hsum in Hn.
    pose proof (nearest_at_binade _ _ _ Hn) as [Hbin _].
    assert (E <= g)%Z as HEg.
    { destruct (Z_le_gt_dec E g) as [|Hgt]; [assumption|exfalso].
      assert (bpow (24 + g) <= bpow (23 + E)) by (apply bpow_le; lia).
      assert (IZR q * bpow g < bpow (24 + g)); [|lra].
      rewrite bpow_add, (bpow_IZR 24) by lia.
      apply Rmult_lt_compat_r; [apply bpow_pos|]. apply IZR_lt. lia. }
    assert (IZR q * bpow g = IZR (q * 2 ^ (g - E)) * bpow E) as Hgrid.
    { rewrite mult_IZR, <- bpow_IZR by lia. rewrite Rmult_assoc, <- bpow_add.
      f_equal. f_equal. lia. }
    pose proof (nearest_at_grid_exact _ _ _ _ Hn Hgrid) as Hex.
    destruct (nearest_at_canonical _ _ _ Hn) as (mr & er & Hr & _).
    rewrite Hr in *. cbn [opp SFopp to_R negb] in *.
    rewrite <- Hex. ring.
Qed.

(** Rounding a number below 16 + 2^-20 gives at most 16: beyond 16 the
    binary32 numbers are 2^-19 apart. *)
Lemma nearest_at_absorbed E v x :
  nearest_at E v x -> v < 16 + bpow (-20) -> to_R x <= 16.
Proof.
  intros Hn Hv.
  assert (16 = IZR (Zpos 8388608) * bpow (-19)) as H16.
  { change (-19)%Z with (- (19))%Z. rewrite bpow_neg by lia. simpl. lra. }
  destruct (Rle_lt_dec v 16) as [Hle|Hgt].
  - rewrite H16. apply (nearest_at_le_float _ _ _ _ _ Hn); [simpl; lia|].
    rewrite <- H16. exact Hle.
  - pose proof (nearest_at_binade _ _ _ Hn) as [Hb1 Hb2].
    assert (bpow (-20) = / 1048576) as H20.
    { change (-20)%Z with (- (20))%Z. rewrite bpow_neg by lia. simpl. lra. }
    assert (bpow (-19) = / 524288) as H19.
    { change (-19)%Z with (- (19))%Z. rewrite bpow_neg by lia. simpl. lra. }
    assert (E = -19)%Z as ->.
    { destruct (Z.lt_trichotomy E (-19)) as [Hlt|[Heq|Hgt']];
        [exfalso|exact Heq|exfalso].
      - assert (bpow (24 + E) <= bpow 4) by (apply bpow_le; lia).
        assert (bpow 4 = 16) by (unfold bpow; simpl; lra). lra.
      - assert (bpow 5 <= bpow (23 + E)) by (apply bpow_le; lia).
        assert (bpow 5 = 32) by (unfold bpow; simpl; lra). lra. }
    destruct (nearest_at_value _ _ _ Hn)
      as (m1 & m' & Hm1 & Hm' & -> & Hbnd & Herr).
    rewrite H19 in *.
    assert (m1 = 8388608)%Z as ->.
    { assert (m1 < 8388608 + 1)%Z; [|lia].
      apply lt_IZR. rewrite plus_IZR. lra. }
    apply Rabs_le_inv in Herr.
    destruct Hm' as [-> | ->]; [lra|exfalso].
    rewrite plus_IZR in Herr. lra.
Qed.

Lemma pow2_dominates (k : Z) : (25 <= k)%Z -> (k * 2 ^ 20 < 2 ^ k)%Z.
Proof.
  intros Hk. replace k with (25 + (k - 25))%Z by lia.
  assert (0 <= k - 25)%Z as Hn by lia.
  revert Hn. generalize (k - 25)%Z. clear k Hk.
  apply natlike_ind.
  - simpl. lia.
  - intros n Hn IH. replace (25 + Z.succ n)%Z with (Z.succ (25 + n)) by lia.
    rewrite Z.pow_succ_r by lia. lia.
Qed.

End ExactFacts.

Section UniformLoop.
Context {Label : Type}.
Variable log2f : spec_float -> spec_float.
Implicit Types (l : list (Label * spec_float)).
Open Scope R_scope.
Import F32.

(** The term of a label of mass 2^-k is -k * 2^-k, without rounding. *)
Lemma uniform_term (p : spec_float) (k : Z) :
  (1 <= k <= 100)%Z -> valid p = true -> to_R p = bpow (- k) ->
  log2f_accurate log2f p ->
  gtb p zero = true
  /\ negative_normal (mul p (log2f p))
  /\ - to_R (mul p (log2f p)) = IZR k * bpow (- k).
Proof.
  intros Hk Hvalid Hp (Hfin & HvalidL & _ & Hexact).
  specialize (Hexact (- k)%Z Hp). rewrite opp_IZR in Hexact.
  assert (bpow (-126) <= bpow (- k)) as H126 by (apply bpow_le; lia).
  destruct (valid_normal_pos p Hvalid ltac:(lra)) as (mp & ep & -> & Hmp & Hep).
  split; [reflexivity|].
  set (L := log2f (S754_finite false mp ep)) in *.
  assert (1 <= IZR k <= 100) as HkR.
  { split; apply IZR_le; lia. }
  assert (bpow (-126) <= 1) as H1.
  { replace 1 with (bpow 0) by reflexivity. apply bpow_le. lia. }
  destruct (valid_normal_neg L HvalidL ltac:(lra)) as (mL & eL & HL & HmL & HeL).
  change (S754_finite true mL eL) with (opp (S754_finite false mL eL)) in HL.
  rewrite HL, mul_opp_r. rewrite HL in Hexact. cbn [opp SFopp to_R negb] in *.
  assert (IZR (Zpos mL) * bpow eL = IZR k) as HLval by lra.
  pose proof (bpow_pos (- k)) as Hpk.
  destruct (mul_nearest mp mL ep eL Hmp HmL) as (E & HE & Hn).
  { rewrite Hp, HLval. split.
    - apply Rle_trans with (bpow (- k)); [assumption|]. nra.
    - assert (bpow (- k) <= 1).
      { replace 1 with (bpow 0) by reflexivity. apply bpow_le. lia. }
      assert (128 <= bpow 100).
      { replace 128 with (bpow 7) by (unfold bpow; simpl; lra).
        apply bpow_le. lia. }
      nra. }
  destruct (nearest_at_canonical _ _ _ Hn) as (mT & eT & HT & HmT & HeT).
  pose proof (nearest_at_exact _ _ _ mL (eL - k) Hn HmL) as Hex.
  rewrite HT in *. cbn [opp SFopp to_R negb] in *. split.
  - exists mT, eT. split; [reflexivity|]. split; [assumption|lia].
  - replace (- (- IZR (Zpos mT) * bpow eT)) with (IZR (Zpos mT) * bpow eT)
      by ring.
    rewrite Hex.
    + rewrite Hp, HLval. ring.
    + rewrite Hp. unfold Z.sub. rewrite bpow_add. ring.
Qed.

(** The loop over labels of mass 2^-k adds k * 2^-k per label without
    rounding as long as the number of labels times k is below 2^24. *)
Lemma uniform_loop_exact l (k : Z) :
  (1 <= k <= 100)%Z ->
  Forall (fun it => valid it.2 = true /\ to_R it.2 = bpow (- k)
                    /\ log2f_accurate log2f it.2) l ->
  (Z.of_nat (length l) * k < 2 ^ 24)%Z ->
  let acc := foldl (entropy_step log2f) zero l in
  (acc = S754_zero false \/ negative_normal acc)
  /\ - to_R acc = IZR (Z.of_nat (length l) * k) * bpow (- k).
Proof.
  intros Hk. induction l as [|it l IH] using rev_ind; intros Hl Hlen; cbv zeta.
  - cbn [foldl length]. rewrite zero_literal. cbn [to_R].
    split; [left; reflexivity|].
    change (Z.of_nat 0 * k)%Z with 0%Z. rewrite Rmult_0_l. lra.
  - rewrite length_app in *. cbn [length] in *.
    apply Forall_app in Hl as [Hl Hit]. apply Forall_inv in Hit.
    destruct Hit as (Hvalid & Hp & Hacc).
    destruct (IH Hl ltac:(nia)) as [Hshape Hval].
    rewrite foldl_app. cbn [foldl].
    set (acc := foldl (entropy_step log2f) zero l) in *.
    unfold entropy_step. cbv zeta.
    destruct (uniform_term it.2 k Hk Hvalid Hp Hacc) as (Hgt & Hneg & Ht).
    rewrite Hgt.
    apply add_step_exact; auto; [lia..|].
    replace (- to_R acc - to_R (mul it.2 (log2f it.2)))
      with (- to_R acc + - to_R (mul it.2 (log2f it.2))) by lra.
    rewrite Hval, Ht, <- Rmult_plus_distr_r, <- plus_IZR.
    f_equal. f_equal. lia.
Qed.

(** With masses 2^-k for k >= 25 a term is below half a unit in the last
    place of 16: the accumulator never gets past -16. *)
Lemma uniform_loop_saturates l (k : Z) :
  (25 <= k <= 100)%Z ->
  Forall (fun it => valid it.2 = true /\ to_R it.2 = bpow (- k)
                    /\ log2f_accurate log2f it.2) l ->
  let acc := foldl (entropy_step log2f) zero l in
  (acc = S754_zero false \/ negative_normal acc) /\ - to_R acc <= 16.
Proof.
  intros Hk.
  assert (IZR k * bpow (- k) < bpow (-20)) as Hsmall.
  { pose proof (pow2_dominates k ltac:(lia)) as Hdom.
    apply IZR_lt in Hdom. rewrite mult_IZR in Hdom.
    rewrite <- !bpow_IZR in Hdom by lia.
    assert (bpow (- k) * bpow k = 1) as H1.
    { rewrite <- bpow_add. replace (- k + k)%Z with 0%Z by lia. reflexivity. }
    assert (bpow (-20) * bpow 20 = 1) as H2.
    { rewrite <- bpow_add. reflexivity. }
    pose proof (bpow_pos 20). pose proof (bpow_pos k).
    apply (Rmult_lt_reg_r (bpow k * bpow 20)); [nra|].
    replace (IZR k * bpow (- k) * (bpow k * bpow 20))
      with (IZR k * bpow 20 * (bpow (- k) * bpow k)) by ring.
    replace (bpow (-20) * (bpow k * bpow 20))
      with (bpow k * (bpow (-20) * bpow 20)) by ring.
    rewrite H1, H2. lra. }
  induction l as [|it l IH] using rev_ind; intros Hl; cbv zeta.
  - cbn [foldl]. rewrite zero_literal. cbn [to_R].
    split; [left; reflexivity|]. lra.
  - apply Forall_app in Hl as [Hl Hit]. apply Forall_inv in Hit.
    destruct Hit as (Hvalid & Hp & Hacc).
    destruct (IH Hl) as [Hshape Hval].
    rewrite foldl_app. cbn [foldl].
    set (acc := foldl (entropy_step log2f) zero l) in *.
    unfold entropy_step. cbv zeta.
    destruct (uniform_term it.2 k ltac:(lia) Hvalid Hp Hacc)
      as (Hgt & Hneg & Ht).
    rewrite Hgt. set (t := mul it.2 (log2f it.2)) in *.
    assert (bpow (-20) <= 1) as H20.
    { replace 1 with (bpow 0) by reflexivity. apply bpow_le. lia. }
    assert (32 <= bpow 100) as H100.
    { replace 32 with (bpow 5) by (unfold bpow; simpl; lra).
      apply bpow_le. lia. }
    destruct (add_step acc t Hshape (or_intror Hneg) ltac:(lra))
      as [Hshape' _].
    split; [exact Hshape'|].
    destruct Hshape as [Hzero|Hnorm].
    + rewrite Hzero. pose proof Hneg as (m & e & Heq & _).
      rewrite Heq. change (add (S754_zero false) (S754_finite true m e))
        with (S754_finite true m e).
      rewrite <- Heq, Ht. lra.
    + pose proof (negative_normal_value acc Hnorm) as Hva.
      pose proof (negative_normal_value t Hneg) as Hvt.
      destruct Hnorm as (ma & ea & Hacceq & Hma & Hea).
      destruct Hneg as (mt & et & Hteq & Hmt & Het).
      rewrite Hacceq, Hteq in *. rewrite add_neg_neg.
      cbn [to_R] in *.
      set (A := IZR (Zpos ma) * bpow ea) in *.
      set (T := IZR (Zpos mt) * bpow et) in *.
      replace (- (- IZR (Zpos ma) * bpow ea)) with A in * by (unfold A; ring).
      replace (- (- IZR (Zpos mt) * bpow et)) with T in * by (unfold T; ring).
      replace (- IZR (Zpos ma) * bpow ea) with (- A) in * by (unfold A; ring).
      replace (- IZR (Zpos mt) * bpow et) with (- T) in * by (unfold T; ring).
      pose proof (bpow_pos (-126)) as H126.
      destruct (add_nearest ma mt ea et Hea Het) as (E & HE & Hn).
      { fold A T. lra. }
      fold A T in Hn.
      pose proof (nearest_at_absorbed _ _ _ Hn ltac:(lra)) as Hle.
      destruct (nearest_at_canonical _ _ _ Hn) as (mr & er & Hr & _).
      rewrite Hr in *. cbn [opp SFopp to_R negb] in *.
      replace (- (- IZR (Zpos mr) * bpow er)) with (IZR (Zpos mr) * bpow er)
        by ring.
      exact Hle.
Qed.

End UniformLoop.

Section FormulaFacts.
Context {Label : Type} `{Countable Label}.
Implicit Types (pmf : ProbabilityMassFunction Label).
Implicit Types (m : gmap Label spec_float).
Open Scope R_scope.

Lemma formula_fold_insert m l x :
  m !! l = None ->
  map_fold (fun _ mass acc => plogp (F32.to_R mass) + acc) 0 (<[l := x]> m)
  = plogp (F32.to_R x)
    + map_fold (fun _ mass acc => plogp (F32.to_R mass) + acc) 0 m.
Proof.
  intros Hl.
  apply (map_fold_insert_L (fun _ mass acc => plogp (F32.to_R mass) + acc));
    [|assumption].
  intros. lra.
Qed.

Lemma plogp_le_0 p : 0 <= p <= 1 -> plogp p <= 0.
Proof.
  intros [[Hp|<-] Hp1]; [|rewrite plogp_0; lra].
  rewrite plogp_pos by assumption. apply plogp_nonpos. lra.
Qed.

Lemma entropy_formula_nonneg pmf :
  map_Forall (fun _ mass => 0 <= F32.to_R mass <= 1) (get_masses pmf) ->
  0 <= entropy_formula pmf.
Proof.
  unfold entropy_formula. destruct pmf as [m]. cbn [get_masses].
  induction m as [|l x m Hl IH] using map_ind; intros Hm.
  - rewrite map_fold_empty. lra.
  - apply map_Forall_insert in Hm as [Hx Hm]; [|assumption].
    rewrite formula_fold_insert by assumption.
    pose proof (plogp_le_0 _ Hx). specialize (IH Hm). lra.
Qed.

Lemma entropy_formula_zero_inv pmf :
  map_Forall (fun _ mass => 0 < F32.to_R mass <= 1) (get_masses pmf) ->
  entropy_formula pmf = 0 ->
  map_Forall (fun _ mass => F32.to_R mass = 1) (get_masses pmf).
Proof.
  unfold entropy_formula. destruct pmf as [m]. cbn [get_masses].
  induction m as [|l x m Hl IH] using map_ind; intros Hm Hzero.
  - apply map_Forall_empty.
  - apply map_Forall_insert in Hm as [Hx Hm]; [|assumption].
    rewrite formula_fold_insert in Hzero by assumption.
    rewrite plogp_pos in Hzero by apply Hx.
    pose proof (plogp_nonpos _ Hx).
    assert (0 <= entropy_formula {| get_masses := m |}) as Hrest.
    { apply entropy_formula_nonneg. intros k y Hy.
      pose proof (Hm k y Hy) as Hky. cbn in Hky. cbn. lra. }
    unfold entropy_formula in Hrest. cbn [get_masses] in Hrest.
    apply map_Forall_insert; [assumption|]. split.
    + apply plogp_eq_0; [apply Hx|lra].
    + apply IH; [assumption|lra].
Qed.

Lemma sum_of_masses_constant m p :
  map_Forall (fun _ mass => F32.to_R mass = p) m ->
  sum_of_masses {| get_masses := m |} = INR (size m) * p.
Proof.
  induction m as [|l x m Hl IH] using map_ind; intros Hm.
  - rewrite sum_of_masses_empty, map_size_empty. cbn. lra.
  - apply map_Forall_insert in Hm as [Hx Hm]; [|assumption].
    rewrite sum_of_masses_insert, map_size_insert_None by assumption.
    rewrite (IH Hm), Hx, S_INR. lra.
Qed.

Lemma entropy_formula_constant m p :
  0 < p -> map_Forall (fun _ mass => F32.to_R mass = p) m ->
  entropy_formula {| get_masses := m |} = - (INR (size m) * (p * log2 p)).
Proof.
  intros Hp. unfold entropy_formula. cbn [get_masses].
  induction m as [|l x m Hl IH] using map_ind; intros Hm.
  - rewrite map_fold_empty, map_size_empty. cbn. lra.
  - apply map_Forall_insert in Hm as [Hx Hm]; [|assumption].
    rewrite formula_fold_insert, map_size_insert_None by assumption.
    specialize (IH Hm).
    rewrite Hx, S_INR, plogp_pos by assumption. lra.
Qed.

Lemma map_size_1_singleton m :
  size m = 1%nat -> exists l x, m = {[l := x]}.
Proof.
  induction m as [|l x m Hl _] using map_ind.
  - rewrite map_size_empty. discriminate.
  - rewrite map_size_insert_None by assumption. intros [= Hsize].
    apply map_size_empty_inv in Hsize. subst m.
    exists l, x. apply insert_empty.
Qed.

(** A PMF of the specification whose masses are all 1 has one label. *)
Lemma is_pmf_all_one pmf :
  is_pmf pmf ->
  map_Forall (fun _ mass => F32.to_R mass = 1) (get_masses pmf) ->
  exists l x, get_masses pmf = {[l := x]} /\ F32.to_R x = 1.
Proof.
  intros [_ Hsum] Hones. destruct pmf as [m]. cbn [get_masses] in *.
  rewrite (sum_of_masses_constant m 1 Hones) in Hsum.
  apply Rabs_le_inv in Hsum.
  assert (size m = 1%nat) as Hsize.
  { destruct (size m) as [|[|n]]; [cbn in Hsum; lra|reflexivity|].
    rewrite !S_INR in Hsum. pose proof (pos_INR n). lra. }
  destruct (map_size_1_singleton m Hsize) as (l & x & ->).
  exists l, x. split; [reflexivity|].
  apply (Hones l x). apply lookup_singleton_eq.
Qed.

End FormulaFacts.

Section EntropyTheorems.
Context {Label : Type} `{Countable Label}.
Context (Label_le : relation Label) `{!RelDecision Label_le}.
Variable log2f : spec_float -> spec_float.
Implicit Types (pmf : ProbabilityMassFunction Label).
Implicit Types (m : gmap Label spec_float).
Open Scope R_scope.
Import F32.

Lemma to_R_opp x : to_R (opp x) = - to_R x.
Proof. destruct x as [s|s| |[|] mx ex]; cbn [opp SFopp to_R negb]; ring. Qed.

(** Entries whose mass is not > 0 are skipped. *)
Lemma entropy_loop_filter (l : list (Label * spec_float)) acc :
  foldl (entropy_step log2f) acc l
  = foldl (fun e it => add e (mul it.2 (log2f it.2))) acc
      (filter (fun it => gtb it.2 zero = true) l).
Proof.
  revert acc. induction l as [|it l IH]; intros acc; [reflexivity|].
  cbn [foldl]. unfold entropy_step at 2. cbv zeta.
  rewrite filter_cons. destruct (decide (gtb it.2 zero = true)) as [Hgt|Hgt].
  - rewrite Hgt. cbn [foldl]. apply IH.
  - destruct (gtb it.2 zero); [contradiction|]. apply IH.
Qed.

Lemma regular_masses_pmf pmf :
  is_pmf pmf ->
  map_Forall (fun _ mass => regular_mass log2f mass) (get_masses pmf) ->
  map_Forall (fun _ mass => 0 < to_R mass <= 1) (get_masses pmf).
Proof. intros [Hm _] _. exact Hm. Qed.

(** The result for at most 2^22 regular masses. *)
Lemma calculate_entropy_accuracy pmf :
  map_Forall (fun _ mass => regular_mass log2f mass) (get_masses pmf) ->
  (size (get_masses pmf) <= 2 ^ 22)%nat ->
  let h := calculate_entropy Label_le log2f pmf in
  let c := (INR (size (get_masses pmf)) + 2) * bpow (-23) in
  (h = S754_zero true \/ negative_normal (opp h))
  /\ 0 <= c <= / 2 + bpow (-22)
  /\ 0 <= entropy_formula pmf
  /\ (1 - c) * entropy_formula pmf <= to_R h <= (1 + c) * entropy_formula pmf.
Proof.
  intros Hm Hsize. cbv zeta.
  pose proof (entropy_loop_accuracy log2f
                (std_map_entries Label_le (get_masses pmf))) as Hloop.
  rewrite std_map_entries_length in Hloop.
  specialize (Hloop (std_map_entries_Forall _ _ _ Hm) Hsize).
  cbv zeta in Hloop. destruct Hloop as (Hshape & HS & Hacc).
  rewrite <- (entropy_formula_entries Label_le pmf) in HS, Hacc.
  unfold calculate_entropy. rewrite to_R_opp, opp_involutive.
  split; [|split; [|split; [lra|exact Hacc]]].
  - destruct Hshape as [->|Hn]; [left; reflexivity|right; exact Hn].
  - pose proof (INR_small _ Hsize) as Hn. rewrite bpow_m23.
    assert (bpow (-24) = / 16777216) as H24.
    { change (-24)%Z with (- (24))%Z. rewrite bpow_neg by lia. simpl. lra. }
    assert (bpow (-22) = 4 * bpow (-24)) as H22.
    { change (-22)%Z with (-24 + 1 + 1)%Z. rewrite !bpow_succ. lra. }
    rewrite H22, H24. lra.
Qed.

End EntropyTheorems.

Section EntropyClaims.
Context {Label : Type} `{Countable Label}.
Context (Label_le : relation Label) `{!RelDecision Label_le}.
Variable log2f : spec_float -> spec_float.
Implicit Types (h : Histogram Label) (pmf : ProbabilityMassFunction Label).
Open Scope R_scope.

Lemma calculate_entropy_single (l : Label) (x : spec_float) :
  F32.to_R x = 1 -> log2f_accurate log2f x ->
  calculate_entropy Label_le log2f {| get_masses := {[l := x]} |}
  = S754_zero true.
Proof.
  intros Hx (Hfin & _ & _ & Hexact).
  specialize (Hexact 0%Z). rewrite Hx in Hexact. specialize (Hexact eq_refl).
  destruct (finite_zero _ Hfin Hexact) as [s Hs].
  destruct (positive_finite x ltac:(lra)) as (m & e & ->).
  unfold calculate_entropy. cbn [get_masses].
  rewrite std_map_entries_singleton. cbn [foldl].
  unfold entropy_step. cbn [snd]. rewrite Hs.
  destruct s; reflexivity.
Qed.


(** A PMF over 2^k labels of mass 2^-k each, for k * 2^k < 2^24: every
    partial sum is a binary32 number, and the result is k. *)
Lemma calculate_entropy_uniform pmf (k : nat) :
  (k * 2 ^ k < 2 ^ 24)%nat -> size (get_masses pmf) = (2 ^ k)%nat ->
  map_Forall (fun _ mass =>
    F32.valid mass = true /\ F32.to_R mass = / INR (2 ^ k)
    /\ log2f_accurate log2f mass) (get_masses pmf) ->
  F32.to_R (calculate_entropy Label_le log2f pmf) = INR k.
Proof.
  intros Hk Hsize Hm.
  assert (/ INR (2 ^ k) = F32.bpow (- Z.of_nat k)) as Hinv.
  { rewrite bpow_neg by lia. f_equal. rewrite INR_IZR_INZ. f_equal.
    rewrite Nat2Z.inj_pow. reflexivity. }
  destruct (Nat.eq_dec k 0%nat) as [->|Hk0].
  + cbn in Hsize. destruct (map_size_1_singleton _ Hsize) as (l & x & Hmx).
    pose proof (Hm l x) as Hx. rewrite Hmx, lookup_singleton_eq in Hx.
    destruct (Hx eq_refl) as (_ & Hval & Hacc).
    destruct pmf as [m]. cbn [get_masses] in *. subst m.
    rewrite (calculate_entropy_single l x); [reflexivity| |assumption].
    rewrite Hval. cbn. lra.
  + assert (Z.of_nat k * 2 ^ Z.of_nat k < 2 ^ 24)%Z as HkZ.
    { apply Nat2Z.inj_lt in Hk.
      rewrite Nat2Z.inj_mul, !Nat2Z.inj_pow in Hk. exact Hk. }
    assert (1 <= Z.of_nat k <= 100)%Z as Hk100.
    { split; [lia|].
      destruct (Z_le_gt_dec (Z.of_nat k) 100) as [|Hgt]; [assumption|].
      exfalso.
      assert (2 ^ 24 <= 2 ^ Z.of_nat k)%Z by (apply Z.pow_le_mono_r; lia).
      nia. }
    pose proof (uniform_loop_exact log2f
                  (std_map_entries Label_le (get_masses pmf))
                  (Z.of_nat k) Hk100) as Hloop.
    rewrite std_map_entries_length, Hsize in Hloop.
    destruct Hloop as [_ Hval].
    { apply (std_map_entries_Forall Label_le
               (fun mass => F32.valid mass = true
                            /\ F32.to_R mass = F32.bpow (- Z.of_nat k)
                            /\ log2f_accurate log2f mass)).
      intros l x Hlx. destruct (Hm l x Hlx) as (Hv & Hval & Hacc).
      rewrite <- Hinv. auto. }
    { rewrite Nat2Z.inj_pow. lia. }
    unfold calculate_entropy. rewrite to_R_opp, Hval.
    rewrite Nat2Z.inj_pow, mult_IZR, <- bpow_IZR by lia.
    rewrite (Rmult_comm (F32.bpow _)), Rmult_assoc, <- bpow_add.
    replace (Z.of_nat 2)%Z with 2%Z by reflexivity.
    replace (Z.of_nat k + - Z.of_nat k)%Z with 0%Z by lia.
    rewrite INR_IZR_INZ. unfold F32.bpow. simpl. lra.
Qed.

(** C2, as amended.  [calculate_entropy] returns the binary32 sum, in the
    order of the keys, of the rounded products p * log2(p) over the
    labels whose mass is > 0, negated; a label whose mass is zero is
    skipped.  The result is >= 0 (and no NaN) for masses in (0, 1].  For
    at most 2^22 labels with masses in [2^-100, 1] it is within relative
    distance (N + 2) * 2^-23 of H = - sum p * log2(p), and for a PMF it
    is 0 exactly when the PMF consists of a single label, of mass 1. *)
Theorem calculate_entropy_spec pmf :
  let H := calculate_entropy Label_le log2f pmf in
  H = F32.opp
        (foldl (fun e it => F32.add e (F32.mul it.2 (log2f it.2))) F32.zero
           (filter (fun it => F32.gtb it.2 F32.zero = true)
              (std_map_entries Label_le (get_masses pmf))))
  /\ (map_Forall (fun _ mass =>
        F32.gtb mass F32.zero = false
        \/ (0 < F32.to_R mass <= 1 /\ log2f_accurate log2f mass))
        (get_masses pmf) ->
      F32.geb H F32.zero = true /\ 0 <= F32.to_R H)
  /\ (map_Forall (fun _ mass => regular_mass log2f mass) (get_masses pmf) ->
      (size (get_masses pmf) <= 2 ^ 22)%nat ->
      Rabs (F32.to_R H - entropy_formula pmf)
      <= (INR (size (get_masses pmf)) + 2) * F32.bpow (-23)
         * entropy_formula pmf
      /\ (is_pmf pmf ->
          (F32.to_R H = 0
           <-> exists l x, get_masses pmf = {[l := x]} /\ F32.to_R x = 1))).
Proof.
  cbv zeta. split; [|split].
  - unfold calculate_entropy. f_equal. apply entropy_loop_filter.
  - intros Hm. unfold calculate_entropy. apply not_positive_geb.
    apply entropy_loop_not_positive.
    apply (std_map_entries_Forall Label_le
             (fun mass => F32.gtb mass F32.zero = false
                          \/ (0 < F32.to_R mass <= 1
                              /\ log2f_accurate log2f mass))).
    exact Hm.
  - intros Hm Hsize.
    destruct (calculate_entropy_accuracy Label_le log2f pmf Hm Hsize)
      as (_ & Hc & HF & Hacc). cbv zeta in Hc, Hacc.
    set (c := (INR (size (get_masses pmf)) + 2) * F32.bpow (-23)) in *.
    set (F := entropy_formula pmf) in *.
    set (v := F32.to_R (calculate_entropy Label_le log2f pmf)) in *.
    assert (F32.bpow (-22) <= / 4) as H22.
    { change (-22)%Z with (- (22))%Z. rewrite bpow_neg by lia. simpl. lra. }
    split.
    + apply Rabs_le. nra.
    + intros Hpmf. split.
      * intros Hzero. assert (F = 0) as HF0 by nra.
        apply is_pmf_all_one; [assumption|].
        apply entropy_formula_zero_inv; [apply Hpmf|exact HF0].
      * intros (l & x & Hmx & Hx).
        assert (F = 0) as HF0.
        { unfold F, entropy_formula. rewrite Hmx, map_fold_singleton.
          rewrite Hx, plogp_pos, log2_1 by lra. lra. }
        rewrite HF0 in Hacc. lra.
Qed.


End EntropyClaims.

Section SampleFacts.
Open Scope R_scope.

Lemma ln_IZR_pow (a n : Z) :
  (0 < a)%Z -> (0 <= n)%Z -> ln (IZR (a ^ n)) = IZR n * ln (IZR a).
Proof.
  intros Ha Hn. rewrite <- (Z2Nat.id n) at 1 by assumption.
  rewrite <- pow_IZR, ln_pow by (apply IZR_lt; assumption).
  rewrite INR_IZR_INZ, Z2Nat.id by assumption. reflexivity.
Qed.

(** a / b < log2(3) when 2^a < 3^b, and log2(3) < a / b when 3^b < 2^a. *)
Lemma log2_3_above (a b : Z) :
  (0 <= a)%Z -> (0 < b)%Z -> (2 ^ a < 3 ^ b)%Z -> IZR a / IZR b < log2 3.
Proof.
  intros Ha Hb Hlt. pose proof ln2_pos as H2.
  assert (0 < IZR b) as HbR by (apply IZR_lt; assumption).
  assert (IZR a * ln 2 < IZR b * ln 3) as Hln.
  { rewrite <- (ln_IZR_pow 2 a), <- (ln_IZR_pow 3 b) by lia.
    apply ln_increasing; [apply IZR_lt, Z.pow_pos_nonneg; lia|].
    apply IZR_lt. exact Hlt. }
  unfold log2. apply (Rmult_lt_reg_r (IZR b * ln 2)); [nra|].
  replace (IZR a / IZR b * (IZR b * ln 2)) with (IZR a * ln 2) by (field; lra).
  replace (ln 3 / ln 2 * (IZR b * ln 2)) with (IZR b * ln 3) by (field; lra).
  exact Hln.
Qed.

Lemma log2_3_below (a b : Z) :
  (0 <= a)%Z -> (0 < b)%Z -> (3 ^ b < 2 ^ a)%Z -> log2 3 < IZR a / IZR b.
Proof.
  intros Ha Hb Hlt. pose proof ln2_pos as H2.
  assert (0 < IZR b) as HbR by (apply IZR_lt; assumption).
  assert (IZR b * ln 3 < IZR a * ln 2) as Hln.
  { rewrite <- (ln_IZR_pow 2 a), <- (ln_IZR_pow 3 b) by lia.
    apply ln_increasing; [apply IZR_lt, Z.pow_pos_nonneg; lia|].
    apply IZR_lt. exact Hlt. }
  unfold log2. apply (Rmult_lt_reg_r (IZR b * ln 2)); [nra|].
  replace (IZR a / IZR b * (IZR b * ln 2)) with (IZR a * ln 2) by (field; lra).
  replace (ln 3 / ln 2 * (IZR b * ln 2)) with (IZR b * ln 3) by (field; lra).
  exact Hln.
Qed.

(** Powers of this size are compared on machine words. *)
Lemma pow_lt_by_words (a b c d : Z) :
  BigZ.BigZ.ltb (BigZ.BigZ.pow (BigZ.BigZ.of_Z a) (BigZ.BigZ.of_Z b))
    (BigZ.BigZ.pow (BigZ.BigZ.of_Z c) (BigZ.BigZ.of_Z d)) = true ->
  (a ^ b < c ^ d)%Z.
Proof.
  intros Hlt. apply BigZ.BigZ.ltb_lt in Hlt. unfold BigZ.BigZ.lt in Hlt.
  rewrite !BigZ.BigZ.spec_pow, !BigZ.BigZ.spec_of_Z in Hlt. exact Hlt.
Qed.

Lemma log2_3_tight : 25781 / 16266 < log2 3 < 24727 / 15601.
Proof.
  split.
  - apply (log2_3_above 25781 16266); [lia|lia|].
    apply pow_lt_by_words. vm_compute. reflexivity.
  - apply (log2_3_below 24727 15601); [lia|lia|].
    apply pow_lt_by_words. vm_compute. reflexivity.
Qed.

Lemma bpow_inj a b : F32.bpow a = F32.bpow b -> a = b.
Proof.
  intros Heq. apply (f_equal log2) in Heq. rewrite !log2_bpow in Heq.
  apply eq_IZR. exact Heq.
Qed.

(** A logarithm that is exact at a power of two is accurate there. *)
Lemma log2f_accurate_exact log2f x (k : Z) :
  F32.to_R x = F32.bpow k -> F32.is_finite (log2f x) = true ->
  F32.valid (log2f x) = true -> F32.to_R (log2f x) = IZR k ->
  log2f_accurate log2f x.
Proof.
  intros Hx Hfin Hvalid Hval. split; [assumption|]. split; [assumption|].
  split.
  - rewrite Hval, Hx, log2_bpow, Rminus_diag, Rabs_R0.
    apply Rmult_le_pos; [apply Rlt_le, bpow_pos|apply Rabs_pos].
  - intros k' Hk'. rewrite Hx in Hk'. apply bpow_inj in Hk'. subst k'.
    exact Hval.
Qed.

Lemma pow2_float_value e :
  F32.to_R (S754_finite false 8388608 e) = F32.bpow (e + 23).
Proof.
  cbn [F32.to_R]. rewrite bpow_add, (bpow_IZR 23) by lia.
  change (IZR (2 ^ 23)) with (IZR (Zpos 8388608)). ring.
Qed.

Lemma log2f_sample_one : log2f_accurate log2f_sample F32.one.
Proof.
  apply (log2f_accurate_exact _ _ 0); [apply one_value|reflexivity..|].
  vm_compute. reflexivity.
Qed.

Lemma log2f_sample_half : log2f_accurate log2f_sample float_0_5.
Proof.
  apply (log2f_accurate_exact _ _ (-1)); [apply pow2_float_value|reflexivity..|].
  change (log2f_sample float_0_5) with (S754_finite true 8388608 (-23)).
  unfold F32.to_R, F32.bpow. simpl. lra.
Qed.

Lemma log2f_sample_quarter : log2f_accurate log2f_sample float_0_25.
Proof.
  apply (log2f_accurate_exact _ _ (-2)); [apply pow2_float_value|reflexivity..|].
  change (log2f_sample float_0_25) with (S754_finite true 8388608 (-22)).
  unfold F32.to_R, F32.bpow. simpl. lra.
Qed.

Lemma log2f_sample_2_m25 : log2f_accurate log2f_sample float_2_m25.
Proof.
  apply (log2f_accurate_exact _ _ (-25)); [apply pow2_float_value|reflexivity..|].
  change (log2f_sample float_2_m25) with (S754_finite true 13107200 (-19)).
  unfold F32.to_R, F32.bpow. simpl. lra.
Qed.

Lemma log2f_sample_2_m29 : log2f_accurate log2f_sample float_2_m29.
Proof.
  apply (log2f_accurate_exact _ _ (-29)); [apply pow2_float_value|reflexivity..|].
  change (log2f_sample float_2_m29) with (S754_finite true 15204352 (-19)).
  unfold F32.to_R, F32.bpow. simpl. lra.
Qed.

Lemma log2f_sample_three_quarters : log2f_accurate log2f_sample float_0_75.
Proof.
  split; [reflexivity|]. split; [reflexivity|].
  rewrite float_0_75_value, log2_three_quarters.
  change (log2f_sample float_0_75) with (S754_finite true 13926348 (-25)).
  pose proof log2_3_tight as [Hlo Hhi]. split.
  - rewrite (Rabs_left (log2 3 - 2)) by lra.
    assert (F32.to_R (S754_finite true 13926348 (-25))
            = - (13926348 / 33554432)) as ->.
    { unfold F32.to_R, F32.bpow. simpl. lra. }
    assert (F32.bpow (-23) = / 8388608) as ->.
    { unfold F32.bpow. simpl. lra. }
    apply Rabs_le. lra.
  - intros k Hk. exfalso.
    destruct (Z_le_gt_dec 0 k) as [Hge|Hlt].
    + assert (F32.bpow 0 <= F32.bpow k) by (apply bpow_le; lia).
      unfold F32.bpow at 1 in H. simpl in H. lra.
    + assert (F32.bpow k <= F32.bpow (-1)) by (apply bpow_le; lia).
      unfold F32.bpow at 2 in H. simpl in H. lra.
Qed.

End SampleFacts.

Section ExampleFacts.
Open Scope R_scope.

Lemma small_size (n : nat) : (Z.of_nat n <= 4194304)%Z -> (n <= 2 ^ 22)%nat.
Proof.
  intros Hn. apply Nat2Z.inj_le. rewrite Nat2Z.inj_pow. exact Hn.
Qed.

Lemma bpow_literal_le (k : Z) : (k <= 0)%Z -> F32.bpow k <= 1.
Proof.
  intros Hk. replace 1 with (F32.bpow 0) by reflexivity. apply bpow_le. exact Hk.
Qed.

(** A power of two between 2^-100 and 1 at which the logarithm is
    accurate is a regular mass. *)
Lemma regular_mass_pow2 log2f e :
  (-123 <= e <= -23)%Z -> log2f_accurate log2f (S754_finite false 8388608 e) ->
  regular_mass log2f (S754_finite false 8388608 e).
Proof.
  intros He Hacc. right. split; [|split; [|exact Hacc]].
  - unfold F32.valid. cbn [valid_binary].
    unfold bounded, canonical_mantissa, fexp, emin, F32.prec, F32.emax.
    apply andb_true_intro. split; [apply Z.eqb_eq|apply Z.leb_le].
    + change (Zpos (digits2_pos 8388608)) with 24%Z. lia.
    + lia.
  - rewrite pow2_float_value. split; [apply bpow_le; lia|].
    apply bpow_literal_le. lia.
Qed.

Lemma regular_mass_three_quarters log2f :
  log2f_accurate log2f float_0_75 -> regular_mass log2f float_0_75.
Proof.
  intros Hacc. right. split; [reflexivity|]. split; [|exact Hacc].
  rewrite float_0_75_value. split; [|lra].
  apply Rle_trans with (F32.bpow (-1)); [apply bpow_le; lia|].
  unfold F32.bpow. simpl. lra.
Qed.

Lemma entropy_formula_A3_B1 : entropy_formula pmf_A3_B1 = 2 - 3 / 4 * log2 3.
Proof.
  unfold entropy_formula, pmf_A3_B1. cbn [get_masses].
  change ({["A" := float_0_75; "B" := float_0_25]} : gmap string spec_float)
    with (<["A" := float_0_75]> ({["B" := float_0_25]} : gmap string spec_float)).
  rewrite formula_fold_insert by (vm_compute; reflexivity).
  rewrite map_fold_singleton.
  rewrite float_0_75_value, float_0_25_value.
  rewrite !plogp_pos by lra. rewrite log2_quarter, log2_three_quarters. lra.
Qed.

Lemma entropy_formula_rounding :
  entropy_formula pmf_rounding = 29 * F32.bpow (-29).
Proof.
  unfold entropy_formula, pmf_rounding. cbn [get_masses].
  change ({["A" := F32.one; "B" := S754_finite false 8388608 (-52)]}
            : gmap string spec_float)
    with (<["A" := F32.one]>
            ({["B" := float_2_m29]} : gmap string spec_float)).
  rewrite formula_fold_insert by (vm_compute; reflexivity).
  rewrite map_fold_singleton.
  unfold float_2_m29. rewrite one_value, pow2_float_value.
  change (-52 + 23)%Z with (-29)%Z.
  pose proof (bpow_pos (-29)).
  rewrite !plogp_pos by lra. rewrite log2_1, log2_bpow. lra.
Qed.

Lemma pmf_rounding_masses (P : spec_float -> Prop) :
  map_Forall (fun _ => P) (get_masses pmf_rounding)
  <-> P F32.one /\ P float_2_m29.
Proof.
  unfold pmf_rounding. cbn [get_masses].
  change ({["A" := F32.one; "B" := S754_finite false 8388608 (-52)]}
            : gmap string spec_float)
    with (<["A" := F32.one]>
            ({["B" := float_2_m29]} : gmap string spec_float)).
  rewrite map_Forall_insert by (vm_compute; reflexivity).
  rewrite map_Forall_singleton. reflexivity.
Qed.

Lemma pmf_A3_B1_masses (P : spec_float -> Prop) :
  map_Forall (fun _ => P) (get_masses pmf_A3_B1)
  <-> P float_0_75 /\ P float_0_25.
Proof.
  unfold pmf_A3_B1. cbn [get_masses].
  change ({["A" := float_0_75; "B" := float_0_25]} : gmap string spec_float)
    with (<["A" := float_0_75]> ({["B" := float_0_25]} : gmap string spec_float)).
  rewrite map_Forall_insert by (vm_compute; reflexivity).
  rewrite map_Forall_singleton. reflexivity.
Qed.

(** *** The uniform PMF *)

Lemma uniform_pmf_masses (P : spec_float -> Prop) n mass :
  P mass -> map_Forall (fun _ => P) (get_masses (uniform_pmf n mass)).
Proof.
  intros HP i x Hx. cbn [uniform_pmf get_masses] in Hx.
  apply lookup_gset_to_gmap_Some in Hx as [_ <-]. exact HP.
Qed.

Lemma uniform_map_size n (mass : spec_float) :
  size (gset_to_gmap mass (set_seq 0 n : gset nat)) = n.
Proof.
  rewrite <- (size_dom (D := gset nat)), dom_gset_to_gmap.
  apply size_set_seq.
Qed.


Lemma INR_pow2 (k : nat) : INR (2 ^ k) = F32.bpow (Z.of_nat k).
Proof.
  rewrite bpow_IZR by lia. rewrite INR_IZR_INZ, Nat2Z.inj_pow. reflexivity.
Qed.

Lemma uniform_pmf_formula (k : nat) e :
  (Z.of_nat k = - (e + 23))%Z ->
  entropy_formula (uniform_pmf (2 ^ k) (S754_finite false 8388608 e))
  = INR k.
Proof.
  intros He. unfold uniform_pmf.
  rewrite (entropy_formula_constant _ (F32.bpow (e + 23))).
  - rewrite uniform_map_size, INR_pow2, log2_bpow, He.
    replace (e + 23)%Z with (- Z.of_nat k)%Z by lia.
    rewrite INR_IZR_INZ, opp_IZR.
    assert (F32.bpow (- - Z.of_nat k) * F32.bpow (- Z.of_nat k) = 1) as H1.
    { rewrite <- bpow_add. replace (- - Z.of_nat k + - Z.of_nat k)%Z with 0%Z by lia.
      reflexivity. }
    rewrite <- Rmult_assoc, H1. ring.
  - apply bpow_pos.
  - apply (uniform_pmf_masses
             (fun mass => F32.to_R mass = F32.bpow (e + 23)) (2 ^ k)).
    apply pow2_float_value.
Qed.

Lemma uniform_pmf_is_pmf (k : nat) e :
  (Z.of_nat k = - (e + 23))%Z ->
  is_pmf (uniform_pmf (2 ^ k) (S754_finite false 8388608 e)).
Proof.
  intros He. split.
  - apply (uniform_pmf_masses (fun mass => 0 < F32.to_R mass <= 1)).
    rewrite pow2_float_value. split; [apply bpow_pos|].
    apply bpow_literal_le. lia.
  - unfold uniform_pmf.
    rewrite (sum_of_masses_constant _ (F32.bpow (e + 23))).
    + rewrite uniform_map_size, INR_pow2, <- bpow_add.
      replace (Z.of_nat k + (e + 23))%Z with 0%Z by lia.
      replace (F32.bpow 0) with 1 by reflexivity.
      rewrite Rminus_diag, Rabs_R0. lra.
    + apply (uniform_pmf_masses
               (fun mass => F32.to_R mass = F32.bpow (e + 23)) (2 ^ k)).
      apply pow2_float_value.
Qed.

(** With 2^25 labels of mass 2^-25 the accumulator stops at -16. *)
Lemma uniform_pmf_saturates log2f :
  log2f_accurate log2f float_2_m25 ->
  F32.to_R (calculate_entropy le log2f (uniform_pmf (2 ^ 25) float_2_m25))
  <= 16.
Proof.
  intros Hacc. unfold calculate_entropy. rewrite to_R_opp.
  destruct (uniform_loop_saturates log2f
              (std_map_entries le (get_masses (uniform_pmf (2 ^ 25) float_2_m25)))
              25 ltac:(lia)) as [_ Hle]; [|lra].
  apply (std_map_entries_Forall le
           (fun mass => F32.valid mass = true
                        /\ F32.to_R mass = F32.bpow (- (25))
                        /\ log2f_accurate log2f mass)).
  apply (uniform_pmf_masses
           (fun mass => F32.valid mass = true
                        /\ F32.to_R mass = F32.bpow (- (25))
                        /\ log2f_accurate log2f mass)).
  split; [reflexivity|]. split; [apply pow2_float_value|exact Hacc].
Qed.

End ExampleFacts.

Lemma pmf_A3_B1_is_pmf : is_pmf pmf_A3_B1.
Proof.
  apply (make_pmf_is_pmf false histogram_A3_B1).
  - apply histogram_A3_B1_ok.
  - vm_compute. reflexivity.
  - apply make_pmf_A3_B1.
Qed.

Lemma pmf_A3_B1_regular log2f :
  log2f_accurate log2f float_0_75 -> log2f_accurate log2f float_0_25 ->
  map_Forall (fun _ mass => regular_mass log2f mass) (get_masses pmf_A3_B1).
Proof.
  intros H75 H25. apply (pmf_A3_B1_masses (regular_mass log2f)). split.
  - apply regular_mass_three_quarters. exact H75.
  - apply regular_mass_pow2; [lia|exact H25].
Qed.

Lemma pmf_A3_B1_small : (size (get_masses pmf_A3_B1) <= 2 ^ 22)%nat.
Proof. apply small_size. vm_compute. discriminate. Qed.

(** C6.  The histogram with counts {A:3, B:1} yields the PMF
    {A:0.75, B:0.25}, whose entropy, computed in binary32 with a
    logarithm that is accurate at 0.75f and at 0.25f, lies between 0.811
    and 0.812 bits. *)
Theorem entropy_of_A3_B1 :
  get_bins histogram_A3_B1 = {["A" := 3%N; "B" := 1%N]}
  /\ (forall ndebug, make_pmf ndebug histogram_A3_B1 = Some pmf_A3_B1)
  /\ (exists a b, get_masses pmf_A3_B1 = {["A" := a; "B" := b]}
        /\ F32.to_R a = (75 / 100)%R /\ F32.to_R b = (25 / 100)%R)
  /\ (forall log2f,
        log2f_accurate log2f float_0_75 -> log2f_accurate log2f float_0_25 ->
        (811 / 1000
         < F32.to_R (calculate_entropy String.le log2f pmf_A3_B1)
         < 812 / 1000)%R).
Proof.
  split; [|split; [|split]].
  - rewrite histogram_A3_B1_counts. reflexivity.
  - apply make_pmf_A3_B1.
  - exists float_0_75, float_0_25. split; [reflexivity|].
    rewrite float_0_75_value, float_0_25_value. split; lra.
  - intros log2f H75 H25.
    destruct (calculate_entropy_accuracy String.le log2f pmf_A3_B1
                (pmf_A3_B1_regular log2f H75 H25) pmf_A3_B1_small)
      as (_ & _ & _ & Hacc). cbv zeta in Hacc.
    rewrite entropy_formula_A3_B1 in Hacc.
    replace (size (get_masses pmf_A3_B1)) with 2%nat in Hacc
      by (vm_compute; reflexivity).
    assert (F32.bpow (-23) = / 8388608)%R as Hu.
    { unfold F32.bpow. simpl. lra. }
    rewrite Hu in Hacc. cbn [INR] in Hacc.
    pose proof log2_3_tight. lra.
Qed.

Lemma entropy_of_A3_B1_witness :
  log2f_accurate log2f_sample float_0_75
  /\ log2f_accurate log2f_sample float_0_25
  /\ (811 / 1000
      < F32.to_R (calculate_entropy String.le log2f_sample pmf_A3_B1)
      < 812 / 1000)%R.
Proof.
  split; [apply log2f_sample_three_quarters|].
  split; [apply log2f_sample_quarter|].
  apply (proj2 (proj2 (proj2 entropy_of_A3_B1)) log2f_sample).
  - apply log2f_sample_three_quarters.
  - apply log2f_sample_quarter.
Defined.

(** C2, as stated, fails.  In the PMF that the constructor returns for
    2^29 examples of A and one of B the label A carries the mass 1.0f,
    and the entropy is not 0; and for the uniform PMF over 2^25 labels
    the result, at most 16, is not the value 25 of the formula.  Both
    hold whatever the library's [log2], accurate at these masses, is. *)
Lemma calculate_entropy_formula_fails :
  (histogram_ok histogram_rounding
   /\ make_pmf false histogram_rounding = Some pmf_rounding
   /\ is_pmf pmf_rounding
   /\ map_Forall (fun _ mass => log2f_accurate log2f_sample mass)
        (get_masses pmf_rounding)
   /\ forall log2f,
        map_Forall (fun _ mass => log2f_accurate log2f mass)
          (get_masses pmf_rounding) ->
        ~ (F32.to_R (calculate_entropy String.le log2f pmf_rounding) = 0%R
           <-> exists l x, get_masses pmf_rounding !! l = Some x
                           /\ F32.to_R x = 1%R))
  /\ (is_pmf (uniform_pmf (2 ^ 25) float_2_m25)
      /\ log2f_accurate log2f_sample float_2_m25
      /\ forall log2f, log2f_accurate log2f float_2_m25 ->
           F32.to_R (calculate_entropy le log2f
                       (uniform_pmf (2 ^ 25) float_2_m25))
           <> entropy_formula (uniform_pmf (2 ^ 25) float_2_m25)).
Proof.
  assert (histogram_ok histogram_rounding) as Hok.
  { split; [|split]; [|vm_compute; reflexivity..].
    unfold histogram_rounding. cbn [get_bins].
    apply map_Forall_insert; [vm_compute; reflexivity|].
    split; [reflexivity|]. apply map_Forall_singleton. reflexivity. }
  assert (make_pmf false histogram_rounding = Some pmf_rounding) as Hmk
    by (vm_compute; reflexivity).
  split.
  - split; [exact Hok|]. split; [exact Hmk|]. split; [|split].
    + apply (make_pmf_is_pmf false histogram_rounding); try assumption.
      vm_compute. reflexivity.
    + apply (pmf_rounding_masses (log2f_accurate log2f_sample)).
      split; [apply log2f_sample_one|apply log2f_sample_2_m29].
    + intros log2f Hacc Hiff.
      apply (pmf_rounding_masses (log2f_accurate log2f)) in Hacc
        as [Hone H29].
      assert (map_Forall (fun _ mass => regular_mass log2f mass)
                (get_masses pmf_rounding)) as Hreg.
      { apply (pmf_rounding_masses (regular_mass log2f)). split.
        - apply (regular_mass_pow2 log2f (-23)); [lia|exact Hone].
        - apply regular_mass_pow2; [lia|exact H29]. }
      destruct (calculate_entropy_accuracy String.le log2f pmf_rounding Hreg)
        as (_ & Hc & _ & Hlo & _).
      { apply small_size. vm_compute. discriminate. }
      cbv zeta in Hc, Hlo. rewrite entropy_formula_rounding in Hlo.
      assert (F32.to_R (calculate_entropy String.le log2f pmf_rounding) = 0)%R
        as Hzero.
      { apply Hiff. exists "A", F32.one.
        split; [vm_compute; reflexivity|apply one_value]. }
      rewrite Hzero in Hlo. pose proof (bpow_pos (-29)) as H29'.
      assert (F32.bpow (-22) <= / 4)%R as H22.
      { unfold F32.bpow. simpl. lra. }
      set (c := ((INR (size (get_masses pmf_rounding)) + 2)
                 * F32.bpow (-23))%R) in *.
      nra.
  - split; [apply (uniform_pmf_is_pmf 25 (-48)); reflexivity|].
    split; [apply log2f_sample_2_m25|].
    intros log2f Hacc Heq.
    pose proof (uniform_pmf_saturates log2f Hacc) as Hle.
    rewrite Heq in Hle. unfold float_2_m25 in Hle.
    rewrite (uniform_pmf_formula 25 (-48)) in Hle by reflexivity.
    cbn [INR] in Hle. lra.
Qed.


Section ConstructedMasses.
Open Scope R_scope.
Import F32.

Lemma normal_valid s (m : positive) e :
  (2 ^ 23 <= Zpos m < 2 ^ 24)%Z -> (-149 <= e <= 104)%Z ->
  valid (S754_finite s m e) = true.
Proof.
  intros Hm He. unfold valid. cbn [valid_binary].
  unfold bounded, canonical_mantissa.
  assert (Zpos (digits2_pos m) = 24)%Z as Hd.
  { apply (Zdigits2_unique (Zpos m) 24); [lia|]. exact Hm. }
  rewrite Hd. unfold fexp, emin, prec, emax.
  apply andb_true_intro. split; [apply Z.eqb_eq|apply Z.leb_le]; lia.
Qed.

(** The mass the constructor stores for a bin is a normal binary32
    number between 2^-65 and 1. *)
Lemma empirical_mass_normal (c t : N) :
  (1 <= c < size_t_modulus)%N -> (1 <= t < size_t_modulus)%N -> (c <= t)%N ->
  valid (empirical_mass c t) = true
  /\ bpow (-100) <= to_R (empirical_mass c t) <= 1.
Proof.
  intros Hc Ht Hle.
  destruct (of_size_t_nearest c Hc) as (Ec & HEc & Hnc).
  destruct (of_size_t_nearest t Ht) as (Et & HEt & Hnt).
  destruct (nearest_at_canonical _ _ _ Hnc) as (mc & ec & Hxc & Hmc & Hec).
  destruct (nearest_at_canonical _ _ _ Hnt) as (mt & et & Hxt & Hmt & Het).
  destruct (div_nearest mc mt ec et Hmc Hmt ltac:(lia)) as (E & HE & Hn).
  destruct (nearest_at_canonical _ _ _ Hn) as (m & e & Hx & Hm & He).
  destruct (empirical_mass_accuracy c t Hc Ht) as (_ & _ & _ & Hone).
  unfold empirical_mass in *. rewrite Hxc, Hxt in *. rewrite Hx in *.
  split; [apply normal_valid; [assumption|lia]|].
  split; [|apply Hone; assumption].
  cbn [to_R]. apply Rle_trans with (IZR (2 ^ 23) * bpow (-89)).
  - rewrite <- bpow_IZR, <- bpow_add by lia. apply bpow_le. lia.
  - apply Rmult_le_compat; [apply IZR_le; lia|apply Rlt_le, bpow_pos
                            |apply IZR_le; lia|apply bpow_le; lia].
Qed.

End ConstructedMasses.

Section EntropyBound.
Context {Label : Type} `{Countable Label}.
Context (Label_le : relation Label) `{!RelDecision Label_le}.
Variable log2f : spec_float -> spec_float.
Implicit Types (h : Histogram Label) (pmf : ProbabilityMassFunction Label).
Implicit Types (m : gmap Label spec_float).
Open Scope R_scope.

Lemma ln_le_minus_1 y : 0 < y -> ln y <= y - 1.
Proof.
  intros Hy. pose proof (exp_ineq1_le (ln y)) as Hexp.
  rewrite exp_ln in Hexp by assumption. lra.
Qed.

(** One term of the entropy against the uniform distribution on q
    outcomes (Gibbs' inequality, term by term). *)
Lemma plogp_gibbs p q :
  0 <= p -> 0 < q -> - plogp p <= p * log2 q + (/ q - p) / ln 2.
Proof.
  intros Hp Hq. pose proof ln2_pos as Hln2.
  destruct (Rle_lt_or_eq_dec _ _ Hp) as [Hpos|<-].
  - rewrite plogp_pos by assumption. unfold log2.
    assert (0 < q * p) as Hqp by (apply Rmult_lt_0_compat; assumption).
    pose proof (ln_le_minus_1 (/ (q * p)) (Rinv_0_lt_compat _ Hqp)) as Hln.
    rewrite ln_Rinv, ln_mult in Hln by assumption.
    assert (p * (- (ln q + ln p)) <= p * (/ (q * p) - 1)) as Hmul
      by (apply Rmult_le_compat_l; lra).
    replace (p * (/ (q * p) - 1)) with (/ q - p) in Hmul by (field; lra).
    apply (Rmult_le_reg_r (ln 2)); [assumption|].
    replace ((p * (ln q / ln 2) + (/ q - p) / ln 2) * ln 2)
      with (p * ln q + (/ q - p)) by (field; lra).
    replace (- (p * (ln p / ln 2)) * ln 2) with (- (p * ln p)) by (field; lra).
    lra.
  - rewrite plogp_0, Rmult_0_l, Rminus_0_r, Ropp_0, Rplus_0_l.
    apply Rlt_le, Rdiv_lt_0_compat; [apply Rinv_0_lt_compat|]; assumption.
Qed.

Lemma formula_fold_gibbs m q :
  0 < q -> map_Forall (fun _ mass => 0 <= F32.to_R mass) m ->
  - map_fold (fun _ mass acc => plogp (F32.to_R mass) + acc) 0 m
  <= sum_of_masses {| get_masses := m |} * log2 q
     + (INR (size m) / q - sum_of_masses {| get_masses := m |}) / ln 2.
Proof.
  intros Hq. pose proof ln2_pos as Hln2.
  induction m as [|l x m Hl IH] using map_ind; intros Hm.
  - unfold sum_of_masses. cbn [get_masses].
    rewrite !map_fold_empty, map_size_empty. cbn. unfold Rdiv. lra.
  - apply map_Forall_insert in Hm as [Hx Hm]; [|assumption].
    specialize (IH Hm).
    rewrite formula_fold_insert, sum_of_masses_insert, map_size_insert_None
      by assumption.
    pose proof (plogp_gibbs (F32.to_R x) q Hx Hq) as Hterm.
    rewrite S_INR.
    set (s := sum_of_masses _) in *. set (p := F32.to_R x) in *.
    replace ((p + s) * log2 q + ((INR (size m) + 1) / q - (p + s)) / ln 2)
      with ((p * log2 q + (/ q - p) / ln 2)
            + (s * log2 q + (INR (size m) / q - s) / ln 2)) by (field; lra).
    lra.
Qed.

(** The formula is at most the logarithm of the number of labels. *)
Lemma entropy_formula_upper_bound pmf :
  map_Forall (fun _ mass => 0 <= F32.to_R mass) (get_masses pmf) ->
  (0 < size (get_masses pmf))%nat ->
  entropy_formula pmf
  <= sum_of_masses pmf * log2 (INR (size (get_masses pmf)))
     + (1 - sum_of_masses pmf) / ln 2.
Proof.
  intros Hm Hsize. pose proof ln2_pos as Hln2.
  set (N := INR (size (get_masses pmf))).
  assert (0 < N) as HN by (apply lt_0_INR; assumption).
  pose proof (formula_fold_gibbs (get_masses pmf) N HN Hm) as Hg.
  destruct pmf as [m]. cbn [get_masses] in *. unfold entropy_formula.
  cbn [get_masses]. fold N in Hg.
  replace (N / N) with 1 in Hg by (field; lra). exact Hg.
Qed.

Lemma log2_size_nonneg (n : nat) : (0 < n)%nat -> 0 <= log2 (INR n).
Proof.
  intros Hn. pose proof ln2_pos as Hln2. unfold log2.
  apply Rmult_le_pos; [|apply Rlt_le, Rinv_0_lt_compat; lra].
  rewrite <- ln_1.
  assert (1 <= INR n) as HN1 by (change 1 with (INR 1); apply le_INR; lia).
  destruct (Rle_lt_or_eq_dec _ _ HN1) as [Hlt|Heq];
    [|rewrite <- Heq; apply Rle_refl].
  apply Rlt_le. apply ln_increasing; [lra|exact Hlt].
Qed.

Lemma is_pmf_nonempty pmf : is_pmf pmf -> (0 < size (get_masses pmf))%nat.
Proof.
  intros [_ Hsum]. apply Rabs_le_inv in Hsum.
  destruct (Nat.eq_dec (size (get_masses pmf)) 0%nat) as [Hzero|Hpos]; [|lia].
  exfalso. apply map_size_empty_inv in Hzero.
  destruct pmf as [m]. cbn [get_masses] in *. subst m.
  rewrite sum_of_masses_empty in Hsum. lra.
Qed.

Lemma entropy_formula_upper_bound_pmf pmf :
  is_pmf pmf ->
  entropy_formula pmf
  <= log2 (INR (size (get_masses pmf)))
     + (log2 (INR (size (get_masses pmf))) + 2) / 1000000.
Proof.
  intros Hpmf. pose proof (is_pmf_nonempty pmf Hpmf) as Hsize.
  destruct Hpmf as [Hm Hsum]. pose proof ln2_pos as Hln2.
  set (N := INR (size (get_masses pmf))).
  assert (map_Forall (fun _ mass => 0 <= F32.to_R mass) (get_masses pmf))
    as Hm0.
  { intros k y Hy. pose proof (Hm k y Hy) as Hky. cbn in Hky. cbn. lra. }
  apply Rabs_le_inv in Hsum.
  pose proof (entropy_formula_upper_bound pmf Hm0 Hsize) as Hb. fold N in Hb.
  pose proof (log2_size_nonneg _ Hsize) as Hlog. fold N in Hlog.
  pose proof ln_lt_2 as Hln2'.
  assert (/ ln 2 < 2) as Hinv.
  { apply (Rmult_lt_reg_r (ln 2)); [lra|]. rewrite Rinv_l by lra. lra. }
  set (s := sum_of_masses pmf) in *.
  assert (s * log2 N <= (1 + / 1000000) * log2 N) as H1
    by (apply Rmult_le_compat_r; lra).
  assert ((1 - s) / ln 2 <= / 1000000 * 2) as H2.
  { unfold Rdiv.
    destruct (Rle_lt_dec 0 (1 - s)) as [Hnn|Hneg].
    - apply Rle_trans with (/ 1000000 * / ln 2).
      + apply Rmult_le_compat_r; [apply Rlt_le, Rinv_0_lt_compat|]; lra.
      + apply Rmult_le_compat_l; lra.
    - assert (0 < / ln 2) by (apply Rinv_0_lt_compat; lra). nra. }
  lra.
Qed.

Lemma regular_mass_nonneg mass :
  regular_mass log2f mass -> 0 <= F32.to_R mass.
Proof.
  intros [[s ->]|(_ & Hv & _)]; [cbn; lra|].
  pose proof (bpow_pos (-100)). lra.
Qed.

(** The masses of a constructed PMF are regular wherever the library's
    logarithm is accurate. *)
Lemma make_pmf_regular ndebug h pmf :
  histogram_ok h -> make_pmf ndebug h = Some pmf ->
  map_Forall (fun _ mass => log2f_accurate log2f mass) (get_masses pmf) ->
  map_Forall (fun _ mass => regular_mass log2f mass) (get_masses pmf).
Proof.
  intros Hok Hmk Hacc l x Hlx. cbn beta. right.
  pose proof (Hacc l x Hlx) as Hx. cbn beta in Hx.
  rewrite (make_pmf_inv _ _ _ Hmk), lookup_fmap in Hlx.
  destruct (get_bins h !! l) as [c|] eqn:Hl; [|discriminate].
  injection Hlx as <-.
  destruct (histogram_ok_bins h Hok l c Hl) as [Hc Hle].
  destruct Hok as (_ & _ & Hlt).
  destruct (empirical_mass_normal c (get_count h) Hc ltac:(lia) Hle)
    as [Hvalid Hrange].
  split; [exact Hvalid|]. split; [exact Hrange|exact Hx].
Qed.

Lemma calculate_entropy_le pmf (B : R) :
  map_Forall (fun _ mass => regular_mass log2f mass) (get_masses pmf) ->
  (size (get_masses pmf) <= 2 ^ 22)%nat ->
  entropy_formula pmf <= B ->
  F32.to_R (calculate_entropy Label_le log2f pmf)
  <= (1 + (INR (size (get_masses pmf)) + 2) * F32.bpow (-23)) * B.
Proof.
  intros Hm Hsize HB.
  destruct (calculate_entropy_accuracy Label_le log2f pmf Hm Hsize)
    as (_ & Hc & HF & Hacc). cbv zeta in Hc, Hacc.
  set (c := (INR (size (get_masses pmf)) + 2) * F32.bpow (-23)) in *.
  apply Rle_trans with ((1 + c) * entropy_formula pmf); [lra|].
  apply Rmult_le_compat_l; lra.
Qed.

(** X13.  A histogram with one label only (a pure node) gives, in every
    build, the PMF in which that label has the mass 1.0f exactly, and
    the entropy of that PMF is 0: the function returns -0.0f, given
    that the library's [log2] is accurate at 1.0f. *)
Theorem make_pmf_single_label ndebug h l c :
  histogram_ok h -> get_bins h = {[l := c]} ->
  make_pmf ndebug h = Some {| get_masses := {[l := F32.one]} |}
  /\ (log2f_accurate log2f F32.one ->
      calculate_entropy Label_le log2f
        {| get_masses := ({[l := F32.one]} : gmap Label _) |}
      = S754_zero true
      /\ F32.to_R (calculate_entropy Label_le log2f
                     {| get_masses := ({[l := F32.one]} : gmap Label _) |})
         = 0).
Proof.
  intros Hok Hbins.
  pose proof (histogram_ok_bins h Hok l c) as Hc.
  rewrite Hbins, lookup_singleton_eq in Hc. destruct (Hc eq_refl) as [Hc64 _].
  destruct Hok as (_ & Hsum & _).
  rewrite Hbins, sum_of_bins_singleton in Hsum.
  split.
  - rewrite make_pmf_Some.
    + rewrite Hbins, <- Hsum, map_fmap_singleton, empirical_mass_self
        by assumption. reflexivity.
    + right. rewrite Hbins, <- Hsum. intros k x Hk.
      apply lookup_singleton_Some in Hk as [_ <-]. cbn beta.
      rewrite empirical_mass_self by assumption. reflexivity.
  - intros Hacc.
    rewrite (calculate_entropy_single Label_le log2f l F32.one one_value Hacc).
    split; reflexivity.
Qed.

(** X14.  A histogram of fewer than 2^24 examples, spread evenly over
    2^k labels with k * 2^k < 2^24, gives a PMF of entropy exactly k bits
    (in every build): the masses are 2^-k without any rounding, and so
    is every partial sum of the loop, given that the library's [log2] is
    accurate at that mass. *)
Theorem entropy_of_even_histogram ndebug h (k : nat) (c : N) :
  histogram_ok h -> size (get_bins h) = (2 ^ k)%nat ->
  map_Forall (fun _ c' => c' = c) (get_bins h) ->
  (get_count h < 2 ^ 24)%N -> (k * 2 ^ k < 2 ^ 24)%nat ->
  log2f_accurate log2f (empirical_mass c (get_count h)) ->
  exists pmf,
    make_pmf ndebug h = Some pmf
    /\ map_Forall (fun _ mass => F32.to_R mass = (/ INR (2 ^ k))%R)
         (get_masses pmf)
    /\ F32.to_R (calculate_entropy Label_le log2f pmf) = INR k.
Proof.
  intros Hok Hsize Hconst Hsmall Hk Hacc.
  pose proof (histogram_ok_bins h Hok) as Hbins.
  pose proof Hok as (Hpos & Hsum & Hlt).
  rewrite (sum_of_bins_constant _ c Hconst), Hsize in Hsum.
  assert (N.of_nat (2 ^ k) = 2 ^ N.of_nat k)%N as Hpow.
  { rewrite Nat2N.inj_pow. reflexivity. }
  rewrite Hpow in Hsum.
  assert (1 <= 2 ^ N.of_nat k)%N as Hp.
  { pose proof (N.pow_nonzero 2 (N.of_nat k) ltac:(lia)). lia. }
  assert (1 <= c)%N as Hc.
  { assert (0 < size (get_bins h))%nat as Hne.
    { rewrite Hsize. apply Nat.neq_0_lt_0, Nat.pow_nonzero. lia. }
    destruct (map_choose (get_bins h)) as (l & c' & Hl).
    { intros Hempty. rewrite Hempty, map_size_empty in Hne. lia. }
    pose proof (Hconst l c' Hl) as Heq. cbn in Heq. subst c'.
    pose proof (Hpos l c Hl) as Hc. cbn in Hc. lia. }
  assert (F32.to_R (empirical_mass c (get_count h)) = (/ INR (2 ^ k))%R)
    as Hmass.
  { rewrite <- Hsum. apply empirical_mass_power_of_two; lia. }
  assert (F32.valid (empirical_mass c (get_count h)) = true) as Hvalid.
  { apply empirical_mass_normal; unfold size_t_modulus in *; nia. }
  eexists. split; [|split].
  - apply make_pmf_Some. right. intros l c' Hl.
    pose proof (Hconst l c' Hl) as Heq. cbn in Heq. subst c'. cbn beta.
    apply empirical_mass_exact_share; nia.
  - intros l x. cbn [get_masses]. rewrite lookup_fmap.
    destruct (get_bins h !! l) as [c'|] eqn:Hl; [|discriminate].
    intros [= <-]. pose proof (Hconst l c' Hl) as Heq. cbn in Heq. subst c'.
    exact Hmass.
  - apply calculate_entropy_uniform; [exact Hk| |].
    + cbn [get_masses]. rewrite map_size_fmap. exact Hsize.
    + intros l x. cbn [get_masses]. rewrite lookup_fmap.
      destruct (get_bins h !! l) as [c'|] eqn:Hl; [|discriminate].
      intros [= <-]. pose proof (Hconst l c' Hl) as Heq. cbn in Heq.
      subst c'. auto.
Qed.

(** X15.  The entropy is at most the logarithm of the number of labels,
    up to the rounding of the loop: for N <= 2^22 labels with masses that
    are zero or in [2^-100, 1] and sum to s,
    H <= (1 + (N + 2) * 2^-23) * (s * log2(N) + (1 - s) / ln 2), which is
    (1 + (N + 2) * 2^-23) * log2(N) when the masses sum to 1 exactly, and
    at most (1 + (N + 2) * 2^-23) * (log2(N) + (log2(N) + 2) / 10^6) for
    every PMF (masses in (0,1] that sum to 1 within 10^-6). *)
Theorem calculate_entropy_upper_bound pmf :
  let N := INR (size (get_masses pmf)) in
  let H := F32.to_R (calculate_entropy Label_le log2f pmf) in
  map_Forall (fun _ mass => regular_mass log2f mass) (get_masses pmf) ->
  (0 < size (get_masses pmf) <= 2 ^ 22)%nat ->
  H <= (1 + (N + 2) * F32.bpow (-23))
       * (sum_of_masses pmf * log2 N + (1 - sum_of_masses pmf) / ln 2)
  /\ (sum_of_masses pmf = 1 -> H <= (1 + (N + 2) * F32.bpow (-23)) * log2 N)
  /\ (is_pmf pmf ->
      H <= (1 + (N + 2) * F32.bpow (-23))
           * (log2 N + (log2 N + 2) / 1000000)).
Proof.
  intros N H' Hm [Hpos Hsize].
  assert (map_Forall (fun _ mass => 0 <= F32.to_R mass) (get_masses pmf))
    as Hm0.
  { intros l x Hlx. apply regular_mass_nonneg. apply (Hm l x Hlx). }
  pose proof (entropy_formula_upper_bound pmf Hm0 Hpos) as Hb. fold N in Hb.
  split; [|split].
  - apply calculate_entropy_le; assumption.
  - intros Hs. apply calculate_entropy_le; try assumption.
    rewrite Hs in Hb. unfold Rdiv in Hb. fold N. lra.
  - intros Hpmf. apply calculate_entropy_le; try assumption.
    apply entropy_formula_upper_bound_pmf. exact Hpmf.
Qed.

(** X16.  From histogram to entropy: for every well-formed histogram
    with at least one example and at most 2^22 labels, the PMF the
    constructor returns has one mass per bin, and its entropy, computed
    with a logarithm that is accurate at these masses, lies between 0
    and (1 + (N + 2) * 2^-23) * (log2(N) + (log2(N) + 2) / 10^6) for N
    the number of labels. *)
Theorem entropy_of_histogram_bounds ndebug (h : Histogram Label) pmf :
  histogram_ok h -> (0 < get_count h)%N -> make_pmf ndebug h = Some pmf ->
  (size (get_bins h) <= 2 ^ 22)%nat ->
  map_Forall (fun _ mass => log2f_accurate log2f mass) (get_masses pmf) ->
  size (get_masses pmf) = size (get_bins h)
  /\ F32.geb (calculate_entropy Label_le log2f pmf) F32.zero = true
  /\ 0 <= F32.to_R (calculate_entropy Label_le log2f pmf)
     <= (1 + (INR (size (get_bins h)) + 2) * F32.bpow (-23))
        * (log2 (INR (size (get_bins h)))
           + (log2 (INR (size (get_bins h))) + 2) / 1000000).
Proof.
  intros Hok Hcount Hmk Hsmall Hacc.
  pose proof (make_pmf_is_pmf ndebug h pmf Hok Hcount Hmk) as Hpmf.
  assert (size (get_masses pmf) = size (get_bins h)) as Hsize.
  { rewrite (make_pmf_inv _ _ _ Hmk). apply map_size_fmap. }
  pose proof (make_pmf_regular ndebug h pmf Hok Hmk Hacc) as Hreg.
  assert (F32.geb (calculate_entropy Label_le log2f pmf) F32.zero = true
          /\ 0 <= F32.to_R (calculate_entropy Label_le log2f pmf)) as [Hge H0].
  { unfold calculate_entropy. apply not_positive_geb.
    apply entropy_loop_not_positive.
    apply (std_map_entries_Forall Label_le
             (fun mass => F32.gtb mass F32.zero = false
                          \/ (0 < F32.to_R mass <= 1
                              /\ log2f_accurate log2f mass))).
    intros l x Hlx. cbn beta. right. split.
    - apply (proj1 Hpmf l x Hlx).
    - apply (Hacc l x Hlx). }
  split; [exact Hsize|]. split; [exact Hge|]. split; [exact H0|].
  rewrite <- Hsize. apply calculate_entropy_le.
  - exact Hreg.
  - rewrite Hsize. exact Hsmall.
  - apply entropy_formula_upper_bound_pmf. exact Hpmf.
Qed.

End EntropyBound.

Lemma small_uniform_size : (1 * 2 ^ 1 < 2 ^ 24)%nat.
Proof.
  apply Nat2Z.inj_lt. rewrite Nat2Z.inj_mul, !Nat2Z.inj_pow.
  change (Z.of_nat 1) with 1%Z. change (Z.of_nat 2) with 2%Z.
  change (Z.of_nat 24) with 24%Z. lia.
Qed.

Lemma pmf_with_zero_masses :
  map_Forall (fun _ mass =>
    F32.gtb mass F32.zero = false
    \/ (0 < F32.to_R mass <= 1 /\ log2f_accurate log2f_sample mass))%R
    (get_masses pmf_with_zero).
Proof.
  unfold pmf_with_zero. cbn [get_masses].
  apply map_Forall_insert; [vm_compute; reflexivity|]. split.
  - right. split; [rewrite one_value; lra|apply log2f_sample_one].
  - apply map_Forall_singleton. left. reflexivity.
Qed.


Lemma calculate_entropy_spec_witness :
  (map_Forall (fun _ mass =>
     F32.gtb mass F32.zero = false
     \/ (0 < F32.to_R mass <= 1 /\ log2f_accurate log2f_sample mass))%R
     (get_masses pmf_with_zero)
   /\ F32.geb (calculate_entropy String.le log2f_sample pmf_with_zero)
        F32.zero = true
   /\ (0 <= F32.to_R (calculate_entropy String.le log2f_sample pmf_with_zero))%R)
  /\ map_Forall (fun _ mass => regular_mass log2f_sample mass)
       (get_masses pmf_A3_B1)
  /\ (size (get_masses pmf_A3_B1) <= 2 ^ 22)%nat
  /\ is_pmf pmf_A3_B1
  /\ (Rabs (F32.to_R (calculate_entropy String.le log2f_sample pmf_A3_B1)
            - entropy_formula pmf_A3_B1)
      <= (INR (size (get_masses pmf_A3_B1)) + 2) * F32.bpow (-23)
         * entropy_formula pmf_A3_B1)%R
  /\ (F32.to_R (calculate_entropy String.le log2f_sample pmf_A3_B1) = 0%R
      <-> exists l x, get_masses pmf_A3_B1 = {[l := x]} /\ F32.to_R x = 1%R).
Proof.
  pose proof (pmf_A3_B1_regular log2f_sample log2f_sample_three_quarters
                log2f_sample_quarter) as Hreg.
  split.
  - split; [exact pmf_with_zero_masses|].
    apply (proj1 (proj2 (calculate_entropy_spec String.le log2f_sample
                           pmf_with_zero)) pmf_with_zero_masses).
  - split; [exact Hreg|]. split; [exact pmf_A3_B1_small|].
    split; [exact pmf_A3_B1_is_pmf|].
    destruct (proj2 (proj2 (calculate_entropy_spec String.le log2f_sample
                              pmf_A3_B1)) Hreg pmf_A3_B1_small) as [Hacc Hiff].
    split; [exact Hacc|]. exact (Hiff pmf_A3_B1_is_pmf).
Defined.


Lemma make_pmf_single_label_witness :
  histogram_ok histogram_pure
  /\ get_bins histogram_pure = {["A" := 2%N]}
  /\ log2f_accurate log2f_sample F32.one
  /\ make_pmf false histogram_pure = Some {| get_masses := {["A" := F32.one]} |}
  /\ calculate_entropy String.le log2f_sample
       {| get_masses := ({["A" := F32.one]} : gmap string _) |}
     = S754_zero true
  /\ F32.to_R (calculate_entropy String.le log2f_sample
                 {| get_masses := ({["A" := F32.one]} : gmap string _) |})
     = 0%R.
Proof.
  split; [apply histogram_pure_ok|]. split; [vm_compute; reflexivity|].
  split; [apply log2f_sample_one|].
  destruct (make_pmf_single_label String.le log2f_sample false histogram_pure
              "A" 2) as [Hmk Hzero].
  - apply histogram_pure_ok.
  - vm_compute. reflexivity.
  - split; [exact Hmk|]. exact (Hzero log2f_sample_one).
Defined.

Lemma histogram_even_mass :
  empirical_mass 1 (get_count histogram_even) = float_0_5.
Proof. vm_compute. reflexivity. Qed.

Lemma entropy_of_even_histogram_witness :
  histogram_ok histogram_even
  /\ size (get_bins histogram_even) = (2 ^ 1)%nat
  /\ map_Forall (fun _ c' => c' = 1%N) (get_bins histogram_even)
  /\ (get_count histogram_even < 2 ^ 24)%N
  /\ (1 * 2 ^ 1 < 2 ^ 24)%nat
  /\ log2f_accurate log2f_sample (empirical_mass 1 (get_count histogram_even))
  /\ exists pmf,
       make_pmf false histogram_even = Some pmf
       /\ map_Forall (fun _ mass => F32.to_R mass = (/ INR (2 ^ 1))%R)
            (get_masses pmf)
       /\ F32.to_R (calculate_entropy String.le log2f_sample pmf) = INR 1.
Proof.
  assert (map_Forall (fun _ c' => c' = 1%N) (get_bins histogram_even)) as Hone.
  { change (get_bins histogram_even)
      with (<["A" := 1%N]> ({["B" := 1%N]} : gmap string N)).
    apply map_Forall_insert; [vm_compute; reflexivity|].
    split; [reflexivity|]. apply map_Forall_singleton. reflexivity. }
  assert (log2f_accurate log2f_sample
            (empirical_mass 1 (get_count histogram_even))) as Hacc.
  { rewrite histogram_even_mass. apply log2f_sample_half. }
  split; [apply histogram_even_ok|]. split; [vm_compute; reflexivity|].
  split; [exact Hone|]. split; [vm_compute; reflexivity|].
  split; [exact small_uniform_size|]. split; [exact Hacc|].
  apply (entropy_of_even_histogram String.le log2f_sample false
           histogram_even 1 1).
  - apply histogram_even_ok.
  - vm_compute. reflexivity.
  - exact Hone.
  - vm_compute. reflexivity.
  - exact small_uniform_size.
  - exact Hacc.
Defined.

Lemma pmf_A3_B1_size : (0 < size (get_masses pmf_A3_B1) <= 2 ^ 22)%nat.
Proof.
  split; [|exact pmf_A3_B1_small].
  replace (size (get_masses pmf_A3_B1)) with 2%nat by (vm_compute; reflexivity).
  lia.
Qed.

Lemma calculate_entropy_upper_bound_witness :
  map_Forall (fun _ mass => regular_mass log2f_sample mass)
    (get_masses pmf_A3_B1)
  /\ (0 < size (get_masses pmf_A3_B1) <= 2 ^ 22)%nat
  /\ is_pmf pmf_A3_B1
  /\ (F32.to_R (calculate_entropy String.le log2f_sample pmf_A3_B1)
      <= (1 + (INR (size (get_masses pmf_A3_B1)) + 2) * F32.bpow (-23))
         * (sum_of_masses pmf_A3_B1 * log2 (INR (size (get_masses pmf_A3_B1)))
            + (1 - sum_of_masses pmf_A3_B1) / ln 2))%R
  /\ (F32.to_R (calculate_entropy String.le log2f_sample pmf_A3_B1)
      <= (1 + (INR (size (get_masses pmf_A3_B1)) + 2) * F32.bpow (-23))
         * (log2 (INR (size (get_masses pmf_A3_B1)))
            + (log2 (INR (size (get_masses pmf_A3_B1))) + 2) / 1000000))%R.
Proof.
  pose proof (pmf_A3_B1_regular log2f_sample log2f_sample_three_quarters
                log2f_sample_quarter) as Hreg.
  split; [exact Hreg|]. split; [exact pmf_A3_B1_size|].
  split; [exact pmf_A3_B1_is_pmf|].
  destruct (calculate_entropy_upper_bound String.le log2f_sample pmf_A3_B1
              Hreg pmf_A3_B1_size) as (Hb & _ & Hpmf).
  split; [exact Hb|]. exact (Hpmf pmf_A3_B1_is_pmf).
Defined.

Lemma entropy_of_histogram_bounds_witness :
  histogram_ok histogram_A3_B1
  /\ (0 < get_count histogram_A3_B1)%N
  /\ make_pmf false histogram_A3_B1 = Some pmf_A3_B1
  /\ (size (get_bins histogram_A3_B1) <= 2 ^ 22)%nat
  /\ map_Forall (fun _ mass => log2f_accurate log2f_sample mass)
       (get_masses pmf_A3_B1)
  /\ size (get_masses pmf_A3_B1) = size (get_bins histogram_A3_B1)
  /\ F32.geb (calculate_entropy String.le log2f_sample pmf_A3_B1) F32.zero
     = true
  /\ (0 <= F32.to_R (calculate_entropy String.le log2f_sample pmf_A3_B1)
      <= (1 + (INR (size (get_bins histogram_A3_B1)) + 2) * F32.bpow (-23))
         * (log2 (INR (size (get_bins histogram_A3_B1)))
            + (log2 (INR (size (get_bins histogram_A3_B1))) + 2) / 1000000))%R.
Proof.
  assert (size (get_bins histogram_A3_B1) <= 2 ^ 22)%nat as Hsmall.
  { apply small_size. vm_compute. discriminate. }
  assert (map_Forall (fun _ mass => log2f_accurate log2f_sample mass)
            (get_masses pmf_A3_B1)) as Hacc.
  { apply (pmf_A3_B1_masses (log2f_accurate log2f_sample)).
    split; [apply log2f_sample_three_quarters|apply log2f_sample_quarter]. }
  split; [apply histogram_A3_B1_ok|]. split; [vm_compute; reflexivity|].
  split; [apply make_pmf_A3_B1|]. split; [exact Hsmall|].
  split; [exact Hacc|].
  apply (entropy_of_histogram_bounds String.le log2f_sample false
           histogram_A3_B1 pmf_A3_B1).
  - apply histogram_A3_B1_ok.
  - vm_compute. reflexivity.
  - apply make_pmf_A3_B1.
  - exact Hsmall.
  - exact Hacc.
Defined.

(** ** touchtrain: annotation files *)

Section StringFacts.

Lemma string_app_cons (c : ascii) (s t : string) :
  String c s +:+ t = String c (s +:+ t).
Proof. reflexivity. Qed.

Lemma string_app_nil_l (t : string) : "" +:+ t = t.
Proof. reflexivity. Qed.

Lemma string_app_nil_r (s : string) : s +:+ "" = s.
Proof.
  induction s as [|c s IH]; [reflexivity|].
  rewrite string_app_cons, IH. reflexivity.
Qed.

Lemma string_app_assoc (a b c : string) : (a +:+ b) +:+ c = a +:+ (b +:+ c).
Proof.
  induction a as [|x a IH]; [reflexivity|].
  rewrite !string_app_cons, IH. reflexivity.
Qed.

Lemma string_app_snoc (a : string) (c : ascii) (s : string) :
  (a +:+ String c "") +:+ s = a +:+ String c s.
Proof. rewrite string_app_assoc. reflexivity. Qed.

Lemma string_forallb_app p (a b : string) :
  string_forallb p (a +:+ b) = string_forallb p a && string_forallb p b.
Proof.
  induction a as [|x a IH]; [reflexivity|].
  rewrite string_app_cons. cbn [string_forallb]. rewrite IH, andb_assoc.
  reflexivity.
Qed.

Lemma string_forallb_impl (p q : ascii -> bool) (s : string) :
  (forall c, p c = true -> q c = true) ->
  string_forallb p s = true -> string_forallb q s = true.
Proof.
  intros Hpq. induction s as [|c s IH]; [reflexivity|]. cbn.
  intros [Hc Hs]%andb_true_iff. rewrite (Hpq c Hc), (IH Hs). reflexivity.
Qed.

Lemma string_app_not_empty (a b : string) : a <> "" -> a +:+ b <> "".
Proof. destruct a; [congruence|discriminate]. Qed.

End StringFacts.

Section TokenizerFacts.
Import TouchTrainUtil.

Lemma tokenize_nil tok : tokenize tok "" = emit tok.
Proof. reflexivity. Qed.

Lemma tokenize_delim tok d s :
  is_dropped_delim d = true ->
  tokenize tok (String d s) = emit tok ++ tokenize "" s.
Proof. intros Hd. cbn [tokenize]. rewrite Hd. reflexivity. Qed.

(** Characters other than delimiters extend the current token. *)
Lemma tokenize_run tok a s :
  string_forallb (fun c => negb (is_dropped_delim c)) a = true ->
  tokenize tok (a +:+ s) = tokenize (tok +:+ a) s.
Proof.
  revert tok. induction a as [|c a IH]; intros tok Ha.
  - rewrite string_app_nil_r. reflexivity.
  - cbn in Ha. apply andb_true_iff in Ha as [Hc Ha].
    apply negb_true_iff in Hc. rewrite string_app_cons. cbn [tokenize].
    rewrite Hc, IH by assumption. rewrite string_app_snoc. reflexivity.
Qed.

(** A delimiter ends the current token, wherever it stands. *)
Lemma tokenize_split tok s1 d s2 :
  is_dropped_delim d = true ->
  tokenize tok (s1 +:+ String d s2) = tokenize tok s1 ++ tokenize "" s2.
Proof.
  intros Hd. revert tok. induction s1 as [|c s1 IH]; intros tok.
  - rewrite string_app_nil_l, tokenize_delim, tokenize_nil by assumption.
    reflexivity.
  - rewrite string_app_cons. cbn [tokenize]. destruct (is_dropped_delim c).
    + rewrite IH, app_assoc. reflexivity.
    + apply IH.
Qed.

Lemma tokenize_blank s :
  is_blank s = true -> tokenize "" s = [].
Proof.
  unfold is_blank. induction s as [|c s IH]; [reflexivity|]. cbn.
  intros [Hc Hs]%andb_true_iff. rewrite Hc. apply IH. assumption.
Qed.

Lemma tokenize_separator tok s1 sep s2 :
  is_separator sep = true ->
  tokenize tok (s1 +:+ sep +:+ s2) = tokenize tok s1 ++ tokenize "" s2.
Proof.
  unfold is_separator. intros [Hne Hsep]%andb_true_iff.
  destruct sep as [|d sep]; [discriminate|]. cbn in Hsep.
  apply andb_true_iff in Hsep as [Hd Hsep].
  rewrite string_app_cons, tokenize_split by assumption. f_equal.
  clear Hne Hd. induction sep as [|c sep IH]; [reflexivity|].
  cbn in Hsep. apply andb_true_iff in Hsep as [Hc Hsep].
  rewrite string_app_cons. cbn [tokenize]. rewrite Hc. apply IH. assumption.
Qed.

Lemma tokenize_field f :
  is_field f = true -> tokenize "" f = [f].
Proof.
  unfold is_field. intros [Hne Hf]%andb_true_iff.
  rewrite <- (string_app_nil_r f) at 1. rewrite tokenize_run.
  - rewrite string_app_nil_l. destruct f; [discriminate|reflexivity].
  - revert Hf. apply string_forallb_impl.
    intros c [Hc _]%andb_true_iff. assumption.
Qed.

(** Decoding a row gives back its fields. *)
Lemma tokenize_row sep fields :
  is_separator sep = true -> Forall (fun f => is_field f = true) fields ->
  tokenize "" (String.concat sep fields) = fields.
Proof.
  intros Hsep. induction fields as [|f fields IH]; intros Hf; [reflexivity|].
  apply Forall_cons in Hf as [Hf Hfs].
  destruct fields as [|g fields]; [apply tokenize_field; assumption|].
  change (String.concat sep (f :: g :: fields))
    with (f +:+ sep +:+ String.concat sep (g :: fields)).
  rewrite tokenize_separator by assumption.
  rewrite tokenize_field by assumption.
  rewrite (IH Hfs). reflexivity.
Qed.

Lemma tokenize_cr s : tokenize "" (s +:+ String "013" "") = tokenize "" s.
Proof.
  rewrite tokenize_split by reflexivity. apply app_nil_r.
Qed.

End TokenizerFacts.

Section LoadFacts.
Import TouchTrainUtil.
Context {Label : Type}.
Variable lexical_cast : string -> option Label.

Lemma getlines_line line l rest :
  is_line l = true ->
  getlines line (l +:+ String "010" rest)
  = (default "" line +:+ l) :: getlines None rest.
Proof.
  unfold is_line. revert line. induction l as [|c l IH]; intros line Hl.
  - rewrite string_app_nil_l, string_app_nil_r. reflexivity.
  - cbn in Hl. apply andb_true_iff in Hl as [Hc Hl].
    apply negb_true_iff in Hc. rewrite string_app_cons. cbn [getlines].
    rewrite Hc, IH by assumption.
    change (default "" (Some (default "" line +:+ String c "")))
      with (default "" line +:+ String c "").
    rewrite string_app_snoc. reflexivity.
Qed.

Lemma getlines_text_file_lf lines :
  Forall (fun l => is_line l = true) lines ->
  getlines None (text_file LF lines) = lines.
Proof.
  induction lines as [|l lines IH]; intros Hl; [reflexivity|].
  apply Forall_cons in Hl as [Hl Hls]. cbn [text_file foldr].
  change (LF +:+ foldr (fun line rest => line +:+ LF +:+ rest) "" lines)
    with (String "010" (text_file LF lines)).
  rewrite getlines_line by assumption. rewrite (IH Hls). reflexivity.
Qed.

Lemma getlines_text_file_crlf lines :
  Forall (fun l => is_line l = true) lines ->
  getlines None (text_file CRLF lines)
  = (fun l => l +:+ String "013" "") <$> lines.
Proof.
  induction lines as [|l lines IH]; intros Hl; [reflexivity|].
  apply Forall_cons in Hl as [Hl Hls]. cbn [text_file foldr].
  change (CRLF +:+ foldr (fun line rest => line +:+ CRLF +:+ rest) "" lines)
    with (String "013" (String "010" (text_file CRLF lines))).
  rewrite <- string_app_snoc, getlines_line.
  - rewrite (IH Hls). reflexivity.
  - unfold is_line in *. rewrite string_forallb_app, Hl. reflexivity.
Qed.

Lemma load_instance_cr imagePath line instances :
  load_instance lexical_cast imagePath (line +:+ String "013" "") instances
  = load_instance lexical_cast imagePath line instances.
Proof. unfold load_instance. rewrite tokenize_cr. reflexivity. Qed.

(** With either line terminator, [load_instances] runs the body of its
    loop once for every line of the file. *)
Lemma load_instances_lines files imagePath annotationPath eol lines :
  eol = LF \/ eol = CRLF ->
  Forall (fun l => is_line l = true) lines ->
  files annotationPath = Some (text_file eol lines) ->
  load_instances lexical_cast files imagePath annotationPath
  = foldl (fun acc line => instances ← acc;
                           load_instance lexical_cast imagePath line instances)
      (Returns []) lines.
Proof.
  intros Heol Hlines Hfile. unfold load_instances. rewrite Hfile.
  destruct Heol as [-> | ->].
  - rewrite getlines_text_file_lf by assumption. reflexivity.
  - rewrite getlines_text_file_crlf by assumption.
    generalize (Returns [] : outcome (list (string * Label))).
    clear. induction lines as [|l lines IH]; intros acc; [reflexivity|].
    cbn [fmap list_fmap foldl]. rewrite IH. f_equal.
    destruct acc as [instances| |]; try reflexivity.
    apply load_instance_cr.
Qed.

Lemma load_undefined imagePath lines :
  foldl (fun acc line => instances ← acc;
                         load_instance lexical_cast imagePath line instances)
    Undefined lines = Undefined.
Proof. induction lines as [|l lines IH]; [reflexivity|exact IH]. Qed.

Lemma is_line_row sep fields :
  is_separator sep = true -> Forall (fun f => is_field f = true) fields ->
  is_line (String.concat sep fields) = true.
Proof.
  unfold is_separator, is_line. intros [_ Hsep]%andb_true_iff.
  assert (string_forallb (fun c => negb (c =? "010")%char) sep = true) as Hs.
  { revert Hsep. apply string_forallb_impl. intros c Hc.
    destruct (Ascii.eqb_spec c "010") as [->|]; [discriminate|reflexivity]. }
  induction fields as [|f fields IH]; intros Hf; [reflexivity|].
  apply Forall_cons in Hf as [Hf Hfs].
  assert (string_forallb (fun c => negb (c =? "010")%char) f = true) as Hf'.
  { unfold is_field in Hf. apply andb_true_iff in Hf as [_ Hf].
    revert Hf. apply string_forallb_impl.
    intros c [_ Hc]%andb_true_iff. assumption. }
  destruct fields as [|g fields]; [exact Hf'|].
  change (String.concat sep (f :: g :: fields))
    with (f +:+ sep +:+ String.concat sep (g :: fields)).
  rewrite !string_forallb_app, Hf', Hs, (IH Hfs). reflexivity.
Qed.

End LoadFacts.

Section LoadProperties.
Import TouchTrainUtil.
Context {Label : Type}.
Variable lexical_cast : string -> option Label.

(** X17.  An annotation file with Windows line ends (CR LF) loads
    exactly as the same file with Unix line ends (LF): the carriage
    return is one of the delimiters of the tokenizer. *)
Theorem load_instances_line_ends (files files' : string -> option string)
  (imagePath annotationPath : string) (lines : list string) :
  Forall (fun l => is_line l = true) lines ->
  files annotationPath = Some (text_file LF lines) ->
  files' annotationPath = Some (text_file CRLF lines) ->
  load_instances lexical_cast files' imagePath annotationPath
  = load_instances lexical_cast files imagePath annotationPath.
Proof.
  intros Hlines Hlf Hcrlf.
  rewrite (load_instances_lines lexical_cast files' imagePath annotationPath
             CRLF lines), (load_instances_lines lexical_cast files imagePath
             annotationPath LF lines); auto.
Qed.

(** X18.  Each line of an annotation file gives one instance, in order:
    the image name is the first field of the line and the label is
    parsed from its last field; the fields in between are ignored, and a
    line of one field uses it for both. *)
Theorem load_instances_rows (files : string -> option string)
  (imagePath annotationPath eol sep : string) (rows : list (list string))
  (labels : list Label) :
  eol = LF \/ eol = CRLF -> is_separator sep = true ->
  Forall (Forall (fun f => is_field f = true)) rows ->
  Forall2 (fun fields label =>
    exists back, last fields = Some back /\ lexical_cast back = Some label)
    rows labels ->
  files annotationPath = Some (text_file eol (String.concat sep <$> rows)) ->
  load_instances lexical_cast files imagePath annotationPath
  = Returns (zip_with (fun fields label =>
               (imagePath +:+ "/" +:+ hd "" fields, label)) rows labels).
Proof.
  intros Heol Hsep Hrows Hlabels Hfile.
  rewrite (load_instances_lines lexical_cast files imagePath annotationPath
             eol (String.concat sep <$> rows)); try assumption.
  2:{ apply Forall_fmap. eapply Forall_impl; [exact Hrows|].
      intros fields Hf. apply is_line_row; assumption. }
  clear Hfile Heol.
  change (Returns (zip_with (fun fields label =>
            (imagePath +:+ "/" +:+ hd "" fields, label)) rows labels))
    with (Returns ([] ++ zip_with (fun fields label =>
            (imagePath +:+ "/" +:+ hd "" fields, label)) rows labels)).
  generalize ([] : list (string * Label)) as acc.
  revert Hrows. induction Hlabels as [|fields label rows labels Hrow _ IH];
    intros Hrows acc.
  - cbn. rewrite app_nil_r. reflexivity.
  - apply Forall_cons in Hrows as [Hfields Hrows].
    destruct Hrow as (back & Hback & Hcast).
    cbn [fmap list_fmap foldl zip_with].
    assert (load_instance lexical_cast imagePath (String.concat sep fields) acc
            = Returns (acc ++ [(imagePath +:+ "/" +:+ hd "" fields, label)]))
      as Hstep.
    { unfold load_instance. rewrite tokenize_row by assumption.
      destruct fields as [|f fields]; [discriminate|].
      unfold vector_back. rewrite Hback. cbn [vector_front mbind outcome_bind].
      rewrite Hcast. reflexivity. }
    cbn [mbind outcome_bind]. rewrite Hstep, (IH Hrows), <- app_assoc.
    reflexivity.
Qed.

(** X19.  A file that cannot be opened and an empty file give no
    instances and no error. A blank line (empty, or made of commas,
    spaces and carriage returns only) is undefined behaviour: the first
    element of an empty vector of tokens is read. So a file that loads
    stops loading once a blank line is added to it. *)
Theorem load_instances_blank_line (files files' : string -> option string)
  (imagePath annotationPath eol : string) (good rest : list string)
  (blank : string) (instances : list (string * Label)) :
  (files annotationPath = None \/ files annotationPath = Some "" ->
   load_instances lexical_cast files imagePath annotationPath = Returns [])
  /\ (eol = LF \/ eol = CRLF ->
      Forall (fun l => is_line l = true) (good ++ blank :: rest) ->
      is_blank blank = true ->
      files annotationPath = Some (text_file eol good) ->
      load_instances lexical_cast files imagePath annotationPath
      = Returns instances ->
      files' annotationPath = Some (text_file eol (good ++ blank :: rest)) ->
      load_instances lexical_cast files' imagePath annotationPath = Undefined).
Proof.
  split.
  - intros [Hnone|Hempty]; unfold load_instances;
      [rewrite Hnone|rewrite Hempty]; reflexivity.
  - intros Heol Hlines Hblank Hfile Hgood Hfile'.
    pose proof Hlines as Hlines'.
    apply Forall_app in Hlines' as [Hg _].
    rewrite (load_instances_lines lexical_cast files imagePath annotationPath
               eol good Heol Hg Hfile) in Hgood.
    rewrite (load_instances_lines lexical_cast files' imagePath annotationPath
               eol _ Heol Hlines Hfile').
    rewrite foldl_app, Hgood. cbn [foldl mbind outcome_bind].
    unfold load_instance at 2. rewrite tokenize_blank by assumption.
    cbn [vector_front mbind outcome_bind]. apply load_undefined.
Qed.

End LoadProperties.

Section LoadErrors.
Import TouchTrainUtil.
Context {Label : Type}.
Variable lexical_cast : string -> option Label.

Lemma load_throws imagePath lines :
  foldl (fun acc line => instances ← acc;
                         load_instance lexical_cast imagePath line instances)
    Throws lines = Throws.
Proof. induction lines as [|l lines IH]; [reflexivity|exact IH]. Qed.

(** The tokenizer never yields an empty token or one with a delimiter. *)
Lemma tokenize_tokens s tok :
  string_forallb (fun c => negb (is_dropped_delim c)) tok = true ->
  Forall (fun t => is_token t = true) (tokenize tok s).
Proof.
  assert (forall tok,
    string_forallb (fun c => negb (is_dropped_delim c)) tok = true ->
    Forall (fun t => is_token t = true) (emit tok)) as Hemit.
  { intros [|c t] Ht; [constructor|].
    constructor; [|constructor]. unfold is_token. rewrite Ht. reflexivity. }
  revert tok. induction s as [|c s IH]; intros tok Htok; [apply Hemit, Htok|].
  cbn [tokenize]. destruct (is_dropped_delim c) eqn:Hc.
  - apply Forall_app. split; [apply Hemit, Htok|apply IH; reflexivity].
  - apply IH. rewrite string_forallb_app, Htok. cbn [string_forallb].
    rewrite Hc. reflexivity.
Qed.

Lemma load_instance_Returns imagePath line acc instances :
  load_instance lexical_cast imagePath line acc = Returns instances ->
  exists name label,
    is_token name = true
    /\ instances = acc ++ [(imagePath +:+ "/" +:+ name, label)].
Proof.
  unfold load_instance.
  pose proof (tokenize_tokens line "" eq_refl) as Htok.
  destruct (tokenize "" line) as [|name tokens]; [discriminate|].
  apply Forall_cons in Htok as [Hname _].
  cbn [vector_front mbind outcome_bind].
  destruct (vector_back (name :: tokens)) as [back| |]; try discriminate.
  cbn [mbind outcome_bind].
  destruct (lexical_cast back) as [label|]; [|discriminate].
  cbn [mbind outcome_bind mret outcome_ret]. intros [= <-]. eauto.
Qed.

End LoadErrors.

Section LoadErrorProperties.
Import TouchTrainUtil.
Context {Label : Type}.
Variable lexical_cast : string -> option Label.

(** X20.  A line whose last field is not a label makes [load_instances]
    leave by the exception of [lexical_cast], whatever follows that
    line: a file that loads no longer does once such a line is added to
    it. *)
Theorem load_instances_bad_label (files files' : string -> option string)
  (imagePath annotationPath eol sep : string) (good rest : list string)
  (fields : list string) (back : string)
  (instances : list (string * Label)) :
  eol = LF \/ eol = CRLF -> is_separator sep = true ->
  Forall (fun l => is_line l = true) (good ++ String.concat sep fields :: rest) ->
  Forall (fun f => is_field f = true) fields ->
  last fields = Some back -> lexical_cast back = None ->
  files annotationPath = Some (text_file eol good) ->
  load_instances lexical_cast files imagePath annotationPath
  = Returns instances ->
  files' annotationPath
  = Some (text_file eol (good ++ String.concat sep fields :: rest)) ->
  load_instances lexical_cast files' imagePath annotationPath = Throws.
Proof.
  intros Heol Hsep Hlines Hfields Hback Hcast Hfile Hgood Hfile'.
  pose proof Hlines as Hlines'.
  apply Forall_app in Hlines' as [Hg _].
  rewrite (load_instances_lines lexical_cast files imagePath annotationPath
             eol good Heol Hg Hfile) in Hgood.
  rewrite (load_instances_lines lexical_cast files' imagePath annotationPath
             eol _ Heol Hlines Hfile').
  rewrite foldl_app, Hgood. cbn [foldl mbind outcome_bind].
  unfold load_instance at 2. rewrite tokenize_row by assumption.
  destruct fields as [|f fields]; [discriminate|].
  unfold vector_back. rewrite Hback. cbn [vector_front mbind outcome_bind].
  rewrite Hcast. cbn [mbind outcome_bind]. apply load_throws.
Qed.

(** X21.  Whenever [load_instances] returns, it returns one instance for
    every line of the file, and every instance names an image inside
    [imagePath]: the path is imagePath + "/" + a name that is not empty
    and holds no comma, space or carriage return. *)
Theorem load_instances_names (files : string -> option string)
  (imagePath annotationPath : string) (instances : list (string * Label)) :
  load_instances lexical_cast files imagePath annotationPath
  = Returns instances ->
  Forall (fun instance =>
    exists name,
      instance.1 = imagePath +:+ "/" +:+ name /\ is_token name = true)
    instances
  /\ (forall contents, files annotationPath = Some contents ->
        length instances = length (getlines None contents)).
Proof.
  unfold load_instances.
  destruct (files annotationPath) as [contents|] eqn:Hfile.
  2:{ intros [= <-]. split; [constructor|discriminate]. }
  intros Hrun.
  assert (forall lines acc result,
    Forall (fun instance : string * Label =>
      exists name,
        instance.1 = imagePath +:+ "/" +:+ name /\ is_token name = true) acc ->
    foldl (fun acc line => instances ← acc;
             load_instance lexical_cast imagePath line instances)
      (Returns acc) lines = Returns result ->
    Forall (fun instance : string * Label =>
      exists name,
        instance.1 = imagePath +:+ "/" +:+ name /\ is_token name = true) result
    /\ length result = (length acc + length lines)%nat) as Hgen.
  { induction lines as [|line lines IH]; intros acc result Hacc Hfold.
    - injection Hfold as <-. split; [assumption|cbn; lia].
    - cbn [foldl mbind outcome_bind] in Hfold.
      destruct (load_instance lexical_cast imagePath line acc)
        as [acc'| |] eqn:Hstep.
      + destruct (load_instance_Returns _ _ _ _ _ Hstep)
          as (name & label & Hname & ->).
        destruct (IH (acc ++ [(imagePath +:+ "/" +:+ name, label)]) result)
          as [Hres Hlen]; [|exact Hfold|].
        * apply Forall_app. split; [assumption|].
          constructor; [|constructor]. exists name. split; [reflexivity|].
          assumption.
        * split; [assumption|]. rewrite Hlen, length_app. cbn. lia.
      + rewrite load_throws in Hfold. discriminate.
      + rewrite load_undefined in Hfold. discriminate. }
  destruct (Hgen _ [] instances ltac:(constructor) Hrun) as [Hall Hlen].
  split; [assumption|]. intros c [= <-]. exact Hlen.
Qed.

End LoadErrorProperties.

Section GenerateProperties.
Import TouchTrainUtil.
Context {Label Descriptor Example : Type}.
Variable extract_touch_feature : string -> outcome Descriptor.
Variable make_example : Descriptor -> Label -> Example.

(** X22.  [generate_examples] treats its groups of instances as one
    list: the nested loops visit the instances of all groups in order.
    When every image yields a descriptor the result holds one example
    per instance, in that order, made of the descriptor of the
    instance's image and the instance's label. *)
Theorem generate_examples_flattens
  (instances : list (list (string * Label))) :
  generate_examples extract_touch_feature make_example instances
  = generate_examples extract_touch_feature make_example [concat instances]
  /\ ((forall instance, instance ∈ concat instances ->
         exists descriptor,
           extract_touch_feature instance.1 = Returns descriptor) ->
      exists result,
        generate_examples extract_touch_feature make_example instances
        = Returns result
        /\ Forall2 (fun example instance =>
             exists descriptor,
               extract_touch_feature instance.1 = Returns descriptor
               /\ example = make_example descriptor instance.2)
             result (concat instances)).
Proof.
  set (step := fun (acc' : outcome (list Example))
                   (instance : string * Label) =>
        result ← acc';
        descriptor ← extract_touch_feature instance.1;
        mret (result ++ [make_example descriptor instance.2])).
  assert (forall groups acc,
            foldl (fun acc group => foldl step acc group) acc groups
            = foldl step acc (concat groups)) as Hflat.
  { induction groups as [|group groups IH]; intros acc; [reflexivity|].
    cbn [foldl concat]. rewrite foldl_app. apply IH. }
  assert (generate_examples extract_touch_feature make_example instances
          = foldl step (Returns []) (concat instances)) as Hrun.
  { unfold generate_examples. apply Hflat. }
  split.
  - transitivity (foldl step (Returns []) (concat [concat instances])).
    + cbn [concat]. rewrite app_nil_r. exact Hrun.
    + symmetry. apply Hflat.
  - intros Hok. rewrite Hrun.
    assert (forall flat acc,
      (forall instance, instance ∈ flat ->
         exists descriptor,
           extract_touch_feature instance.1 = Returns descriptor) ->
      exists result,
        foldl step (Returns acc) flat = Returns (acc ++ result)
        /\ Forall2 (fun example instance =>
             exists descriptor,
               extract_touch_feature instance.1 = Returns descriptor
               /\ example = make_example descriptor instance.2)
             result flat) as Hgen.
    { induction flat as [|instance flat IH]; intros acc Hflat'.
      - exists []. rewrite app_nil_r. split; [reflexivity|constructor].
      - destruct (Hflat' instance ltac:(apply elem_of_cons; auto))
          as [d Hd].
        destruct (IH (acc ++ [make_example d instance.2])) as (res & Hres & Hall).
        { intros i Hi. apply Hflat'. apply elem_of_cons. auto. }
        exists (make_example d instance.2 :: res). split.
        + assert (step (Returns acc) instance
                  = Returns (acc ++ [make_example d instance.2])) as Hstep.
          { unfold step. cbn [mbind outcome_bind]. rewrite Hd. reflexivity. }
          cbn [foldl]. rewrite Hstep, Hres, <- app_assoc. reflexivity.
        + constructor; [eauto|assumption]. }
    destruct (Hgen (concat instances) [] Hok) as (result & Hres & Hall).
    exists result. split; assumption.
Qed.

End GenerateProperties.

Lemma load_instances_line_ends_witness :
  Forall (fun l => is_line l = true) (String.concat ", " <$> annotation_rows)
  /\ annotation_files LF "annotation.txt"
     = Some (text_file LF (String.concat ", " <$> annotation_rows))
  /\ annotation_files CRLF "annotation.txt"
     = Some (text_file CRLF (String.concat ", " <$> annotation_rows))
  /\ TouchTrainUtil.load_instances cast_bit (annotation_files CRLF)
       "images" "annotation.txt"
     = TouchTrainUtil.load_instances cast_bit (annotation_files LF)
         "images" "annotation.txt".
Proof.
  assert (Forall (fun l => is_line l = true)
            (String.concat ", " <$> annotation_rows)) as Hlines
    by (repeat constructor).
  split; [exact Hlines|]. split; [reflexivity|]. split; [reflexivity|].
  apply (load_instances_line_ends cast_bit (annotation_files LF)
           (annotation_files CRLF) "images" "annotation.txt"
           (String.concat ", " <$> annotation_rows)).
  - exact Hlines.
  - reflexivity.
  - reflexivity.
Defined.

Lemma load_instances_rows_witness :
  is_separator ", " = true
  /\ Forall (Forall (fun f => is_field f = true)) annotation_rows
  /\ Forall2 (fun fields label =>
       exists back, last fields = Some back /\ cast_bit back = Some label)
       annotation_rows [true; false; true]
  /\ annotation_files CRLF "annotation.txt"
     = Some (text_file CRLF (String.concat ", " <$> annotation_rows))
  /\ TouchTrainUtil.load_instances cast_bit (annotation_files CRLF)
       "images" "annotation.txt"
     = Returns [("images/hand1.png", true); ("images/hand2.png", false);
                ("images/1", true)].
Proof.
  assert (Forall (Forall (fun f => is_field f = true)) annotation_rows)
    as Hrows by (repeat constructor).
  assert (Forall2 (fun fields label =>
            exists back, last fields = Some back /\ cast_bit back = Some label)
            annotation_rows [true; false; true]) as Hlabels.
  { repeat constructor; eexists; split; reflexivity. }
  split; [reflexivity|]. split; [exact Hrows|]. split; [exact Hlabels|].
  split; [reflexivity|].
  apply (load_instances_rows cast_bit (annotation_files CRLF) "images"
           "annotation.txt" CRLF ", " annotation_rows [true; false; true]).
  - right. reflexivity.
  - reflexivity.
  - exact Hrows.
  - exact Hlabels.
  - reflexivity.
Defined.

Lemma load_instances_blank_line_witness :
  (annotation_files LF "missing.txt" = None
   /\ TouchTrainUtil.load_instances cast_bit (annotation_files LF)
        "images" "missing.txt" = Returns [])
  /\ Forall (fun l => is_line l = true)
       ((String.concat ", " <$> annotation_rows) ++ ["" ; "hand3.png, 1"])
  /\ is_blank "" = true
  /\ TouchTrainUtil.load_instances cast_bit (annotation_files LF)
       "images" "annotation.txt"
     = Returns [("images/hand1.png", true); ("images/hand2.png", false);
                ("images/1", true)]
  /\ TouchTrainUtil.load_instances cast_bit
       (fun _ => Some (text_file LF
          ((String.concat ", " <$> annotation_rows) ++ [""; "hand3.png, 1"])))
       "images" "annotation.txt"
     = Undefined.
Proof.
  assert (Forall (fun l => is_line l = true)
            ((String.concat ", " <$> annotation_rows)
             ++ ["" ; "hand3.png, 1"])) as Hlines
    by (repeat constructor).
  split.
  - split; [reflexivity|].
    apply (proj1 (load_instances_blank_line cast_bit (annotation_files LF)
                    (annotation_files LF) "images" "missing.txt" LF [] [] ""
                    [])).
    left. reflexivity.
  - split; [exact Hlines|]. split; [reflexivity|].
    split; [vm_compute; reflexivity|].
    apply (proj2 (load_instances_blank_line cast_bit (annotation_files LF)
                    (fun _ => Some (text_file LF
                       ((String.concat ", " <$> annotation_rows)
                        ++ [""; "hand3.png, 1"])))
                    "images" "annotation.txt" LF
                    (String.concat ", " <$> annotation_rows)
                    ["hand3.png, 1"] ""
                    [("images/hand1.png", true); ("images/hand2.png", false);
                     ("images/1", true)])).
    + left. reflexivity.
    + exact Hlines.
    + reflexivity.
    + reflexivity.
    + vm_compute. reflexivity.
    + reflexivity.
Defined.

Lemma generate_examples_flattens_witness :
  (forall instance,
     instance ∈ concat [[("a.png", true)]; [("bb.png", false); ("c.png", true)]] ->
     exists descriptor,
       (fun path => Returns (String.length path)) instance.1
       = Returns descriptor)
  /\ exists result,
       TouchTrainUtil.generate_examples
         (fun path => Returns (String.length path)) pair
         [[("a.png", true)]; [("bb.png", false); ("c.png", true)]]
       = Returns result
       /\ Forall2 (fun example instance =>
            exists descriptor,
              (fun path => Returns (String.length path)) instance.1
              = Returns descriptor
              /\ example = (descriptor, instance.2))
            result
            (concat [[("a.png", true)]; [("bb.png", false); ("c.png", true)]]).
Proof.
  assert (forall instance : string * bool,
     instance ∈ concat [[("a.png", true)]; [("bb.png", false); ("c.png", true)]] ->
     exists descriptor,
       (fun path => Returns (String.length path)) instance.1
       = Returns descriptor) as Hok by eauto.
  split; [exact Hok|].
  apply (proj2 (generate_examples_flattens
                  (fun path => Returns (String.length path)) pair
                  [[("a.png", true)]; [("bb.png", false); ("c.png", true)]])
           Hok).
Defined.

Lemma load_instances_bad_label_witness :
  is_separator ", " = true
  /\ Forall (fun l => is_line l = true)
       ((String.concat ", " <$> annotation_rows)
        ++ String.concat ", " ["hand3.png"; "maybe"] :: [""])
  /\ Forall (fun f => is_field f = true) ["hand3.png"; "maybe"]
  /\ last ["hand3.png"; "maybe"] = Some "maybe"
  /\ cast_bit "maybe" = None
  /\ TouchTrainUtil.load_instances cast_bit (annotation_files LF)
       "images" "annotation.txt"
     = Returns [("images/hand1.png", true); ("images/hand2.png", false);
                ("images/1", true)]
  /\ TouchTrainUtil.load_instances cast_bit
       (fun _ => Some (text_file LF
          ((String.concat ", " <$> annotation_rows)
           ++ String.concat ", " ["hand3.png"; "maybe"] :: [""])))
       "images" "annotation.txt"
     = Throws.
Proof.
  assert (Forall (fun l => is_line l = true)
            ((String.concat ", " <$> annotation_rows)
             ++ String.concat ", " ["hand3.png"; "maybe"] :: [""])) as Hlines
    by (repeat constructor).
  assert (Forall (fun f => is_field f = true) ["hand3.png"; "maybe"])
    as Hfields by (repeat constructor).
  split; [reflexivity|]. split; [exact Hlines|]. split; [exact Hfields|].
  split; [reflexivity|]. split; [reflexivity|].
  split; [vm_compute; reflexivity|].
  apply (load_instances_bad_label cast_bit (annotation_files LF)
           (fun _ => Some (text_file LF
              ((String.concat ", " <$> annotation_rows)
               ++ String.concat ", " ["hand3.png"; "maybe"] :: [""])))
           "images" "annotation.txt" LF ", "
           (String.concat ", " <$> annotation_rows) [""]
           ["hand3.png"; "maybe"] "maybe"
           [("images/hand1.png", true); ("images/hand2.png", false);
            ("images/1", true)]).
  - left. reflexivity.
  - reflexivity.
  - exact Hlines.
  - exact Hfields.
  - reflexivity.
  - reflexivity.
  - reflexivity.
  - vm_compute. reflexivity.
  - reflexivity.
Defined.

Lemma load_instances_names_witness :
  TouchTrainUtil.load_instances cast_bit (annotation_files LF)
    "images" "annotation.txt"
  = Returns [("images/hand1.png", true); ("images/hand2.png", false);
             ("images/1", true)]
  /\ Forall (fun instance : string * bool =>
       exists name,
         instance.1 = "images" +:+ "/" +:+ name /\ is_token name = true)
       [("images/hand1.png", true); ("images/hand2.png", false);
        ("images/1", true)]
  /\ (forall contents,
        annotation_files LF "annotation.txt" = Some contents ->
        length [("images/hand1.png", true); ("images/hand2.png", false);
                ("images/1", true)]
        = length (TouchTrainUtil.getlines None contents)).
Proof.
  assert (TouchTrainUtil.load_instances cast_bit (annotation_files LF)
            "images" "annotation.txt"
          = Returns [("images/hand1.png", true); ("images/hand2.png", false);
                     ("images/1", true)]) as Hrun
    by (vm_compute; reflexivity).
  split; [exact Hrun|].
  apply (load_instances_names cast_bit (annotation_files LF) "images"
           "annotation.txt" _ Hrun).
Defined.
